(** * scikit-fem: mesh topology, form assembly, mesh transformations, import

    A shallow embedding of the parts of [skfem] that the specification talks
    about, with the properties proved about them.

    - [Py]: Python exceptions as a result monad.
    - [Np]: the numpy primitives the code relies on (fancy indexing, [hstack],
      [sort], [unique], [tile], [nonzero], [array_split], ...), on lists.
    - [Topology]: [Mesh.build_entities], [Mesh.build_inverse],
      [Mesh.boundary_facets]  (src/skfem/mesh/mesh.py).
    - [Assembly]: [BilinearForm._assemble] with its sequential and threaded
      kernels  (src/skfem/assembly/form/bilinear_form.py).
    - [MeshModel]: meshes as objects on a heap, [__post_init__], [__add__],
      [scaled], [translated], [mirrored], [refined]  (src/skfem/mesh/mesh.py).
    - [Meshio], [MeshioExport]: [from_meshio], [to_meshio]
      (src/skfem/io/meshio.py).
    - [MeshEdit]: [Mesh._reix], [Mesh.remove_elements]; [MeshSelect]:
      [boundary_nodes], [interior_nodes], [nodes_satisfying],
      [facets_satisfying], [elements_satisfying], [with_boundaries],
      [with_subdomains], [define_boundary]; [MeshDict]: [to_dict],
      [from_dict]  (src/skfem/mesh/mesh.py).
    - [Elements]: the [lbasis] of the elements, on binary64 numbers
      (src/skfem/element/).
    - the modules of facts, one per part, after the definitions.

    Arrays are lists (1-D) and lists of rows (2-D, row-major as in numpy).  A
    list of rows has no column count when it has no row, so 2-D arrays with
    zero rows are outside the model; every theorem says which shapes it
    covers. *)

From stdpp Require Import base tactics option list numbers sorting lexico.
From stdpp Require Import strings gmap.
From Stdlib Require Import ZArith Lia.
From Stdlib Require PrimFloat.

Local Open Scope Z_scope.
Local Open Scope nat_scope.

(** ** Python exceptions *)

Module Py.

(** The exception classes that the modelled code can raise.  A
    [ValueError] and a [TypeError] carry their message. *)
Inductive exn : Type :=
| IndexError
| KeyError
| NameError
| AttributeError
| ValueError (msg : string)
| TypeError (msg : string)
| NotImplementedError (msg : string).

Inductive result (A : Type) : Type :=
| Ok (a : A)
| Raise (e : exn).
Arguments Ok {A} a.
Arguments Raise {A} e.

Definition bind {A B} (r : result A) (k : A → result B) : result B :=
  match r with
  | Ok a => k a
  | Raise e => Raise e
  end.

Definition is_Ok {A} (r : result A) : Prop := ∃ a, r = Ok a.

(** [[f(x) for x in l]], stopping at the first exception. *)
Fixpoint mapR {A B} (f : A → result B) (l : list A) : result (list B) :=
  match l with
  | [] => Ok []
  | x :: l' =>
      bind (f x) (λ y, bind (mapR f l') (λ ys, Ok (y :: ys)))
  end.

(** [a[i]] on a list or array with a non-negative index. *)
Definition getitem {A} (a : list A) (i : nat) : result A :=
  match a !! i with
  | Some x => Ok x
  | None => Raise IndexError
  end.

Global Instance result_ret : MRet result := @Ok.
Global Instance result_bind : MBind result := λ A B k r, bind r k.

End Py.

Import Py.

(** ** numpy primitives *)

Module Np.

(** A 2-D array is the list of its rows. *)
Abbreviation matrix A := (list (list A)).

Section Shape.
Context {A : Type}.
Implicit Types (m : matrix A) (l : list A).

Definition shape0 m : nat := length m.
Definition shape1 m : nat :=
  match m with
  | [] => 0
  | r :: _ => length r
  end.

(** Every row has the length of the first one. *)
Definition rect m : Prop := Forall (λ r, length r = shape1 m) m.

(** [m[:, k]] *)
Definition column m (k : nat) : list A :=
  omap (λ r : list A, r !! k) m.

(** [m[i, k]] *)
Definition get2 m (i k : nat) : option A := m !! i ≫= (λ r, r !! k).

(** [m.T] *)
Definition transpose m : matrix A := column m <$> seq 0 (shape1 m).

(** [m.flatten(order='C')] *)
Definition flatten m : list A := mjoin m.

(** [a[ix]] for a list [ix] of non-negative indices (fancy indexing on
    the first axis); an index out of range raises [IndexError]. *)
Definition getitems (a : list A) (ix : list nat) : result (list A) :=
  mapR (getitem a) ix.

(** [m[:, ix]] *)
Definition take_cols m (ix : list nat) : result (matrix A) :=
  mapR (λ r, getitems r ix) m.

(** [np.hstack(ms)] for 2-D arrays: the rows are concatenated; the
    arrays must have the same number of rows, and there must be one. *)
Fixpoint hstack_rows m (ms : list (matrix A)) : matrix A :=
  match ms with
  | [] => m
  | m' :: ms' => zip_with app m (hstack_rows m' ms')
  end.

Definition hstack (ms : list (matrix A)) : result (matrix A) :=
  match ms with
  | [] => Raise (ValueError "need at least one array to concatenate")
  | m :: ms' =>
      if forallb (λ m', bool_decide (shape0 m' = shape0 m)) ms'
      then Ok (hstack_rows m ms')
      else Raise (ValueError "all the input array dimensions except for the concatenation axis must match exactly")
  end.

(** [a.reshape((r, c))] of a 1-D array. *)
Definition reshape2 l (r c : nat) : result (matrix A) :=
  if bool_decide (length l = r * c)
  then Ok (reshape (replicate r c) l)
  else Raise (ValueError "cannot reshape array")%string.

(** [np.tile(a, (1, reps))[0]] *)
Definition tile_row l (reps : nat) : list A := mjoin (replicate reps l).

(** [a[idx] = vals] for index and value arrays of the same length, in
    order (a later write to the same index wins). *)
Fixpoint scatter l (idx : list nat) (vals : list A) : result (list A) :=
  match idx, vals with
  | [], [] => Ok l
  | i :: idx', v :: vals' =>
      if bool_decide (i < length l)
      then scatter (<[i:=v]> l) idx' vals'
      else Raise IndexError
  | _, _ => Raise (ValueError "shape mismatch")
  end.

(** [a[idx] = v] for a scalar [v]. *)
Fixpoint fill_at l (idx : list nat) (v : A) : result (list A) :=
  match idx with
  | [] => Ok l
  | i :: idx' =>
      if bool_decide (i < length l)
      then fill_at (<[i:=v]> l) idx' v
      else Raise IndexError
  end.

(** The position of the first occurrence of [x] in [l] (the length of
    [l] when there is none). *)
Fixpoint index_of `{!EqDecision A} (x : A) (l : list A) : nat :=
  match l with
  | [] => 0
  | y :: l' => if decide (x = y) then 0 else S (index_of x l')
  end.

(** [np.unique(ar, return_index=True, return_inverse=True)] with respect
    to the order [R] of the element type: the sorted distinct elements,
    for each of them the index of its first occurrence in [ar], and for
    each element of [ar] its index among the distinct ones. *)
Definition unique `{!EqDecision A} (R : relation A)
    `{!∀ x y, Decision (R x y)} (ar : list A)
  : list A * list nat * list nat :=
  let u := merge_sort R (remove_dups ar) in
  (u, (λ x, index_of x ar) <$> u, (λ x, index_of x u) <$> ar).

End Shape.

(** [np.nonzero(mask)[0]] *)
Definition nonzero (mask : list bool) : list nat :=
  omap (λ p : nat * bool, if p.2 then Some p.1 else None)
       (imap (λ i b, (i, b)) mask).

(** [np.arange(n)] *)
Definition arange (n : nat) : list nat := seq 0 n.

(** [np.max(a)] of a non-empty array of non-negative integers. *)
Definition amax (a : list nat) : result nat :=
  match a with
  | [] => Raise (ValueError "zero-size array to reduction operation maximum which has no identity")
  | _ => Ok (max_list a)
  end.

(** [np.sort(a)] of integers. *)
Definition sort (a : list Z) : list Z := merge_sort Z.le a.

(** [np.sort(m, axis=0)]: every column is sorted. *)
Definition sort_axis0 (m : matrix Z) : matrix Z :=
  transpose (sort <$> transpose m).

(** The order in which [np.unique(_, axis=1)] sorts the columns of an
    integer array: lexicographic, first row first. *)
Definition col_le : relation (list Z) := λ a b, a = b ∨ lexico a b.
Global Instance col_le_dec : RelDecision col_le.
Proof. intros a b. unfold col_le. apply _. Defined.

(** [np.unique(m, axis=1, return_index=True, return_inverse=True)] *)
Definition unique_axis1 (m : matrix Z) : matrix Z * list nat * list nat :=
  let '(u, ixa, ixb) := unique col_le (transpose m) in
  (transpose u, ixa, ixb).

End Np.

(** ** Topology builder (src/skfem/mesh/mesh.py) *)

Module Topology.
Import Np.

(** [Mesh.build_entities(t, indices, sort=True)] *)
Definition build_entities (t : matrix Z) (indices : list (list nat))
    (sort : bool) : result (matrix Z * matrix nat) :=
  parts ← mapR (getitems t) indices;
  indexing ← hstack parts;
  let sorted_indexing := sort_axis0 indexing in
  let '(sorted_indexing, ixa, ixb) := unique_axis1 sorted_indexing in
  mapping ← reshape2 ixb (length indices) (shape1 t);
  if sort then Ok (sorted_indexing, mapping)
  else
    ents ← take_cols indexing ixa;
    Ok (ents, mapping).

(** The node tuple that element [e] presents for the local template [ix],
    [t[ix, e]], and all of them in the order of the columns of [indexing]:
    template by template, and element by element within a template. *)
Definition entity (t : matrix Z) (ix : list nat) (e : nat) : list Z :=
  (λ i, (t !!! i) !!! e) <$> ix.
Definition template_occurrences (t : matrix Z) (ix : list nat)
  : list (list Z) :=
  entity t ix <$> seq 0 (shape1 t).
Definition occurrences (t : matrix Z) (indices : list (list nat))
  : list (list Z) :=
  mjoin (template_occurrences t <$> indices).

(** A connectivity array has a row per local node and a column per
    element, and at least one of each. *)
Definition valid_connectivity (t : matrix Z) : Prop :=
  rect t ∧ shape1 t ≠ 0.

(** The templates of a reference cell: at least one, all with the same
    number [k > 0] of local node indices, each of them a row of [t]. *)
Definition valid_templates (t : matrix Z) (indices : list (list nat))
    (k : nat) : Prop :=
  indices ≠ [] ∧ k ≠ 0
  ∧ Forall (λ ix, length ix = k ∧ Forall (λ i, i < shape0 t) ix) indices.

(** What [build_entities] promises about its result [(ents, mapping)]:
    the columns of [ents] are pairwise distinct, each is sorted, each is
    the sorted node tuple of some occurrence; [mapping] has a row per
    template and a column per element; the entry for an occurrence is the
    index of the column of [ents] that holds its sorted node tuple, so two
    occurrences have the same entry exactly when their sorted tuples
    agree. *)
Definition entities_spec (t : matrix Z) (indices : list (list nat))
    (ents : matrix Z) (mapping : matrix nat) : Prop :=
  NoDup (transpose ents)
  ∧ Forall (Sorted Z.le) (transpose ents)
  ∧ (∀ c, c ∈ transpose ents →
       ∃ r ix e, indices !! r = Some ix ∧ e < shape1 t
                 ∧ c = sort (entity t ix e))
  ∧ shape0 mapping = length indices
  ∧ Forall (λ row, length row = shape1 t) mapping
  ∧ (∀ r ix e, indices !! r = Some ix → e < shape1 t →
       ∃ f, get2 mapping r e = Some f
            ∧ transpose ents !! f = Some (sort (entity t ix e)))
  ∧ (∀ r1 ix1 e1 f1 r2 ix2 e2 f2,
       indices !! r1 = Some ix1 → e1 < shape1 t →
       get2 mapping r1 e1 = Some f1 →
       indices !! r2 = Some ix2 → e2 < shape1 t →
       get2 mapping r2 e2 = Some f2 →
       (sort (entity t ix1 e1) = sort (entity t ix2 e2) ↔ f1 = f2)).

(** [Mesh.build_inverse(t, mapping)] *)
Definition build_inverse (t : matrix Z) (mapping : matrix nat)
  : result (matrix Z) :=
  let e := flatten mapping in
  let tix := tile_row (arange (shape1 t)) (shape0 t) in
  let '(e_first, ix_first, _) := unique le e in
  let '(e_last, ix_last, _) := unique le (reverse e) in
  let ix_last := (λ i, length e - i - 1) <$> ix_last in
  n ← amax (flatten mapping);
  let inverse0 := replicate (n + 1) 0%Z in
  let inverse1 := replicate (n + 1) 0%Z in
  v_first ← getitems tix ix_first;
  inverse0 ← scatter inverse0 e_first (Z.of_nat <$> v_first);
  v_last ← getitems tix ix_last;
  inverse1 ← scatter inverse1 e_last (Z.of_nat <$> v_last);
  inverse1 ← fill_at inverse1
    (nonzero (zip_with (λ a b, bool_decide (a = b)) inverse0 inverse1))
    (-1)%Z;
  Ok [inverse0; inverse1].

(** [Mesh.boundary_facets()], from the value of the [f2t] property *)
Definition boundary_facets (f2t : matrix Z) : result (list nat) :=
  row ← getitem f2t 1;
  Ok (nonzero ((λ x, bool_decide (x = (-1)%Z)) <$> row)).

(** *** Ownership, in the words of the specification *)

(** The scan order of [build_inverse]: the flattened map, each entry with
    the element (column) it stands in. *)
Definition scan (mapping : matrix nat) : list (nat * nat) :=
  mjoin ((λ row, zip row (seq 0 (length row))) <$> mapping).

(** The elements that own entity [f], in scan order (an element that
    presents [f] twice is listed twice). *)
Definition owners (mapping : matrix nat) (f : nat) : list nat :=
  (filter (λ p, p.1 = f) (scan mapping)).*2.
Definition first_owner (mapping : matrix nat) (f : nat) : option nat :=
  head (owners mapping f).
Definition last_owner (mapping : matrix nat) (f : nat) : option nat :=
  last (owners mapping f).

(** Entity [f] is owned by exactly one element. *)
Definition sole_owner (mapping : matrix nat) (f : nat) : Prop :=
  ∃ el, ∀ el', el' ∈ owners mapping f ↔ el' = el.

(** The shapes that [build_inverse] is called with: the map has a column
    per element of [t] and at most as many rows as [t] (a cell has no more
    facets than nodes). *)
Definition valid_mapping (t : matrix Z) (mapping : matrix nat) : Prop :=
  rect mapping ∧ shape1 mapping = shape1 t ∧ shape0 mapping ≤ shape0 t.

(** The number of entities that [build_inverse] sizes its result by. *)
Definition n_entities (mapping : matrix nat) : nat :=
  max_list (flatten mapping) + 1.

(** What the specification says of [build_inverse]: a 2 x n_entities
    array; the first row holds the first owner, the second row the last
    owner, except the sentinel -1 for the entities [P] singles out.  The
    specification takes [P f] to be "[f] is owned by exactly one
    element". *)
Definition inverse_spec (P : nat → option nat → option nat → Prop)
    (mapping : matrix nat) (inverse : matrix Z) : Prop :=
  ∃ inv0 inv1,
    inverse = [inv0; inv1]
    ∧ length inv0 = n_entities mapping ∧ length inv1 = n_entities mapping
    ∧ ∀ f, owners mapping f ≠ [] →
        ∃ el1 el2,
          first_owner mapping f = Some el1 ∧ last_owner mapping f = Some el2
          ∧ inv0 !! f = Some (Z.of_nat el1)
          ∧ (P f (Some el1) (Some el2) → inv1 !! f = Some (-1)%Z)
          ∧ (¬ P f (Some el1) (Some el2) → inv1 !! f = Some (Z.of_nat el2)).

Definition inverse_spec_as_claimed (mapping : matrix nat) :=
  inverse_spec (λ f _ _, sole_owner mapping f) mapping.
Definition inverse_spec_amended (mapping : matrix nat) :=
  inverse_spec (λ _ first last, first = last) mapping.

(** *** The facet properties of a mesh *)

(** The tables of a reference cell that the mesh reads
    ([self.elem.refdom]); skfem/refdom.py is not part of the sources at
    hand, so they are a parameter. *)
Record Refdom : Type := {
  refdom_nnodes : nat;
  refdom_facets : list (list nat);
  refdom_edges : list (list nat);
}.

(** [Mesh._init_facets], [Mesh.facets], [Mesh.t2f], [Mesh.f2t] (the caches
    hold the values computed here) and [Mesh.boundary_facets]. *)
Definition _init_facets (rd : Refdom) (t : matrix Z)
  : result (matrix Z * matrix nat) :=
  build_entities t (refdom_facets rd) true.
Definition facets (rd : Refdom) (t : matrix Z) : result (matrix Z) :=
  p ← _init_facets rd t; Ok p.1.
Definition t2f (rd : Refdom) (t : matrix Z) : result (matrix nat) :=
  p ← _init_facets rd t; Ok p.2.
Definition f2t (rd : Refdom) (t : matrix Z) : result (matrix Z) :=
  m ← t2f rd t; build_inverse t m.
Definition mesh_boundary_facets (rd : Refdom) (t : matrix Z)
  : result (list nat) :=
  f ← f2t rd t; boundary_facets f.

(** A manifold mesh: no element presents the same facet twice (its
    facets are pairwise distinct), and no facet is shared by more than two
    elements. *)
Definition manifold (mapping : matrix nat) : Prop :=
  (∀ e, NoDup (column mapping e))
  ∧ (∀ f, length (remove_dups (owners mapping f)) ≤ 2).

(** *** Sample meshes *)

(** Two triangles sharing an edge, and the facet templates of the
    triangle. *)
Definition tri2 : matrix Z := [[0;1]; [1;2]; [2;3]]%Z.
Definition tri_facets : list (list nat) := [[0;1]; [1;2]; [0;2]].
Definition tri_refdom : Refdom :=
  {| refdom_nnodes := 3; refdom_facets := tri_facets;
     refdom_edges := tri_facets |}.

(** Two triangles, (2,0,1) and the degenerate (0,1,1), whose first and
    third facets are the same edge {0,1}. *)
Definition degenerate_t : matrix Z := [[2;0]; [0;1]; [1;1]]%Z.

End Topology.

(** ** Bilinear form assembly (src/skfem/assembly/form/bilinear_form.py) *)

Module Assembly.
Import Np.

Definition quadrature_mismatch : string :=
  "Quadrature mismatch: trial and test functions should have same number of integration points.".

Section Slices.
Context {A : Type}.

(** numpy's broadcasting of a 1-D value to a 1-D target of length [n]:
    the lengths agree, or the value has length one. *)
Definition broadcast_to (n : nat) (v : list A) : result (list A) :=
  if bool_decide (length v = n) then Ok v
  else match v with
       | [x] => Ok (replicate n x)
       | _ => Raise (ValueError "could not broadcast input array")
       end.

(** [a[lo:hi] = v] on a 1-D array; the slice is clipped to the array. *)
Definition setslice (a : list A) (lo hi : nat) (v : list A)
  : result (list A) :=
  let lo' := lo `min` length a in
  let hi' := lo' `max` (hi `min` length a) in
  v' ← broadcast_to (hi' - lo') v;
  Ok (take lo' a ++ v' ++ drop hi' a).

(** [data[j, i] = v] on a 3-D array. *)
Definition setitem2 (data : list (matrix A)) (j i : nat) (v : list A)
  : result (list (matrix A)) :=
  plane ← getitem data j;
  cell ← getitem plane i;
  v' ← broadcast_to (length cell) v;
  Ok (<[j := <[i := v']> plane]> data).

(** [np.array_split(l, n, axis=0)]: [n] contiguous chunks, the first
    [len(l) % n] of them one longer than the others. *)
Definition array_split (l : list A) (n : nat) : result (list (list A)) :=
  if bool_decide (n = 0)
  then Raise (ValueError "number sections must be larger than 0.")
  else
    let each := length l / n in
    let extras := length l `mod` n in
    Ok (reshape (replicate extras (each + 1) ++ replicate (n - extras) each)
          l).

(** A [for] loop over [l] whose body may raise. *)
Fixpoint foldR {S : Type} (body : S → A → result S) (l : list A) (s : S)
  : result S :=
  match l with
  | [] => Ok s
  | x :: l' => s' ← body s x; foldR body l' s'
  end.
End Slices.

Section Form.
(** The floating-point type [self.dtype] of the values, numpy's arrays of
    them of any shape ([Arr]), and the two numpy operations of
    [_kernel] on such arrays (the product broadcasts, the sum is over the
    quadrature points): all of numpy, and left abstract.  [Field] is a
    tuple of [DiscreteField]s, [W] the dictionary [w] passed to the form,
    [K] the keyword arguments of [assemble]. *)
Context {V Arr Field W K : Type}.
Context (vzero : V).
Context (np_mul : Arr → Arr → result Arr).
Context (np_sum_axis1 : Arr → result (list V)).
(** [FormExtraParams({**ubasis.default_parameters(), **self.dictify(kwargs)})]
    (skfem/assembly/form/form.py is not among the sources). *)
Context (extra_params : W → K → W).

(** What [_assemble] reads of a [Basis]. *)
Record Basis : Type := {
  X_shape1 : nat;               (* [X.shape[1]]: quadrature points *)
  nelems : nat;
  dx : Arr;
  Nbfun : nat;
  N : nat;
  element_dofs : matrix Z;      (* a row per local basis function *)
  basis : list Field;           (* [basis[j]] *)
  default_parameters : W;
}.

(** A [BilinearForm]: the user's form, which may raise, and the number
    of threads. *)
Record BilinearForm : Type := {
  form : Field → Field → W → result Arr;
  nthreads : Z;
}.

Definition COO : Type := list V * list Z * list Z * (nat * nat).

(** [BilinearForm._kernel] *)
Definition _kernel (self : BilinearForm) (u v : Field) (w : W) (dx : Arr)
  : result (list V) :=
  f ← form self u v w;
  p ← np_mul f dx;
  np_sum_axis1 p.

(** One iteration of the loop of [_threaded_kernel]:
    [data[j, i] = self._kernel(ubasis[j], vbasis[i], wdict, dx)]. *)
Definition thread_step (self : BilinearForm) (ubasis vbasis : list Field)
    (wdict : W) (dx : Arr) (data : list (matrix V)) (ij : nat * nat)
  : result (list (matrix V)) :=
  let '(i, j) := ij in
  u ← getitem ubasis j;
  v ← getitem vbasis i;
  k ← _kernel self u v wdict dx;
  setitem2 data j i k.

(** [BilinearForm._threaded_kernel], as the target of a thread: an
    exception ends the thread and is not propagated; [data] keeps what
    was written before. *)
Fixpoint _threaded_kernel (self : BilinearForm) (data : list (matrix V))
    (ix : list (nat * nat)) (ubasis vbasis : list Field) (wdict : W)
    (dx : Arr) : list (matrix V) :=
  match ix with
  | [] => data
  | ij :: ix' =>
      match thread_step self ubasis vbasis wdict dx data ij with
      | Ok data' => _threaded_kernel self data' ix' ubasis vbasis wdict dx
      | Raise _ => data
      end
  end.

(** The threads between [t.start()] and [t.join()].  [pool] holds the
    remaining indices of every thread.  The schedule names the thread
    that runs its next iteration; a thread whose iteration raises is
    finished.  When the schedule is used up, the [join]s wait for every
    thread to finish what it has left. *)
Fixpoint run_threads (self : BilinearForm) (ubasis vbasis : list Field)
    (wdict : W) (dx : Arr) (sched : list nat)
    (pool : list (list (nat * nat))) (data : list (matrix V))
  : list (matrix V) :=
  match sched with
  | [] =>
      foldl (λ d ix, _threaded_kernel self d ix ubasis vbasis wdict dx)
            data pool
  | k :: sched' =>
      match pool !! k with
      | Some (ij :: ix') =>
          match thread_step self ubasis vbasis wdict dx data ij with
          | Ok data' =>
              run_threads self ubasis vbasis wdict dx sched'
                (<[k := ix']> pool) data'
          | Raise _ =>
              run_threads self ubasis vbasis wdict dx sched'
                (<[k := []]> pool) data
          end
      | _ => run_threads self ubasis vbasis wdict dx sched' pool data
      end
  end.

(** The body of the double loop of [_assemble], for the pair [(j, i)]. *)
Definition loop_body (self : BilinearForm) (ubasis vbasis : Basis)
    (wdict : W) (st : list V * list Z * list Z) (j i : nat)
  : result (list V * list Z * list Z) :=
  let '(data, rows, cols) := st in
  let nt := nelems ubasis in
  let lo := nt * (Nbfun vbasis * j + i) in
  let hi := nt * (Nbfun vbasis * j + i + 1) in
  r ← getitem (element_dofs vbasis) i;
  rows ← setslice rows lo hi r;
  c ← getitem (element_dofs ubasis) j;
  cols ← setslice cols lo hi c;
  if bool_decide (nthreads self ≤ 0)%Z then
    u ← getitem (basis ubasis) j;
    v ← getitem (basis vbasis) i;
    k ← _kernel self u v wdict (dx ubasis);
    data ← setslice data lo hi k;
    Ok (data, rows, cols)
  else Ok (data, rows, cols).

(** [BilinearForm._assemble(ubasis, vbasis=None, **kwargs)].  [sched] is
    the interleaving of the threads, which the caller does not control. *)
Definition _assemble (sched : list nat) (self : BilinearForm)
    (ubasis : Basis) (vbasis : option Basis) (kwargs : K) : result COO :=
  vbasis ← match vbasis with
            | None => Ok ubasis
            | Some vbasis =>
                if bool_decide (X_shape1 ubasis ≠ X_shape1 vbasis)
                then Raise (ValueError quadrature_mismatch)
                else Ok vbasis
            end;
  let nt := nelems ubasis in
  let dx := dx ubasis in
  let wdict := extra_params (default_parameters ubasis) kwargs in
  let sz := Nbfun ubasis * Nbfun vbasis * nt in
  let data3 :=
    replicate (Nbfun ubasis) (replicate (Nbfun vbasis) (replicate nt vzero)) in
  let data := replicate sz vzero in
  let rows := replicate sz 0%Z in
  let cols := replicate sz 0%Z in
  '(data, rows, cols) ←
    foldR (λ st j,
             foldR (λ st i, loop_body self ubasis vbasis wdict st j i)
                   (seq 0 (Nbfun vbasis)) st)
          (seq 0 (Nbfun ubasis)) (data, rows, cols);
  if bool_decide (0 < nthreads self)%Z then
    let indices :=
      j ← seq 0 (Nbfun ubasis); i ← seq 0 (Nbfun vbasis); [(i, j)] in
    chunks ← array_split indices (Z.to_nat (nthreads self));
    let data3 :=
      run_threads self (basis ubasis) (basis vbasis) wdict dx sched chunks
                  data3 in
    Ok (flatten (flatten data3), rows, cols, (N vbasis, N ubasis))
  else Ok (data, rows, cols, (N vbasis, N ubasis)).

(** The same form with another number of threads. *)
Definition with_nthreads (self : BilinearForm) (n : Z) : BilinearForm :=
  {| form := form self; nthreads := n |}.

(** The test basis that [_assemble] works with: the trial basis when
    none is given. *)
Definition test_basis (ubasis : Basis) (vbasis : option Basis) : Basis :=
  default ubasis vbasis.

(** The contribution of the pair [(j, i)]: the kernel of the two basis
    functions, broadcast to one value per element. *)
Definition block (self : BilinearForm) (ubasis vbasis : Basis) (wdict : W)
    (j i : nat) : result (list V) :=
  u ← getitem (basis ubasis) j;
  v ← getitem (basis vbasis) i;
  k ← _kernel self u v wdict (dx ubasis);
  broadcast_to (nelems ubasis) k.

(** Bases and a form that sequential assembly accepts: the rows of
    [element_dofs] and the values of the kernel have one entry per
    element (or a single one, which numpy broadcasts). *)
Definition well_formed (self : BilinearForm) (ubasis vbasis : Basis)
    (wdict : W) : Prop :=
  (∀ i, i < Nbfun vbasis →
     ∃ r r', element_dofs vbasis !! i = Some r
             ∧ broadcast_to (nelems ubasis) r = Ok r')
  ∧ (∀ j, j < Nbfun ubasis →
       ∃ c c', element_dofs ubasis !! j = Some c
               ∧ broadcast_to (nelems ubasis) c = Ok c')
  ∧ (∀ j i, j < Nbfun ubasis → i < Nbfun vbasis →
       ∃ b, block self ubasis vbasis wdict j i = Ok b).

End Form.

(** *** A sample: the mass form on exact integers *)

(** The product and the sum of [_kernel] for integer arrays of equal
    shape. *)
Definition np_mul_Z (a b : matrix Z) : result (matrix Z) :=
  if bool_decide (length <$> a = length <$> b)
  then Ok (zip_with (zip_with Z.mul) a b)
  else Raise (ValueError "operands could not be broadcast together").
Definition np_sum_axis1_Z (a : matrix Z) : result (list Z) :=
  Ok (foldr Z.add 0%Z <$> a).

(** [BilinearForm(lambda u, v, _: u * v)] *)
Definition mass_form (n : Z) : @BilinearForm (matrix Z) (matrix Z) unit :=
  {| form := λ u v _, np_mul_Z u v; nthreads := n |}.

(** Two elements with one quadrature point each and two basis functions;
    [sample_basis_q2] is the same with two quadrature points. *)
Definition sample_basis : @Basis (matrix Z) (matrix Z) unit :=
  {| X_shape1 := 1; nelems := 2; dx := [[1]; [1]]%Z; Nbfun := 2; N := 3;
     element_dofs := [[0; 1]; [1; 2]]%Z;
     basis := [[[1]; [1]]; [[2]; [3]]]%Z;
     default_parameters := tt |}.
Definition sample_basis_q2 : @Basis (matrix Z) (matrix Z) unit :=
  {| X_shape1 := 2; nelems := 2; dx := [[1; 1]; [1; 1]]%Z; Nbfun := 2;
     N := 3; element_dofs := [[0; 1]; [1; 2]]%Z;
     basis := [[[1; 1]; [1; 1]]; [[2; 2]; [3; 3]]]%Z;
     default_parameters := tt |}.
Definition sample_assemble (sched : list nat) (n : Z) :=
  _assemble 0%Z np_mul_Z np_sum_axis1_Z (λ w (_ : unit), w) sched
    (mass_form n).

End Assembly.

(** ** Meshes as objects (src/skfem/mesh/mesh.py)

    A [Mesh] is a Python object that refers to its arrays and dictionaries;
    [replace] and the constructor share them between instances.  The heap
    below holds the objects; a method takes the heap and returns the new
    heap and the location of its result.  Properties cached on first access
    ([_facets], [_dofs], ...) are not fields of the dataclass and are left
    out: none of the methods here reads or writes them on the receiver. *)

Module MeshModel.
Import Np.

(** Locations of objects in the heap. *)
Abbreviation loc := nat.

(** [a[i]] with Python's negative indices. *)
Definition py_index (n : nat) (i : Z) : result nat :=
  if bool_decide (0 ≤ i < Z.of_nat n)%Z then Ok (Z.to_nat i)
  else if bool_decide (- Z.of_nat n ≤ i < 0)%Z
       then Ok (Z.to_nat (Z.of_nat n + i))
       else Raise IndexError.
Definition getitem_Z {A} (a : list A) (i : Z) : result A :=
  k ← py_index (length a) i; getitem a k.

(** [m[:, ix]] for an integer array [ix] of column indices. *)
Definition take_cols_Z {A} (m : matrix A) (ix : list Z) : result (matrix A) :=
  mapR (λ row, mapR (getitem_Z row) ix) m.

(** [row[ix] = vals], in order. *)
Fixpoint scatter_Z {A} (row : list A) (ix : list Z) (vals : list A)
  : result (list A) :=
  match ix, vals with
  | [], [] => Ok row
  | i :: ix', v :: vals' =>
      k ← py_index (length row) i;
      scatter_Z (<[k := v]> row) ix' vals'
  | _, _ => Raise (ValueError "shape mismatch")
  end.

(** [m[:, ix] = vals] *)
Fixpoint set_cols_Z {A} (m : matrix A) (ix : list Z) (vals : matrix A)
  : result (matrix A) :=
  match m, vals with
  | [], [] => Ok []
  | row :: m', v :: vals' =>
      row' ← scatter_Z row ix v;
      rest ← set_cols_Z m' ix vals';
      Ok (row' :: rest)
  | _, _ => Raise (ValueError "shape mismatch")
  end.

(** [np.max(a)] of an integer array. *)
Definition amax_Z (a : list Z) : result Z :=
  match a with
  | [] => Raise (ValueError "zero-size array to reduction operation maximum which has no identity")
  | x :: a' => Ok (foldr Z.max x a')
  end.

(** Arithmetic of int64 wraps around. *)
Definition wrap_int64 (z : Z) : Z :=
  ((z + 2 ^ 63) mod 2 ^ 64 - 2 ^ 63)%Z.

(** The reference cell of an element class, as far as a mesh reads it. *)
Record Element : Type := {
  elem_nnodes : nat;      (* [elem.refdom.nnodes] *)
  elem_dim : nat;         (* [elem.refdom.dim()] *)
}.

Section Heap.
(** [R] stands for float64 with its order and arithmetic; [Cls] for the
    mesh classes with [issubclass] and the defaults that a class gives
    to the dataclass fields. *)
Context {R : Type} `{!EqDecision R}.
Context (Rle : relation R) `{!RelDecision Rle}.
Context (R0 R2 : R) (Radd Rsub Rmul Rdiv : R → R → R) (Rsqrt : R → R).
Context {Cls : Type} (issubclass : Cls → Cls → bool).
Context (class_elem : Cls → Element).
Context (class_affine class_sort_t : Cls → bool).
(** [Dofs(self, self.elem()).element_dofs], from the connectivity
    (skfem/assembly/dofs.py is not among the sources). *)
Context (element_dofs_of : Element → matrix Z → result (matrix Z)).

(** The dataclass fields; arrays and dictionaries are references. *)
Record Mesh : Type := {
  cls : Cls;                         (* [type(self)] *)
  doflocs : loc;
  t : loc;
  _boundaries : option loc;
  _subdomains : option loc;
  elem : Element;
  affine : bool;
  validate : bool;
  sort_t : bool;
}.

Inductive obj : Type :=
| FloatArray (a : matrix R)
| IntArray (a : matrix Z)
| Dict (d : list (string * list nat))
| MeshObj (m : Mesh).

(** The heap: the objects, by location. *)
Abbreviation heap := (list obj).

Definition alloc (h : heap) (o : obj) : heap * loc := (h ++ [o], length h).

Definition get_mesh (h : heap) (l : loc) : result Mesh :=
  match h !! l with
  | Some (MeshObj m) => Ok m
  | _ => Raise (TypeError "not a mesh")
  end.
Definition get_float (h : heap) (l : loc) : result (matrix R) :=
  match h !! l with
  | Some (FloatArray a) => Ok a
  | _ => Raise (TypeError "not a float64 array")
  end.
Definition get_int (h : heap) (l : loc) : result (matrix Z) :=
  match h !! l with
  | Some (IntArray a) => Ok a
  | _ => Raise (TypeError "not an int64 array")
  end.

(** The order of the records that [__add__] views the rows of [p.T]
    as: lexicographic in the coordinates. *)
Fixpoint lex_leb (a b : list R) : bool :=
  match a, b with
  | [], _ => true
  | _ :: _, [] => false
  | x :: a', y :: b' =>
      if decide (x = y) then lex_leb a' b' else bool_decide (Rle x y)
  end.
Definition lex_le : relation (list R) := λ a b, lex_leb a b = true.
Global Instance lex_le_dec : RelDecision lex_le.
Proof. intros a b. unfold lex_le. apply _. Defined.

(** The vertex-first reordering of [__post_init__] for connectivity
    with more rows than the cell has nodes. *)
Definition reorder_dofs (e : Element) (p : matrix R) (tv : matrix Z)
  : result (matrix R * matrix Z) :=
  let M := elem_nnodes e in
  let t_nodes := take M tv in
  let '(uniq, _, ix) := unique Z.le (flatten t_nodes) in
  t' ← reshape2 (Z.of_nat <$> ix) (shape0 t_nodes) (shape1 t_nodes);
  p_uniq ← take_cols_Z p uniq;
  mx ← amax_Z (flatten tv);
  let extra := (mx + 1 - Z.of_nat (length uniq))%Z in
  if bool_decide (extra < 0)%Z
  then Raise (ValueError "negative dimensions are not allowed")
  else
    doflocs ← hstack [p_uniq;
                      replicate (shape0 p) (replicate (Z.to_nat extra) R0)];
    ed ← element_dofs_of e t';
    vals ← take_cols_Z p (flatten (transpose (drop M tv)));
    doflocs ← set_cols_Z doflocs (flatten (transpose (drop M ed))) vals;
    Ok (doflocs, t').

(** [Mesh.__post_init__], run on the new instance at [self].  The
    conversions to C-contiguous layout do not change the values and are
    left out. *)
Definition __post_init__ (h : heap) (self : loc) : result heap :=
  m ← get_mesh h self;
  '(h, lt) ← (if sort_t m
              then tv ← get_int h (t m);
                   Ok (alloc h (IntArray (sort_axis0 tv)))
              else Ok (h, t m));
  p ← get_float h (doflocs m);
  tv ← get_int h lt;
  let M := elem_nnodes (elem m) in
  '(h, lp, lt) ← (if bool_decide (M < shape0 tv)
                  then '(p', t') ← reorder_dofs (elem m) p tv;
                       let '(h, lt) := alloc h (IntArray t') in
                       let '(h, lp) := alloc h (FloatArray p') in
                       Ok (h, lp, lt)
                  else Ok (h, doflocs m, lt));
  Ok (<[self := MeshObj
                  {| cls := cls m; doflocs := lp; t := lt;
                     _boundaries := _boundaries m;
                     _subdomains := _subdomains m; elem := elem m;
                     affine := affine m; validate := validate m;
                     sort_t := sort_t m |}]> h).

(** [cls(p, t)]: the constructor with the defaults of the class. *)
Definition new_mesh (h : heap) (c : Cls) (lp lt : loc)
  : result (heap * loc) :=
  let '(h, l) :=
    alloc h (MeshObj {| cls := c; doflocs := lp; t := lt;
                        _boundaries := None; _subdomains := None;
                        elem := class_elem c; affine := class_affine c;
                        validate := false; sort_t := class_sort_t c |}) in
  h ← __post_init__ h l;
  Ok (h, l).

(** [dataclasses.replace(self, doflocs=lp)] *)
Definition replace_doflocs (h : heap) (self : loc) (lp : loc)
  : result (heap * loc) :=
  m ← get_mesh h self;
  let '(h, l) :=
    alloc h (MeshObj {| cls := cls m; doflocs := lp; t := t m;
                        _boundaries := _boundaries m;
                        _subdomains := _subdomains m; elem := elem m;
                        affine := affine m; validate := validate m;
                        sort_t := sort_t m |}) in
  h ← __post_init__ h l;
  Ok (h, l).

(** [if not isinstance(other, type(self)): raise TypeError(...)] *)
Definition check_isinstance (h : heap) (other : loc) (c : Cls)
  : result Mesh :=
  match h !! other with
  | Some (MeshObj mo) =>
      if issubclass (cls mo) c then Ok mo
      else Raise (TypeError "Can only join meshes with same type.")
  | _ => Raise (TypeError "Can only join meshes with same type.")
  end.

(** [Mesh.__add__] *)
Definition __add__ (h : heap) (self other : loc) : result (heap * loc) :=
  m ← get_mesh h self;
  mo ← check_isinstance h other (cls m);
  p1 ← get_float h (doflocs m);
  p2 ← get_float h (doflocs mo);
  p ← hstack [p1; p2];
  t1 ← get_int h (t m);
  t2 ← get_int h (t mo);
  let t2' : matrix Z :=
    (λ row : list Z, (λ x, (x + Z.of_nat (shape1 p1))%Z) <$> row) <$> t2 in
  tv ← hstack [t1; t2'];
  let tmp := transpose p in
  let '(_, ixa, ixb) := unique lex_le tmp in
  p ← take_cols p ixa;
  tv ← mapR (mapR (λ x, k ← getitem_Z ixb x; Ok (Z.of_nat k))) tv;
  let '(h, lp) := alloc h (FloatArray p) in
  let '(h, lt) := alloc h (IntArray tv) in
  new_mesh h (cls m) lp lt.

(** [Mesh.scaled]; [factors] is a float or a sequence of floats. *)
Definition scaled (h : heap) (self : loc) (factors : R + list R)
  : result (heap * loc) :=
  m ← get_mesh h self;
  p ← get_float h (doflocs m);
  let factors := match factors with
                 | inl f => replicate (shape0 p) f
                 | inr fs => fs
                 end in
  rows ← mapR (λ itr : nat,
                 (row ← getitem p itr;
                  f ← getitem factors itr;
                  Ok ((λ x, Rmul x f) <$> (row : list R))) : result (list R))
              (seq 0 (length factors));
  let '(h, lp) := alloc h (FloatArray rows) in
  replace_doflocs h self lp.

(** [Mesh.translated] *)
Definition translated (h : heap) (self : loc) (diffs : list R)
  : result (heap * loc) :=
  m ← get_mesh h self;
  p ← get_float h (doflocs m);
  rows ← mapR (λ itr : nat,
                 (row ← getitem p itr;
                  d ← getitem diffs itr;
                  Ok ((λ x, Radd x d) <$> (row : list R))) : result (list R))
              (seq 0 (length diffs));
  let '(h, lp) := alloc h (FloatArray rows) in
  replace_doflocs h self lp.

(** numpy's elementwise operation on two 2-D arrays, with broadcasting
    of axes of length one. *)
Definition broadcast_axis {A} (n : nat) (l : list A) : result (list A) :=
  if bool_decide (length l = n) then Ok l
  else match l with
       | [x] => Ok (replicate n x)
       | _ => Raise (ValueError "operands could not be broadcast together")
       end.
Definition elementwise (op : R → R → R) (a b : matrix R)
  : result (matrix R) :=
  let r := if bool_decide (shape0 a = 1) then shape0 b else shape0 a in
  let c := if bool_decide (shape1 a = 1) then shape1 b else shape1 a in
  a ← broadcast_axis r a;
  b ← broadcast_axis r b;
  a ← mapR (broadcast_axis c) a;
  b ← mapR (broadcast_axis c) b;
  Ok (zip_with (zip_with op) a b).

(** [np.dot(n, y)] of a vector and a 2-D array. *)
Definition dot (n : list R) (y : matrix R) : result (list R) :=
  if bool_decide (length n = shape0 y)
  then Ok ((λ col, foldr Radd R0 (zip_with Rmul n col)) <$> transpose y)
  else Raise (ValueError "shapes not aligned").

(** [np.linalg.norm(n)] *)
Definition norm (n : list R) : R :=
  Rsqrt (foldr Radd R0 ((λ x, Rmul x x) <$> n)).

(** [Mesh.mirrored(normal, point)] *)
Definition mirrored (h : heap) (self : loc) (normal : list R)
    (point : option (list R)) : result (heap * loc) :=
  m ← get_mesh h self;
  let point := match point with
               | None => replicate (elem_dim (elem m)) R0
               | Some pt => pt
               end in
  p ← get_float h (doflocs m);
  let p0 := point in
  let n := (λ x, Rdiv x (norm normal)) <$> normal in
  d ← elementwise Rsub p ((λ x, [x]) <$> p0);
  d ← dot n d;
  q ← elementwise Rmul [(λ x, Rmul R2 x) <$> d] ((λ x, [x]) <$> n);
  p ← elementwise Rsub p q;
  let '(h, lp) := alloc h (FloatArray p) in
  replace_doflocs h self lp.

(** [Mesh._uniform] and [Mesh._adaptive] of the base class; the
    subclasses that override them are not among the sources, they are
    the parameters [uniform] and [adaptive] of [refined]. *)
Definition _uniform (h : heap) (self : loc) : result (heap * loc) :=
  Raise (NotImplementedError "").
Definition _adaptive (h : heap) (self : loc) (ix : list nat)
  : result (heap * loc) :=
  Raise (NotImplementedError "").

Inductive times_or_ix : Type :=
| Times (n : Z)
| Ix (ix : list nat).

Fixpoint refine_times (uniform : heap → loc → result (heap * loc))
    (n : nat) (h : heap) (m : loc) : result (heap * loc) :=
  match n with
  | 0 => Ok (h, m)
  | S n' => '(h, m) ← uniform h m; refine_times uniform n' h m
  end.

(** [Mesh.refined(times_or_ix)], for the [_uniform] and [_adaptive] of
    the class of the receiver. *)
Definition refined (uniform : heap → loc → result (heap * loc))
    (adaptive : heap → loc → list nat → result (heap * loc))
    (h : heap) (self : loc) (arg : times_or_ix) : result (heap * loc) :=
  match arg with
  | Times n => refine_times uniform (Z.to_nat n) h self
  | Ix ix => adaptive h self ix
  end.

(** *** Properties of heaps used by the specification *)

(** [h'] extends [h]: every object of [h] is in [h'], unchanged. *)
Definition extends (h h' : heap) : Prop :=
  ∀ l o, h !! l = Some o → h' !! l = Some o.

(** [l] is a new object: it did not exist in [h]. *)
Definition fresh (h : heap) (l : loc) : Prop := h !! l = None.

(** What the specification observes of a mesh: its fields, its node
    coordinates, its connectivity and its named boundary and subdomain
    sets, as the heap holds them. *)
Definition get_dict (h : heap) (l : option loc)
  : result (option (list (string * list nat))) :=
  match l with
  | None => Ok None
  | Some l =>
      match h !! l with
      | Some (Dict d) => Ok (Some d)
      | _ => Raise (TypeError "not a dict")
      end
  end.
Definition mesh_state : Type :=
  Mesh * matrix R * matrix Z * option (list (string * list nat))
  * option (list (string * list nat)).
Definition receiver_state (h : heap) (self : loc) : result mesh_state :=
  m ← get_mesh h self;
  p ← get_float h (doflocs m);
  tv ← get_int h (t m);
  b ← get_dict h (_boundaries m);
  s ← get_dict h (_subdomains m);
  Ok (m, p, tv, b, s).

(** The result [r] of a call that took the heap from [h] to [h'] is a
    new mesh instance, and the receiver is as before. *)
Definition new_instance (h h' : heap) (self r : loc) (st : mesh_state)
  : Prop :=
  fresh h r ∧ r ≠ self ∧ (∃ m, get_mesh h' r = Ok m)
  ∧ receiver_state h' self = Ok st ∧ extends h h'.

(** A refinement step that returns a new instance and leaves every
    existing object alone (what the [_uniform] and [_adaptive] of the
    subclasses are taken to do). *)
Definition allocating {X} (step : heap → loc → X → result (heap * loc))
  : Prop :=
  ∀ h l x h' r, step h l x = Ok (h', r) →
    extends h h' ∧ fresh h r ∧ ∃ m, get_mesh h' r = Ok m.

(** Arrays of a mesh that the constructor takes as they are: every row
    of the node array and of the connectivity has the same length, the
    connectivity has no more rows than the cell has nodes, and its
    entries are node indices. *)
Definition valid_arrays (e : Element) (p : matrix R) (tv : matrix Z)
  : Prop :=
  rect p ∧ rect tv ∧ shape0 tv ≤ elem_nnodes e
  ∧ Forall (Forall (λ x, (0 ≤ x < Z.of_nat (shape1 p))%Z)) tv.

(** Two meshes of one cell type whose nodes have the same dimension. *)
Definition joinable (e : Element) (p1 : matrix R) (t1 : matrix Z)
    (p2 : matrix R) (t2 : matrix Z) : Prop :=
  valid_arrays e p1 t1 ∧ valid_arrays e p2 t2
  ∧ shape0 p1 = shape0 p2 ∧ shape0 t1 = shape0 t2.

Global Instance joinable_dec e p1 t1 p2 t2 :
  Decision (joinable e p1 t1 p2 t2).
Proof. unfold joinable, valid_arrays, rect. apply _. Defined.

(** The transformations of a mesh, as calls on a receiver. *)
Inductive transformation : Type :=
| Scaled (factors : R + list R)
| Translated (diffs : list R)
| Mirrored (normal : list R) (point : option (list R))
| Refined (arg : times_or_ix)
| Joined (other : loc).

Definition transform (uniform : heap → loc → result (heap * loc))
    (adaptive : heap → loc → list nat → result (heap * loc))
    (h : heap) (self : loc) (tr : transformation) : result (heap * loc) :=
  match tr with
  | Scaled factors => scaled h self factors
  | Translated diffs => translated h self diffs
  | Mirrored normal point => mirrored h self normal point
  | Refined arg => refined uniform adaptive h self arg
  | Joined other => __add__ h self other
  end.

(** [range(n)] is empty: the loop of [refined] does not run. *)
Definition refines_nothing (tr : transformation) : bool :=
  match tr with
  | Refined (Times n) => bool_decide (n ≤ 0)%Z
  | _ => false
  end.

(** [self.p.shape[1]], [self.nelements] and [self.nvertices] *)
Definition p_shape1 (h : heap) (self : loc) : result nat :=
  m ← get_mesh h self; p ← get_float h (doflocs m); Ok (shape1 p).
Definition nelements (h : heap) (self : loc) : result nat :=
  m ← get_mesh h self; tv ← get_int h (t m); Ok (shape1 tv).
Definition nvertices (h : heap) (self : loc) : result Z :=
  m ← get_mesh h self; tv ← get_int h (t m);
  mx ← amax_Z (flatten tv); Ok (wrap_int64 (mx + 1)).

End Heap.

End MeshModel.

(** *** A sample heap: integer coordinates, the classes of mesh_tri_2.py *)

Module MeshSample.
Import Np MeshModel.

(** [class MeshTri2(MeshTri1)] *)
Inductive SampleCls : Type := MeshTri1 | MeshTri2.
Definition sample_issubclass (c d : SampleCls) : bool :=
  match c, d with
  | MeshTri1, MeshTri2 => false
  | _, _ => true
  end.
Definition tri_elem : Element := {| elem_nnodes := 3; elem_dim := 2 |}.

Abbreviation SMesh := (@Mesh SampleCls).
Abbreviation sheap := (list (@obj Z SampleCls)).

Definition no_dofs (e : Element) (tv : matrix Z) : result (matrix Z) :=
  Raise (NotImplementedError "Dofs").

Definition s_new_mesh :=
  new_mesh (R:=Z) 0%Z (λ _ : SampleCls, tri_elem) (λ _, false) (λ _, false)
    no_dofs.
Definition s_add :=
  __add__ (R:=Z) Z.le 0%Z sample_issubclass (λ _ : SampleCls, tri_elem)
    (λ _, false) (λ _, false) no_dofs.
Definition s_scaled :=
  scaled (R:=Z) (Cls:=SampleCls) 0%Z Z.mul no_dofs.
Definition s_translated :=
  translated (R:=Z) (Cls:=SampleCls) 0%Z Z.add no_dofs.
Definition s_mirrored :=
  mirrored (R:=Z) (Cls:=SampleCls) 0%Z 2%Z Z.add Z.sub Z.mul Z.div Z.sqrt
    no_dofs.
Definition s_refined :=
  refined (R:=Z) (Cls:=SampleCls) _uniform _adaptive.
Definition s_transform :=
  transform (R:=Z) Z.le 0%Z 2%Z Z.add Z.sub Z.mul Z.div Z.sqrt
    sample_issubclass (λ _ : SampleCls, tri_elem) (λ _, false) (λ _, false)
    no_dofs _uniform _adaptive.

(** A refinement step to run [refined] with: it returns a copy of the mesh
    with its own node array. *)
Definition copying_step (h : sheap) (l : loc) : result (sheap * loc) :=
  s_translated h l [0; 0]%Z.

Definition mesh_at (c : SampleCls) (lp lt : loc) (b : option loc) : SMesh :=
  {| cls := c; doflocs := lp; t := lt; _boundaries := b;
     _subdomains := None; elem := tri_elem; affine := false;
     validate := false; sort_t := false |}.

(** The unit square in two triangles with a named boundary (object 3); a
    single triangle of the subclass (object 6); a mesh of the base class
    (object 7); a mesh with 3-D nodes (object 9). *)
Definition sample_heap : sheap :=
  [ FloatArray [[0; 1; 0; 1]; [0; 0; 1; 1]]%Z;
    IntArray [[0; 1]; [1; 2]; [2; 3]]%Z;
    Dict [("left"%string, [1])];
    MeshObj (mesh_at MeshTri2 0 1 (Some 2));
    FloatArray [[1; 2; 1]; [0; 0; 1]]%Z;
    IntArray [[0]; [1]; [2]]%Z;
    MeshObj (mesh_at MeshTri2 4 5 None);
    MeshObj (mesh_at MeshTri1 4 5 None);
    FloatArray [[0; 1; 0]; [0; 0; 1]; [0; 0; 0]]%Z;
    MeshObj (mesh_at MeshTri2 8 5 None) ].

End MeshSample.

(** ** Import from meshio: skfem/io/meshio.py

    [from_meshio] reads a mesh object of the meshio library: its points,
    its cells by type, its named cell sets, its cell data and its field
    data.  Python dictionaries keep the order of insertion and are
    association lists here; the names of boundaries and subdomains are
    [option string] because [find_tagname] returns [None] for a tag without
    a name. *)

Module PyDict.
Section Dict.
Context {K V : Type} `{!EqDecision K}.
Implicit Types (d : list (K * V)) (k : K) (v : V).

(** [d[k]] *)
Fixpoint dict_get d k : result V :=
  match d with
  | [] => Raise KeyError
  | (k', v) :: d' => if decide (k = k') then Ok v else dict_get d' k
  end.

(** [k in d] *)
Definition dict_mem d k : bool := bool_decide (k ∈ d.*1).

(** [d[k] = v]: an existing key keeps its place. *)
Fixpoint dict_set d k v : list (K * V) :=
  match d with
  | [] => [(k, v)]
  | (k', v') :: d' =>
      if decide (k = k') then (k, v) :: d' else (k', v') :: dict_set d' k v
  end.

(** [d.update(d')] *)
Definition dict_update d d' : list (K * V) :=
  foldl (λ acc kv, dict_set acc kv.1 kv.2) d d'.
End Dict.
End PyDict.

Module Meshio.
Import Np PyDict MeshModel.

(** Named sets of a mesh: boundaries and subdomains. *)
Abbreviation named_sets := (list (option string * list Z)).

(** The two dictionaries that the import fills. *)
Record sets : Type := {
  boundaries : named_sets;
  subdomains : named_sets;
}.

(** Computations of the [try] block: they update the two dictionaries and
    may raise; what was assigned before an exception stays assigned. *)
Definition St (A : Type) : Type := sets → sets * result A.
Global Instance St_ret : MRet St := λ A a s, (s, Ok a).
Global Instance St_bind : MBind St := λ A B k c s,
  match c s with
  | (s', Ok a) => k a s'
  | (s', Raise e) => (s', Raise e)
  end.
Definition lift {A} (r : result A) : St A := λ s, (s, r).
Definition modify (f : sets → sets) : St unit := λ s, (f s, Ok ()).

(** [for x in l: body(x)] *)
Fixpoint for_each {A} (l : list A) (body : A → St unit) : St unit :=
  match l with
  | [] => mret ()
  | x :: l' => _ ← body x; for_each l' body
  end.

(** [try: body except Exception: pass] *)
Definition try_except_pass (body : St unit) : St unit :=
  λ s, ((body s).1, Ok ()).

Definition BOUNDARY_TYPE_MAPPING : list (string * string) :=
  [("line", "vertex"); ("triangle", "line"); ("quad", "line");
   ("tetra", "triangle"); ("hexahedron", "quad"); ("tetra10", "triangle");
   ("triangle6", "line"); ("quad9", "line")].

(** [for k in cells: if k in ks: meshio_type = k; break] *)
Fixpoint first_key_in {V} (ks : list string) (cells : list (string * V))
  : option string :=
  match cells with
  | [] => None
  | (k, _) :: cells' =>
      if bool_decide (k ∈ ks) then Some k else first_key_in ks cells'
  end.

(** Lines 11-27: the cell type of the highest dimension present. *)
Definition select_type {V} (cells : list (string * V)) : result string :=
  match first_key_in ["tetra"; "hexahedron"; "tetra10"] cells with
  | Some k => Ok k
  | None =>
      match first_key_in ["triangle"; "quad"; "triangle6"; "quad9"] cells with
      | Some k => Ok k
      | None =>
          match first_key_in ["line"] cells with
          | Some k => Ok k
          | None =>
              Raise (NotImplementedError
                       "Mesh type(s) not supported in import")
          end
      end
  end.

(** The value of the local variable [facets]: it is a dictionary after
    line 42 and an array after line 59. *)
Inductive facets_value : Type :=
| FacetSets (d : list (string * matrix Z))
| FacetArray (a : matrix Z).

(** [find_tagname] of line 50, for the field data of the mesh. *)
Fixpoint find_tagname (fd : list (string * list Z)) (tag : Z)
  : result (option string) :=
  match fd with
  | [] => Ok None
  | (key, v) :: fd' =>
      x ← getitem v 0;
      if bool_decide (x = tag) then Ok (Some key) else find_tagname fd' tag
  end.

(** Line 61: [{tuple(np.sort(facets[i])): facets_tag[i] for i in ...}];
    [facets_tag] is unbound when line 60 did not run. *)
Fixpoint facet_tags (a : matrix Z) (facets_tag : option (list Z))
    (ixs : list nat) (dic : list (list Z * Z)) : result (list (list Z * Z)) :=
  match ixs with
  | [] => Ok dic
  | i :: ixs' =>
      row ← getitem a i;
      ft ← match facets_tag with
           | None => Raise NameError
           | Some ft => Ok ft
           end;
      v ← getitem ft i;
      facet_tags a facets_tag ixs' (dict_set dic (sort row) v)
  end.

(** [None if len(d) == 0 else d] *)
Definition none_if_empty (d : named_sets) : option named_sets :=
  match d with
  | [] => None
  | _ => Some d
  end.

(** The meshio mesh: [m.points], [m.cells_dict], [m.cell_sets_dict],
    [m.cell_data_dict] and [m.field_data].  [m.cell_sets] and
    [m.cell_data] have the keys of [m.cell_sets_dict] and
    [m.cell_data_dict], and are empty when those are. *)
Record MeshioMesh {R : Type} : Type := {
  points : matrix R;
  cells_dict : list (string * matrix Z);
  cell_sets_dict : list (string * list (string * list Z));
  cell_data_dict : list (string * list (string * list Z));
  field_data : list (string * list Z);
}.
Arguments MeshioMesh R : clear implicits.

Definition nonempty {A} (l : list A) : bool :=
  match l with
  | [] => false
  | _ => true
  end.

Section FromMeshio.
(** The mesh classes of [MESH_TYPE_MAPPING] are not among the sources.
    A class is named by its meshio type; [mesh_type c p t b s] is the
    call [cls(p, t, b, s)] of its constructor, [mesh_facets] and
    [mesh_boundary_facets] are [mtmp.facets] and
    [mtmp.boundary_facets()], and [_decode_cell_data] is the call
    [mtmp._decode_cell_data(m.cell_data)] of line 71.  Class [Mesh]
    (skfem/mesh/mesh.py) defines no method of that name, and the name
    occurs nowhere else in the sources: on a mesh whose class adds
    none, the call raises [AttributeError].  [int_data_to_sets] and
    [getattr] are those of the meshio mesh. *)
Context {R M V : Type}.
Context (strip_extra_coordinates : string → matrix R → result (matrix R)).
Context (mesh_type : string → matrix R → matrix Z →
                     option named_sets → option named_sets → result M).
Context (mesh_facets : M → result (matrix Z)).
Context (mesh_boundary_facets : M → result (list nat)).
Context (_decode_cell_data :
           M → list (string * list (string * list Z)) →
           result (named_sets * named_sets)).
Context (int_data_to_sets : MeshioMesh R → result (MeshioMesh R)).
Context (getattr : MeshioMesh R → string → result V).

(** The local variables that the rest of the function reads. *)
Record locals : Type := {
  mesh : MeshioMesh R;                   (* [m] *)
  meshio_type : string;
  p : matrix R;
  t : matrix Z;
  mtmp : M;
  bnd_type : string;
  facets : option facets_value;          (* unbound before line 42 *)
}.

(** Line 38 *)
Definition cell_set_subdomains (m : MeshioMesh R) (meshio_type : string)
  : result named_sets :=
  mapR (λ '(k, v), ix ← dict_get v meshio_type; Ok (Some k, ix))
       (filter (λ kv, dict_mem kv.2 meshio_type) (cell_sets_dict m)).

(** Line 42 *)
Definition cell_set_facets (m : MeshioMesh R) (bnd_type : string)
  : result (list (string * matrix Z)) :=
  mapR (λ '(k, v),
          (bcells ← dict_get (cells_dict m) bnd_type;
           ix ← dict_get v bnd_type;
           rows ← mapR (getitem_Z (bcells : matrix Z)) ix;
           Ok (k, sort <$> (rows : matrix Z)))
          : result (string * matrix Z))
       (filter (λ kv, dict_mem kv.2 bnd_type) (cell_sets_dict m)).

(** Line 43 *)
Definition cell_set_boundaries (mtmp : M)
    (facets : list (string * matrix Z)) : result named_sets :=
  mapR (λ '(k, v),
          fac ← mesh_facets mtmp;
          Ok (Some k,
              Z.of_nat <$>
                nonzero ((λ f, bool_decide (f ∈ v)) <$> transpose fac)))
       facets.

(** Lines 10-43: everything before the [try] block. *)
Definition before_try (m : MeshioMesh R) (int_data_to_sets_flag : bool)
  : result (locals * sets) :=
  let cells := cells_dict m in
  meshio_type ← select_type cells;
  p ← strip_extra_coordinates meshio_type (points m);
  let p := transpose p in
  c ← dict_get cells meshio_type;
  let t := transpose c in
  t ← (if bool_decide (meshio_type = "hexahedron")
       then getitems t [0; 4; 3; 1; 7; 5; 2; 6]
       else Ok t);
  m ← (if int_data_to_sets_flag then int_data_to_sets m else Ok m);
  subdomains ← (if nonempty (cell_sets_dict m)
                then cell_set_subdomains m meshio_type
                else Ok []);
  mtmp ← mesh_type meshio_type p t None None;
  bnd_type ← dict_get BOUNDARY_TYPE_MAPPING meshio_type;
  '(facets, boundaries) ←
    (if nonempty (cell_sets_dict m) && dict_mem (cells_dict m) bnd_type
     then facets ← cell_set_facets m bnd_type;
          boundaries ← cell_set_boundaries mtmp facets;
          Ok (Some (FacetSets facets), boundaries)
     else Ok (None, []));
  Ok ({| mesh := m; meshio_type := meshio_type; p := p; t := t;
         mtmp := mtmp; bnd_type := bnd_type; facets := facets |},
      {| boundaries := boundaries; subdomains := subdomains |}).

(** Line 62: the rows [[dic[key], i]] for the boundary facets [i] whose
    sorted nodes are a key of [dic]. *)
Fixpoint index_rows (mtmp : M) (dic : list (list Z * Z)) (bf : list nat)
  : result (list (Z * Z)) :=
  match bf with
  | [] => Ok []
  | i :: bf' =>
      fac ← mesh_facets mtmp;
      col ← mapR (λ r : list Z, getitem r i) fac;
      if dict_mem dic (sort col)
      then fac ← mesh_facets mtmp;
           col ← mapR (λ r : list Z, getitem r i) fac;
           tag ← dict_get dic (sort col);
           rest ← index_rows mtmp dic bf';
           Ok ((tag, Z.of_nat i) :: rest)
      else index_rows mtmp dic bf'
  end.

Definition set_subdomains (d : named_sets) : St unit :=
  modify (λ s, {| boundaries := boundaries s; subdomains := d |}).
Definition set_boundaries (d : named_sets) : St unit :=
  modify (λ s, {| boundaries := d; subdomains := subdomains s |}).

(** Lines 46-67: the body of the [try] block. *)
Definition extract_tags (l : locals) : St unit :=
  let m := mesh l in
  physical ← lift (dict_get (cell_data_dict m) "gmsh:physical");
  elements_tag ← lift (dict_get physical (meshio_type l));
  _ ← set_subdomains [];
  let tags := (unique Z.le elements_tag).1.1 in
  _ ← for_each tags (λ tag,
        let t_set := nonzero ((λ x, bool_decide (tag = x)) <$> elements_tag) in
        name ← lift (find_tagname (field_data m) tag);
        modify (λ s, {| boundaries := boundaries s;
                        subdomains := dict_set (subdomains s) name
                                        (Z.of_nat <$> t_set) |}));
  physical ← lift (dict_get (cell_data_dict m) "gmsh:physical");
  '(facets, facets_tag) ←
    (if dict_mem physical (bnd_type l)
     then facets ← lift (dict_get (cells_dict m) (bnd_type l));
          physical ← lift (dict_get (cell_data_dict m) "gmsh:physical");
          facets_tag ← lift (dict_get physical (bnd_type l));
          mret (Some (FacetArray facets), Some facets_tag)
     else mret (facets l, None));
  a ← lift (match facets with
            | None => Raise NameError
            | Some (FacetSets _) => Raise AttributeError
            | Some (FacetArray a) => Ok a
            end);
  dic ← lift (facet_tags a facets_tag (seq 0 (shape0 a)) []);
  bf ← lift (mesh_boundary_facets (mtmp l));
  index ← lift (index_rows (mtmp l) dic bf);
  tags ← lift (match index with
               | [] => Raise IndexError
               | _ => Ok (index.*1)
               end);
  _ ← set_boundaries [];
  for_each (unique Z.le tags).1.1 (λ tag,
    let tagindex := nonzero ((λ x, bool_decide (x = tag)) <$> tags) in
    name ← lift (find_tagname (field_data m) tag);
    rows ← lift (getitems (index.*2) tagindex);
    modify (λ s, {| boundaries := dict_set (boundaries s) name rows;
                    subdomains := subdomains s |})).

(** Lines 44-69 *)
Definition tag_block (l : locals) : St unit :=
  if nonempty (cell_data_dict (mesh l)) && nonempty (field_data (mesh l))
  then try_except_pass (extract_tags l)
  else mret ().

(** Lines 74-76: the fields asked for in [out]. *)
Definition fill_out (m : MeshioMesh R) (out : option (list string))
  : result (option (list V)) :=
  match out with
  | None => Ok None
  | Some fields => vs ← mapR (getattr m) fields; Ok (Some vs)
  end.

(** Lines 70-77: everything after the [try] block. *)
Definition after_try (l : locals) (out : option (list string)) (s : sets)
  : result (M * option (list V)) :=
  let m := mesh l in
  s ← (if nonempty (cell_data_dict m)
       then '(_boundaries, _subdomains) ←
              _decode_cell_data (mtmp l) (cell_data_dict m);
            Ok {| boundaries := dict_update (boundaries s) _boundaries;
                  subdomains := dict_update (subdomains s) _subdomains |}
       else Ok s);
  out ← fill_out m out;
  r ← mesh_type (meshio_type l) (p l) (t l)
        (none_if_empty (boundaries s)) (none_if_empty (subdomains s));
  Ok (r, out).

(** [from_meshio(m, out, int_data_to_sets)]; the result is the mesh and
    the list [out] as the call leaves it. *)
Definition from_meshio (m : MeshioMesh R) (out : option (list string))
    (int_data_to_sets_flag : bool) : result (M * option (list V)) :=
  '(l, s) ← before_try m int_data_to_sets_flag;
  let '(s, r) := tag_block l s in
  _ ← r;
  after_try l out s.

End FromMeshio.

End Meshio.

(** *** A sample import: two triangles with gmsh tags on the cells only *)

Module MeshioSample.
Import Np Meshio.

(** A mesh object as the sample constructor leaves it. *)
Record SampleMesh : Type := {
  sm_type : string;
  sm_p : matrix Z;
  sm_t : matrix Z;
  sm_boundaries : option named_sets;
  sm_subdomains : option named_sets;
}.

Definition s_mesh_type (c : string) (p : matrix Z) (t : matrix Z)
    (b s : option named_sets) : result SampleMesh :=
  Ok {| sm_type := c; sm_p := p; sm_t := t;
        sm_boundaries := b; sm_subdomains := s |}.

(** [mtmp._decode_cell_data(m.cell_data)] on a mesh of a class that has
    what class [Mesh] has: the attribute is missing. *)
Definition no_decode_cell_data (m : SampleMesh)
    (cd : list (string * list (string * list Z)))
  : result (named_sets * named_sets) :=
  Raise AttributeError.

Definition s_from_meshio :=
  from_meshio (R:=Z) (V:=unit) (λ _ p, Ok p) s_mesh_type
    (λ m, Topology.facets Topology.tri_refdom (sm_t m))
    (λ m, Topology.mesh_boundary_facets Topology.tri_refdom (sm_t m))
    no_decode_cell_data (λ m, Ok m) (λ _ _, Raise AttributeError).

Definition s_before_try :=
  before_try (R:=Z) (λ _ p, Ok p) s_mesh_type
    (λ m, Topology.facets Topology.tri_refdom (sm_t m)) (λ m, Ok m).

Definition s_extract_tags :=
  extract_tags (R:=Z) (λ m, Topology.facets Topology.tri_refdom (sm_t m))
    (λ m, Topology.mesh_boundary_facets Topology.tri_refdom (sm_t m)).

(** The cells carry the tags 7 and 8, named [left] and [right]; the lines
    carry no tag, so line 61 finds [facets] unbound. *)
Definition tagged_cells : MeshioMesh Z :=
  {| points := [[0; 0]; [1; 0]; [0; 1]; [1; 1]]%Z;
     cells_dict := [("line", [[0; 1]; [1; 3]]%Z);
                    ("triangle", [[0; 1; 2]; [1; 2; 3]]%Z)];
     cell_sets_dict := [];
     cell_data_dict := [("gmsh:physical", [("triangle", [7; 8]%Z)])];
     field_data := [("left", [7; 2]%Z); ("right", [8; 2]%Z)] |}.

(** Cell data without gmsh tags: line 46 raises [KeyError]. *)
Definition untagged_cells : MeshioMesh Z :=
  {| points := [[0; 0]; [1; 0]; [0; 1]; [1; 1]]%Z;
     cells_dict := [("triangle", [[0; 1; 2]; [1; 2; 3]]%Z)];
     cell_sets_dict := [("inner", [("triangle", [1]%Z)])];
     cell_data_dict := [("medit:ref", [("triangle", [1; 1]%Z)])];
     field_data := [("left", [7; 2]%Z)] |}.

(** One hexahedron, without cell sets or data. *)
Definition one_hexahedron : MeshioMesh Z :=
  {| points := [[0; 0; 0]; [1; 0; 0]; [1; 1; 0]; [0; 1; 0];
                [0; 0; 1]; [1; 0; 1]; [1; 1; 1]; [0; 1; 1]]%Z;
     cells_dict := [("hexahedron", [[10; 11; 12; 13; 14; 15; 16; 17]]%Z)];
     cell_sets_dict := [];
     cell_data_dict := [];
     field_data := [] |}.

(** The mesh that the sample constructor builds for it. *)
Definition hexahedron_mesh : SampleMesh :=
  {| sm_type := "hexahedron";
     sm_p := [[0; 1; 1; 0; 0; 1; 1; 0]; [0; 0; 1; 1; 0; 0; 1; 1];
              [0; 0; 0; 0; 1; 1; 1; 1]]%Z;
     sm_t := [[10]; [14]; [13]; [11]; [17]; [15]; [12]; [16]]%Z;
     sm_boundaries := None; sm_subdomains := None |}.

End MeshioSample.

(** *** The example of the docstring of [Mesh.mirrored]

    [m1 = MeshTet()], its three mirror images and their sum.  The class
    [MeshTet] and its default arrays are not among the sources: the node
    array and the connectivity of [m1] are arguments, the reference cell
    has four nodes in three dimensions.  The coordinates are integers; the
    normals are unit vectors along the axes, for which the arithmetic of
    [mirrored] on integer coordinates is exact. *)

Module TetSample.
Import Np MeshModel MeshSample.

Inductive TetCls : Type := MeshTet.
Definition tet_elem : Element := {| elem_nnodes := 4; elem_dim := 3 |}.

Section Class.
(** [MeshTet.affine] and [MeshTet.sort_t] *)
Context (tet_affine tet_sort_t : bool).

Definition t_new_mesh :=
  new_mesh (R:=Z) 0%Z (λ _ : TetCls, tet_elem) (λ _, tet_affine)
    (λ _, tet_sort_t) no_dofs.
Definition t_add :=
  __add__ (R:=Z) Z.le 0%Z (λ _ _ : TetCls, true) (λ _, tet_elem)
    (λ _, tet_affine) (λ _, tet_sort_t) no_dofs.
Definition t_mirrored :=
  mirrored (R:=Z) (Cls:=TetCls) 0%Z 2%Z Z.add Z.sub Z.mul Z.div Z.sqrt
    no_dofs.

(** [m1 = MeshTet()] for the default arrays [p0] and [t0], on the heap
    that holds them and nothing else. *)
Definition default_mesh (p0 : matrix Z) (t0 : matrix Z)
  : result (list (@obj Z TetCls) * loc) :=
  t_new_mesh [FloatArray p0; IntArray t0] MeshTet 0 1.

(** [m2 = m1.mirrored((1, 0, 0))], [m3 = m1.mirrored((0, 1, 0))],
    [m4 = m1.mirrored((0, 0, 1))], [m = m1 + m2 + m3 + m4] *)
Definition mirror_and_join (h : list (@obj Z TetCls)) (m1 : loc)
  : result (list (@obj Z TetCls) * loc) :=
  '(h, m2) ← t_mirrored h m1 [1; 0; 0]%Z None;
  '(h, m3) ← t_mirrored h m1 [0; 1; 0]%Z None;
  '(h, m4) ← t_mirrored h m1 [0; 0; 1]%Z None;
  '(h, m12) ← t_add h m1 m2;
  '(h, m123) ← t_add h m12 m3;
  t_add h m123 m4.
End Class.

(** The corners of the unit cube and its division into five
    tetrahedra. *)
Definition unit_cube : matrix Z :=
  [[0; 0; 0; 1; 0; 1; 1; 1];
   [0; 0; 1; 0; 1; 0; 1; 1];
   [0; 1; 0; 0; 1; 1; 0; 1]]%Z.
Definition five_tetrahedra : matrix Z :=
  [[0; 3; 2; 2; 1];
   [1; 5; 3; 3; 2];
   [2; 1; 6; 1; 4];
   [3; 7; 7; 7; 7]]%Z.

End TetSample.

(** ** Export to meshio: [to_meshio] of skfem/io/meshio.py *)

Module MeshioExport.
Import Np PyDict.

(** [MESH_TYPE_MAPPING], the classes by their names. *)
Definition MESH_TYPE_MAPPING : list (string * string) :=
  [("tetra", "MeshTet"); ("hexahedron", "MeshHex"); ("triangle", "MeshTri");
   ("quad", "MeshQuad"); ("line", "MeshLine"); ("tetra10", "MeshTet2");
   ("triangle6", "MeshTri2"); ("quad9", "MeshQuad2")].

(** [TYPE_MESH_MAPPING]: the comprehension of line 7 over the reversed
    items. *)
Definition TYPE_MESH_MAPPING : list (string * string) :=
  foldl (λ d kc, dict_set d kc.2 kc.1) [] (reverse MESH_TYPE_MAPPING).

Section ToMeshio.
(** What [to_meshio] reads of the mesh: its class, whether it is an
    instance of [MeshHex], [mesh.dofs.element_dofs], [mesh.p] and the
    call [mesh._encode_cell_data()] of line 90.  Class [Mesh] defines no
    method of that name and the name occurs nowhere else in the sources:
    on a mesh whose class adds none the call raises [AttributeError].
    [PD] and [CD] are the values of the point and cell data. *)
Context {R M PD CD : Type}.
Context (mesh_class : M → string).
Context (isinstance_MeshHex : M → bool).
Context (element_dofs : M → result (matrix Z)).
Context (mesh_p : M → matrix R).
Context (_encode_cell_data : M → result (list (string * CD))).

(** The arguments of the call [meshio.Mesh(points, cells, point_data,
    cell_data)]. *)
Record MeshioArgs : Type := {
  arg_points : matrix R;
  arg_cells : list (string * matrix Z);
  arg_point_data : option PD;
  arg_cell_data : list (string * CD);
}.

(** Lines 83 to 87: the dictionary [cells]. *)
Definition export_cells (mesh : M) : result (list (string * matrix Z)) :=
  t ← element_dofs mesh;
  t ← (if isinstance_MeshHex mesh
       then getitems t [0; 3; 6; 2; 1; 5; 7; 4]
       else Ok t);
  mtype ← dict_get TYPE_MESH_MAPPING (mesh_class mesh);
  Ok [(mtype, transpose t)].

(** [to_meshio(mesh, point_data, cell_data)] *)
Definition to_meshio (mesh : M) (point_data : option PD)
    (cell_data : option (list (string * CD))) : result MeshioArgs :=
  cells ← export_cells mesh;
  let cell_data := default [] cell_data in
  enc ← _encode_cell_data mesh;
  let cell_data := dict_update cell_data enc in
  Ok {| arg_points := transpose (mesh_p mesh); arg_cells := cells;
        arg_point_data := point_data; arg_cell_data := cell_data |}.
End ToMeshio.

End MeshioExport.

(** ** Removing elements: [Mesh._reix] and [Mesh.remove_elements] *)

Module MeshEdit.
Import Np MeshModel.

(** [arr[:, keep]] for a boolean mask [keep]. *)
Definition keep_columns {A} (keep : list bool) (arr : matrix A) : matrix A :=
  (λ row : list A, (filter (λ xb, xb.2 = true) (zip row keep)).*1) <$> arr.

(** [np.delete(arr, obj, axis=1)] for an array [obj] of integers: the
    mask [keep] is true everywhere, [keep[obj] = False], and the columns
    with a true entry are kept. *)
Definition np_delete {A} (arr : matrix A) (obj : list Z)
  : result (matrix A) :=
  keep ← scatter_Z (replicate (shape1 arr) true) obj
                   (replicate (length obj) false);
  Ok (keep_columns keep arr).

(** [Mesh._reix(ix)], for the node array [p] of the mesh. *)
Definition _reix {R} (p : matrix R) (ix : matrix Z)
  : result (matrix R * matrix Z) :=
  let ixuniq := (unique Z.le (flatten ix)).1.1 in
  mx ← amax_Z (flatten ix);
  if bool_decide (mx + 1 < 0)%Z
  then Raise (ValueError "negative dimensions are not allowed")
  else
    tn ← scatter_Z (replicate (Z.to_nat (mx + 1)) 0%Z) ixuniq
                   (Z.of_nat <$> seq 0 (length ixuniq));
    pn ← take_cols_Z p ixuniq;
    tv ← mapR (mapR (getitem_Z tn)) ix;
    Ok (pn, tv).

Section Heap.
Context {R Cls : Type} (R0 : R).
Context (element_dofs_of : Element → matrix Z → result (matrix Z)).

(** [Mesh.remove_elements(element_indices)] *)
Definition remove_elements (h : list (@obj R Cls)) (self : loc)
    (element_indices : list Z) : result (list (@obj R Cls) * loc) :=
  m ← get_mesh h self;
  tv ← get_int h (t m);
  kept ← np_delete tv element_indices;
  p ← get_float h (doflocs m);
  '(pn, tn) ← _reix p kept;
  let '(h, lp) := alloc h (FloatArray pn) in
  let '(h, lt) := alloc h (IntArray tn) in
  let '(h, l) :=
    alloc h (MeshObj {| cls := cls m; doflocs := lp; t := lt;
                        _boundaries := _boundaries m;
                        _subdomains := _subdomains m; elem := elem m;
                        affine := affine m; validate := validate m;
                        sort_t := sort_t m |}) in
  h ← __post_init__ R0 element_dofs_of h l;
  Ok (h, l).
End Heap.

End MeshEdit.

(** ** Selecting nodes, facets and elements; naming boundaries and
    subdomains *)

Module MeshSelect.
Import Np Topology MeshModel PyDict.

Section Sets.
Context {A : Type} `{!EqDecision A} (le : relation A) `{!RelDecision le}.

(** [np.intersect1d(a, b)]: the values that are in both arrays, sorted,
    each once. *)
Definition intersect1d (a b : list A) : list A :=
  filter (λ x, x ∈ b) (unique le a).1.1.

(** [np.setdiff1d(a, b)]: the values of [a] that are not in [b], sorted,
    each once. *)
Definition setdiff1d (a b : list A) : list A :=
  filter (λ x, x ∉ b) (unique le a).1.1.
End Sets.

(** A test on points: the callable gets the array of the points, one
    column per point, and returns a boolean array. *)
Abbreviation Test R := (matrix R → result (list bool)).

Section Select.
(** [R] stands for float64; [Rof_nat] converts the integer that the
    sums are divided by. *)
Context {R : Type} (Radd Rdiv : R → R → R) (Rof_nat : nat → R).

(** [np.sum(g, axis=0)] of a 2-D array: the rows are added up in
    order. *)
Definition sum_axis0 (g : matrix R) : list R :=
  match g with
  | [] => []
  | r :: rs => foldl (zip_with Radd) r rs
  end.

(** [[np.sum(self.p[itr, ix], axis=0) / ix.shape[0]
      for itr in range(self.dim())]]
    for [ix] the property [self.facets] or [self.t], which is read in
    every round. *)
Definition midpoints (p : matrix R) (ix : result (matrix Z)) (dim : nat)
  : result (matrix R) :=
  mapR (λ itr : nat,
          (ixv ← ix;
           prow ← getitem p itr;
           g ← mapR (λ r : list Z, mapR (getitem_Z prow) r) ixv;
           Ok ((λ s, Rdiv s (Rof_nat (shape0 ixv))) <$> sum_axis0 g))
          : result (list R))
       (seq 0 dim).

(** [Mesh.boundary_nodes()] *)
Definition boundary_nodes (rd : Refdom) (t : matrix Z) : result (list Z) :=
  fs ← facets rd t;
  bf ← mesh_boundary_facets rd t;
  sub ← take_cols fs bf;
  Ok (unique Z.le (flatten sub)).1.1.

(** [Mesh.interior_nodes()] *)
Definition interior_nodes (rd : Refdom) (p : matrix R) (t : matrix Z)
  : result (list Z) :=
  bn ← boundary_nodes rd t;
  Ok (setdiff1d Z.le (Z.of_nat <$> arange (shape1 p)) bn).

(** [Mesh.nodes_satisfying(test, boundaries_only)] *)
Definition nodes_satisfying (rd : Refdom) (p : matrix R) (t : matrix Z)
    (test : Test R) (boundaries_only : bool) : result (list Z) :=
  mask ← test p;
  let nodes := Z.of_nat <$> nonzero mask in
  if boundaries_only
  then bn ← boundary_nodes rd t; Ok (intersect1d Z.le nodes bn)
  else Ok nodes.

(** [Mesh.facets_satisfying(test, boundaries_only)] *)
Definition facets_satisfying (rd : Refdom) (dim : nat) (p : matrix R)
    (t : matrix Z) (test : Test R) (boundaries_only : bool)
  : result (list nat) :=
  midp ← midpoints p (facets rd t) dim;
  mask ← test midp;
  let fs := nonzero mask in
  if boundaries_only
  then bf ← mesh_boundary_facets rd t; Ok (intersect1d Nat.le fs bf)
  else Ok fs.

(** [Mesh.elements_satisfying(test)] *)
Definition elements_satisfying (dim : nat) (p : matrix R) (t : matrix Z)
    (test : Test R) : result (list nat) :=
  midp ← midpoints p (Ok t) dim;
  mask ← test midp;
  Ok (nonzero mask).
End Select.

Section Heap.
Context {R Cls : Type} (R0 : R) (Radd Rdiv : R → R → R) (Rof_nat : nat → R).
Context (element_dofs_of : Element → matrix Z → result (matrix Z)).
(** [elem.refdom] with its facet and edge templates. *)
Context (elem_refdom : Element → Refdom).

Abbreviation heap := (list (@obj R Cls)).
Abbreviation named := (list (string * list nat)).

(** [{name: select(test) for name, test in tests.items()}] *)
Definition select_all (select : Test R → result (list nat))
    (tests : list (string * Test R)) : result named :=
  sets ← mapR (λ nt : string * Test R,
                 (s ← select nt.2; Ok (nt.1, s))
                 : result (string * list nat)) tests;
  Ok (dict_update [] sets).

(** [self.facets_satisfying(test, boundaries_only)] on the heap *)
Definition mesh_facets_satisfying (h : heap) (self : loc)
    (test : Test R) (boundaries_only : bool) : result (list nat) :=
  m ← get_mesh h self;
  p ← get_float h (doflocs m);
  tv ← get_int h (t m);
  facets_satisfying Radd Rdiv Rof_nat (elem_refdom (elem m))
    (elem_dim (elem m)) p tv test boundaries_only.

(** [self.elements_satisfying(test)] on the heap *)
Definition mesh_elements_satisfying (h : heap) (self : loc)
    (test : Test R) : result (list nat) :=
  m ← get_mesh h self;
  p ← get_float h (doflocs m);
  tv ← get_int h (t m);
  elements_satisfying Radd Rdiv Rof_nat (elem_dim (elem m)) p tv test.

(** [Mesh.with_boundaries(boundaries)] *)
Definition with_boundaries (h : heap) (self : loc)
    (boundaries : list (string * Test R)) : result (heap * loc) :=
  m ← get_mesh h self;
  old ← get_dict h (_boundaries m);
  new ← select_all (λ test, mesh_facets_satisfying h self test true)
                   boundaries;
  let '(h, ld) := alloc h (Dict (dict_update (default [] old) new)) in
  let '(h, l) :=
    alloc h (MeshObj {| cls := cls m; doflocs := doflocs m; t := t m;
                        _boundaries := Some ld;
                        _subdomains := _subdomains m; elem := elem m;
                        affine := affine m; validate := validate m;
                        sort_t := sort_t m |}) in
  h ← __post_init__ R0 element_dofs_of h l;
  Ok (h, l).

(** [Mesh.with_subdomains(subdomains)] *)
Definition with_subdomains (h : heap) (self : loc)
    (subdomains : list (string * Test R)) : result (heap * loc) :=
  m ← get_mesh h self;
  old ← get_dict h (_subdomains m);
  new ← select_all (λ test, mesh_elements_satisfying h self test)
                   subdomains;
  let '(h, ld) := alloc h (Dict (dict_update (default [] old) new)) in
  let '(h, l) :=
    alloc h (MeshObj {| cls := cls m; doflocs := doflocs m; t := t m;
                        _boundaries := _boundaries m;
                        _subdomains := Some ld; elem := elem m;
                        affine := affine m; validate := validate m;
                        sort_t := sort_t m |}) in
  h ← __post_init__ R0 element_dofs_of h l;
  Ok (h, l).

(** [Mesh.define_boundary(name, test, boundaries_only)].  It changes
    the receiver, and what it has changed stays changed when it raises:
    the result is the heap together with the outcome.  The deprecation
    warning is left out. *)
Definition define_boundary (h : heap) (self : loc) (name : string)
    (test : Test R) (boundaries_only : bool) : heap * result unit :=
  match get_mesh h self with
  | Raise e => (h, Raise e)
  | Ok m =>
      let '(h, lb) :=
        match _boundaries m with
        | Some lb => (h, lb)
        | None =>
            let '(h, lb) := alloc h (Dict []) in
            (<[self := MeshObj
                 {| cls := cls m; doflocs := doflocs m; t := t m;
                    _boundaries := Some lb;
                    _subdomains := _subdomains m; elem := elem m;
                    affine := affine m; validate := validate m;
                    sort_t := sort_t m |}]> h, lb)
        end in
      match mesh_facets_satisfying h self test boundaries_only with
      | Raise e => (h, Raise e)
      | Ok fs =>
          match get_dict h (Some lb) with
          | Ok (Some d) => (<[lb := Dict (dict_set d name fs)]> h, Ok ())
          | Ok None => (h, Raise (TypeError "not a dict"))
          | Raise e => (h, Raise e)
          end
      end
  end.
End Heap.

End MeshSelect.

(** ** Meshes as dictionaries: [Mesh.to_dict] and [Mesh.from_dict]

    The dictionary has the keys and the values that [to_dict] writes and
    [from_dict] reads and writes: a key that is absent is [None] here, and
    a nested list of numbers and the 2-D array made of it are both the list
    of their rows.  A named set is a list of indices, as a list and as an
    array. *)

Module MeshDict.
Import Np.

Abbreviation named := (list (string * list nat)).

Section Dict.
Context {R M : Type}.
(** [cls(doflocs=.., t=.., _boundaries=.., _subdomains=..)] *)
Context (cls : matrix R → matrix Z → option named → option named
               → result M).

Record Data : Type := {
  p : option (matrix R);
  t : option (matrix Z);
  boundaries : option (option named);
  subdomains : option (option named);
  doflocs : option (matrix R);
  _boundaries : option (option named);
  _subdomains : option (option named);
}.

(** [{k: v.tolist() for k, v in d.items()}] and
    [{k: np.array(v) for k, v in d.items()}] *)
Definition convert_sets (d : named) : named :=
  (λ kv : string * list nat, (kv.1, kv.2)) <$> d.

(** [Mesh.to_dict], of the mesh with the nodes [mp], the connectivity
    [mt] and the named sets [b] and [s]. *)
Definition to_dict (mp : matrix R) (mt : matrix Z) (b s : option named)
  : Data :=
  {| p := Some (transpose mp); t := Some (transpose mt);
     boundaries := Some (convert_sets <$> b);
     subdomains := Some (convert_sets <$> s);
     doflocs := None; _boundaries := None; _subdomains := None |}.

(** [np.array(l).T] of a nested list: the rows must have one length. *)
Definition array_T {A} (l : matrix A) : result (matrix A) :=
  if decide (rect l) then Ok (transpose l)
  else Raise (ValueError "inhomogeneous shape").

(** [Mesh.from_dict(data)].  It changes [data], and what it has changed
    stays changed when it raises: the result is the dictionary together
    with the outcome. *)
Definition from_dict (data : Data) : Data * result M :=
  match p data, t data with
  | Some pl, Some tl =>
      match array_T pl with
      | Raise e => (data, Raise e)
      | Ok pa =>
          match array_T tl with
          | Raise e =>
              ({| p := Some pa; t := t data;
                  boundaries := boundaries data;
                  subdomains := subdomains data;
                  doflocs := doflocs data;
                  _boundaries := _boundaries data;
                  _subdomains := _subdomains data |}, Raise e)
          | Ok ta =>
              let bs := match boundaries data with
                        | Some (Some b) => Some (Some (convert_sets b))
                        | other => other
                        end in
              let ss := match subdomains data with
                        | Some (Some s) => Some (Some (convert_sets s))
                        | other => other
                        end in
              (* data['doflocs'] = data.pop('p') *)
              match ss with
              | None =>
                  ({| p := None; t := Some ta; boundaries := bs;
                      subdomains := None; doflocs := Some pa;
                      _boundaries := _boundaries data;
                      _subdomains := _subdomains data |}, Raise KeyError)
              | Some s =>
                  (* data['_subdomains'] = data.pop('subdomains') *)
                  match bs with
                  | None =>
                      ({| p := None; t := Some ta; boundaries := None;
                          subdomains := None; doflocs := Some pa;
                          _boundaries := _boundaries data;
                          _subdomains := Some s |}, Raise KeyError)
                  | Some b =>
                      (* data['_boundaries'] = data.pop('boundaries') *)
                      ({| p := None; t := Some ta; boundaries := None;
                          subdomains := None; doflocs := Some pa;
                          _boundaries := Some b;
                          _subdomains := Some s |}, cls pa ta b s)
                  end
              end
          end
      end
  | _, _ =>
      (data, Raise (ValueError "Dictionary must contain keys 'p' and 't'."))
  end.
End Dict.

End MeshDict.

(** ** Elements: skfem/element/

    [lbasis(X, i)] gets the coordinates [X] of points of the reference cell,
    one array per coordinate, and works on the arrays entry by entry; here
    it gets one point.  The numbers are the binary64 numbers of numpy,
    [x ** 2] is the product [x * x], and an integer in a sum or a product
    with an array is the float of the same value.  The result is the value
    [phi] and the gradient [dphi].  [Element._index_error()] belongs to the
    base class (skfem/element/element.py is not among the sources) and is a
    parameter; after it, [phi] is not bound. *)

Module Elements.
Import PrimFloat.
Local Open Scope float_scope.

(** The [else] branch: [self._index_error()], then [return (phi, dphi)]
    with [phi] not bound. *)
Definition out_of_range {A} (_index_error : result unit) : result A :=
  _ ← _index_error; Raise NameError.

(** Unpacking [(x, y) = X] and [(x, y, z) = X]. *)
Definition unpack2 {A} (X : list float) (k : float → float → result A)
  : result A :=
  match X with
  | [x; y] => k x y
  | _ => Raise (ValueError "unpack")
  end.
Definition unpack3 {A} (X : list float)
    (k : float → float → float → result A) : result A :=
  match X with
  | [x; y; z] => k x y z
  | _ => Raise (ValueError "unpack")
  end.

Module ElementQuad1.
Definition doflocs : list (list float) :=
  [[0.0; 0.0]; [1.0; 0.0]; [1.0; 1.0]; [0.0; 1.0]].
Definition lbasis (_index_error : result unit) (X : list float) (i : Z)
  : result (float * list float) :=
  unpack2 X (λ x y,
    if decide (i = 0%Z) then
      Ok ((1.0 - x) * (1.0 - y), [-1.0 + y; -1.0 + x])
    else if decide (i = 1%Z) then
      Ok (x * (1.0 - y), [1.0 - y; - x])
    else if decide (i = 2%Z) then
      Ok (x * y, [y; x])
    else if decide (i = 3%Z) then
      Ok ((1.0 - x) * y, [- y; 1.0 - x])
    else out_of_range _index_error).
End ElementQuad1.

Module ElementTriP2.
Definition doflocs : list (list float) :=
  [[0.0; 0.0]; [1.0; 0.0]; [0.0; 1.0]; [0.5; 0.0]; [0.5; 0.5];
   [0.0; 0.5]].
Definition lbasis (_index_error : result unit) (X : list float) (i : Z)
  : result (float * list float) :=
  unpack2 X (λ x y,
    if decide (i = 0%Z) then
      Ok (1.0 - 3.0 * x - 3.0 * y + 2.0 * (x * x) + 4.0 * x * y
          + 2.0 * (y * y),
          [-3.0 + 4.0 * x + 4.0 * y; -3.0 + 4.0 * x + 4.0 * y])
    else if decide (i = 1%Z) then
      Ok (2.0 * (x * x) - x, [4.0 * x - 1.0; 0.0 * x])
    else if decide (i = 2%Z) then
      Ok (2.0 * (y * y) - y, [0.0 * x; 4.0 * y - 1.0])
    else if decide (i = 3%Z) then
      Ok (4.0 * x - 4.0 * (x * x) - 4.0 * x * y,
          [4.0 - 8.0 * x - 4.0 * y; -4.0 * x])
    else if decide (i = 4%Z) then
      Ok (4.0 * x * y, [4.0 * y; 4.0 * x])
    else if decide (i = 5%Z) then
      Ok (4.0 * y - 4.0 * x * y - 4.0 * (y * y),
          [-4.0 * y; 4.0 - 4.0 * x - 8.0 * y])
    else out_of_range _index_error).
End ElementTriP2.

Module ElementTriCR.
Definition doflocs : list (list float) :=
  [[0.5; 0.0]; [0.5; 0.5]; [0.0; 0.5]].
Definition lbasis (_index_error : result unit) (X : list float) (i : Z)
  : result (float * list float) :=
  unpack2 X (λ x y,
    if decide (i = 0%Z) then
      Ok (1.0 - 2.0 * y, [0.0 * x; -2.0 + 0.0 * y])
    else if decide (i = 1%Z) then
      Ok (2.0 * x + 2.0 * y - 1.0, [2.0 + 0.0 * x; 2.0 + 0.0 * y])
    else if decide (i = 2%Z) then
      Ok (1.0 - 2.0 * x, [-2.0 + 0.0 * x; 0.0 * x])
    else out_of_range _index_error).
End ElementTriCR.

Module ElementTetCR.
Definition doflocs : list (list float) :=
  [[1 / 3; 1 / 3; 0.0]; [1 / 3; 0.0; 1 / 3]; [0.0; 1 / 3; 1 / 3];
   [1 / 3; 1 / 3; 1 / 3]].
Definition lbasis (_index_error : result unit) (X : list float) (i : Z)
  : result (float * list float) :=
  unpack3 X (λ x y z,
    if decide (i = 0%Z) then
      Ok (1.0 - 3.0 * z, [0.0 * x; 0.0 * y; -3.0 + 0.0 * z])
    else if decide (i = 1%Z) then
      Ok (1.0 - 3.0 * y, [0.0 * x; -3.0 + 0.0 * y; 0.0 * z])
    else if decide (i = 2%Z) then
      Ok (1.0 - 3.0 * x, [-3.0 + 0.0 * x; 0.0 * y; 0.0 * z])
    else if decide (i = 3%Z) then
      Ok (3.0 * x + 3.0 * y + 3.0 * z - 2.0,
          [3.0 + 0.0 * x; 3.0 + 0.0 * y; 3.0 + 0.0 * z])
    else out_of_range _index_error).
End ElementTetCR.

Module ElementTetP2.
Definition doflocs : list (list float) :=
  [[0.0; 0.0; 0.0]; [1.0; 0.0; 0.0]; [0.0; 1.0; 0.0]; [0.0; 0.0; 1.0];
   [0.5; 0.0; 0.0]; [0.5; 0.5; 0.0]; [0.0; 0.5; 0.0]; [0.0; 0.0; 0.5];
   [0.5; 0.0; 0.5]; [0.0; 0.5; 0.5]].
Definition lbasis (_index_error : result unit) (X : list float) (i : Z)
  : result (float * list float) :=
  unpack3 X (λ x y z,
    if decide (i = 0%Z) then
      Ok (1.0 - 3.0 * x + 2.0 * (x * x) - 3.0 * y + 4.0 * x * y
          + 2.0 * (y * y) - 3.0 * z + 4.0 * x * z + 4.0 * y * z
          + 2.0 * (z * z),
          [-3.0 + 4.0 * x + 4.0 * y + 4.0 * z;
           -3.0 + 4.0 * x + 4.0 * y + 4.0 * z;
           -3.0 + 4.0 * x + 4.0 * y + 4.0 * z])
    else if decide (i = 1%Z) then
      Ok (-1.0 * x + 2.0 * (x * x), [-1.0 + 4.0 * x; 0.0 * x; 0.0 * x])
    else if decide (i = 2%Z) then
      Ok (-1.0 * y + 2.0 * (y * y), [0.0 * x; -1.0 + 4.0 * y; 0.0 * x])
    else if decide (i = 3%Z) then
      Ok (-1.0 * z + 2.0 * (z * z), [0.0 * x; 0.0 * x; -1.0 + 4.0 * z])
    else if decide (i = 4%Z) then
      Ok (4.0 * x - 4.0 * (x * x) - 4.0 * x * y - 4.0 * x * z,
          [4.0 - 8.0 * x - 4.0 * y - 4.0 * z; -4.0 * x; -4.0 * x])
    else if decide (i = 5%Z) then
      Ok (4.0 * x * y, [4.0 * y; 4.0 * x; 0.0 * x])
    else if decide (i = 6%Z) then
      Ok (0.0 + 4.0 * y - 4.0 * x * y - 4.0 * (y * y) - 4.0 * y * z,
          [-4.0 * y; 4.0 - 4.0 * x - 8.0 * y - 4.0 * z; -4.0 * y])
    else if decide (i = 7%Z) then
      Ok (0.0 + 4.0 * z - 4.0 * x * z - 4.0 * y * z - 4.0 * (z * z),
          [-4.0 * z; -4.0 * z; 4.0 - 4.0 * x - 4.0 * y - 8.0 * z])
    else if decide (i = 8%Z) then
      Ok (0.0 + 4.0 * x * z, [4.0 * z; 0.0 * x; 4.0 * x])
    else if decide (i = 9%Z) then
      Ok (0.0 + 4.0 * y * z, [0.0 * x; 4.0 * z; 4.0 * y])
    else out_of_range _index_error).
End ElementTetP2.

End Elements.

Import Py Np.

Module NpFacts.

Lemma bind_Ok {A B} (a : A) (k : A → result B) : (Ok a ≫= k) = k a.
Proof. reflexivity. Qed.

Lemma bind_Ok_inv {A B} (m : result A) (k : A → result B) y :
  (m ≫= k) = Ok y → ∃ x, m = Ok x ∧ k x = Ok y.
Proof. destruct m as [x|e]; [eauto|done]. Qed.

(** Inverts a hypothesis [x ← m; k = Ok y]. *)
Ltac inv_bind H :=
  let x := fresh "x" in let Hx := fresh "H" x in
  apply bind_Ok_inv in H as (x & Hx & H).

Lemma bind_Raise {A B} (e : exn) (k : A → result B) :
  (Raise e ≫= k) = Raise e.
Proof. reflexivity. Qed.

Lemma mapR_fmap {X B} (f : X → result B) (g : X → B) (l : list X) :
  Forall (λ x, f x = Ok (g x)) l → mapR f l = Ok (g <$> l).
Proof.
  induction 1 as [|x l Hx _ IH]; simpl; [done|].
  by rewrite Hx, IH.
Qed.

Lemma mapR_Ok_length {X B} (f : X → result B) (l : list X) ys :
  mapR f l = Ok ys → length ys = length l.
Proof.
  revert ys. induction l as [|x l IH]; intros ys; simpl.
  - by intros [= <-].
  - destruct (f x); simpl; [|done].
    destruct (mapR f l); simpl; [|done].
    intros [= <-]. simpl. f_equal. by apply IH.
Qed.

Section Lists.
Context {A : Type}.
Implicit Types (l : list A) (m : matrix A).

Lemma getitem_Ok `{!Inhabited A} l i :
  i < length l → getitem l i = Ok (l !!! i).
Proof.
  intros Hi. unfold getitem.
  destruct (lookup_lt_is_Some_2 l i Hi) as [x Hx].
  by rewrite Hx, (list_lookup_total_correct _ _ _ Hx).
Qed.

Lemma getitems_Ok `{!Inhabited A} l ix :
  Forall (λ i, i < length l) ix → getitems l ix = Ok ((λ i, l !!! i) <$> ix).
Proof.
  intros H. unfold getitems. apply mapR_fmap. eapply Forall_impl; [exact H|].
  intros i Hi. by apply getitem_Ok.
Qed.

Lemma getitems_raises l ix :
  ¬ Forall (λ i, i < length l) ix → getitems l ix = Raise IndexError.
Proof.
  unfold getitems. induction ix as [|i ix IH]; intros Hn; simpl.
  - destruct Hn. constructor.
  - unfold getitem at 1. destruct (l !! i) as [x|] eqn:Hx; simpl; [|done].
    rewrite IH; [done|]. intros HF. apply Hn. constructor; [|done].
    by eapply lookup_lt_Some.
Qed.

Context `{!EqDecision A}.

Lemma index_of_not_in x l : x ∉ l → index_of x l = length l.
Proof.
  induction l as [|y l IH]; simpl; [done|].
  rewrite not_elem_of_cons. intros [Hne Hnin].
  rewrite decide_False by done. by rewrite IH.
Qed.

Lemma index_of_lookup x l : x ∈ l → l !! index_of x l = Some x.
Proof.
  induction l as [|y l IH]; simpl.
  - by intros ?%elem_of_nil.
  - intros Hin. destruct (decide (x = y)) as [->|Hne]; [done|].
    simpl. apply IH. apply elem_of_cons in Hin as [?|?]; done.
Qed.

Lemma index_of_lt x l : x ∈ l → index_of x l < length l.
Proof. intros Hin. eapply lookup_lt_Some, index_of_lookup, Hin. Qed.

Lemma index_of_le x l : index_of x l ≤ length l.
Proof.
  induction l as [|y l IH]; simpl; [lia|].
  destruct (decide (x = y)); lia.
Qed.

Lemma index_of_first x l j : j < index_of x l → l !! j ≠ Some x.
Proof.
  revert j. induction l as [|y l IH]; intros j; simpl; [lia|].
  destruct (decide (x = y)) as [->|Hne]; [lia|].
  destruct j as [|j]; simpl.
  - intros _ [= ->]. done.
  - intros Hj. apply IH. lia.
Qed.

(** The first occurrence is the least index holding [x]. *)
Lemma index_of_least x l j : l !! j = Some x → index_of x l ≤ j.
Proof.
  intros Hj. destruct (decide (index_of x l ≤ j)); [done|].
  exfalso. eapply (index_of_first x l j); [lia|done].
Qed.

Lemma index_of_inj x y l :
  x ∈ l → index_of x l = index_of y l → x = y.
Proof.
  intros Hx Heq. destruct (decide (y ∈ l)) as [Hy|Hy].
  - apply index_of_lookup in Hx, Hy. rewrite Heq in Hx. congruence.
  - apply index_of_not_in in Hy. apply index_of_lt in Hx. lia.
Qed.

Lemma index_of_lookup_NoDup l i x :
  NoDup l → l !! i = Some x → index_of x l = i.
Proof.
  intros Hnd Hi.
  eapply NoDup_lookup; [done| |done].
  apply index_of_lookup. by eapply list_elem_of_lookup_2.
Qed.

Section Unique.
Context (R : relation A) `{!∀ x y, Decision (R x y)}.
Implicit Types ar : list A.

Lemma unique_values_NoDup ar : NoDup (unique R ar).1.1.
Proof.
  simpl. rewrite merge_sort_Permutation. apply NoDup_remove_dups.
Qed.

Lemma unique_values_elem_of ar x : x ∈ (unique R ar).1.1 ↔ x ∈ ar.
Proof.
  simpl. rewrite merge_sort_Permutation. apply elem_of_remove_dups.
Qed.

Lemma unique_values_Sorted `{!Total R} ar : Sorted R (unique R ar).1.1.
Proof. simpl. by apply Sorted_merge_sort. Qed.

(** [return_index]: where each distinct value occurs first. *)
Lemma unique_index ar k x :
  (unique R ar).1.1 !! k = Some x →
  (unique R ar).1.2 !! k = Some (index_of x ar)
  ∧ ar !! index_of x ar = Some x.
Proof.
  simpl. intros Hk. rewrite list_lookup_fmap, Hk. split; [done|].
  apply index_of_lookup, unique_values_elem_of.
  by eapply list_elem_of_lookup_2.
Qed.

(** [return_inverse]: the distinct values, indexed by the inverse,
    give the array back. *)
Lemma unique_inverse ar k x :
  ar !! k = Some x →
  ∃ j, (unique R ar).2 !! k = Some j ∧ (unique R ar).1.1 !! j = Some x.
Proof.
  simpl. intros Hk. eexists. rewrite list_lookup_fmap, Hk. split; [done|].
  apply index_of_lookup.
  apply (unique_values_elem_of ar x). by eapply list_elem_of_lookup_2.
Qed.

Lemma unique_length_index ar :
  length (unique R ar).1.2 = length (unique R ar).1.1.
Proof. simpl. by rewrite length_fmap. Qed.

Lemma unique_length_inverse ar : length (unique R ar).2 = length ar.
Proof. simpl. by rewrite length_fmap. Qed.
End Unique.

End Lists.

Section Matrices.
Context {A : Type}.
Implicit Types (l r c : list A) (m : matrix A).

Lemma rect_cons_inv r m : rect (r :: m) → Forall (λ r', length r' = length r) m.
Proof. unfold rect. simpl. by intros [_ ?]%Forall_cons. Qed.

Lemma rect_lookup m i r : rect m → m !! i = Some r → length r = shape1 m.
Proof. intros Hm Hi. by eapply (Forall_lookup_1 _ _ _ _ Hm Hi). Qed.

Lemma rect_rows_lt m k :
  rect m → k < shape1 m → Forall (λ r, k < length r) m.
Proof.
  intros Hm Hk. eapply Forall_impl; [exact Hm|]. simpl. intros r ->. done.
Qed.

Lemma shape1_pos_nonempty m : shape1 m ≠ 0 → m ≠ [].
Proof. by destruct m. Qed.

Lemma column_lookup m k i :
  Forall (λ r, k < length r) m → column m k !! i = get2 m i k.
Proof.
  unfold column, get2. intros Hm. revert i.
  induction Hm as [|r m Hr _ IH]; intros i; simpl; [done|].
  destruct (lookup_lt_is_Some_2 r k Hr) as [x Hx]. rewrite Hx.
  destruct i as [|i]; simpl; [done|]. apply IH.
Qed.

Lemma length_column m k :
  Forall (λ r, k < length r) m → length (column m k) = length m.
Proof.
  unfold column. induction 1 as [|r m Hr _ IH]; simpl; [done|].
  destruct (lookup_lt_is_Some_2 r k Hr) as [x Hx]. rewrite Hx.
  simpl. f_equal. exact IH.
Qed.

Lemma length_transpose m : length (transpose m) = shape1 m.
Proof. unfold transpose. by rewrite length_fmap, length_seq. Qed.

Lemma transpose_lookup m k :
  k < shape1 m → transpose m !! k = Some (column m k).
Proof.
  intros Hk. unfold transpose.
  by rewrite list_lookup_fmap, lookup_seq_lt.
Qed.

Lemma transpose_rows m :
  rect m → Forall (λ c, length c = length m) (transpose m).
Proof.
  intros Hm. apply Forall_lookup_2. intros k c Hk.
  assert (k < shape1 m) as Hlt.
  { rewrite <-length_transpose. by eapply lookup_lt_Some. }
  rewrite transpose_lookup in Hk by done. injection Hk as <-.
  by apply length_column, rect_rows_lt.
Qed.

Lemma shape1_transpose m :
  rect m → shape1 m ≠ 0 → shape1 (transpose m) = length m.
Proof.
  intros Hm Hn.
  destruct (transpose m) as [|c cs] eqn:Ht.
  - apply (f_equal length) in Ht. rewrite length_transpose in Ht. done.
  - simpl. pose proof (transpose_rows m Hm) as Hr.
    rewrite Ht in Hr. by apply Forall_cons in Hr as [? _].
Qed.

Lemma rect_transpose m : rect m → shape1 m ≠ 0 → rect (transpose m).
Proof.
  intros Hm Hn. unfold rect. rewrite shape1_transpose by done.
  by apply transpose_rows.
Qed.

Lemma get2_transpose m i k : rect m → get2 (transpose m) k i = get2 m i k.
Proof.
  intros Hm. unfold get2 at 1.
  destruct (decide (k < shape1 m)) as [Hk|Hk].
  - rewrite transpose_lookup by done. simpl.
    by apply column_lookup, rect_rows_lt.
  - rewrite lookup_ge_None_2 by (rewrite length_transpose; lia).
    simpl. unfold get2. destruct (m !! i) as [r|] eqn:Hi; simpl; [|done].
    symmetry. apply lookup_ge_None_2.
    rewrite (rect_lookup m i r) by done. lia.
Qed.

Lemma transpose_involutive m :
  rect m → shape1 m ≠ 0 → transpose (transpose m) = m.
Proof.
  intros Hm Hn. apply list_eq. intros i.
  destruct (decide (i < length m)) as [Hi|Hi].
  - rewrite transpose_lookup by (rewrite shape1_transpose; done).
    destruct (lookup_lt_is_Some_2 m i Hi) as [r Hr]. rewrite Hr. f_equal.
    apply list_eq. intros k.
    rewrite column_lookup.
    + rewrite get2_transpose by done. unfold get2. by rewrite Hr.
    + eapply Forall_impl; [by apply transpose_rows|]. simpl. by intros c ->.
  - rewrite !lookup_ge_None_2; [done|lia|].
    rewrite length_transpose, shape1_transpose by done. lia.
Qed.

(** *** [hstack] *)

Lemma shape1_zip_with_app m1 m2 :
  length m1 = length m2 →
  shape1 (zip_with app m1 m2) = shape1 m1 + shape1 m2.
Proof. destruct m1, m2; simpl; try done. intros _. by rewrite length_app. Qed.

Lemma rect_zip_with_app m1 m2 :
  rect m1 → rect m2 → length m1 = length m2 → rect (zip_with app m1 m2).
Proof.
  intros H1 H2 Hl. unfold rect. rewrite shape1_zip_with_app by done.
  apply Forall_lookup_2. intros i r Hi.
  apply lookup_zip_with_Some in Hi as (r1 & r2 & -> & Hr1 & Hr2).
  rewrite length_app.
  by rewrite (rect_lookup m1 i r1), (rect_lookup m2 i r2).
Qed.

Lemma get2_zip_with_app m1 m2 i k :
  rect m1 → length m1 = length m2 →
  get2 (zip_with app m1 m2) i k =
    if decide (k < shape1 m1) then get2 m1 i k
    else get2 m2 i (k - shape1 m1).
Proof.
  intros H1 Hl. unfold get2. rewrite lookup_zip_with.
  destruct (m1 !! i) as [r1|] eqn:Hr1; simpl.
  - destruct (m2 !! i) as [r2|] eqn:Hr2; simpl.
    + pose proof (rect_lookup _ _ _ H1 Hr1) as Hlen.
      case_decide.
      * by rewrite lookup_app_l by lia.
      * rewrite lookup_app_r by lia. by rewrite Hlen.
    + apply lookup_ge_None in Hr2. apply lookup_lt_Some in Hr1. lia.
  - apply lookup_ge_None in Hr1.
    rewrite (lookup_ge_None_2 m2) by lia. simpl. by case_decide.
Qed.

Lemma transpose_zip_with_app m1 m2 :
  rect m1 → rect m2 → length m1 = length m2 →
  transpose (zip_with app m1 m2) = transpose m1 ++ transpose m2.
Proof.
  intros H1 H2 Hl.
  pose proof (rect_zip_with_app _ _ H1 H2 Hl) as Hz.
  apply list_eq. intros k.
  destruct (decide (k < shape1 m1 + shape1 m2)) as [Hk|Hk].
  - rewrite transpose_lookup by (rewrite shape1_zip_with_app; done).
    destruct (decide (k < shape1 m1)) as [Hk1|Hk1].
    + rewrite lookup_app_l by (rewrite length_transpose; done).
      rewrite transpose_lookup by done. f_equal.
      apply list_eq. intros i.
      rewrite !column_lookup.
      * rewrite get2_zip_with_app by done. by rewrite decide_True.
      * by apply rect_rows_lt.
      * apply rect_rows_lt; [done|]. rewrite shape1_zip_with_app; done.
    + rewrite lookup_app_r by (rewrite length_transpose; lia).
      rewrite length_transpose.
      rewrite transpose_lookup by lia. f_equal.
      apply list_eq. intros i.
      rewrite !column_lookup.
      * rewrite get2_zip_with_app by done. by rewrite decide_False.
      * apply rect_rows_lt; [done|lia].
      * apply rect_rows_lt; [done|]. rewrite shape1_zip_with_app; done.
  - rewrite !lookup_ge_None_2; [done| |].
    + rewrite length_app, !length_transpose. lia.
    + rewrite length_transpose, shape1_zip_with_app by done. lia.
Qed.

Lemma hstack_rows_spec m ms :
  rect m → Forall rect ms → Forall (λ m', length m' = length m) ms →
  rect (hstack_rows m ms)
  ∧ length (hstack_rows m ms) = length m
  ∧ transpose (hstack_rows m ms) = transpose m ++ mjoin (transpose <$> ms).
Proof.
  intros Hm Hms. revert m Hm.
  induction Hms as [|m' ms Hm' _ IH]; intros m Hm Hl; simpl.
  - by rewrite app_nil_r.
  - apply Forall_cons in Hl as [Hl1 Hl].
    destruct (IH m' Hm') as (IH1 & IH2 & IH3).
    { eapply Forall_impl; [exact Hl|]. simpl. intros ? ->. done. }
    assert (length m = length (hstack_rows m' ms)) as Hlen by congruence.
    split_and!.
    + by apply rect_zip_with_app.
    + rewrite length_zip_with. lia.
    + rewrite transpose_zip_with_app by done. by rewrite IH3.
Qed.

Lemma hstack_Ok m ms :
  Forall (λ m', length m' = length m) ms →
  hstack (m :: ms) = Ok (hstack_rows m ms).
Proof.
  intros Hl. unfold hstack.
  destruct (forallb _ ms) eqn:Hb; [done|].
  apply not_true_iff_false in Hb. destruct Hb.
  apply forallb_forall. intros m' Hm'%list_elem_of_In.
  apply bool_decide_eq_true. unfold shape0.
  by eapply (proj1 (Forall_forall _ _) Hl).
Qed.

(** *** [reshape] *)

Lemma reshape_join_same (n : nat) (ls : list (list A)) :
  Forall (λ l, length l = n) ls →
  reshape (replicate (length ls) n) (mjoin ls) = ls.
Proof.
  induction 1 as [|l ls Hl _ IH]; simpl; [done|].
  assert (take n (l ++ mjoin ls) = l) as ->
    by (rewrite <-Hl; apply take_app_length).
  assert (drop n (l ++ mjoin ls) = mjoin ls) as ->
    by (rewrite <-Hl; apply drop_app_length).
  by rewrite IH.
Qed.

Lemma length_join_same (n : nat) (ls : list (list A)) :
  Forall (λ l, length l = n) ls → length (mjoin ls) = length ls * n.
Proof.
  induction 1 as [|l ls Hl _ IH]; simpl; [done|].
  rewrite length_app, IH, Hl. lia.
Qed.

End Matrices.

End NpFacts.

Import Py Np Topology NpFacts.

Module TopologyFacts.

Lemma length_sort a : length (sort a) = length a.
Proof. unfold sort. by rewrite merge_sort_Permutation. Qed.

Lemma Sorted_sort a : Sorted Z.le (sort a).
Proof. unfold sort. apply (Sorted_merge_sort _). Qed.

Lemma sort_Permutation a : sort a ≡ₚ a.
Proof. apply merge_sort_Permutation. Qed.

Lemma fmap_mjoin {A B} (f : A → B) (ls : list (list A)) :
  f <$> mjoin ls = mjoin (fmap f <$> ls).
Proof.
  induction ls as [|l ls IH]; simpl; [done|]. by rewrite fmap_app, IH.
Qed.

Section BuildEntities.
Context (t : matrix Z) (indices : list (list nat)) (k : nat).
Context (Ht : valid_connectivity t) (Hix : valid_templates t indices k).

Lemma length_entity ix e : length (entity t ix e) = length ix.
Proof. unfold entity. by rewrite length_fmap. Qed.

Lemma row_length i : i < shape0 t → length (t !!! i) = shape1 t.
Proof.
  intros Hi. destruct Ht as [Hr _].
  destruct (lookup_lt_is_Some_2 t i Hi) as [r Hri].
  rewrite (list_lookup_total_correct _ _ _ Hri).
  by eapply rect_lookup.
Qed.

(** The rows [t[ix]] selected by a template. *)
Definition part (ix : list nat) : matrix Z := (λ i, t !!! i) <$> ix.

Lemma getitems_part ix :
  Forall (λ i, i < shape0 t) ix → getitems t ix = Ok (part ix).
Proof. intros H. by apply getitems_Ok. Qed.

Lemma column_part ix e :
  Forall (λ i, i < shape0 t) ix → e < shape1 t →
  column (part ix) e = entity t ix e.
Proof.
  intros H He. unfold column, part, entity.
  induction H as [|i ix Hi _ IH]; simpl; [done|].
  rewrite list_lookup_lookup_total_lt by (rewrite row_length; done).
  simpl. f_equal. exact IH.
Qed.

Lemma shape1_part ix :
  ix ≠ [] → Forall (λ i, i < shape0 t) ix → shape1 (part ix) = shape1 t.
Proof.
  destruct ix as [|i ix]; [done|]. intros _ [Hi _]%Forall_cons.
  simpl. by apply row_length.
Qed.

Lemma rect_part ix :
  ix ≠ [] → Forall (λ i, i < shape0 t) ix → rect (part ix).
Proof.
  intros Hne H. unfold rect. rewrite shape1_part by done.
  unfold part. apply Forall_fmap. eapply Forall_impl; [exact H|].
  simpl. intros i Hi. by apply row_length.
Qed.

Lemma transpose_part ix :
  ix ≠ [] → Forall (λ i, i < shape0 t) ix →
  transpose (part ix) = template_occurrences t ix.
Proof.
  intros Hne H. unfold transpose, template_occurrences.
  rewrite shape1_part by done.
  apply list_fmap_ext. intros j e Hj.
  apply lookup_seq in Hj as [-> Hj]. by apply column_part.
Qed.

Lemma template_facts ix :
  ix ∈ indices → length ix = k ∧ ix ≠ [] ∧ Forall (λ i, i < shape0 t) ix.
Proof.
  destruct Hix as (_ & Hk & HF). intros Hin.
  destruct (proj1 (Forall_forall _ _) HF ix Hin) as [Hl Hb].
  split_and!; [done| |done]. intros ->. simpl in Hl. done.
Qed.

Lemma parts_Ok : mapR (getitems t) indices = Ok (part <$> indices).
Proof.
  apply mapR_fmap, Forall_forall. intros ix Hin.
  apply getitems_part. by apply template_facts.
Qed.

Lemma hstack_parts (ixs : list (list nat)) :
  ixs ≠ [] →
  (∀ ix, ix ∈ ixs →
     length ix = k ∧ ix ≠ [] ∧ Forall (λ i, i < shape0 t) ix) →
  ∃ indexing, hstack (part <$> ixs) = Ok indexing
    ∧ rect indexing ∧ length indexing = k
    ∧ transpose indexing = mjoin (template_occurrences t <$> ixs).
Proof.
  destruct ixs as [|ix0 ixs]; [done|]. intros _ Hall.
  rewrite !fmap_cons.
  destruct (Hall ix0) as (Hl0 & Hne0 & Hb0); [by left|].
  assert (Forall rect (part <$> ixs)) as Hr.
  { apply Forall_fmap, Forall_forall. intros ix Hin.
    destruct (Hall ix) as (_ & ? & ?); [by right|]. by apply rect_part. }
  assert (Forall (λ m', length m' = length (part ix0)) (part <$> ixs)) as Hls.
  { apply Forall_fmap, Forall_forall. intros ix Hin.
    destruct (Hall ix) as (? & _ & _); [by right|].
    simpl. unfold part. rewrite !length_fmap. congruence. }
  destruct (hstack_rows_spec (part ix0) (part <$> ixs)) as (H1 & H2 & H3);
    [by apply rect_part|done|done|].
  eexists. split; [by apply hstack_Ok|]. split_and!; [done| |].
  - rewrite H2. unfold part. by rewrite length_fmap.
  - rewrite H3. simpl. f_equal.
    + by apply transpose_part.
    + f_equal. rewrite <-list_fmap_compose.
      apply Forall_fmap_ext, Forall_forall. intros ix Hin.
      destruct (Hall ix) as (_ & ? & ?); [by right|].
      simpl. by apply transpose_part.
Qed.

(** The array [indexing] of the source: its columns are the
    occurrences. *)
Lemma indexing_Ok :
  ∃ indexing, hstack (part <$> indices) = Ok indexing
    ∧ rect indexing ∧ length indexing = k
    ∧ transpose indexing = occurrences t indices.
Proof.
  apply hstack_parts; [by destruct Hix|]. apply template_facts.
Qed.

Lemma occurrences_lengths :
  Forall (λ c, length c = k) (occurrences t indices).
Proof.
  unfold occurrences. apply Forall_forall. intros c Hc.
  apply list_elem_of_join in Hc as (l & Hc & Hl).
  apply list_elem_of_fmap in Hl as (ix & -> & Hin).
  apply list_elem_of_fmap in Hc as (e & -> & _).
  rewrite length_entity. by apply template_facts.
Qed.

Lemma length_occurrences :
  length (occurrences t indices) = length indices * shape1 t.
Proof.
  unfold occurrences.
  rewrite (length_join_same (shape1 t)), length_fmap; [done|].
  apply Forall_fmap, Forall_forall. intros ix _. simpl.
  unfold template_occurrences. by rewrite length_fmap, length_seq.
Qed.

Lemma occurrences_nonempty : occurrences t indices ≠ [].
Proof.
  intros Hn. apply (f_equal length) in Hn.
  rewrite length_occurrences in Hn. simpl in Hn.
  destruct Hix as (Hne & _). destruct Ht as [_ Hnt].
  destruct indices; [done|]. simpl in Hn. lia.
Qed.

(** The columns of [np.sort(indexing, axis=0)]. *)
Definition sorted_occurrences : list (list Z) :=
  sort <$> occurrences t indices.

Lemma sorted_occurrences_rect :
  rect sorted_occurrences ∧ shape1 sorted_occurrences = k.
Proof.
  pose proof occurrences_lengths as Hl.
  pose proof occurrences_nonempty as Hne.
  unfold sorted_occurrences.
  assert (Forall (λ c, length c = k) (sort <$> occurrences t indices)) as H.
  { apply Forall_fmap. eapply Forall_impl; [exact Hl|].
    simpl. intros c Hc. by rewrite length_sort. }
  destruct (occurrences t indices) as [|c cs]; [done|].
  simpl in *. apply Forall_cons in H as H'. destruct H' as [Hc _].
  split; [|done]. unfold rect. simpl. by rewrite Hc.
Qed.

(** The distinct entities, in the order of [np.unique]. *)
Definition entities : list (list Z) :=
  merge_sort col_le (remove_dups sorted_occurrences).

Lemma entities_elem_of c : c ∈ entities ↔ c ∈ sorted_occurrences.
Proof.
  unfold entities. rewrite merge_sort_Permutation.
  apply elem_of_remove_dups.
Qed.

Lemma entities_NoDup : NoDup entities.
Proof.
  unfold entities. rewrite merge_sort_Permutation.
  apply NoDup_remove_dups.
Qed.

Lemma entities_rect :
  rect entities ∧ shape1 entities = k ∧ entities ≠ [].
Proof.
  destruct sorted_occurrences_rect as [Hr Hs].
  assert (Forall (λ c, length c = k) entities) as H.
  { apply Forall_forall. intros c Hc%entities_elem_of.
    rewrite <-Hs. by apply (proj1 (Forall_forall _ _) Hr). }
  assert (entities ≠ []) as Hne.
  { pose proof occurrences_nonempty as Ho.
    destruct (occurrences t indices) as [|c cs] eqn:Hocc; [done|].
    intros Hn. assert (sort c ∈ entities) as Hin.
    { apply entities_elem_of. unfold sorted_occurrences.
      rewrite Hocc. simpl. by left. }
    rewrite Hn in Hin. by apply elem_of_nil in Hin. }
  destruct entities as [|c cs]; [done|].
  apply Forall_cons in H as H'. destruct H' as [Hc _].
  split_and!; [|done|done]. unfold rect. simpl. by rewrite Hc.
Qed.

Lemma transpose_entities : transpose (transpose entities) = entities.
Proof.
  destruct entities_rect as (Hr & Hs & _). destruct Hix as (_ & Hk & _).
  apply transpose_involutive; [done|]. by rewrite Hs.
Qed.

(** The element-to-entity map in closed form. *)
Definition mapping_of : matrix nat :=
  (λ ix, (λ e, index_of (sort (entity t ix e)) entities)
           <$> seq 0 (shape1 t)) <$> indices.

Lemma build_entities_sorted :
  build_entities t indices true = Ok (transpose entities, mapping_of).
Proof.
  unfold build_entities.
  rewrite parts_Ok. simpl.
  destruct indexing_Ok as (indexing & -> & Hrect & Hlen & Htr). simpl.
  unfold sort_axis0, unique_axis1. rewrite Htr.
  fold sorted_occurrences.
  destruct sorted_occurrences_rect as [Hr Hs].
  destruct Hix as (_ & Hk & _).
  rewrite transpose_involutive by (done || by rewrite Hs).
  unfold unique. fold entities.
  unfold reshape2.
  rewrite bool_decide_eq_true_2; last first.
  { unfold sorted_occurrences.
    by rewrite !length_fmap, length_occurrences. }
  simpl. do 2 f_equal.
  unfold sorted_occurrences, occurrences.
  rewrite !fmap_mjoin.
  rewrite <-(length_fmap (template_occurrences t) indices).
  rewrite <-(length_fmap (fmap sort)).
  rewrite <-(length_fmap (fmap (λ x, index_of x entities))).
  rewrite (reshape_join_same (shape1 t)).
  - rewrite <-!list_fmap_compose. apply list_fmap_ext. intros i ix _.
    simpl. unfold template_occurrences.
    rewrite <-!list_fmap_compose. done.
  - rewrite <-!list_fmap_compose. apply Forall_fmap, Forall_forall.
    intros ix _. simpl. unfold template_occurrences.
    by rewrite !length_fmap, length_seq.
Qed.

Lemma mapping_of_get2 r ix e :
  indices !! r = Some ix → e < shape1 t →
  get2 mapping_of r e = Some (index_of (sort (entity t ix e)) entities).
Proof.
  intros Hr He. unfold get2, mapping_of.
  rewrite list_lookup_fmap, Hr. simpl.
  by rewrite list_lookup_fmap, lookup_seq_lt.
Qed.

Lemma sorted_entity_elem_of r ix e :
  indices !! r = Some ix → e < shape1 t →
  sort (entity t ix e) ∈ entities.
Proof.
  intros Hr He. apply entities_elem_of.
  unfold sorted_occurrences, occurrences.
  apply list_elem_of_fmap. eexists. split; [done|].
  apply list_elem_of_join. exists (template_occurrences t ix). split.
  - unfold template_occurrences. apply list_elem_of_fmap.
    exists e. split; [done|]. apply elem_of_seq. lia.
  - apply list_elem_of_fmap. exists ix. split; [done|].
    by eapply list_elem_of_lookup_2.
Qed.

Lemma entities_from_occurrence c :
  c ∈ entities →
  ∃ r ix e, indices !! r = Some ix ∧ e < shape1 t
            ∧ c = sort (entity t ix e).
Proof.
  intros Hc%entities_elem_of. unfold sorted_occurrences, occurrences in Hc.
  apply list_elem_of_fmap in Hc as (o & -> & Ho).
  apply list_elem_of_join in Ho as (l & Ho & Hl).
  apply list_elem_of_fmap in Hl as (ix & -> & Hin).
  apply list_elem_of_fmap in Ho as (e & -> & He).
  apply list_elem_of_lookup in Hin as [r Hr].
  apply elem_of_seq in He. exists r, ix, e. split_and!; [done|lia|done].
Qed.

Lemma build_entities_meets_spec :
  entities_spec t indices (transpose entities) mapping_of.
Proof.
  unfold entities_spec. rewrite transpose_entities. split_and!.
  - apply entities_NoDup.
  - apply Forall_forall. intros c Hc.
    apply entities_from_occurrence in Hc as (r & ix & e & _ & _ & ->).
    apply Sorted_sort.
  - apply entities_from_occurrence.
  - unfold shape0, mapping_of. by rewrite length_fmap.
  - unfold mapping_of. apply Forall_fmap, Forall_forall. intros ix _.
    simpl. by rewrite length_fmap, length_seq.
  - intros r ix e Hr He. eexists. split; [by apply mapping_of_get2|].
    apply index_of_lookup. by eapply sorted_entity_elem_of.
  - intros r1 ix1 e1 f1 r2 ix2 e2 f2 Hr1 He1 Hf1 Hr2 He2 Hf2.
    rewrite (mapping_of_get2 r1 ix1 e1) in Hf1 by done.
    rewrite (mapping_of_get2 r2 ix2 e2) in Hf2 by done.
    injection Hf1 as <-. injection Hf2 as <-. split.
    + by intros ->.
    + apply index_of_inj. by eapply sorted_entity_elem_of.
Qed.

End BuildEntities.

(** C3.  For a connectivity array [t] (a row per local node, a column per
    element) and a list of local sub-entity templates over its rows,
    [build_entities] returns the deduplicated array of sub-entities, each
    canonicalised by sorting its node indices, together with the
    element-to-entity map of shape (templates, elements) that records for
    every occurrence the unique entity it resolved to; two occurrences
    with the same sorted node tuple resolve to the same index. *)
Theorem build_entities_spec t indices k :
  valid_connectivity t → valid_templates t indices k →
  ∃ ents mapping,
    build_entities t indices true = Ok (ents, mapping)
    ∧ entities_spec t indices ents mapping.
Proof.
  intros Ht Hix. eexists _, _. split.
  - by eapply build_entities_sorted.
  - by eapply build_entities_meets_spec.
Qed.

Lemma tri2_valid : valid_connectivity tri2.
Proof. split; [|done]. by repeat constructor. Qed.

Lemma tri_facets_valid : valid_templates tri2 tri_facets 2.
Proof.
  split_and!; [done|done|]. unfold shape0. simpl.
  repeat constructor; lia.
Qed.

Lemma build_entities_spec_witness :
  ∃ ents mapping,
    build_entities tri2 tri_facets true = Ok (ents, mapping)
    ∧ entities_spec tri2 tri_facets ents mapping.
Proof.
  apply (build_entities_spec tri2 tri_facets 2).
  - apply tri2_valid.
  - apply tri_facets_valid.
Defined.

End TopologyFacts.

Import Py Np Topology NpFacts TopologyFacts.

Module InverseFacts.

Section Writes.
Context {A : Type}.
Implicit Types (l : list A) (idx : list nat).

Lemma getitems_fmap {X} (a : list A) (g : X → nat) (h : X → A)
    (u : list X) :
  Forall (λ x, a !! g x = Some (h x)) u →
  getitems a (g <$> u) = Ok (h <$> u).
Proof.
  unfold getitems. induction 1 as [|x u Hx _ IH]; [done|].
  rewrite !fmap_cons. cbn [mapR]. unfold getitem at 1.
  rewrite Hx. cbn [bind]. by rewrite IH.
Qed.

Lemma scatter_fmap (g : nat → A) l idx :
  Forall (λ i, i < length l) idx →
  ∃ l', scatter l idx (g <$> idx) = Ok l'
    ∧ length l' = length l
    ∧ ∀ j, l' !! j = if decide (j ∈ idx) then Some (g j) else l !! j.
Proof.
  intros H. revert l H.
  induction idx as [|i idx IH]; intros l H.
  - exists l. split_and!; [done..|]. intros j.
    rewrite decide_False; [done|]. apply not_elem_of_nil.
  - apply Forall_cons in H as [Hi H].
    rewrite fmap_cons. cbn [scatter].
    rewrite bool_decide_eq_true_2 by done.
    destruct (IH (<[i:=g i]> l)) as (l' & Hs & Hl & Hlk).
    { by rewrite length_insert. }
    exists l'. split_and!; [done|by rewrite Hl, length_insert|].
    intros j. rewrite Hlk.
    destruct (decide (j ∈ idx)) as [Hj|Hj].
    + rewrite decide_True; [done|]. by right.
    + destruct (decide (j = i)) as [->|Hne].
      * rewrite decide_True by (by left).
        by rewrite list_lookup_insert_eq.
      * rewrite decide_False; [by rewrite list_lookup_insert_ne|].
        intros [?|?]%elem_of_cons; done.
Qed.

Lemma fill_at_spec (v : A) l idx :
  Forall (λ i, i < length l) idx →
  ∃ l', fill_at l idx v = Ok l'
    ∧ length l' = length l
    ∧ ∀ j, l' !! j = if decide (j ∈ idx) then Some v else l !! j.
Proof.
  intros H.
  destruct (scatter_fmap (λ _, v) l idx H) as (l' & Hs & Hl & Hlk).
  exists l'. split_and!; [|done..].
  rewrite <-Hs. clear. revert l.
  induction idx as [|i idx IH]; intros l; simpl; [done|].
  case_bool_decide; [|done]. apply IH.
Qed.

Lemma tile_row_prefix l (m n : nat) :
  m ≤ n → ∃ rest, tile_row l n = tile_row l m ++ rest.
Proof.
  intros Hmn. unfold tile_row.
  replace n with (m + (n - m)) by lia.
  rewrite replicate_add, join_app. eauto.
Qed.

End Writes.

Lemma nonzero_elem_of mask i : i ∈ nonzero mask ↔ mask !! i = Some true.
Proof.
  unfold nonzero. rewrite list_elem_of_omap. split.
  - intros ([j b] & Hin & Hb). simpl in Hb.
    apply elem_of_lookup_imap in Hin as (j' & b' & [= -> ->] & Hj).
    destruct b'; by simplify_eq.
  - intros Hi. exists (i, true). split; [|done].
    apply elem_of_lookup_imap. eauto.
Qed.

Lemma amax_Ok a : a ≠ [] → amax a = Ok (max_list a).
Proof. by destruct a. Qed.

Lemma nonzero_bound mask : Forall (λ i, i < length mask) (nonzero mask).
Proof.
  apply Forall_forall. intros i Hi%nonzero_elem_of.
  by eapply lookup_lt_Some.
Qed.

(** *** First and last occurrence in a list of (key, value) pairs *)
Section Pairs.
Context {A B : Type} `{!EqDecision A}.
Implicit Types (ps : list (A * B)) (x : A).

Lemma head_filter_index x ps :
  x ∈ ps.*1 →
  head (filter (λ p, p.1 = x) ps).*2 = ps.*2 !! index_of x ps.*1.
Proof.
  induction ps as [|[a b] ps IH]; simpl.
  - by intros ?%elem_of_nil.
  - intros Hin. rewrite filter_cons. simpl.
    destruct (decide (x = a)) as [->|Hne].
    + by rewrite decide_True.
    + rewrite decide_False by done. simpl. apply IH.
      apply elem_of_cons in Hin as [?|?]; done.
Qed.

Lemma last_filter_index x ps :
  x ∈ ps.*1 →
  last (filter (λ p, p.1 = x) ps).*2
  = ps.*2 !! (length ps.*1 - index_of x (reverse ps.*1) - 1).
Proof.
  intros Hin.
  rewrite <-head_reverse, <-fmap_reverse, <-filter_reverse.
  rewrite head_filter_index by (rewrite fmap_reverse; by apply elem_of_reverse).
  rewrite !fmap_reverse.
  assert (index_of x (reverse ps.*1) < length ps.*1) as Hlt.
  { rewrite <-length_reverse. apply index_of_lt. by apply elem_of_reverse. }
  rewrite length_fmap in Hlt.
  rewrite reverse_lookup by (by rewrite length_fmap).
  rewrite !length_fmap. f_equal. lia.
Qed.

Lemma filter_nonempty_elem_of x ps :
  filter (λ p, p.1 = x) ps ≠ [] ↔ x ∈ ps.*1.
Proof.
  split.
  - intros Hne. destruct (filter _ ps) as [|p l] eqn:Hf; [done|].
    assert (p ∈ filter (λ p, p.1 = x) ps) as Hp by (rewrite Hf; by left).
    apply list_elem_of_filter in Hp as [<- Hp].
    apply list_elem_of_fmap. eauto.
  - intros (p & -> & Hp)%list_elem_of_fmap Hn.
    assert (p ∈ filter (λ q, q.1 = p.1) ps) as Hin
      by (by apply list_elem_of_filter).
    rewrite Hn in Hin. by apply elem_of_nil in Hin.
Qed.
End Pairs.

(** *** The scan order *)
Section Scan.
Context (mapping : matrix nat).

Lemma scan_fst : (scan mapping).*1 = flatten mapping.
Proof.
  unfold scan, flatten. rewrite fmap_mjoin. f_equal.
  rewrite <-list_fmap_compose.
  induction mapping as [|row m IH]; [done|].
  rewrite fmap_cons. f_equal; [|done].
  simpl. apply fst_zip. by rewrite length_seq.
Qed.

Lemma scan_snd :
  rect mapping →
  (scan mapping).*2 = tile_row (arange (shape1 mapping)) (shape0 mapping).
Proof.
  intros Hr. unfold scan, tile_row, arange, shape0.
  rewrite fmap_mjoin. f_equal. rewrite <-list_fmap_compose.
  revert Hr. unfold rect. generalize (shape1 mapping). intros n Hr.
  induction Hr as [|row m Hrow _ IH]; [done|].
  rewrite fmap_cons. simpl. f_equal; [|done].
  rewrite Hrow. apply snd_zip. rewrite length_seq. lia.
Qed.

Lemma owners_nonempty f : owners mapping f ≠ [] ↔ f ∈ flatten mapping.
Proof.
  unfold owners. rewrite <-scan_fst, <-filter_nonempty_elem_of.
  split; intros H Hn; apply H.
  - by rewrite Hn.
  - by apply fmap_nil_inv in Hn.
Qed.

Lemma first_owner_index f :
  f ∈ flatten mapping →
  first_owner mapping f
  = (scan mapping).*2 !! index_of f (flatten mapping).
Proof.
  intros Hf. unfold first_owner, owners. rewrite <-scan_fst.
  apply head_filter_index. by rewrite scan_fst.
Qed.

Lemma last_owner_index f :
  f ∈ flatten mapping →
  last_owner mapping f
  = (scan mapping).*2 !! (length (flatten mapping)
                          - index_of f (reverse (flatten mapping)) - 1).
Proof.
  intros Hf. unfold last_owner, owners. rewrite <-scan_fst.
  apply last_filter_index. by rewrite scan_fst.
Qed.
End Scan.

Section BuildInverse.
Context (t : matrix Z) (mapping : matrix nat).
Context (Ht : valid_connectivity t) (Hm : valid_mapping t mapping).

Let e := flatten mapping.
Let sc2 := (scan mapping).*2.

Lemma length_sc2 : length sc2 = length e.
Proof.
  unfold sc2, e. by rewrite <-scan_fst, !length_fmap.
Qed.

Lemma tix_prefix :
  ∃ rest, tile_row (arange (shape1 t)) (shape0 t) = sc2 ++ rest.
Proof.
  destruct Hm as (Hr & Hs1 & Hs0). unfold sc2.
  rewrite scan_snd by done. rewrite Hs1. by apply tile_row_prefix.
Qed.

Lemma tix_lookup p :
  p < length e →
  ∃ el, sc2 !! p = Some el
        ∧ tile_row (arange (shape1 t)) (shape0 t) !! p = Some el.
Proof.
  intros Hp. destruct tix_prefix as [rest ->].
  rewrite <-length_sc2 in Hp.
  destruct (lookup_lt_is_Some_2 _ _ Hp) as [el Hel].
  exists el. split; [done|]. by apply lookup_app_l_Some.
Qed.

Lemma e_nonempty : e ≠ [].
Proof.
  destruct Ht as [_ Hnt]. destruct Hm as (Hr & Hs1 & _).
  unfold e, flatten. destruct mapping as [|row m]; simpl in *; [lia|].
  destruct row; simpl in *; [lia|done].
Qed.

Lemma e_bound f : f ∈ e → f < n_entities mapping.
Proof.
  intros Hf. unfold n_entities. fold e.
  pose proof (max_list_elem_of_le f e Hf). lia.
Qed.

Definition pos_first (f : nat) : nat := index_of f e.
Definition pos_last (f : nat) : nat :=
  length e - index_of f (reverse e) - 1.

Lemma pos_first_lt f : f ∈ e → pos_first f < length e.
Proof. apply index_of_lt. Qed.

Lemma pos_last_lt f : f ∈ e → pos_last f < length e.
Proof.
  intros Hf. unfold pos_last.
  assert (index_of f (reverse e) < length (reverse e)) as H
    by (by apply index_of_lt, elem_of_reverse).
  rewrite length_reverse in H. lia.
Qed.

Theorem build_inverse_meets_amended :
  ∃ inverse, build_inverse t mapping = Ok inverse
             ∧ inverse_spec_amended mapping inverse.
Proof.
  unfold build_inverse. fold e. unfold unique.
  set (u1 := merge_sort le (remove_dups e)).
  set (u2 := merge_sort le (remove_dups (reverse e))).
  assert (∀ x, x ∈ u1 ↔ x ∈ e) as Hu1.
  { intros x. unfold u1. rewrite merge_sort_Permutation.
    apply elem_of_remove_dups. }
  assert (∀ x, x ∈ u2 ↔ x ∈ e) as Hu2.
  { intros x. unfold u2. rewrite merge_sort_Permutation.
    rewrite elem_of_remove_dups. apply elem_of_reverse. }
  rewrite (amax_Ok e) by apply e_nonempty.
  rewrite <-(list_fmap_compose (λ x, index_of x (reverse e))).
  rewrite bind_Ok.
  set (h1 := λ f, default 0 (sc2 !! pos_first f)).
  set (h2 := λ f, default 0 (sc2 !! pos_last f)).
  rewrite (getitems_fmap _ _ h1 u1); last first.
  { apply Forall_forall. intros f Hf%Hu1.
    destruct (tix_lookup (pos_first f)) as (el & H1 & H2);
      [by apply pos_first_lt|].
    unfold h1. rewrite H1. exact H2. }
  rewrite bind_Ok. rewrite <-(list_fmap_compose h1).
  destruct (scatter_fmap (Z.of_nat ∘ h1)
              (replicate (max_list e + 1) 0%Z) u1)
    as (inv0 & -> & Hl0 & Hlk0).
  { apply Forall_forall. intros f Hf%Hu1. rewrite length_replicate.
    by apply e_bound. }
  rewrite bind_Ok.
  rewrite (getitems_fmap _ _ h2 u2); last first.
  { apply Forall_forall. intros f Hf%Hu2.
    destruct (tix_lookup (pos_last f)) as (el & H1 & H2);
      [by apply pos_last_lt|].
    unfold h2. rewrite H1. exact H2. }
  rewrite bind_Ok. rewrite <-(list_fmap_compose h2).
  destruct (scatter_fmap (Z.of_nat ∘ h2)
              (replicate (max_list e + 1) 0%Z) u2)
    as (inv1' & -> & Hl1 & Hlk1).
  { apply Forall_forall. intros f Hf%Hu2. rewrite length_replicate.
    by apply e_bound. }
  rewrite bind_Ok.
  set (mask := zip_with (λ a b : Z, bool_decide (a = b)) inv0 inv1').
  destruct (fill_at_spec (-1)%Z inv1' (nonzero mask))
    as (inv1 & -> & Hl2 & Hlk2).
  { eapply Forall_impl; [apply nonzero_bound|]. simpl. intros i.
    unfold mask. rewrite length_zip_with. lia. }
  rewrite bind_Ok. eexists. split; [done|].
  rewrite length_replicate in Hl0, Hl1.
  exists inv0, inv1. split_and!; [done|by rewrite Hl0|by rewrite Hl2, Hl1|].
  intros f Hf%owners_nonempty. fold e in Hf.
  destruct (tix_lookup (pos_first f)) as (el1 & Hel1 & _);
    [by apply pos_first_lt|].
  destruct (tix_lookup (pos_last f)) as (el2 & Hel2 & _);
    [by apply pos_last_lt|].
  assert (inv0 !! f = Some (Z.of_nat el1)) as Hi0.
  { rewrite Hlk0, decide_True by (by apply Hu1).
    simpl. unfold h1. by rewrite Hel1. }
  assert (inv1' !! f = Some (Z.of_nat el2)) as Hi1.
  { rewrite Hlk1, decide_True by (by apply Hu2).
    simpl. unfold h2. by rewrite Hel2. }
  assert (mask !! f = Some (bool_decide (el1 = el2))) as Hmask.
  { unfold mask. rewrite lookup_zip_with, Hi0. simpl. rewrite Hi1. simpl.
    f_equal. apply bool_decide_ext. lia. }
  exists el1, el2. split_and!.
  - rewrite first_owner_index by done. exact Hel1.
  - rewrite last_owner_index by done. exact Hel2.
  - done.
  - intros [= ->]. rewrite Hlk2, decide_True; [done|].
    apply nonzero_elem_of. rewrite Hmask. by rewrite bool_decide_eq_true_2.
  - intros Hneq. rewrite Hlk2, decide_False; [done|].
    rewrite nonzero_elem_of, Hmask. intros [= Hb].
    apply bool_decide_eq_true in Hb. by subst.
Qed.

End BuildInverse.

End InverseFacts.

Import Py Np Topology NpFacts TopologyFacts InverseFacts.

Module OwnerFacts.

(** The owners of [f] that one row of the map contributes. *)
Definition owners_row (row : list nat) (f : nat) : list nat :=
  (filter (λ p, p.1 = f) (zip row (seq 0 (length row)))).*2.

Lemma owners_cons row m f :
  owners (row :: m) f = owners_row row f ++ owners m f.
Proof.
  unfold owners, owners_row, scan. rewrite fmap_cons. simpl.
  by rewrite filter_app, fmap_app.
Qed.

Lemma owners_row_elem_of row f el :
  el ∈ owners_row row f ↔ row !! el = Some f.
Proof.
  unfold owners_row. rewrite list_elem_of_fmap. split.
  - intros ([x i] & -> & Hin). simpl.
    apply list_elem_of_filter in Hin as [Hx Hin]. simpl in Hx. subst x.
    apply list_elem_of_lookup in Hin as [j Hj].
    apply lookup_zip_Some in Hj as [Hr Hs].
    apply lookup_seq in Hs as [-> _]. done.
  - intros Hel. exists (f, el). split; [done|].
    apply list_elem_of_filter. split; [done|].
    apply list_elem_of_lookup. exists el. apply lookup_zip_Some.
    split; [done|]. apply lookup_seq. split; [done|].
    by eapply lookup_lt_Some.
Qed.

Lemma owners_row_NoDup row f : NoDup (owners_row row f).
Proof.
  unfold owners_row.
  eapply sublist_NoDup; [apply (NoDup_seq 0 (length row))|].
  rewrite <-(snd_zip row (seq 0 (length row))) at 2
    by (rewrite length_seq; lia).
  apply fmap_sublist, sublist_filter.
Qed.

Lemma owners_elem_of m f el :
  el ∈ owners m f ↔ ∃ r, get2 m r el = Some f.
Proof.
  induction m as [|row m IH].
  - unfold owners, scan. simpl. split.
    + by intros ?%elem_of_nil.
    + intros [r Hr]. unfold get2 in Hr. by rewrite lookup_nil in Hr.
  - rewrite owners_cons, elem_of_app, owners_row_elem_of, IH. split.
    + intros [Hrow|[r Hr]]; [by exists 0|by exists (S r)].
    + intros [[|r] Hr]; [by left|right; by exists r].
Qed.

Lemma column_cons {A} (row : list A) (m : matrix A) el :
  column (row :: m) el
  = match row !! el with
    | Some x => x :: column m el
    | None => column m el
    end.
Proof. unfold column. simpl. by destruct (row !! el). Qed.

Lemma column_elem_of {A} (m : matrix A) r el x :
  get2 m r el = Some x → x ∈ column m el.
Proof.
  unfold get2, column. intros Hg.
  destruct (m !! r) as [row|] eqn:Hr; simpl in Hg; [|done].
  apply list_elem_of_omap. exists row. split; [|done].
  by eapply list_elem_of_lookup_2.
Qed.

(** When no element presents an entity twice, an element is listed at most
    once among the owners. *)
Lemma owners_NoDup m f : (∀ el, NoDup (column m el)) → NoDup (owners m f).
Proof.
  induction m as [|row m IH]; intros Hnd.
  - unfold owners, scan. simpl. constructor.
  - rewrite owners_cons. apply NoDup_app. split_and!.
    + apply owners_row_NoDup.
    + intros el Hrow%owners_row_elem_of [r Hr]%owners_elem_of.
      specialize (Hnd el). rewrite column_cons, Hrow in Hnd.
      apply NoDup_cons in Hnd as [Hnin _]. apply Hnin.
      by eapply column_elem_of.
    + apply IH. intros el. specialize (Hnd el).
      rewrite column_cons in Hnd. destruct (row !! el); [|done].
      by apply NoDup_cons in Hnd as [_ ?].
Qed.

Lemma NoDup_head_last {A} (l : list A) x :
  NoDup l → head l = Some x → last l = Some x → l = [x].
Proof.
  destruct l as [|a l]; [done|]. simpl. intros Hnd [= ->] Hlast.
  destruct l as [|b l]; [done|].
  rewrite last_cons_cons in Hlast. apply last_Some_elem_of in Hlast.
  by apply NoDup_cons in Hnd as [? _].
Qed.

Lemma sole_owner_first_last m f :
  sole_owner m f → first_owner m f = last_owner m f.
Proof.
  intros [el Hel]. unfold first_owner, last_owner.
  destruct (owners m f) as [|a l] eqn:Ho; [done|].
  assert (head (a :: l) = Some el) as ->.
  { simpl. f_equal. apply Hel. by left. }
  destruct (last (a :: l)) as [b|] eqn:Hl.
  - f_equal. symmetry. by apply Hel, last_Some_elem_of.
  - by apply last_None in Hl.
Qed.

Lemma first_last_sole_owner m f el :
  (∀ el, NoDup (column m el)) →
  first_owner m f = Some el → last_owner m f = Some el → sole_owner m f.
Proof.
  intros Hnd Hf Hl. exists el. intros el'.
  rewrite (NoDup_head_last (owners m f) el);
    [apply list_elem_of_singleton|by apply owners_NoDup|done..].
Qed.

End OwnerFacts.

Import Py Np Topology NpFacts TopologyFacts InverseFacts OwnerFacts.

Module FacetFacts.

(** C4, amended.  For a connectivity array [t] and an element-to-entity
    map of matching shape, [build_inverse] returns a 2 x n_entities array
    whose first row is the first owning element of each entity in scan
    order and whose second row is the last owning element in scan order,
    except that the second row holds -1 for every entity whose first and
    last owning elements coincide; every entity owned by exactly one
    element is among these. *)
Theorem build_inverse_first_last t mapping :
  valid_connectivity t → valid_mapping t mapping →
  ∃ inverse,
    build_inverse t mapping = Ok inverse
    ∧ inverse_spec_amended mapping inverse
    ∧ ∀ f, owners mapping f ≠ [] → sole_owner mapping f →
           get2 inverse 1 f = Some (-1)%Z.
Proof.
  intros Ht Hm.
  destruct (build_inverse_meets_amended t mapping Ht Hm)
    as (inverse & Hb & Hspec).
  exists inverse. split_and!; [done..|].
  intros f Hne Hsole.
  destruct Hspec as (inv0 & inv1 & -> & _ & _ & Hf).
  destruct (Hf f Hne) as (el1 & el2 & H1 & H2 & _ & Hm1 & _).
  unfold get2. simpl. apply Hm1.
  rewrite <-H1, <-H2. by apply sole_owner_first_last.
Qed.

Lemma tri2_t2f : t2f tri_refdom tri2 = Ok [[0; 2]; [2; 4]; [1; 3]].
Proof. by vm_compute. Qed.

Lemma tri2_mapping_valid : valid_mapping tri2 [[0; 2]; [2; 4]; [1; 3]].
Proof.
  split_and!; [by repeat constructor|done|]. unfold shape0. simpl. lia.
Qed.

Lemma build_inverse_first_last_witness :
  ∃ inverse,
    build_inverse tri2 [[0; 2]; [2; 4]; [1; 3]] = Ok inverse
    ∧ inverse_spec_amended [[0; 2]; [2; 4]; [1; 3]] inverse
    ∧ ∀ f, owners [[0; 2]; [2; 4]; [1; 3]] f ≠ [] →
           sole_owner [[0; 2]; [2; 4]; [1; 3]] f →
           get2 inverse 1 f = Some (-1)%Z.
Proof.
  apply (build_inverse_first_last tri2 [[0; 2]; [2; 4]; [1; 3]]).
  - apply tri2_valid.
  - apply tri2_mapping_valid.
Defined.

(** C4 as stated fails: in the mesh of the triangles (2,0,1) and (0,1,1)
    the edge {0,1} is entity 0; it is owned by both elements, element 1
    being its first and its last owner in scan order, and the second row
    holds -1 for it, not its last owner. *)
Lemma build_inverse_claim_fails :
  build_entities degenerate_t tri_facets true
    = Ok ([[0; 0; 1; 1]; [1; 2; 1; 2]]%Z, [[1; 0]; [0; 2]; [3; 0]])
  ∧ valid_connectivity degenerate_t
  ∧ valid_mapping degenerate_t [[1; 0]; [0; 2]; [3; 0]]
  ∧ owners [[1; 0]; [0; 2]; [3; 0]] 0 = [1; 0; 1]
  ∧ build_inverse degenerate_t [[1; 0]; [0; 2]; [3; 0]]
    = Ok [[1; 0; 1; 0]; [-1; -1; -1; -1]]%Z
  ∧ ¬ ∃ inverse,
        build_inverse degenerate_t [[1; 0]; [0; 2]; [3; 0]] = Ok inverse
        ∧ inverse_spec_as_claimed [[1; 0]; [0; 2]; [3; 0]] inverse.
Proof.
  split_and!.
  - by vm_compute.
  - split; [by repeat constructor|done].
  - split_and!; [by repeat constructor|done|]. unfold shape0. simpl. lia.
  - by vm_compute.
  - by vm_compute.
  - intros (inverse & Hb & inv0 & inv1 & -> & _ & _ & Hf).
    assert (build_inverse degenerate_t [[1; 0]; [0; 2]; [3; 0]]
            = Ok [[1; 0; 1; 0]; [-1; -1; -1; -1]]%Z) as Hc by (by vm_compute).
    rewrite Hc in Hb. injection Hb as <- <-.
    destruct (Hf 0) as (el1 & el2 & H1 & H2 & _ & _ & Hns).
    { by vm_compute. }
    vm_compute in H2. injection H2 as <-.
    assert (¬ sole_owner [[1; 0]; [0; 2]; [3; 0]] 0) as Hn.
    { intros [el Hel].
      assert (owners [[1; 0]; [0; 2]; [3; 0]] 0 = [1; 0; 1]) as Ho
        by (by vm_compute).
      rewrite Ho in Hel.
      assert (1 = el) as <- by (apply Hel; by left).
      assert (0 = 1) by (apply Hel; right; by left). done. }
    specialize (Hns Hn). by vm_compute in Hns.
Qed.

Section Facets.
Context (rd : Refdom) (t : matrix Z) (k : nat).
Context (Ht : valid_connectivity t).
Context (Hix : valid_templates t (refdom_facets rd) k).
Context (Hle : length (refdom_facets rd) ≤ shape0 t).

Let ents := entities t (refdom_facets rd).
Let m := mapping_of t (refdom_facets rd).

Lemma facets_Ok : facets rd t = Ok (transpose ents).
Proof.
  unfold facets, _init_facets.
  by rewrite (build_entities_sorted t (refdom_facets rd) k).
Qed.

Lemma t2f_Ok : t2f rd t = Ok m.
Proof.
  unfold t2f, _init_facets.
  by rewrite (build_entities_sorted t (refdom_facets rd) k).
Qed.

Lemma t2f_valid : valid_mapping t m.
Proof.
  destruct Hix as (Hne & _ & _).
  assert (Forall (λ row, length row = shape1 t) m) as Hrows.
  { unfold m, mapping_of. apply Forall_fmap, Forall_forall. intros ix _.
    simpl. by rewrite length_fmap, length_seq. }
  assert (shape1 m = shape1 t) as Hs.
  { unfold m, mapping_of in *. destruct (refdom_facets rd); [done|].
    simpl. by rewrite length_fmap, length_seq. }
  split_and!; [|done|].
  - unfold rect. by rewrite Hs.
  - unfold shape0, m, mapping_of. by rewrite length_fmap.
Qed.

Lemma shape1_facets : shape1 (transpose ents) = length ents.
Proof.
  destruct (entities_rect t (refdom_facets rd) k Ht Hix) as (Hr & Hs & _).
  destruct Hix as (_ & Hk & _).
  apply shape1_transpose; [done|]. fold ents in Hs. by rewrite Hs.
Qed.

(** Every facet has an owner. *)
Lemma facet_has_owner f : f < length ents → owners m f ≠ [].
Proof.
  intros Hf. destruct (lookup_lt_is_Some_2 _ _ Hf) as [c Hc].
  destruct (entities_from_occurrence t (refdom_facets rd) c)
    as (r & ix & e & Hr & He & ->).
  { by eapply list_elem_of_lookup_2. }
  assert (get2 m r e = Some f) as Hg.
  { unfold m. rewrite (mapping_of_get2 _ _ r ix e) by done. f_equal.
    apply index_of_lookup_NoDup; [|done].
    by eapply entities_NoDup. }
  intros Hn. assert (e ∈ owners m f) as Hin
    by (apply owners_elem_of; eauto).
  rewrite Hn in Hin. by apply elem_of_nil in Hin.
Qed.

Lemma boundary_facets_iff_manifold :
  manifold m →
  ∃ fs f2t_ bf,
    facets rd t = Ok fs ∧ f2t rd t = Ok f2t_
    ∧ mesh_boundary_facets rd t = Ok bf
    ∧ ∀ f, f < shape1 fs →
        (get2 f2t_ 1 f = Some (-1)%Z ↔ f ∈ bf)
        ∧ (f ∈ bf ↔ sole_owner m f).
Proof.
  intros [Hnd _].
  destruct (build_inverse_meets_amended t m Ht t2f_valid)
    as (inverse & Hb & inv0 & inv1 & -> & Hl0 & Hl1 & Hspec).
  exists (transpose ents), [inv0; inv1],
    (nonzero ((λ x, bool_decide (x = (-1)%Z)) <$> inv1)).
  split_and!.
  - apply facets_Ok.
  - unfold f2t. by rewrite t2f_Ok.
  - unfold mesh_boundary_facets, f2t. rewrite t2f_Ok.
    rewrite bind_Ok, Hb. done.
  - intros f Hf. rewrite shape1_facets in Hf.
    assert (f ∈ nonzero ((λ x, bool_decide (x = (-1)%Z)) <$> inv1)
            ↔ inv1 !! f = Some (-1)%Z) as Hbf.
    { rewrite nonzero_elem_of, list_lookup_fmap.
      destruct (inv1 !! f) as [x|]; simpl; [|done]. split.
      - intros [= Hx]. by apply bool_decide_eq_true in Hx as ->.
      - intros [= ->]. done. }
    split; [by rewrite Hbf|]. rewrite Hbf.
    destruct (Hspec f (facet_has_owner f Hf))
      as (el1 & el2 & H1 & H2 & _ & Heq & Hneq).
    split.
    + intros Hminus. destruct (decide (el1 = el2)) as [->|Hne].
      * by eapply first_last_sole_owner.
      * rewrite Hneq in Hminus by congruence.
        injection Hminus as Hminus. lia.
    + intros Hsole. apply Heq. rewrite <-H1, <-H2.
      by apply sole_owner_first_last.
Qed.

End Facets.

(** C1.  In a manifold mesh, for every facet index [f], the second row of
    the facet-to-element map holds -1 at [f] if and only if [f] is in the
    array returned by [boundary_facets()], if and only if facet [f] is
    owned by exactly one element. *)
Theorem boundary_facets_iff rd t k m :
  valid_connectivity t → valid_templates t (refdom_facets rd) k →
  length (refdom_facets rd) ≤ shape0 t →
  t2f rd t = Ok m → manifold m →
  ∃ fs f2t_ bf,
    facets rd t = Ok fs ∧ f2t rd t = Ok f2t_
    ∧ mesh_boundary_facets rd t = Ok bf
    ∧ ∀ f, f < shape1 fs →
        (get2 f2t_ 1 f = Some (-1)%Z ↔ f ∈ bf)
        ∧ (f ∈ bf ↔ sole_owner m f).
Proof.
  intros Ht Hix Hle Hm Hman.
  rewrite (t2f_Ok rd t k Ht Hix) in Hm. injection Hm as <-.
  by eapply boundary_facets_iff_manifold.
Qed.

Lemma tri2_manifold : manifold [[0; 2]; [2; 4]; [1; 3]].
Proof.
  split.
  - intros e. unfold column.
    destruct e as [|[|e]]; simpl; [compute_done..|constructor].
  - intros f. unfold owners.
    destruct f as [|[|[|[|[|f]]]]]; vm_compute; lia.
Qed.

Lemma boundary_facets_iff_witness :
  ∃ fs f2t_ bf,
    facets tri_refdom tri2 = Ok fs ∧ f2t tri_refdom tri2 = Ok f2t_
    ∧ mesh_boundary_facets tri_refdom tri2 = Ok bf
    ∧ ∀ f, f < shape1 fs →
        (get2 f2t_ 1 f = Some (-1)%Z ↔ f ∈ bf)
        ∧ (f ∈ bf ↔ sole_owner [[0; 2]; [2; 4]; [1; 3]] f).
Proof.
  apply (boundary_facets_iff tri_refdom tri2 2).
  - apply tri2_valid.
  - apply tri_facets_valid.
  - unfold shape0. simpl. lia.
  - apply tri2_t2f.
  - apply tri2_manifold.
Defined.

End FacetFacts.

Import Py Np NpFacts.

Module AssemblyFacts.
Import Assembly.

Section Loops.
Context {A S : Type}.
Implicit Types (s : S) (l : list A).

Lemma foldR_app (body : S → A → result S) l1 l2 s :
  foldR body (l1 ++ l2) s = (foldR body l1 s ≫= foldR body l2).
Proof.
  revert s. induction l1 as [|x l1 IH]; intros s; [done|].
  simpl. destruct (body s x) as [s'|e]; [|done].
  rewrite !bind_Ok. apply IH.
Qed.

Lemma foldR_fmap {B} (g : B → A) (body : S → A → result S)
    (l : list B) s :
  foldR body (g <$> l) s = foldR (λ s x, body s (g x)) l s.
Proof.
  revert s. induction l as [|x l IH]; intros s; [done|].
  rewrite fmap_cons. simpl. destruct (body s (g x)); [|done].
  rewrite !bind_Ok. apply IH.
Qed.

End Loops.

Lemma foldR_nested {A B S} (f : S → A → B → result S) (l : list A)
    (k : list B) (s : S) :
    foldR (λ st j, foldR (λ st i, f st j i) k st) l s
    = foldR (λ st p, f st p.1 p.2) (j ← l; i ← k; [(j, i)]) s.
  Proof.
    revert s. induction l as [|j l IH]; intros s; [done|].
    rewrite bind_cons, foldR_app. simpl.
    assert ((k ≫= λ i, [(j, i)]) = (λ i, (j, i)) <$> k) as ->.
    { clear. induction k as [|i k IH]; [done|].
      by rewrite bind_cons, fmap_cons, IH. }
    rewrite foldR_fmap. simpl.
    destruct (foldR _ k s) as [s'|e]; [|done].
    rewrite !bind_Ok. apply IH.
  Qed.

Section Slices.
Context {A : Type}.
Implicit Types (v a : list A).

Lemma broadcast_to_length n v v' :
  broadcast_to n v = Ok v' → length v' = n.
Proof.
  unfold broadcast_to. case_bool_decide; [by intros [= <-]|].
  destruct v as [|x [|??]]; [done| |done].
  intros [= <-]. by rewrite length_replicate.
Qed.

Lemma setslice_block (pre old post v : list A) :
  setslice (pre ++ old ++ post) (length pre) (length pre + length old) v
  = (broadcast_to (length old) v ≫= λ v', Ok (pre ++ v' ++ post)).
Proof.
  unfold setslice. rewrite !length_app.
  replace (length pre `min` (length pre + (length old + length post)))
    with (length pre) by lia.
  replace (length pre `max`
           ((length pre + length old)
              `min` (length pre + (length old + length post))))
    with (length pre + length old) by lia.
  replace (length pre + length old - length pre) with (length old) by lia.
  destruct (broadcast_to (length old) v) as [v'|e]; [|done].
  rewrite !bind_Ok. f_equal.
  rewrite take_app_length. f_equal. f_equal.
  rewrite drop_app_ge by lia.
  replace (length pre + length old - length pre) with (length old) by lia.
  by rewrite drop_app_length.
Qed.

Lemma array_split_join (l : list A) n chunks :
  array_split l n = Ok chunks → mjoin chunks = l.
Proof.
  unfold array_split. case_bool_decide as Hn; [done|]. intros [= <-].
  apply join_reshape.
  rewrite sum_list_with_app, !sum_list_replicate.
  pose proof (Nat.div_mod_eq (length l) n) as Hd.
  pose proof (Nat.mod_upper_bound (length l) n Hn) as Hm.
  nia.
Qed.
End Slices.

Lemma bind_singleton_fmap {A B} (f : A → B) (l : list A) :
  (l ≫= λ x, [f x]) = f <$> l.
Proof.
  induction l as [|x l IH]; [done|]. by rewrite bind_cons, fmap_cons, IH.
Qed.

(** The pairs [(j, i)] in the order of the double loop. *)
Definition index_pairs (uN vN : nat) : list (nat * nat) :=
  j ← seq 0 uN; i ← seq 0 vN; [(j, i)].

Lemma index_pairs_from_lookup vN a n k j i :
  (seq a n ≫= λ j, seq 0 vN ≫= λ i, [(j, i)]) !! k = Some (j, i) →
  vN * j + i = vN * a + k ∧ a ≤ j < a + n ∧ i < vN.
Proof.
  revert a k. induction n as [|n IH]; intros a k; [done|].
  rewrite <-cons_seq, bind_cons, bind_singleton_fmap.
  rewrite lookup_app_Some, length_fmap, length_seq.
  intros [Hk|[Hge Hk]].
  - rewrite list_lookup_fmap in Hk.
    destruct (seq 0 vN !! k) as [i'|] eqn:Hi; simpl in Hk; [|done].
    injection Hk as <- <-. apply lookup_seq in Hi as [-> Hi]. lia.
  - apply IH in Hk. nia.
Qed.

Lemma index_pairs_lookup uN vN k j i :
  index_pairs uN vN !! k = Some (j, i) →
  vN * j + i = k ∧ j < uN ∧ i < vN.
Proof.
  intros H%index_pairs_from_lookup. lia.
Qed.

Lemma index_pairs_elem_of uN vN j i :
  (j, i) ∈ index_pairs uN vN ↔ j < uN ∧ i < vN.
Proof.
  unfold index_pairs. rewrite list_elem_of_bind. split.
  - intros (j' & Hin & Hj%elem_of_seq).
    apply list_elem_of_bind in Hin as (i' & Hin & Hi%elem_of_seq).
    apply list_elem_of_singleton in Hin. injection Hin as -> ->. lia.
  - intros [Hj Hi]. exists j. split; [|apply elem_of_seq; lia].
    apply list_elem_of_bind. exists i. split; [by left|].
    apply elem_of_seq. lia.
Qed.

Lemma length_index_pairs uN vN : length (index_pairs uN vN) = uN * vN.
Proof.
  unfold index_pairs.
  assert (∀ a, length (seq a uN ≫= λ j, seq 0 vN ≫= λ i, [(j, i)])
               = uN * vN) as H; [|apply H].
  induction uN as [|uN IH]; intros a; [done|].
  rewrite <-cons_seq, bind_cons, length_app, IH, bind_singleton_fmap.
  rewrite length_fmap, length_seq. lia.
Qed.

Lemma mapR_Ok_inv {A B} (d : B) (f : A → result B) l bs :
  mapR f l = Ok bs →
  bs = (λ x, match f x with Ok b => b | Raise _ => d end) <$> l
  ∧ ∀ x, x ∈ l → ∃ b, f x = Ok b.
Proof.
  revert bs. induction l as [|x l IH]; intros bs; cbn [mapR].
  - intros [= <-]. split; [done|]. by intros ??%elem_of_nil.
  - destruct (f x) as [b|e] eqn:Hfx; cbn [bind]; [|done].
    destruct (mapR f l) as [bs'|e]; cbn [bind]; [|done].
    intros [= <-]. destruct (IH bs' eq_refl) as [-> Hall].
    split; [by rewrite fmap_cons, Hfx|].
    intros y [->|Hy]%elem_of_cons; eauto.
Qed.

Section Form.
Context {V Arr Field W K : Type}.
Context (vzero : V).
Context (np_mul : Arr → Arr → result Arr).
Context (np_sum_axis1 : Arr → result (list V)).
Context (extra_params : W → K → W).

Abbreviation Basis := (@Basis Arr Field W).
Abbreviation BilinearForm := (@BilinearForm Arr Field W).
Abbreviation _kernel :=
  (Assembly._kernel (Field:=Field) (W:=W) np_mul np_sum_axis1).
Abbreviation thread_step :=
  (Assembly.thread_step (Field:=Field) (W:=W) np_mul np_sum_axis1).
Abbreviation _threaded_kernel :=
  (Assembly._threaded_kernel (Field:=Field) (W:=W) np_mul np_sum_axis1).
Abbreviation run_threads :=
  (Assembly.run_threads (Field:=Field) (W:=W) np_mul np_sum_axis1).
Abbreviation loop_body :=
  (Assembly.loop_body (Field:=Field) (W:=W) np_mul np_sum_axis1).
Abbreviation _assemble :=
  (Assembly._assemble (Field:=Field) vzero np_mul np_sum_axis1
     extra_params).

Abbreviation block :=
  (Assembly.block (Field:=Field) (W:=W) np_mul np_sum_axis1).

Lemma _kernel_with_nthreads self n u v w d :
  _kernel (with_nthreads self n) u v w d = _kernel self u v w d.
Proof. done. Qed.

Lemma block_with_nthreads self n ub vb w j i :
  block (with_nthreads self n) ub vb w j i = block self ub vb w j i.
Proof. done. Qed.

(** *** The loop fills [rows] and [cols] in the same way in both modes *)

Lemma loop_body_rows_cols self self' ub vb w d r c d' r' c' d0 j i :
  (0 < nthreads self')%Z →
  loop_body self ub vb w (d, r, c) j i = Ok (d', r', c') →
  loop_body self' ub vb w (d0, r, c) j i = Ok (d0, r', c').
Proof.
  intros Hn. unfold loop_body. intros H.
  inv_bind H. rewrite Hx, bind_Ok.
  inv_bind H. rewrite Hx0, bind_Ok.
  inv_bind H. rewrite Hx1, bind_Ok.
  inv_bind H. rewrite Hx2, bind_Ok.
  rewrite (bool_decide_eq_false_2 (nthreads self' ≤ 0)%Z) by lia.
  case_bool_decide.
  - do 4 inv_bind H. by injection H as _ <- <-.
  - by injection H as _ <- <-.
Qed.

Lemma loop_rows_cols self self' ub vb w ps d r c d' r' c' d0 :
  (0 < nthreads self')%Z →
  foldR (λ st p, loop_body self ub vb w st p.1 p.2) ps (d, r, c)
    = Ok (d', r', c') →
  foldR (λ st p, loop_body self' ub vb w st p.1 p.2) ps (d0, r, c)
    = Ok (d0, r', c').
Proof.
  intros Hn. revert d r c.
  induction ps as [|[j i] ps IH]; intros d r c H;
    cbn [foldR fst snd] in *.
  - by injection H as _ <- <-.
  - apply bind_Ok_inv in H as ([[d1 r1] c1] & Hb & H).
    rewrite (loop_body_rows_cols self self' ub vb w d r c d1 r1 c1 d0 j i)
      by done.
    rewrite bind_Ok. by eapply IH.
Qed.

(** *** Sequential mode writes the blocks one after the other *)

Lemma loop_body_data self ub vb w pre post d r c d' r' c' j i :
  (nthreads self ≤ 0)%Z →
  length pre = nelems ub * (Nbfun vb * j + i) →
  d = pre ++ replicate (nelems ub) vzero ++ post →
  loop_body self ub vb w (d, r, c) j i = Ok (d', r', c') →
  ∃ b, block self ub vb w j i = Ok b ∧ d' = pre ++ b ++ post.
Proof.
  intros Hn Hpre -> H. unfold loop_body in H.
  do 4 inv_bind H.
  rewrite bool_decide_eq_true_2 in H by done.
  do 4 inv_bind H. injection H as <- _ _.
  unfold Assembly.block. rewrite Hx3, bind_Ok, Hx4, bind_Ok, Hx5, bind_Ok.
  rewrite <-Hpre in Hx6.
  replace (nelems ub * (Nbfun vb * j + i + 1))
    with (length pre + length (replicate (nelems ub) vzero)) in Hx6
    by (rewrite length_replicate; lia).
  rewrite setslice_block, length_replicate in Hx6.
  inv_bind Hx6. injection Hx6 as <-. eauto.
Qed.

Lemma loop_data self ub vb w ps q pre d r c d' r' c' :
  (nthreads self ≤ 0)%Z →
  (∀ k j i, ps !! k = Some (j, i) → Nbfun vb * j + i = q + k) →
  length pre = nelems ub * q →
  d = pre ++ replicate (nelems ub * length ps) vzero →
  foldR (λ st p, loop_body self ub vb w st p.1 p.2) ps (d, r, c)
    = Ok (d', r', c') →
  ∃ bs, mapR (λ p, block self ub vb w p.1 p.2) ps = Ok bs
        ∧ d' = pre ++ mjoin bs.
Proof.
  intros Hn. revert q pre d r c.
  induction ps as [|[j i] ps IH]; intros q pre d r c Hpos Hpre -> H.
  - cbn [foldR] in H. injection H as <- _ _. exists []. split; [done|].
    simpl. by rewrite Nat.mul_0_r.
  - cbn [foldR fst snd] in H.
    apply bind_Ok_inv in H as ([[d1 r1] c1] & Hb & H).
    assert (pre ++ replicate (nelems ub * length ((j, i) :: ps)) vzero
            = pre ++ replicate (nelems ub) vzero
                  ++ replicate (nelems ub * length ps) vzero) as Hd.
    { simpl length. rewrite <-replicate_add. do 2 f_equal. lia. }
    rewrite Hd in Hb.
    assert (length pre = nelems ub * (Nbfun vb * j + i)) as Hpre'.
    { rewrite Hpre. f_equal. rewrite (Hpos 0 j i) by done. lia. }
    destruct (loop_body_data self ub vb w pre _ _ r c d1 r1 c1 j i
                Hn Hpre' eq_refl Hb) as (b & Hblock & ->).
    assert (length b = nelems ub) as Hlb.
    { unfold Assembly.block in Hblock. do 3 inv_bind Hblock.
      by eapply broadcast_to_length. }
    rewrite app_assoc in H.
    destruct (IH (S q) (pre ++ b)
                ((pre ++ b) ++ replicate (nelems ub * length ps) vzero)
                r1 c1) as (bs & Hbs & ->);
      [| |done|exact H|].
    { intros k j' i' Hk. rewrite (Hpos (S k) j' i') by done. lia. }
    { rewrite length_app, Hpre, Hlb. lia. }
    exists (b :: bs). split.
    + simpl. rewrite Hblock. simpl. by rewrite Hbs.
    + simpl. by rewrite <-app_assoc.
Qed.

(** *** Threaded mode: every interleaving writes the same blocks *)
Section Threads.
Context (self : BilinearForm) (ub vb : Basis) (wdict : W).
Context (Hblock : ∀ j i, j < Nbfun ub → i < Nbfun vb →
           ∃ b, block self ub vb wdict j i = Ok b).

Definition blk (j i : nat) : list V :=
  match block self ub vb wdict j i with
  | Ok b => b
  | Raise _ => []
  end.

Definition get3 (data : list (matrix V)) (j i : nat) : option (list V) :=
  data !! j ≫= (λ plane, plane !! i).

Definition shape3 (data : list (matrix V)) : Prop :=
  length data = Nbfun ub
  ∧ Forall (λ plane, length plane = Nbfun vb
                     ∧ Forall (λ cell, length cell = nelems ub) plane)
           data.

(** Every cell holds its block, or its index is still pending. *)
Definition pending (pend : list (nat * nat)) (data : list (matrix V))
  : Prop :=
  shape3 data
  ∧ (∀ i j, (i, j) ∈ pend → j < Nbfun ub ∧ i < Nbfun vb)
  ∧ (∀ j i, j < Nbfun ub → i < Nbfun vb →
       get3 data j i = Some (blk j i) ∨ (i, j) ∈ pend).

Lemma shape3_get3 data j i :
  shape3 data → j < Nbfun ub → i < Nbfun vb →
  ∃ plane cell, data !! j = Some plane ∧ plane !! i = Some cell
                ∧ length plane = Nbfun vb ∧ length cell = nelems ub.
Proof.
  intros [Hl HF] Hj Hi.
  destruct (lookup_lt_is_Some_2 data j) as [plane Hp]; [lia|].
  destruct (Forall_lookup_1 _ _ _ _ HF Hp) as [Hlp Hcells].
  destruct (lookup_lt_is_Some_2 plane i) as [cell Hc]; [lia|].
  exists plane, cell. split_and!; [done..|].
  by apply (Forall_lookup_1 _ _ _ _ Hcells Hc).
Qed.

Lemma thread_step_Ok data j i :
  shape3 data → j < Nbfun ub → i < Nbfun vb →
  ∃ plane,
    data !! j = Some plane
    ∧ thread_step self (basis ub) (basis vb) wdict (dx ub) data (i, j)
      = Ok (<[j := <[i := blk j i]> plane]> data).
Proof.
  intros Hs Hj Hi.
  destruct (shape3_get3 data j i Hs Hj Hi)
    as (plane & cell & Hp & Hc & Hlp & Hlc).
  exists plane. split; [done|].
  destruct (Hblock j i Hj Hi) as [b Hb].
  unfold blk. rewrite Hb. unfold Assembly.block in Hb.
  do 3 inv_bind Hb.
  unfold Assembly.thread_step.
  rewrite Hx, bind_Ok, Hx0, bind_Ok, Hx1, bind_Ok.
  unfold setitem2, getitem. rewrite Hp, bind_Ok, Hc, bind_Ok.
  by rewrite Hlc, Hb, bind_Ok.
Qed.

Lemma pending_step pend pend' data plane j i :
  pending pend data → (i, j) ∈ pend → data !! j = Some plane →
  (∀ p, p ∈ pend → p = (i, j) ∨ p ∈ pend') →
  (∀ p, p ∈ pend' → p ∈ pend) →
  pending pend' (<[j := <[i := blk j i]> plane]> data).
Proof.
  intros (Hs & Hrange & Hcells) Hin Hp Hsplit Hsub.
  destruct (Hrange i j Hin) as [Hj Hi].
  destruct (shape3_get3 data j i Hs Hj Hi)
    as (plane' & cell & Hp' & Hc & Hlp & Hlc).
  assert (plane' = plane) as -> by congruence.
  destruct (Hblock j i Hj Hi) as [b Hb].
  assert (length (blk j i) = nelems ub) as Hlb.
  { unfold blk. rewrite Hb. unfold Assembly.block in Hb. do 3 inv_bind Hb.
    by eapply broadcast_to_length. }
  split_and!.
  - destruct Hs as [Hl HF]. split; [by rewrite length_insert|].
    apply Forall_insert; [done|]. split; [by rewrite length_insert|].
    destruct (Forall_lookup_1 _ _ _ _ HF Hp) as [_ Hcs].
    by apply Forall_insert.
  - intros i' j' Hin'. apply Hrange. by apply Hsub.
  - intros j' i' Hj' Hi'.
    destruct (decide (j' = j)) as [->|Hnej].
    + destruct (decide (i' = i)) as [->|Hnei].
      * left. unfold get3.
        rewrite list_lookup_insert_eq by (destruct Hs; lia). simpl.
        by rewrite list_lookup_insert_eq by lia.
      * destruct (Hcells j i' Hj' Hi') as [Hg|Hpend].
        -- left. unfold get3 in *.
           rewrite list_lookup_insert_eq by (destruct Hs; lia). simpl.
           rewrite list_lookup_insert_ne by done.
           by rewrite Hp in Hg.
        -- destruct (Hsplit _ Hpend) as [Heq|?]; [by simplify_eq|by right].
    + destruct (Hcells j' i' Hj' Hi') as [Hg|Hpend].
      * left. unfold get3 in *. by rewrite list_lookup_insert_ne.
      * destruct (Hsplit _ Hpend) as [Heq|?]; [by simplify_eq|by right].
Qed.

Lemma _threaded_kernel_pending ix rest data :
  pending (ix ++ rest) data →
  pending rest
    (_threaded_kernel self data ix (basis ub) (basis vb) wdict (dx ub)).
Proof.
  revert data. induction ix as [|[i j] ix IH]; intros data Hp; [done|].
  cbn [Assembly._threaded_kernel].
  destruct Hp as (Hs & Hrange & Hcells).
  destruct (Hrange i j) as [Hj Hi]; [by left|].
  destruct (thread_step_Ok data j i Hs Hj Hi) as (plane & Hpl & ->).
  apply IH.
  eapply (pending_step ((i, j) :: ix ++ rest)); [done|by left|done| |].
  - by intros p [->|?]%elem_of_cons; [left|right].
  - intros p ?. by right.
Qed.

Lemma join_pending pool data :
  pending (mjoin pool) data →
  pending []
    (foldl (λ d ix, _threaded_kernel self d ix (basis ub) (basis vb)
                      wdict (dx ub)) data pool).
Proof.
  revert data. induction pool as [|ix pool IH]; intros data Hp; [done|].
  simpl. apply IH. by apply _threaded_kernel_pending.
Qed.

Lemma run_threads_pending sched pool data :
  pending (mjoin pool) data →
  pending []
    (run_threads self (basis ub) (basis vb) wdict (dx ub) sched pool
       data).
Proof.
  revert pool data.
  induction sched as [|k sched IH]; intros pool data Hp.
  { by apply join_pending. }
  cbn [Assembly.run_threads].
  destruct (pool !! k) as [[|[i j] ix']|] eqn:Hk; [by apply IH| |by apply IH].
  assert ((i, j) ∈ mjoin pool) as Hin.
  { apply list_elem_of_join. exists ((i, j) :: ix').
    split; [by left|]. by eapply list_elem_of_lookup_2. }
  destruct Hp as (Hs & Hrange & Hcells).
  destruct (Hrange i j Hin) as [Hj Hi].
  destruct (thread_step_Ok data j i Hs Hj Hi) as (plane & Hpl & ->).
  apply IH.
  eapply (pending_step (mjoin pool)); [done..| |].
  - intros p (l & Hpl' & Hl)%list_elem_of_join.
    apply list_elem_of_lookup in Hl as [k' Hk'].
    destruct (decide (k' = k)) as [->|Hne].
    + rewrite Hk in Hk'. injection Hk' as <-.
      apply elem_of_cons in Hpl' as [->|Hin']; [by left|right].
      apply list_elem_of_join. exists ix'. split; [done|].
      apply list_elem_of_lookup. exists k.
      apply list_lookup_insert_eq. by eapply lookup_lt_Some.
    + right. apply list_elem_of_join. exists l. split; [done|].
      apply list_elem_of_lookup. exists k'.
      by rewrite list_lookup_insert_ne.
  - intros p (l & Hpl' & Hl)%list_elem_of_join.
    apply list_elem_of_lookup in Hl as [k' Hk'].
    apply list_elem_of_join.
    destruct (decide (k' = k)) as [->|Hne].
    + rewrite list_lookup_insert_eq in Hk' by (by eapply lookup_lt_Some).
      injection Hk' as <-. exists ((i, j) :: ix').
      split; [by right|]. by eapply list_elem_of_lookup_2.
    + rewrite list_lookup_insert_ne in Hk' by done.
      exists l. split; [done|]. by eapply list_elem_of_lookup_2.
Qed.

Lemma pending_nil_data data :
  pending [] data →
  data = (λ j, (λ i, blk j i) <$> seq 0 (Nbfun vb))
           <$> seq 0 (Nbfun ub).
Proof.
  intros (Hs & _ & Hcells). apply list_eq. intros j.
  rewrite list_lookup_fmap.
  destruct (decide (j < Nbfun ub)) as [Hj|Hj].
  - destruct Hs as [Hl HF].
    destruct (lookup_lt_is_Some_2 data j) as [plane Hp]; [lia|].
    rewrite Hp, lookup_seq_lt by done. simpl. f_equal.
    destruct (Forall_lookup_1 _ _ _ _ HF Hp) as [Hlp _].
    apply list_eq. intros i. rewrite list_lookup_fmap.
    destruct (decide (i < Nbfun vb)) as [Hi|Hi].
    + destruct (Hcells j i Hj Hi) as [Hg|Hin].
      * unfold get3 in Hg. rewrite Hp in Hg. simpl in Hg.
        by rewrite Hg, lookup_seq_lt by done.
      * by apply elem_of_nil in Hin.
    + rewrite lookup_seq_ge by lia.
      by rewrite lookup_ge_None_2 by lia.
  - rewrite lookup_seq_ge by lia.
    destruct Hs as [Hl _]. by rewrite lookup_ge_None_2 by lia.
Qed.

Lemma flatten_blocks (js is_ : list nat) :
  flatten (flatten ((λ j, (λ i, blk j i) <$> is_) <$> js))
  = mjoin ((λ p, blk p.1 p.2)
             <$> (js ≫= λ j, is_ ≫= λ i, [(j, i)])).
Proof.
  unfold flatten. induction js as [|j js IH]; [done|].
  rewrite fmap_cons, bind_cons, fmap_app. simpl.
  rewrite !join_app, IH. f_equal.
  rewrite bind_singleton_fmap, <-list_fmap_compose. done.
Qed.

End Threads.

Lemma check_Ok (ub : Basis) (vb : option Basis) vb' :
  match vb with
  | None => Ok ub
  | Some vbasis =>
      if bool_decide (X_shape1 ub ≠ X_shape1 vbasis)
      then Raise (ValueError quadrature_mismatch)
      else Ok vbasis
  end = Ok vb' →
  vb' = test_basis ub vb.
Proof.
  destruct vb as [vbasis|]; simpl.
  - case_bool_decide; [done|]. by intros [= <-].
  - by intros [= <-].
Qed.

(** Threaded assembly returns what sequential assembly returns, for
    every number of threads and every interleaving of them. *)
Lemma threaded_refines_sequential sched sched' self ub vb kwargs n coo :
  (nthreads self ≤ 0)%Z → (0 < n)%Z →
  _assemble sched' self ub vb kwargs = Ok coo →
  _assemble sched (with_nthreads self n) ub vb kwargs = Ok coo.
Proof.
  intros Hseq Hn H. unfold Assembly._assemble in *.
  apply bind_Ok_inv in H as (vb' & Hcheck & H).
  rewrite Hcheck, bind_Ok. clear Hcheck vb.
  cbv zeta in *.
  apply bind_Ok_inv in H as ([[d' r'] c'] & Hloop & H).
  rewrite bool_decide_eq_false_2 in H by lia. injection H as <-.
  rewrite foldR_nested in Hloop. rewrite foldR_nested.
  fold (index_pairs (Nbfun ub) (Nbfun vb')) in *.
  set (wdict := extra_params (default_parameters ub) kwargs) in *.
  rewrite (loop_rows_cols self (with_nthreads self n) ub vb' wdict
             _ _ _ _ d' r' c' _ Hn Hloop).
  rewrite bind_Ok.
  rewrite bool_decide_eq_true_2 by (simpl; lia).
  destruct (array_split (A:=nat * nat)
              (seq 0 (Nbfun ub) ≫= λ j, seq 0 (Nbfun vb') ≫= λ i, [(i, j)])
              (Z.to_nat (nthreads (with_nthreads self n))))
    as [chunks|e] eqn:Hsplit; last first.
  { unfold array_split in Hsplit. simpl in Hsplit.
    rewrite bool_decide_eq_false_2 in Hsplit by lia. done. }
  rewrite bind_Ok. do 3 f_equal.
  apply array_split_join in Hsplit.
  assert (replicate (Nbfun ub * Nbfun vb' * nelems ub) vzero
          = [] ++ replicate
                    (nelems ub * length (index_pairs (Nbfun ub) (Nbfun vb')))
                    vzero) as Hd.
  { rewrite length_index_pairs. simpl. f_equal. lia. }
  pose proof Hloop as Hdata. rewrite Hd in Hdata.
  assert (∀ k j i, index_pairs (Nbfun ub) (Nbfun vb') !! k = Some (j, i) →
            Nbfun vb' * j + i = 0 + k) as Hpos.
  { intros k j i Hk. apply index_pairs_lookup in Hk. lia. }
  assert (length (@nil V) = nelems ub * 0) as Hlen by (simpl; lia).
  destruct (loop_data self ub vb' wdict _ 0 [] _ _ _ d' r' c'
              Hseq Hpos Hlen eq_refl Hdata) as (bs & Hbs & ->).
  clear Hd Hdata Hpos Hlen.
  apply (mapR_Ok_inv []) in Hbs as [-> Hall].
  assert (∀ j i, j < Nbfun ub → i < Nbfun vb' →
            ∃ b, block self ub vb' wdict j i = Ok b) as Hblock.
  { intros j i Hj Hi. apply (Hall (j, i)).
    by apply index_pairs_elem_of. }
  rewrite (pending_nil_data (with_nthreads self n) ub vb' wdict
             (run_threads (with_nthreads self n) (basis ub) (basis vb')
                wdict (dx ub) sched chunks _)).
  - rewrite flatten_blocks. simpl. done.
  - apply run_threads_pending; [done|].
    split_and!.
    + split; [by rewrite length_replicate|].
      apply Forall_replicate. split; [by rewrite length_replicate|].
      apply Forall_replicate. by rewrite length_replicate.
    + intros i j. rewrite Hsplit.
      rewrite list_elem_of_bind. intros (j' & Hin & Hj%elem_of_seq).
      apply list_elem_of_bind in Hin as (i' & Hin & Hi%elem_of_seq).
      apply list_elem_of_singleton in Hin. injection Hin as -> ->. lia.
    + intros j i Hj Hi. right. rewrite Hsplit.
      apply list_elem_of_bind. exists j. split; [|apply elem_of_seq; lia].
      apply list_elem_of_bind. exists i. split; [by left|].
      apply elem_of_seq. lia.
Qed.

End Form.

End AssemblyFacts.

Import Py Np NpFacts.

Module AssemblyClaims.
Import Assembly AssemblyFacts.

Section Form.
Context {V Arr Field W K : Type}.
Context (vzero : V).
Context (np_mul : Arr → Arr → result Arr).
Context (np_sum_axis1 : Arr → result (list V)).
Context (extra_params : W → K → W).

Abbreviation Basis := (@Basis Arr Field W).
Abbreviation BilinearForm := (@BilinearForm Arr Field W).
Abbreviation _kernel :=
  (Assembly._kernel (Field:=Field) (W:=W) np_mul np_sum_axis1).
Abbreviation loop_body :=
  (Assembly.loop_body (Field:=Field) (W:=W) np_mul np_sum_axis1).
Abbreviation block :=
  (Assembly.block (Field:=Field) (W:=W) np_mul np_sum_axis1).
Abbreviation well_formed :=
  (Assembly.well_formed (Field:=Field) (W:=W) np_mul np_sum_axis1).
Abbreviation _assemble :=
  (Assembly._assemble (Field:=Field) vzero np_mul np_sum_axis1
     extra_params).

(** C2.  For every bilinear form, every trial basis and optional test
    basis, and every number [n > 0] of threads that divides the number
    of local basis-function pairs, the COO arrays (data, rows, cols) and
    the shape that threaded assembly returns are those that sequential
    assembly returns, entry for entry and in the same order, whatever
    the interleaving [sched] of the threads.  (Neither the divisibility
    nor the interleaving matters.) *)
Theorem threaded_assembly_identical sched sched' (self : BilinearForm)
    (ub : Basis) (vb : option Basis) (kwargs : K) (n : Z) coo :
  (nthreads self ≤ 0)%Z → (0 < n)%Z →
  (n | Z.of_nat (Nbfun ub * Nbfun (test_basis ub vb)))%Z →
  _assemble sched' self ub vb kwargs = Ok coo →
  _assemble sched (with_nthreads self n) ub vb kwargs = Ok coo.
Proof.
  intros Hseq Hn _ H. by eapply threaded_refines_sequential.
Qed.

(** *** Exceptions that a computation can raise *)

Definition raises_only {A} (P : exn → Prop) (r : result A) : Prop :=
  ∀ e, r = Raise e → P e.

Lemma raises_only_Ok {A} P (a : A) : raises_only P (Ok a).
Proof. by intros e. Qed.

Lemma raises_only_bind {A B} P (m : result A) (k : A → result B) :
  raises_only P m → (∀ x, raises_only P (k x)) →
  raises_only P (m ≫= k).
Proof.
  intros Hm Hk e. destruct m as [x|e']; [apply Hk|].
  intros [= ->]. by apply Hm.
Qed.

Lemma raises_only_foldR {A S} P (body : S → A → result S) l s :
  (∀ s x, raises_only P (body s x)) → raises_only P (foldR body l s).
Proof.
  intros Hb. revert s. induction l as [|x l IH]; intros s.
  - apply raises_only_Ok.
  - cbn [foldR]. apply raises_only_bind; [apply Hb|apply IH].
Qed.

Definition not_mismatch (e : exn) : Prop :=
  e ≠ ValueError quadrature_mismatch.

Lemma getitem_not_mismatch {A} (a : list A) i :
  raises_only not_mismatch (getitem a i).
Proof. unfold getitem. intros e. destruct (a !! i); by intros [= <-]. Qed.

Lemma broadcast_to_not_mismatch {A} n (v : list A) :
  raises_only not_mismatch (broadcast_to n v).
Proof.
  unfold broadcast_to. intros e. case_bool_decide; [done|].
  destruct v as [|? [|??]]; intros [= <-]; done.
Qed.

Lemma setslice_not_mismatch {A} (a : list A) lo hi v :
  raises_only not_mismatch (setslice a lo hi v).
Proof.
  unfold setslice. apply raises_only_bind.
  - apply broadcast_to_not_mismatch.
  - intros x. apply raises_only_Ok.
Qed.

Lemma loop_body_not_mismatch (self : BilinearForm) ub vb w st j i :
  (∀ u v w d, raises_only not_mismatch (_kernel self u v w d)) →
  raises_only not_mismatch (loop_body self ub vb w st j i).
Proof.
  intros Hk. destruct st as [[d r] c]. unfold Assembly.loop_body.
  repeat first
    [ apply getitem_not_mismatch
    | apply setslice_not_mismatch
    | apply Hk
    | apply raises_only_Ok
    | case_bool_decide
    | apply raises_only_bind; [|intros ?] ].
Qed.

(** C5.  When a test basis is given whose number of quadrature points
    differs from that of the trial basis, assembly raises the
    [ValueError] of the quadrature mismatch, whatever the form, the
    bases and the number of threads are: no contribution has been
    computed before, for a form that raises would have raised first.
    When the numbers agree, or no test basis is given, assembly does not
    raise this error (of a form that does not raise it itself). *)
Theorem quadrature_mismatch_raised sched (self : BilinearForm)
    (ub : Basis) (vb : option Basis) (kwargs : K) :
  (∀ vb', vb = Some vb' → X_shape1 ub ≠ X_shape1 vb' →
     _assemble sched self ub vb kwargs
     = Raise (ValueError quadrature_mismatch))
  ∧ ((∀ vb', vb = Some vb' → X_shape1 ub = X_shape1 vb') →
     (∀ u v w d, _kernel self u v w d
                 ≠ Raise (ValueError quadrature_mismatch)) →
     _assemble sched self ub vb kwargs
     ≠ Raise (ValueError quadrature_mismatch)).
Proof.
  split.
  - intros vb' -> Hne. unfold Assembly._assemble.
    rewrite (bool_decide_eq_true_2 _ Hne). reflexivity.
  - intros Heq Hk Hraise.
    assert (∀ u v w d, raises_only not_mismatch (_kernel self u v w d))
      as Hk'.
    { intros u v w d e He ->. by eapply Hk. }
    revert Hraise. unfold Assembly._assemble.
    assert (∃ vb', match vb with
                   | None => Ok ub
                   | Some vbasis =>
                       if bool_decide (X_shape1 ub ≠ X_shape1 vbasis)
                       then Raise (ValueError quadrature_mismatch)
                       else Ok vbasis
                   end = Ok vb') as [vb' ->].
    { destruct vb as [vb'|]; [|eauto].
      rewrite (bool_decide_eq_false_2 (X_shape1 ub ≠ X_shape1 vb'));
        [eauto|].
      intros Hne. by apply Hne, Heq. }
    rewrite bind_Ok. cbv zeta. intros Hraise.
    eapply (raises_only_bind not_mismatch); [| |exact Hraise|done].
    + apply raises_only_foldR. intros s j.
      apply raises_only_foldR. intros s' i.
      by apply loop_body_not_mismatch.
    + intros [[d r] c]. case_bool_decide; [|apply raises_only_Ok].
      apply raises_only_bind; [|intros ?; apply raises_only_Ok].
      unfold array_split. case_bool_decide; [|apply raises_only_Ok].
      by intros e [= <-].
Qed.

(** *** Sequential assembly of well-formed bases returns *)

Lemma setslice_Ok_length {A} (a : list A) q n v v' :
  broadcast_to n v = Ok v' → n * (q + 1) ≤ length a →
  ∃ a', setslice a (n * q) (n * (q + 1)) v = Ok a'
        ∧ length a' = length a.
Proof.
  intros Hv Hle. unfold setslice.
  replace ((n * q) `min` length a) with (n * q) by lia.
  replace ((n * q) `max` ((n * (q + 1)) `min` length a))
    with (n * (q + 1)) by lia.
  replace (n * (q + 1) - n * q) with n by lia.
  rewrite Hv, bind_Ok. eexists. split; [done|].
  rewrite !length_app, length_take, length_drop.
  apply broadcast_to_length in Hv. lia.
Qed.

Lemma loop_body_Ok (self : BilinearForm) ub vb w d r c j i :
  well_formed self ub vb w →
  j < Nbfun ub → i < Nbfun vb →
  length d = Nbfun ub * Nbfun vb * nelems ub →
  length r = Nbfun ub * Nbfun vb * nelems ub →
  length c = Nbfun ub * Nbfun vb * nelems ub →
  ∃ d' r' c',
    loop_body self ub vb w (d, r, c) j i = Ok (d', r', c')
    ∧ length d' = length d ∧ length r' = length r
    ∧ length c' = length c.
Proof.
  intros (Hrows & Hcols & Hblocks) Hj Hi Hd Hr Hc.
  destruct (Hrows i Hi) as (row & row' & Hrow & Hbr).
  destruct (Hcols j Hj) as (col & col' & Hcol & Hbc).
  destruct (Hblocks j i Hj Hi) as (b & Hb).
  assert (Nbfun vb * j + i + 1 ≤ Nbfun ub * Nbfun vb) as Hq.
  { assert (Nbfun vb * (j + 1) ≤ Nbfun vb * Nbfun ub)
      by (apply Nat.mul_le_mono_l; lia).
    lia. }
  assert (nelems ub * (Nbfun vb * j + i + 1)
          ≤ Nbfun ub * Nbfun vb * nelems ub) as Hle.
  { rewrite (Nat.mul_comm _ (nelems ub)). by apply Nat.mul_le_mono_l. }
  unfold Assembly.loop_body, getitem. rewrite Hrow, bind_Ok.
  destruct (setslice_Ok_length r (Nbfun vb * j + i) _ row row' Hbr)
    as (r' & -> & Hr'); [lia|].
  rewrite bind_Ok, Hcol, bind_Ok.
  destruct (setslice_Ok_length c (Nbfun vb * j + i) _ col col' Hbc)
    as (c' & -> & Hc'); [lia|].
  rewrite bind_Ok. case_bool_decide; [|by eexists _, _, _].
  unfold Assembly.block in Hb. do 3 inv_bind Hb.
  unfold getitem in Hx, Hx0.
  destruct (basis ub !! j) as [u|]; [|done]. injection Hx as ->.
  destruct (basis vb !! i) as [v|]; [|done]. injection Hx0 as ->.
  rewrite !bind_Ok, Hx1, bind_Ok.
  destruct (setslice_Ok_length d (Nbfun vb * j + i) _ x1 b Hb)
    as (d' & -> & Hd'); [lia|].
  rewrite bind_Ok. by eexists _, _, _.
Qed.

Lemma loop_Ok (self : BilinearForm) ub vb w ps d r c :
  well_formed self ub vb w →
  (∀ j i, (j, i) ∈ ps → j < Nbfun ub ∧ i < Nbfun vb) →
  length d = Nbfun ub * Nbfun vb * nelems ub →
  length r = Nbfun ub * Nbfun vb * nelems ub →
  length c = Nbfun ub * Nbfun vb * nelems ub →
  ∃ st, foldR (λ st p, loop_body self ub vb w st p.1 p.2) ps (d, r, c)
        = Ok st.
Proof.
  intros Hwf. revert d r c.
  induction ps as [|[j i] ps IH]; intros d r c Hps Hd Hr Hc.
  - by eexists.
  - cbn [foldR fst snd].
    destruct (Hps j i) as [Hj Hi]; [by left|].
    destruct (loop_body_Ok self ub vb w d r c j i Hwf Hj Hi Hd Hr Hc)
      as (d' & r' & c' & -> & Hd' & Hr' & Hc').
    rewrite bind_Ok. apply IH; [|congruence..].
    intros j' i' Hin. apply Hps. by right.
Qed.

(** Sequential assembly of a well-formed form and bases returns COO
    arrays. *)
Theorem sequential_assembly_returns sched (self : BilinearForm)
    (ub : Basis) (vb : option Basis) (kwargs : K) :
  (nthreads self ≤ 0)%Z →
  (∀ vb', vb = Some vb' → X_shape1 ub = X_shape1 vb') →
  well_formed self ub (test_basis ub vb)
    (extra_params (default_parameters ub) kwargs) →
  ∃ coo, _assemble sched self ub vb kwargs = Ok coo.
Proof.
  intros Hseq Heq Hwf. unfold Assembly._assemble.
  assert (match vb with
          | None => Ok ub
          | Some vbasis =>
              if bool_decide (X_shape1 ub ≠ X_shape1 vbasis)
              then Raise (ValueError quadrature_mismatch)
              else Ok vbasis
          end = Ok (test_basis ub vb)) as ->.
  { destruct vb as [vb'|]; [|done]. simpl.
    rewrite (bool_decide_eq_false_2 (X_shape1 ub ≠ X_shape1 vb'));
      [done|].
    intros Hne. by apply Hne, Heq. }
  rewrite bind_Ok. cbv zeta. rewrite foldR_nested.
  set (sz := Nbfun ub * Nbfun (test_basis ub vb) * nelems ub).
  destruct (loop_Ok self ub (test_basis ub vb) _
              (index_pairs (Nbfun ub) (Nbfun (test_basis ub vb)))
              (replicate sz vzero) (replicate sz 0%Z) (replicate sz 0%Z)
              Hwf)
    as ([[d r] c] & Hloop); [|by rewrite length_replicate..|].
  { intros j i. by rewrite index_pairs_elem_of. }
  unfold index_pairs in Hloop. rewrite Hloop, bind_Ok.
  rewrite bool_decide_eq_false_2 by lia. by eexists.
Qed.

End Form.

Lemma threaded_assembly_identical_witness :
  sample_assemble [1; 0; 1; 1; 0] 2 sample_basis None tt
  = Ok ([1; 1; 2; 3; 2; 3; 4; 9]%Z, [0; 1; 1; 2; 0; 1; 1; 2]%Z,
        [0; 1; 0; 1; 1; 2; 1; 2]%Z, (3, 3)).
Proof.
  apply (threaded_assembly_identical 0%Z np_mul_Z np_sum_axis1_Z
           (λ w (_ : unit), w) [1; 0; 1; 1; 0] [] (mass_form 0)
           sample_basis None tt 2).
  - simpl. lia.
  - lia.
  - exists 2%Z. reflexivity.
  - vm_compute. reflexivity.
Defined.

Lemma quadrature_mismatch_raised_witness :
  sample_assemble [] 0 sample_basis (Some sample_basis_q2) tt
  = Raise (ValueError quadrature_mismatch)
  ∧ sample_assemble [] 0 sample_basis (Some sample_basis) tt
    ≠ Raise (ValueError quadrature_mismatch).
Proof.
  split.
  - apply (proj1 (quadrature_mismatch_raised 0%Z np_mul_Z np_sum_axis1_Z
             (λ w (_ : unit), w) [] (mass_form 0) sample_basis
             (Some sample_basis_q2) tt) sample_basis_q2).
    + reflexivity.
    + simpl. lia.
  - apply (proj2 (quadrature_mismatch_raised 0%Z np_mul_Z np_sum_axis1_Z
             (λ w (_ : unit), w) [] (mass_form 0) sample_basis
             (Some sample_basis) tt)).
    + intros vb' [= <-]. reflexivity.
    + intros u v w d. unfold Assembly._kernel, mass_form. simpl.
      unfold np_mul_Z. case_bool_decide; [|done]. simpl.
      case_bool_decide; done.
Defined.

End AssemblyClaims.

Import Py Np NpFacts TopologyFacts.

Module MeshFacts.
Import MeshModel.

(** *** Arrays *)

Lemma length_omap_le {A B} (f : A → option B) (l : list A) :
  length (omap f l) ≤ length l.
Proof.
  induction l as [|x l IH]; [done|]. cbn [omap list_omap].
  destruct (f x); cbn [length]; lia.
Qed.

Lemma shape0_sort_axis0 (tv : matrix Z) :
  shape0 (sort_axis0 tv) ≤ shape0 tv.
Proof.
  unfold sort_axis0, shape0. rewrite length_transpose.
  unfold transpose. destruct (shape1 tv) as [|n]; [cbn; lia|].
  cbn [seq fmap list_fmap shape1]. rewrite length_sort.
  apply length_omap_le.
Qed.

Lemma Forall_zip_with_app {A} (P : A → Prop) (a b : matrix A) :
  Forall (Forall P) a → Forall (Forall P) b →
  Forall (Forall P) (zip_with app a b).
Proof.
  intros Ha. revert b. induction Ha as [|r a Hr _ IH]; intros b Hb.
  - constructor.
  - destruct Hb as [|r' b Hr' Hb]; [constructor|].
    cbn [zip_with]. constructor; [by apply Forall_app|by apply IH].
Qed.

Lemma getitem_Z_Ok `{!Inhabited A} (a : list A) (x : Z) :
  (0 ≤ x < Z.of_nat (length a))%Z →
  getitem_Z a x = Ok (a !!! Z.to_nat x).
Proof.
  intros Hx. unfold getitem_Z, py_index.
  rewrite bool_decide_eq_true_2 by done. rewrite bind_Ok.
  apply getitem_Ok. lia.
Qed.

Lemma shape1_fmap_rows {A B} (f : list A → list B) (n : nat) (m : matrix A) :
  (∀ r, length (f r) = n) →
  shape1 (f <$> m) = if decide (m = []) then 0 else n.
Proof. intros Hf. destruct m as [|r m]; [done|]. cbn. apply Hf. Qed.

Section Heap.
Context {R : Type} `{!EqDecision R}.
Context (Rle : relation R) `{!RelDecision Rle}.
Context (R0 R2 : R) (Radd Rsub Rmul Rdiv : R → R → R) (Rsqrt : R → R).
Context {Cls : Type} (issubclass : Cls → Cls → bool).
Context (class_elem : Cls → Element).
Context (class_affine class_sort_t : Cls → bool).
Context (element_dofs_of : Element → matrix Z → result (matrix Z)).

Abbreviation heap := (list (@obj R Cls)).
Abbreviation Mesh := (@Mesh Cls).
Abbreviation __post_init__ :=
  (MeshModel.__post_init__ (R:=R) (Cls:=Cls) R0 element_dofs_of).
Abbreviation new_mesh :=
  (MeshModel.new_mesh (R:=R) R0 class_elem class_affine class_sort_t
     element_dofs_of).
Abbreviation replace_doflocs :=
  (MeshModel.replace_doflocs (R:=R) (Cls:=Cls) R0 element_dofs_of).
Abbreviation __add__ :=
  (MeshModel.__add__ (R:=R) Rle R0 issubclass class_elem class_affine
     class_sort_t element_dofs_of).
Abbreviation scaled :=
  (MeshModel.scaled (R:=R) (Cls:=Cls) R0 Rmul element_dofs_of).
Abbreviation translated :=
  (MeshModel.translated (R:=R) (Cls:=Cls) R0 Radd element_dofs_of).
Abbreviation mirrored :=
  (MeshModel.mirrored (R:=R) (Cls:=Cls) R0 R2 Radd Rsub Rmul Rdiv Rsqrt
     element_dofs_of).

Implicit Types (h : heap) (l self r : loc).

(** *** Heaps grow *)

Lemma extends_refl h : extends h h.
Proof. by intros l o. Qed.

Lemma extends_trans h1 h2 h3 :
  extends h1 h2 → extends h2 h3 → extends h1 h3.
Proof. intros H12 H23 l o Hl. by apply H23, H12. Qed.

Lemma extends_alloc h o : extends h (alloc h o).1.
Proof.
  intros l o' Hl. unfold alloc. cbn [fst]. by apply lookup_app_l_Some.
Qed.

Lemma fresh_alloc h o : fresh h (alloc h o).2.
Proof.
  unfold fresh, alloc. cbn [snd]. by apply lookup_ge_None_2.
Qed.

Lemma lookup_alloc h o : (alloc h o).1 !! (alloc h o).2 = Some o.
Proof. unfold alloc. cbn [fst snd]. by apply list_lookup_middle. Qed.

Lemma extends_insert h0 h l o :
  extends h0 h → fresh h0 l → extends h0 (<[l := o]> h).
Proof.
  intros Hext Hfresh l' o' Hl'.
  rewrite list_lookup_insert_ne; [by apply Hext|].
  intros ->. unfold fresh in Hfresh. congruence.
Qed.

Lemma extends_fresh h h' l : extends h h' → fresh h' l → fresh h l.
Proof.
  unfold fresh. intros Hext Hl.
  destruct (h !! l) as [o|] eqn:Ho; [|done].
  apply Hext in Ho. congruence.
Qed.

Lemma get_mesh_extends h h' l m :
  extends h h' → get_mesh h l = Ok m → get_mesh h' l = Ok m.
Proof.
  unfold get_mesh. intros Hext.
  destruct (h !! l) as [o|] eqn:Ho; [|done].
  by rewrite (Hext _ _ Ho).
Qed.

Lemma get_float_extends h h' l a :
  extends h h' → get_float h l = Ok a → get_float h' l = Ok a.
Proof.
  unfold get_float. intros Hext.
  destruct (h !! l) as [o|] eqn:Ho; [|done].
  by rewrite (Hext _ _ Ho).
Qed.

Lemma get_int_extends h h' l a :
  extends h h' → get_int h l = Ok a → get_int h' l = Ok a.
Proof.
  unfold get_int. intros Hext.
  destruct (h !! l) as [o|] eqn:Ho; [|done].
  by rewrite (Hext _ _ Ho).
Qed.

Lemma get_dict_extends h h' ol d :
  extends h h' → get_dict h ol = Ok d → get_dict h' ol = Ok d.
Proof.
  unfold get_dict. intros Hext. destruct ol as [l|]; [|done].
  destruct (h !! l) as [o|] eqn:Ho; [|done].
  by rewrite (Hext _ _ Ho).
Qed.

Lemma get_mesh_lookup h l m : get_mesh h l = Ok m → h !! l = Some (MeshObj m).
Proof.
  unfold get_mesh. destruct (h !! l) as [[]|]; try done. by intros [= ->].
Qed.

(** The receiver is as before when the heap only grew. *)
Lemma receiver_state_extends h h' self st :
  extends h h' →
  receiver_state h self = Ok st → receiver_state h' self = Ok st.
Proof.
  intros Hext H. unfold receiver_state in *.
  do 5 inv_bind H.
  rewrite (get_mesh_extends h h' _ _ Hext Hx), bind_Ok.
  rewrite (get_float_extends h h' _ _ Hext Hx0), bind_Ok.
  rewrite (get_int_extends h h' _ _ Hext Hx1), bind_Ok.
  rewrite (get_dict_extends h h' _ _ Hext Hx2), bind_Ok.
  by rewrite (get_dict_extends h h' _ _ Hext Hx3), bind_Ok.
Qed.

(** *** The constructor *)

Lemma post_init_extends h0 h self h' :
  __post_init__ h self = Ok h' →
  extends h0 h → fresh h0 self →
  extends h0 h'
  ∧ ∃ m m', get_mesh h self = Ok m ∧ get_mesh h' self = Ok m'
            ∧ cls m' = cls m.
Proof.
  intros H Hext Hfresh. unfold MeshModel.__post_init__ in H.
  inv_bind H. rename x into m.
  apply bind_Ok_inv in H as ([h1 lt] & Hsort & H).
  assert (extends h h1) as Hext1.
  { destruct (sort_t m).
    - inv_bind Hsort. injection Hsort as <- <-.
      apply (extends_alloc h).
    - injection Hsort as <- <-. apply extends_refl. }
  do 2 inv_bind H.
  apply bind_Ok_inv in H as ([[h2 lp] lt'] & Hre & H).
  assert (extends h1 h2) as Hext2.
  { case_bool_decide.
    - apply bind_Ok_inv in Hre as ([p' t'] & _ & Hre).
      injection Hre as <- <- <-.
      eapply extends_trans; [apply (extends_alloc h1)|].
      apply (extends_alloc (alloc h1 (IntArray t')).1).
    - injection Hre as <- <- <-. apply extends_refl. }
  injection H as <-.
  assert (extends h h2) as Hhh2 by (by eapply extends_trans).
  split.
  - apply extends_insert; [|done].
    by eapply extends_trans.
  - eexists m, _. split; [done|]. split; [|shelve].
    unfold get_mesh. rewrite list_lookup_insert_eq; [reflexivity|].
    apply get_mesh_lookup in Hx. apply Hhh2 in Hx.
    by eapply lookup_lt_Some.
    Unshelve. reflexivity.
Qed.

(** What every constructor call gives: a new mesh object, the objects
    of the heap untouched. *)
Definition returns_new (h : heap) (res : result (heap * loc)) : Prop :=
  ∀ h' r, res = Ok (h', r) →
    extends h h' ∧ fresh h r ∧ ∃ m, get_mesh h' r = Ok m.

Lemma returns_new_extends h0 h res :
  extends h0 h → returns_new h res → returns_new h0 res.
Proof.
  intros Hext Hnew h' r Hres.
  destruct (Hnew h' r Hres) as (Hext' & Hfresh & Hm).
  split_and!; [by eapply extends_trans|by eapply extends_fresh|done].
Qed.

Lemma alloc_post_init_new h m :
  returns_new h (h1 ← __post_init__ (alloc h (MeshObj m)).1
                        (alloc h (MeshObj m)).2;
                 Ok (h1, (alloc h (MeshObj m)).2)).
Proof.
  intros h' r H. inv_bind H. injection H as <- <-.
  destruct (post_init_extends h _ _ _ Hx (extends_alloc h (MeshObj m))
              (fresh_alloc h (MeshObj m))) as (Hext & m0 & m' & _ & Hm' & _).
  split_and!; [done|apply (fresh_alloc h (MeshObj m))|by exists m'].
Qed.

Lemma new_mesh_new h c lp lt : returns_new h (new_mesh h c lp lt).
Proof. apply alloc_post_init_new. Qed.

Lemma replace_doflocs_new h self lp :
  returns_new h (replace_doflocs h self lp).
Proof.
  intros h' r H. unfold MeshModel.replace_doflocs in H. inv_bind H.
  eapply alloc_post_init_new. exact H.
Qed.

(** *** The transformations *)

Lemma alloc_then_new h o (k : heap → loc → result (heap * loc)) :
  (∀ h1 l, returns_new h1 (k h1 l)) →
  returns_new h (let '(h1, l) := alloc h o in k h1 l).
Proof.
  intros Hk. eapply returns_new_extends; [apply (extends_alloc h o)|].
  apply Hk.
Qed.

Lemma scaled_new h self factors : returns_new h (scaled h self factors).
Proof.
  intros h' r H. unfold MeshModel.scaled in H. do 3 inv_bind H.
  revert h' r H. apply alloc_then_new.
  intros h1 l. apply replace_doflocs_new.
Qed.

Lemma translated_new h self diffs :
  returns_new h (translated h self diffs).
Proof.
  intros h' r H. unfold MeshModel.translated in H. do 3 inv_bind H.
  revert h' r H. apply alloc_then_new.
  intros h1 l. apply replace_doflocs_new.
Qed.

Lemma mirrored_new h self normal point :
  returns_new h (mirrored h self normal point).
Proof.
  intros h' r H. unfold MeshModel.mirrored in H. do 6 inv_bind H.
  revert h' r H. apply alloc_then_new.
  intros h1 l. apply replace_doflocs_new.
Qed.

Lemma add_new h self other : returns_new h (__add__ h self other).
Proof.
  intros h' r H. unfold MeshModel.__add__ in H. do 8 inv_bind H.
  destruct (unique _ _) as [[u ixa] ixb]. do 2 inv_bind H.
  revert h' r H. apply alloc_then_new. intros h1 l.
  apply alloc_then_new. intros h2 l2. apply new_mesh_new.
Qed.

(** [refined] with the [_uniform] and [_adaptive] of a subclass. *)
Lemma refine_times_new uniform n h l h' r :
  allocating (λ h l (_ : unit), uniform h l) →
  refine_times uniform n h l = Ok (h', r) →
  extends h h'
  ∧ (n = 0 ∧ h' = h ∧ r = l
     ∨ 0 < n ∧ fresh h r ∧ ∃ m, get_mesh h' r = Ok m).
Proof.
  intros Hu. revert h l. induction n as [|n IH]; intros h l H.
  - injection H as <- <-. split; [apply extends_refl|by left].
  - cbn [refine_times] in H.
    apply bind_Ok_inv in H as ([h1 l1] & Hstep & H).
    destruct (Hu h l () h1 l1 Hstep) as (Hext1 & Hfresh1 & Hm1).
    destruct (IH _ _ H) as (Hext & [(_ & -> & ->)|(_ & Hfresh & Hm)]).
    + split; [done|]. right. split_and!; [lia|done|done].
    + split; [by eapply extends_trans|]. right.
      split_and!; [lia|by eapply extends_fresh|done].
Qed.

Lemma new_instance_of_new h self st res h' r :
  receiver_state h self = Ok st →
  returns_new h res → res = Ok (h', r) →
  new_instance h h' self r st.
Proof.
  intros Hst Hnew Hres.
  destruct (Hnew h' r Hres) as (Hext & Hfresh & Hm).
  split_and!; [done| |done|by eapply receiver_state_extends|done].
  intros ->. unfold receiver_state in Hst. inv_bind Hst.
  apply get_mesh_lookup in Hx. unfold fresh in Hfresh. congruence.
Qed.

(** *** The constructor returns *)

Lemma get_mesh_Ok h l m : h !! l = Some (MeshObj m) → get_mesh h l = Ok m.
Proof. unfold get_mesh. by intros ->. Qed.
Lemma get_float_Ok h l a :
  h !! l = Some (FloatArray a) → get_float h l = Ok a.
Proof. unfold get_float. by intros ->. Qed.
Lemma get_int_Ok h l a : h !! l = Some (IntArray a) → get_int h l = Ok a.
Proof. unfold get_int. by intros ->. Qed.
Lemma get_float_lookup h l a :
  get_float h l = Ok a → h !! l = Some (FloatArray a).
Proof.
  unfold get_float. destruct (h !! l) as [[]|]; try done. by intros [= ->].
Qed.

(** Without extra rows in the connectivity, [__post_init__] keeps the
    node array. *)
Lemma post_init_Ok h self m p tv :
  h !! self = Some (MeshObj m) →
  get_float h (doflocs m) = Ok p → get_int h (t m) = Ok tv →
  shape0 tv ≤ elem_nnodes (elem m) →
  ∃ h' m', __post_init__ h self = Ok h'
           ∧ get_mesh h' self = Ok m' ∧ doflocs m' = doflocs m
           ∧ get_float h' (doflocs m) = Ok p.
Proof.
  intros Hself Hp Ht HM. unfold MeshModel.__post_init__.
  rewrite (get_mesh_Ok _ _ _ Hself), bind_Ok.
  assert (doflocs m ≠ self) as Hne.
  { intros Heq. apply get_float_lookup in Hp. congruence. }
  assert (self < length h) as Hlt by (by eapply lookup_lt_Some).
  destruct (sort_t m).
  - rewrite Ht, !bind_Ok. unfold alloc.
    pose proof (extends_alloc h (IntArray (sort_axis0 tv))) as Hext.
    unfold alloc in Hext. cbn [fst] in Hext.
    rewrite (get_float_extends _ _ _ _ Hext Hp), bind_Ok.
    rewrite (get_int_Ok _ (length h) (sort_axis0 tv))
      by (by apply list_lookup_middle).
    rewrite bind_Ok.
    rewrite bool_decide_eq_false_2
      by (pose proof (shape0_sort_axis0 tv); lia).
    rewrite bind_Ok. eexists _, _. split; [done|].
    split_and!.
    + apply get_mesh_Ok. apply list_lookup_insert_eq.
      rewrite length_app. lia.
    + done.
    + apply get_float_Ok. rewrite list_lookup_insert_ne by done.
      apply Hext. by apply get_float_lookup.
  - rewrite !bind_Ok, Hp, bind_Ok, Ht, bind_Ok.
    rewrite bool_decide_eq_false_2 by lia.
    rewrite bind_Ok. eexists _, _. split; [done|].
    split_and!.
    + apply get_mesh_Ok. by apply list_lookup_insert_eq.
    + done.
    + apply get_float_Ok. rewrite list_lookup_insert_ne by done.
      by apply get_float_lookup.
Qed.

(** *** Joining returns *)

Local Instance R_inhabited : Inhabited R := populate R0.

Lemma add_Ok h self other m mo p1 p2 t1 t2 :
  get_mesh h self = Ok m →
  check_isinstance issubclass h other (cls m) = Ok mo →
  get_float h (doflocs m) = Ok p1 → get_float h (doflocs mo) = Ok p2 →
  get_int h (t m) = Ok t1 → get_int h (t mo) = Ok t2 →
  joinable (class_elem (cls m)) p1 t1 p2 t2 →
  ∃ h' r p, __add__ h self other = Ok (h', r)
            ∧ hstack [p1; p2] = Ok p
            ∧ p_shape1 h' r = Ok (length (remove_dups (transpose p))).
Proof.
  intros Hm Hc Hp1 Hp2 Ht1 Ht2
    ((Hr1 & Hrt1 & HM1 & Hix1) & (Hr2 & Hrt2 & HM2 & Hix2) & Hp & Ht).
  unfold shape0 in *.
  unfold MeshModel.__add__.
  rewrite Hm, bind_Ok, Hc, bind_Ok, Hp1, bind_Ok, Hp2, bind_Ok.
  rewrite hstack_Ok by (by repeat constructor).
  rewrite bind_Ok, Ht1, bind_Ok, Ht2, bind_Ok.
  cbn [hstack_rows].
  set (t2' := (λ row : list Z, _) <$> t2).
  rewrite hstack_Ok
    by (repeat constructor; unfold t2'; rewrite length_fmap; done).
  rewrite bind_Ok. cbn [hstack_rows].
  set (p := zip_with app p1 p2). set (tv := zip_with app t1 t2').
  assert (rect p) as Hrp by (by apply rect_zip_with_app).
  assert (shape1 p = shape1 p1 + shape1 p2) as Hsp
    by (by apply shape1_zip_with_app).
  unfold unique. cbv beta iota zeta.
  set (tmp := transpose p).
  set (u := merge_sort (lex_le Rle) (remove_dups tmp)).
  set (ixa := (λ x, index_of x tmp) <$> u).
  set (ixb := (λ x, index_of x u) <$> tmp).
  assert (length tmp = shape1 p) as Htmp by apply length_transpose.
  assert (Forall (λ i, i < shape1 p) ixa) as Hixa.
  { unfold ixa. apply Forall_fmap, Forall_forall. intros x Hx. cbn.
    rewrite <-Htmp. apply index_of_lt. unfold u in Hx.
    rewrite merge_sort_Permutation in Hx.
    by apply (elem_of_remove_dups tmp x). }
  unfold take_cols.
  rewrite (mapR_fmap _ (λ r : list R, (λ i, r !!! i) <$> ixa)); last first.
  { eapply Forall_impl; [exact Hrp|]. cbn. intros r Hr.
    apply getitems_Ok. by rewrite Hr. }
  rewrite bind_Ok.
  set (g := λ x : Z, Z.of_nat (ixb !!! Z.to_nat x)).
  rewrite (mapR_fmap _ (fmap g)); last first.
  { assert (Forall (Forall (λ x, (0 ≤ x < Z.of_nat (length ixb))%Z)) tv)
      as Htv.
    { unfold ixb. rewrite length_fmap, Htmp, Hsp.
      apply Forall_zip_with_app.
      - eapply Forall_impl; [exact Hix1|]. cbn. intros r Hr.
        eapply Forall_impl; [exact Hr|]. cbn. lia.
      - unfold t2'. apply Forall_fmap.
        eapply Forall_impl; [exact Hix2|]. cbn. intros r Hr.
        apply Forall_fmap. eapply Forall_impl; [exact Hr|]. cbn. lia. }
    eapply Forall_impl; [exact Htv|]. cbn. intros r Hr.
    apply mapR_fmap. eapply Forall_impl; [exact Hr|]. cbn. intros x Hx.
    by rewrite getitem_Z_Ok, bind_Ok. }
  rewrite bind_Ok.
  set (p' := (λ r : list R, (λ i, r !!! i) <$> ixa) <$> p).
  set (tv' := fmap g <$> tv).
  unfold MeshModel.new_mesh, alloc. cbv beta iota zeta.
  set (h1 := h ++ [FloatArray p']). set (h2 := h1 ++ [IntArray tv']).
  set (m0 := {| cls := cls m; doflocs := length h; t := length h1 |}).
  destruct (post_init_Ok (h2 ++ [MeshObj m0]) (length h2) m0 p' tv')
    as (h' & m' & Hpost & Hget & Hdof & Hfloat).
  { by apply list_lookup_middle. }
  { apply get_float_Ok. cbn [doflocs m0]. unfold h2, h1.
    rewrite <-!(assoc_L (++)). by apply list_lookup_middle. }
  { apply get_int_Ok. cbn [t m0]. unfold h2.
    rewrite <-!(assoc_L (++)). by apply list_lookup_middle. }
  { cbn [elem m0]. unfold tv', tv, shape0.
    rewrite length_fmap, length_zip_with. lia. }
  exists h', (length h2), p. rewrite Hpost, bind_Ok.
  split; [done|]. split; [done|].
  unfold p_shape1. rewrite Hget, bind_Ok, Hdof, Hfloat, bind_Ok.
  f_equal. unfold p'.
  rewrite (shape1_fmap_rows _ (length ixa)) by (intros; apply length_fmap).
  fold tmp. case_decide as Hnil.
  - unfold tmp. by rewrite Hnil.
  - unfold ixa, u. by rewrite length_fmap, merge_sort_Permutation.
Qed.
End Heap.
End MeshFacts.

Import Py Np NpFacts.

Module MeshClaims.
Import MeshModel MeshFacts MeshSample.

Section Heap.
Context {R : Type} `{!EqDecision R}.
Context (Rle : relation R) `{!RelDecision Rle}.
Context (R0 R2 : R) (Radd Rsub Rmul Rdiv : R → R → R) (Rsqrt : R → R).
Context {Cls : Type} (issubclass : Cls → Cls → bool).
Context (class_elem : Cls → Element).
Context (class_affine class_sort_t : Cls → bool).
Context (element_dofs_of : Element → matrix Z → result (matrix Z)).

Abbreviation heap := (list (@obj R Cls)).
Abbreviation transform :=
  (MeshModel.transform (R:=R) Rle R0 R2 Radd Rsub Rmul Rdiv Rsqrt
     issubclass class_elem class_affine class_sort_t element_dofs_of).

Implicit Types (h : heap) (l self r : loc).

(** C7, amended.  A transformation of a mesh that returns leaves the
    receiver as it was: its fields, node coordinates, connectivity and
    named boundary and subdomain sets are the same afterwards, and no
    object that existed before the call has changed.  Its result is a
    new mesh instance, one that did not exist before the call and is
    not the receiver, for [scaled], [translated], [mirrored], [+] and
    for [refined] with an index array or a positive number of
    refinements; [refined] with a number of refinements that is zero or
    negative returns the receiver itself and allocates nothing.  The
    [_uniform] and [_adaptive] of the class of the receiver are taken to
    return new instances. *)
Theorem transformation_new_instance uniform adaptive h self tr st h' r :
  allocating (λ h l (_ : unit), uniform h l) →
  allocating adaptive →
  receiver_state h self = Ok st →
  transform uniform adaptive h self tr = Ok (h', r) →
  if refines_nothing tr then h' = h ∧ r = self
  else new_instance h h' self r st.
Proof.
  intros Hu Ha Hst H.
  destruct tr as [factors|diffs|normal point|arg|other];
    cbn [MeshModel.transform refines_nothing] in *.
  - eapply new_instance_of_new; [done| |done]. apply scaled_new.
  - eapply new_instance_of_new; [done| |done]. apply translated_new.
  - eapply new_instance_of_new; [done| |done]. apply mirrored_new.
  - destruct arg as [n|ix]; cbn [refined] in H.
    + destruct (refine_times_new _ _ _ _ _ _ Hu H)
        as (Hext & [(Hn & -> & ->)|(Hn & Hfresh & Hm)]).
      * rewrite bool_decide_eq_true_2 by lia. done.
      * rewrite bool_decide_eq_false_2 by lia.
        eapply (new_instance_of_new _ _ _ (Ok (h', r))); [done| |done].
        by intros ?? [= <- <-].
    + eapply (new_instance_of_new _ _ _ (Ok (h', r))); [done| |done].
      intros ?? [= <- <-]. by eapply Ha.
  - eapply new_instance_of_new; [done| |done]. apply add_new.
Qed.

Abbreviation __add__ :=
  (MeshModel.__add__ (R:=R) Rle R0 issubclass class_elem class_affine
     class_sort_t element_dofs_of).

Lemma check_isinstance_Ok h other c mo :
  h !! other = Some (MeshObj mo) → issubclass (cls mo) c = true →
  check_isinstance issubclass h other c = Ok mo.
Proof. unfold check_isinstance. by intros -> ->. Qed.

Lemma check_isinstance_Raise h other c :
  (¬ ∃ mo, h !! other = Some (MeshObj mo) ∧ issubclass (cls mo) c = true) →
  check_isinstance issubclass h other c
  = Raise (TypeError "Can only join meshes with same type.").
Proof.
  unfold check_isinstance. intros Hn.
  destruct (h !! other) as [[| | |mo]|]; try done.
  destruct (issubclass (cls mo) c) eqn:Hsub; [|done].
  destruct Hn. by exists mo.
Qed.

(** C10, amended.  [self + other] raises [TypeError] whenever [other] is
    not an instance of the type of [self].  When it is, and the node
    arrays and connectivities of the two meshes are rectangular, of the
    same number of rows, with node indices in range and no more
    connectivity rows than the cell has nodes, the call returns: its
    result is a new mesh whose number of nodes is the number of distinct
    columns of the two node arrays put side by side. *)
Theorem add_type_error_or_joined h self other m :
  get_mesh h self = Ok m →
  ((¬ ∃ mo, h !! other = Some (MeshObj mo)
            ∧ issubclass (cls mo) (cls m) = true) →
   __add__ h self other
   = Raise (TypeError "Can only join meshes with same type."))
  ∧ (∀ mo p1 p2 t1 t2,
       h !! other = Some (MeshObj mo) →
       issubclass (cls mo) (cls m) = true →
       get_float h (doflocs m) = Ok p1 →
       get_float h (doflocs mo) = Ok p2 →
       get_int h (t m) = Ok t1 → get_int h (t mo) = Ok t2 →
       joinable (class_elem (cls m)) p1 t1 p2 t2 →
       ∃ h' r p,
         __add__ h self other = Ok (h', r)
         ∧ fresh h r ∧ extends h h'
         ∧ hstack [p1; p2] = Ok p
         ∧ p_shape1 h' r = Ok (length (remove_dups (transpose p)))).
Proof.
  intros Hm. split.
  - intros Hn. unfold MeshModel.__add__.
    by rewrite Hm, bind_Ok, (check_isinstance_Raise _ _ _ Hn).
  - intros mo p1 p2 t1 t2 Ho Hsub Hp1 Hp2 Ht1 Ht2 Hj.
    destruct (add_Ok Rle R0 issubclass class_elem class_affine
                class_sort_t element_dofs_of h self other m mo p1 p2 t1 t2
                Hm (check_isinstance_Ok _ _ _ _ Ho Hsub) Hp1 Hp2 Ht1 Ht2 Hj)
      as (h' & r & p & Hadd & Hp & Hn).
    destruct (add_new Rle R0 issubclass class_elem class_affine
                class_sort_t element_dofs_of h self other h' r Hadd)
      as (Hext & Hfresh & _).
    by exists h', r, p.
Qed.
End Heap.

Lemma base_uniform_allocating :
  allocating (λ (h : sheap) l (_ : unit), _uniform h l).
Proof. intros h l x h' r H. discriminate H. Qed.

Lemma base_adaptive_allocating :
  allocating (_adaptive (R:=Z) (Cls:=SampleCls)).
Proof. intros h l x h' r H. discriminate H. Qed.

Lemma copying_step_allocating :
  allocating (λ (h : sheap) l (_ : unit), copying_step h l).
Proof.
  intros h l x h' r H.
  exact (translated_new 0%Z Z.add no_dofs h l [0; 0]%Z h' r H).
Qed.

Lemma transformation_new_instance_witness :
  (∃ h' r st,
     s_transform sample_heap 3 (Scaled (inl 2%Z)) = Ok (h', r)
     ∧ receiver_state sample_heap 3 = Ok st
     ∧ new_instance sample_heap h' 3 r st)
  ∧ (∃ h' r st,
       refined copying_step _adaptive sample_heap 3 (Times 2) = Ok (h', r)
       ∧ receiver_state sample_heap 3 = Ok st
       ∧ new_instance sample_heap h' 3 r st).
Proof.
  split.
  - eexists _, _, _. split; [vm_compute; reflexivity|].
    split; [vm_compute; reflexivity|].
    apply (transformation_new_instance Z.le 0%Z 2%Z Z.add Z.sub Z.mul Z.div
             Z.sqrt sample_issubclass (λ _, tri_elem) (λ _, false)
             (λ _, false) no_dofs _uniform _adaptive sample_heap 3
             (Scaled (inl 2%Z))).
    + exact base_uniform_allocating.
    + exact base_adaptive_allocating.
    + vm_compute. reflexivity.
    + vm_compute. reflexivity.
  - eexists _, _, _. split; [vm_compute; reflexivity|].
    split; [vm_compute; reflexivity|].
    apply (transformation_new_instance Z.le 0%Z 2%Z Z.add Z.sub Z.mul Z.div
             Z.sqrt sample_issubclass (λ _, tri_elem) (λ _, false)
             (λ _, false) no_dofs copying_step _adaptive sample_heap 3
             (Refined (Times 2))).
    + exact copying_step_allocating.
    + exact base_adaptive_allocating.
    + vm_compute. reflexivity.
    + vm_compute. reflexivity.
Defined.

(** [m.refined(0)] is [m]: the result is the receiver, not a new
    instance. *)
Lemma refined_zero_returns_receiver :
  ∃ st,
    receiver_state sample_heap 3 = Ok st
    ∧ s_transform sample_heap 3 (Refined (Times 0)) = Ok (sample_heap, 3)
    ∧ ¬ new_instance sample_heap sample_heap 3 3 st.
Proof.
  eexists. split; [vm_compute; reflexivity|].
  split; [reflexivity|].
  intros (Hfresh & _). discriminate Hfresh.
Qed.

Lemma add_type_error_or_joined_witness :
  s_add sample_heap 3 7
  = Raise (TypeError "Can only join meshes with same type.")
  ∧ ∃ h' r p,
      s_add sample_heap 3 6 = Ok (h', r)
      ∧ fresh sample_heap r ∧ extends sample_heap h'
      ∧ hstack [[[0; 1; 0; 1]; [0; 0; 1; 1]]; [[1; 2; 1]; [0; 0; 1]]]%Z
        = Ok p
      ∧ p_shape1 h' r = Ok (length (remove_dups (transpose p))).
Proof.
  pose proof (add_type_error_or_joined Z.le 0%Z sample_issubclass
                (λ _, tri_elem) (λ _, false) (λ _, false) no_dofs
                sample_heap 3 7 (mesh_at MeshTri2 0 1 (Some 2)) eq_refl)
    as [Hraise _].
  pose proof (add_type_error_or_joined Z.le 0%Z sample_issubclass
                (λ _, tri_elem) (λ _, false) (λ _, false) no_dofs
                sample_heap 3 6 (mesh_at MeshTri2 0 1 (Some 2)) eq_refl)
    as [_ Hjoin].
  split.
  - apply Hraise. intros (mo & [= <-] & Hsub). discriminate Hsub.
  - apply (Hjoin (mesh_at MeshTri2 4 5 None) _ _
             [[0; 1]; [1; 2]; [2; 3]]%Z [[0]; [1]; [2]]%Z);
      [reflexivity..|].
    vm_compute. repeat constructor; discriminate.
Defined.

(** Two meshes of one type, one with nodes in the plane and one with nodes
    in space: [np.hstack] raises [ValueError]. *)
Lemma add_same_type_raises :
  get_mesh sample_heap 3 = Ok (mesh_at MeshTri2 0 1 (Some 2))
  ∧ get_mesh sample_heap 9 = Ok (mesh_at MeshTri2 8 5 None)
  ∧ sample_issubclass MeshTri2 MeshTri2 = true
  ∧ s_add sample_heap 3 9
    = Raise (ValueError "all the input array dimensions except for the concatenation axis must match exactly").
Proof. by vm_compute. Qed.
End MeshClaims.

Import Py Np NpFacts.

Module MeshioFacts.
Import PyDict Meshio MeshioSample.

(** *** Computations that keep what was assigned *)

Lemma St_bind_Ok {A B} (c : St A) (k : A → St B) s s' a :
  c s = (s', Ok a) → (c ≫= k) s = k a s'.
Proof. unfold mbind, St_bind. by intros ->. Qed.

Lemma St_bind_Raise {A B} (c : St A) (k : A → St B) s s' e :
  c s = (s', Raise e) → (c ≫= k) s = (s', Raise e).
Proof. unfold mbind, St_bind. by intros ->. Qed.

Lemma try_except_pass_Ok body s : (try_except_pass body s).2 = Ok ().
Proof. done. Qed.


Section FromMeshio.
Context {R M V : Type}.
Context (strip_extra_coordinates : string → matrix R → result (matrix R)).
Context (mesh_type : string → matrix R → matrix Z →
                     option named_sets → option named_sets → result M).
Context (mesh_facets : M → result (matrix Z)).
Context (mesh_boundary_facets : M → result (list nat)).
Context (_decode_cell_data :
           M → list (string * list (string * list Z)) →
           result (named_sets * named_sets)).
Context (int_data_to_sets : MeshioMesh R → result (MeshioMesh R)).
Context (getattr : MeshioMesh R → string → result V).

Abbreviation locals := (@locals R M).
Abbreviation before_try :=
  (Meshio.before_try strip_extra_coordinates mesh_type mesh_facets
     int_data_to_sets).
Abbreviation extract_tags :=
  (Meshio.extract_tags (R:=R) mesh_facets mesh_boundary_facets).
Abbreviation tag_block :=
  (Meshio.tag_block (R:=R) mesh_facets mesh_boundary_facets).
Abbreviation after_try :=
  (Meshio.after_try mesh_type _decode_cell_data getattr).
Abbreviation from_meshio :=
  (Meshio.from_meshio strip_extra_coordinates mesh_type mesh_facets
     mesh_boundary_facets _decode_cell_data int_data_to_sets getattr).

Implicit Types (l : locals) (s : sets).

(** The [try] block never raises. *)
Lemma tag_block_Ok l s : (tag_block l s).2 = Ok ().
Proof. unfold Meshio.tag_block. by destruct (_ && _). Qed.

(** Without gmsh tags in the cell data nothing is assigned. *)
Lemma extract_tags_untagged l s e :
  dict_get (cell_data_dict (mesh l)) "gmsh:physical" = Raise e →
  extract_tags l s = (s, Raise e).
Proof.
  intros H. unfold Meshio.extract_tags.
  apply St_bind_Raise. unfold lift. by rewrite H.
Qed.

End FromMeshio.

(** The cells of [tagged_cells] carry tags and its lines do not: the
    subdomains are read from the tags, then line 61 finds [facets]
    unbound. *)
Lemma tagged_cells_state_at_failure :
  (l ← s_before_try tagged_cells false; Ok (s_extract_tags l.1 l.2))
  = Ok ({| boundaries := [];
           subdomains := [(Some "left"%string, [0%Z]);
                          (Some "right"%string, [1%Z])] |},
        Raise NameError).
Proof. reflexivity. Qed.

(** Without gmsh tags the first line of the block raises, the named
    sets are those of the cell sets, and the import stops at line 71. *)
Lemma untagged_cells_import :
  (l ← s_before_try untagged_cells false; Ok (s_extract_tags l.1 l.2))
  = Ok ({| boundaries := [];
           subdomains := [(Some "inner"%string, [1%Z])] |},
        Raise KeyError)
  ∧ s_from_meshio untagged_cells None false = Raise AttributeError.
Proof. split; reflexivity. Qed.


End MeshioFacts.

Import Py Np NpFacts.

Module TetFacts.
Import MeshModel TetSample.

(** C8.  Take the default tetrahedral mesh to be the unit cube in five
    tetrahedra (its arrays are arguments: the class [MeshTet] is not
    among the sources), whatever the class says for [affine] and
    [sort_t].  Mirroring it across the three coordinate planes and adding
    the three images to it returns a mesh with 20 elements, four times
    the 5 of the original, and 20 vertices: its node array has 20 columns,
    not the 32 of the four node arrays side by side, because the join
    keeps one copy of the nodes that coincide. *)
Theorem mirrored_tet_counts (tet_affine tet_sort_t : bool)
    (p0 : matrix Z) (t0 : matrix Z) :
  p0 = unit_cube → t0 = five_tetrahedra →
  ∃ h1 m1 h m,
    default_mesh tet_affine tet_sort_t p0 t0 = Ok (h1, m1)
    ∧ mirror_and_join tet_affine tet_sort_t h1 m1 = Ok (h, m)
    ∧ nelements h1 m1 = Ok 5
    ∧ p_shape1 h1 m1 = Ok 8
    ∧ nelements h m = Ok (4 * 5)
    ∧ nvertices h m = Ok 20%Z
    ∧ p_shape1 h m = Ok 20.
Proof.
  intros -> ->.
  destruct tet_affine, tet_sort_t;
    eexists _, _, _, _;
    (split; [vm_compute; reflexivity|]);
    (split; [vm_compute; reflexivity|]);
    vm_compute; done.
Qed.

Lemma mirrored_tet_counts_witness :
  ∃ h1 m1 h m,
    default_mesh false false unit_cube five_tetrahedra = Ok (h1, m1)
    ∧ mirror_and_join false false h1 m1 = Ok (h, m)
    ∧ nelements h1 m1 = Ok 5
    ∧ p_shape1 h1 m1 = Ok 8
    ∧ nelements h m = Ok (4 * 5)
    ∧ nvertices h m = Ok 20%Z
    ∧ p_shape1 h m = Ok 20.
Proof.
  exact (mirrored_tet_counts false false unit_cube five_tetrahedra
           eq_refl eq_refl).
Defined.
End TetFacts.

Import Py Np NpFacts.

Module MeshioTypes.
Import PyDict Meshio MeshioExport MeshioSample.

Definition dim3 : list string := ["tetra"; "hexahedron"; "tetra10"].
Definition dim2 : list string := ["triangle"; "quad"; "triangle6"; "quad9"].
Definition dim1 : list string := ["line"].

(** Case analysis on membership in a list that is written out. *)
Ltac cases_in H :=
  repeat (apply elem_of_cons in H as [->|H]);
  [..|by apply elem_of_nil in H].

Section FirstKey.
Context {V : Type}.
Implicit Types (cells : list (string * V)) (ks : list string).

Lemma first_key_in_Some ks cells k :
  first_key_in ks cells = Some k →
  k ∈ ks ∧ ∃ pre v post,
    cells = pre ++ (k, v) :: post ∧ ∀ k', k' ∈ pre.*1 → k' ∉ ks.
Proof.
  induction cells as [|[k0 v0] cells IH]; [done|]. cbn [first_key_in].
  case_bool_decide as Hk0.
  - intros [= <-]. split; [done|]. exists [], v0, cells.
    split; [done|]. by intros k' ?%elem_of_nil.
  - intros H. destruct (IH H) as (Hin & pre & v & post & -> & Hpre).
    split; [done|]. exists ((k0, v0) :: pre), v, post. split; [done|].
    intros k' [->|?]%elem_of_cons; [done|by apply Hpre].
Qed.

Lemma first_key_in_None ks cells :
  first_key_in ks cells = None ↔ ∀ k, k ∈ cells.*1 → k ∉ ks.
Proof.
  induction cells as [|[k0 v0] cells IH]; cbn [first_key_in].
  - split; [|done]. by intros _ k ?%elem_of_nil.
  - case_bool_decide as Hk0.
    + split; [done|]. intros H. destruct (H k0); [by left|done].
    + rewrite IH. split.
      * intros H k [->|?]%elem_of_cons; [done|by apply H].
      * intros H k Hk. apply H. by right.
Qed.

(** No cell type of the dimension [d] is among the cells. *)
Definition no_key (d : list string) cells : Prop :=
  ∀ k, k ∈ cells.*1 → k ∉ d.

(** The cell type that [from_meshio] reads is a key of the cells, the
    first one of the highest dimension present (tetrahedra and hexahedra
    before triangles and quadrilaterals before lines), and both type
    tables have an entry for it. *)
Theorem select_type_priority cells k :
  select_type cells = Ok k →
  (∃ d, (d = dim3
         ∨ d = dim2 ∧ no_key dim3 cells
         ∨ d = dim1 ∧ no_key dim3 cells ∧ no_key dim2 cells)
        ∧ k ∈ d
        ∧ ∃ pre v post,
            cells = pre ++ (k, v) :: post ∧ ∀ k', k' ∈ pre.*1 → k' ∉ d)
  ∧ (∃ c, dict_get MESH_TYPE_MAPPING k = Ok c)
  ∧ (∃ b, dict_get BOUNDARY_TYPE_MAPPING k = Ok b).
Proof.
  unfold select_type. fold dim3 dim2 dim1.
  destruct (first_key_in dim3 cells) as [k3|] eqn:H3.
  { intros [= ->]. destruct (first_key_in_Some _ _ _ H3) as (Hin & Hfirst).
    split; [exists dim3; split; [by left|by split]|].
    unfold dim3 in Hin. cases_in Hin; by split; eexists. }
  rewrite first_key_in_None in H3.
  destruct (first_key_in dim2 cells) as [k2|] eqn:H2.
  { intros [= ->]. destruct (first_key_in_Some _ _ _ H2) as (Hin & Hfirst).
    split; [exists dim2; split; [right; left; by split|by split]|].
    unfold dim2 in Hin. cases_in Hin; by split; eexists. }
  rewrite first_key_in_None in H2.
  destruct (first_key_in dim1 cells) as [k1|] eqn:H1; [|done].
  intros [= ->]. destruct (first_key_in_Some _ _ _ H1) as (Hin & Hfirst).
  split; [exists dim1; split; [right; right; by split_and!|by split]|].
  unfold dim1 in Hin. cases_in Hin; by split; eexists.
Qed.

(** The import raises [NotImplementedError] exactly when none of the
    cell types of the meshio mesh is a supported one. *)
Theorem select_type_unsupported cells :
  (∀ k, k ∈ cells.*1 → k ∉ dim3 ++ dim2 ++ dim1)
  ↔ select_type cells
    = Raise (NotImplementedError "Mesh type(s) not supported in import").
Proof.
  unfold select_type. fold dim3 dim2 dim1. split.
  - intros H.
    rewrite (proj2 (first_key_in_None dim3 cells)),
      (proj2 (first_key_in_None dim2 cells)),
      (proj2 (first_key_in_None dim1 cells)); [done|..];
      intros k Hk Hin; apply (H k Hk); rewrite !elem_of_app; auto.
  - destruct (first_key_in dim3 cells) eqn:H3; [done|].
    destruct (first_key_in dim2 cells) eqn:H2; [done|].
    destruct (first_key_in dim1 cells) eqn:H1; [done|].
    intros _ k Hk.
    rewrite first_key_in_None in H3, H2, H1.
    rewrite !not_elem_of_app. by split_and!; [apply H3|apply H2|apply H1].
Qed.
End FirstKey.

Lemma select_type_priority_witness :
  (∃ d, (d = dim3
         ∨ d = dim2 ∧ no_key dim3 (cells_dict tagged_cells)
         ∨ d = dim1 ∧ no_key dim3 (cells_dict tagged_cells)
           ∧ no_key dim2 (cells_dict tagged_cells))
        ∧ "triangle"%string ∈ d
        ∧ ∃ pre v post,
            cells_dict tagged_cells = pre ++ ("triangle"%string, v) :: post
            ∧ ∀ k', k' ∈ pre.*1 → k' ∉ d)
  ∧ (∃ c, dict_get MESH_TYPE_MAPPING "triangle"%string = Ok c)
  ∧ (∃ b, dict_get BOUNDARY_TYPE_MAPPING "triangle"%string = Ok b).
Proof.
  exact (select_type_priority (cells_dict tagged_cells) "triangle" eq_refl).
Defined.
End MeshioTypes.

Module MeshioRoundTrip.
Import PyDict Meshio MeshioExport MeshioSample MeshioTypes.

(** The two reorderings of the nodes of a hexahedron undo each other. *)
Lemma hex_round_trip {A} (t : list A) :
  length t = 8 →
  ∃ t1, getitems t [0; 4; 3; 1; 7; 5; 2; 6] = Ok t1
        ∧ getitems t1 [0; 3; 6; 2; 1; 5; 7; 4] = Ok t.
Proof.
  intros Hlen. do 9 (destruct t as [|? t]; try done).
  by eexists.
Qed.

(** Every class of [MESH_TYPE_MAPPING] has the type it is listed under in
    [TYPE_MESH_MAPPING]. *)
Lemma type_round_trip k c :
  dict_get MESH_TYPE_MAPPING k = Ok c →
  dict_get TYPE_MESH_MAPPING c = Ok k
  ∧ (c = "MeshHex"%string ↔ k = "hexahedron"%string).
Proof.
  unfold MESH_TYPE_MAPPING. cbn [dict_get].
  repeat (case_decide;
          [intros [= <-]; subst k; split; [reflexivity|];
           split; intros ?; first [reflexivity|discriminate]|]).
  intros [=].
Qed.

Section RoundTrip.
Context {R M V PD CD : Type}.
Context (strip_extra_coordinates : string → matrix R → result (matrix R)).
Context (mesh_type : string → matrix R → matrix Z →
                     option named_sets → option named_sets → result M).
Context (mesh_facets : M → result (matrix Z)).
Context (mesh_boundary_facets : M → result (list nat)).
Context (_decode_cell_data :
           M → list (string * list (string * list Z)) →
           result (named_sets * named_sets)).
Context (int_data_to_sets : MeshioMesh R → result (MeshioMesh R)).
Context (getattr : MeshioMesh R → string → result V).
Context (mesh_class : M → string).
Context (isinstance_MeshHex : M → bool).
Context (element_dofs : M → result (matrix Z)).
Context (mesh_p : M → matrix R).
Context (_encode_cell_data : M → result (list (string * CD))).

Abbreviation before_try :=
  (Meshio.before_try strip_extra_coordinates mesh_type mesh_facets
     int_data_to_sets).
Abbreviation from_meshio :=
  (Meshio.from_meshio strip_extra_coordinates mesh_type mesh_facets
     mesh_boundary_facets _decode_cell_data int_data_to_sets getattr).

(** What [before_try] leaves in the local variables. *)
Lemma before_try_inv m flag l s :
  before_try m flag = Ok (l, s) →
  ∃ c, select_type (cells_dict m) = Ok (meshio_type l)
       ∧ dict_get (cells_dict m) (meshio_type l) = Ok c
       ∧ (if bool_decide (meshio_type l = "hexahedron"%string)
          then getitems (transpose c) [0; 4; 3; 1; 7; 5; 2; 6]
          else Ok (transpose c)) = Ok (t l)
       ∧ (if flag then int_data_to_sets m else Ok m) = Ok (mesh l)
       ∧ mesh_type (meshio_type l) (p l) (t l) None None = Ok (mtmp l).
Proof.
  unfold Meshio.before_try. intros H. do 9 inv_bind H.
  destruct x7 as [fac b]. injection H as <- <-. cbn.
  by exists x1.
Qed.

Abbreviation export_cells :=
  (MeshioExport.export_cells mesh_class isinstance_MeshHex element_dofs).
Abbreviation to_meshio :=
  (MeshioExport.to_meshio (PD:=PD) mesh_class isinstance_MeshHex
     element_dofs mesh_p _encode_cell_data).

(** The cells that [to_meshio] builds are the cells that were imported,
    but it does not pass them on: for a mesh of the class that
    [from_meshio] chose whose [element_dofs] is the connectivity that
    [from_meshio] read, lines 83 to 87 build the dictionary of the cells
    that [from_meshio] started from, under the same type, in the
    original node order; line 90 then calls [mesh._encode_cell_data()],
    and where the class of the mesh has no such method, as class [Mesh]
    has none, [to_meshio] raises [AttributeError], also when cell data
    are given. *)
Theorem export_cells_original m flag l s c mesh :
  before_try m flag = Ok (l, s) →
  dict_get (cells_dict m) (meshio_type l) = Ok c →
  rect c → shape1 c ≠ 0 →
  (meshio_type l = "hexahedron"%string → shape1 c = 8) →
  dict_get MESH_TYPE_MAPPING (meshio_type l) = Ok (mesh_class mesh) →
  isinstance_MeshHex mesh
  = bool_decide (mesh_class mesh = "MeshHex"%string) →
  element_dofs mesh = Ok (t l) →
  export_cells mesh = Ok [(meshio_type l, c)]
  ∧ (_encode_cell_data mesh = Raise AttributeError →
     ∀ pd cd, to_meshio mesh pd cd = Raise AttributeError).
Proof.
  intros Hpre Hc Hrect Hcols Hhex Hcls Hinst Hdofs.
  destruct (before_try_inv _ _ _ _ Hpre) as (c' & _ & Hc' & Ht & _).
  rewrite Hc in Hc'. injection Hc' as <-.
  destruct (type_round_trip _ _ Hcls) as [Hback Hiff].
  assert (export_cells mesh = Ok [(meshio_type l, c)]) as Hcells.
  { unfold MeshioExport.export_cells. rewrite Hdofs, bind_Ok, Hinst.
    assert ((if bool_decide (mesh_class mesh = "MeshHex"%string)
             then getitems (t l) [0; 3; 6; 2; 1; 5; 7; 4]
             else Ok (t l)) = Ok (transpose c)) as ->.
    { destruct (decide (meshio_type l = "hexahedron"%string)) as [Hk|Hk].
      - rewrite (bool_decide_eq_true_2 _ Hk) in Ht.
        rewrite (bool_decide_eq_true_2 _ (proj2 Hiff Hk)).
        destruct (hex_round_trip (transpose c)) as (t1 & H1 & H2).
        { rewrite length_transpose. by apply Hhex. }
        rewrite H1 in Ht. by injection Ht as <-.
      - rewrite (bool_decide_eq_false_2 _ Hk) in Ht.
        rewrite bool_decide_eq_false_2 by (by rewrite Hiff).
        by injection Ht as <-. }
    rewrite bind_Ok, Hback, bind_Ok.
    by rewrite transpose_involutive. }
  split; [done|]. intros Henc pd cd.
  unfold MeshioExport.to_meshio. by rewrite Hcells, bind_Ok, Henc.
Qed.

Abbreviation after_try :=
  (Meshio.after_try mesh_type _decode_cell_data getattr).

(** A meshio mesh without cell sets and without cell data is imported
    as the mesh of its nodes and connectivity alone: the constructor is
    called with [None] for the boundaries and the subdomains, whatever
    the field data are, and its result is returned. *)
Theorem plain_import m out l s outv :
  cell_sets_dict m = [] → cell_data_dict m = [] →
  before_try m false = Ok (l, s) →
  fill_out getattr m out = Ok outv →
  s = {| boundaries := []; subdomains := [] |}
  ∧ from_meshio m out false = Ok (mtmp l, outv).
Proof.
  intros Hsets Hdata Hpre Hout.
  destruct (before_try_inv _ _ _ _ Hpre) as (c & _ & _ & _ & Hm & Hmtmp).
  injection Hm as Hm.
  assert (s = {| boundaries := []; subdomains := [] |}) as ->.
  { unfold Meshio.before_try in Hpre. do 5 inv_bind Hpre.
    injection Hx3 as ->. rewrite Hsets in Hpre. cbn [nonempty andb] in Hpre.
    apply bind_Ok_inv in Hpre as (sd & [= <-] & Hpre).
    apply bind_Ok_inv in Hpre as (mt & _ & Hpre).
    apply bind_Ok_inv in Hpre as (bt & _ & Hpre).
    apply bind_Ok_inv in Hpre as (fb & [= <-] & Hpre).
    by injection Hpre as _ <-. }
  split; [done|].
  unfold Meshio.from_meshio. rewrite Hpre, bind_Ok.
  unfold Meshio.tag_block. rewrite <-Hm, Hdata.
  cbn [nonempty andb]. unfold mret, St_ret. rewrite bind_Ok.
  unfold Meshio.after_try. rewrite <-Hm, Hdata. cbn [nonempty andb].
  rewrite bind_Ok, Hout, bind_Ok. cbn [boundaries subdomains none_if_empty].
  by rewrite Hmtmp.
Qed.
End RoundTrip.

Abbreviation s_to_meshio :=
  (to_meshio (R:=Z) (PD:=unit) (CD:=unit) (λ _ : SampleMesh, "MeshHex"%string)
     (λ _, true) (λ m, Ok (sm_t m)) sm_p (λ _, Raise AttributeError)).

Lemma export_cells_original_witness :
  MeshioExport.export_cells (λ _ : SampleMesh, "MeshHex"%string)
    (λ _, true) (λ m, Ok (sm_t m)) hexahedron_mesh
  = Ok [("hexahedron"%string, [[10; 11; 12; 13; 14; 15; 16; 17]]%Z)]
  ∧ s_to_meshio hexahedron_mesh None None = Raise AttributeError
  ∧ s_to_meshio hexahedron_mesh (Some ()) (Some [("u"%string, ())])
    = Raise AttributeError.
Proof.
  destruct (export_cells_original (R:=Z) (PD:=unit) (CD:=unit)
              (λ _ p, Ok p) s_mesh_type
              (λ m, Topology.facets Topology.tri_refdom (sm_t m))
              (λ m, Ok m) (λ _ : SampleMesh, "MeshHex"%string)
              (λ _, true) (λ m, Ok (sm_t m)) sm_p
              (λ _, Raise AttributeError)
              one_hexahedron false _ _
              [[10; 11; 12; 13; 14; 15; 16; 17]]%Z hexahedron_mesh
              eq_refl eq_refl
              ltac:(by repeat constructor) ltac:(discriminate)
              ltac:(reflexivity) eq_refl eq_refl eq_refl) as [Hcells Hraise].
  split; [exact Hcells|]. split; apply Hraise; reflexivity.
Defined.

Lemma plain_import_witness :
  s_from_meshio one_hexahedron None false = Ok (hexahedron_mesh, None).
Proof.
  exact (proj2 (plain_import (R:=Z) (V:=unit) (λ _ p, Ok p) s_mesh_type
                  (λ m, Topology.facets Topology.tri_refdom (sm_t m))
                  (λ m, Topology.mesh_boundary_facets Topology.tri_refdom
                          (sm_t m))
                  no_decode_cell_data (λ m, Ok m)
                  (λ _ _, Raise AttributeError)
                  one_hexahedron None _ _ None eq_refl eq_refl eq_refl
                  eq_refl)).
Defined.
End MeshioRoundTrip.

Import Py Np NpFacts.

Module AssemblyLayout.
Import Assembly AssemblyFacts.

Section Form.
Context {V Arr Field W K : Type}.
Context (vzero : V).
Context (np_mul : Arr → Arr → result Arr).
Context (np_sum_axis1 : Arr → result (list V)).
Context (extra_params : W → K → W).

Abbreviation Basis := (@Basis Arr Field W).
Abbreviation BilinearForm := (@BilinearForm Arr Field W).
Abbreviation loop_body :=
  (Assembly.loop_body (Field:=Field) (W:=W) np_mul np_sum_axis1).
Abbreviation _assemble :=
  (Assembly._assemble (Field:=Field) vzero np_mul np_sum_axis1
     extra_params).
Abbreviation block :=
  (Assembly.block (Field:=Field) (W:=W) np_mul np_sum_axis1).

(** [b.element_dofs[i]], broadcast to one entry per element as the
    assignment to a slice of [rows] or [cols] does. *)
Definition dofs_block (b : Basis) (nt i : nat) : result (list Z) :=
  r ← getitem (element_dofs b) i; broadcast_to nt r.

Lemma dofs_block_length b nt i r :
  dofs_block b nt i = Ok r → length r = nt.
Proof.
  unfold dofs_block. intros H. inv_bind H. by eapply broadcast_to_length.
Qed.

Lemma loop_body_rows_cols_blocks (self : BilinearForm) ub vb w
    pre_r post_r pre_c post_c d d' r' c' j i :
  length pre_r = nelems ub * (Nbfun vb * j + i) →
  length pre_c = nelems ub * (Nbfun vb * j + i) →
  loop_body self ub vb w
    (d, pre_r ++ replicate (nelems ub) 0%Z ++ post_r,
        pre_c ++ replicate (nelems ub) 0%Z ++ post_c) j i
    = Ok (d', r', c') →
  ∃ rr cc, dofs_block vb (nelems ub) i = Ok rr
           ∧ dofs_block ub (nelems ub) j = Ok cc
           ∧ r' = pre_r ++ rr ++ post_r ∧ c' = pre_c ++ cc ++ post_c.
Proof.
  intros Hr Hc H. unfold Assembly.loop_body in H.
  do 4 inv_bind H.
  assert (nelems ub * (Nbfun vb * j + i + 1)
          = length pre_r + length (replicate (nelems ub) 0%Z)) as Hhi_r
    by (rewrite length_replicate; lia).
  assert (nelems ub * (Nbfun vb * j + i + 1)
          = length pre_c + length (replicate (nelems ub) 0%Z)) as Hhi_c
    by (rewrite length_replicate; lia).
  rewrite <-Hr, Hhi_r, setslice_block, length_replicate in Hx0.
  rewrite <-Hc, Hhi_c, setslice_block, length_replicate in Hx2.
  apply bind_Ok_inv in Hx0 as (rr & Hrr & [= <-]).
  apply bind_Ok_inv in Hx2 as (cc & Hcc & [= <-]).
  exists rr, cc. unfold dofs_block. rewrite Hx, Hx1, !bind_Ok.
  split_and!; [done..| |].
  - case_bool_decide; [do 4 inv_bind H|]; by injection H as _ <- _.
  - case_bool_decide; [do 4 inv_bind H|]; by injection H as _ _ <-.
Qed.

Lemma loop_rows_cols_blocks (self : BilinearForm) ub vb w ps q
    pre_r pre_c d d' r' c' :
  (∀ k j i, ps !! k = Some (j, i) → Nbfun vb * j + i = q + k) →
  length pre_r = nelems ub * q → length pre_c = nelems ub * q →
  foldR (λ st p, loop_body self ub vb w st p.1 p.2) ps
    (d, pre_r ++ replicate (nelems ub * length ps) 0%Z,
        pre_c ++ replicate (nelems ub * length ps) 0%Z)
    = Ok (d', r', c') →
  ∃ rs cs,
    mapR (λ p, dofs_block vb (nelems ub) p.2) ps = Ok rs
    ∧ mapR (λ p, dofs_block ub (nelems ub) p.1) ps = Ok cs
    ∧ r' = pre_r ++ mjoin rs ∧ c' = pre_c ++ mjoin cs.
Proof.
  revert q pre_r pre_c d.
  induction ps as [|[j i] ps IH]; intros q pre_r pre_c d Hpos Hr Hc H.
  - cbn [foldR] in H. injection H as _ <- <-. exists [], [].
    simpl. by rewrite Nat.mul_0_r.
  - cbn [foldR fst snd] in H.
    apply bind_Ok_inv in H as ([[d1 r1] c1] & Hb & H).
    assert (replicate (nelems ub * length ((j, i) :: ps)) 0%Z
            = replicate (nelems ub) 0%Z
                ++ replicate (nelems ub * length ps) 0%Z) as Hz.
    { simpl length. rewrite <-replicate_add. f_equal. lia. }
    rewrite Hz in Hb.
    assert (Nbfun vb * j + i = q) as Hq
      by (rewrite (Hpos 0 j i) by done; lia).
    destruct (loop_body_rows_cols_blocks self ub vb w pre_r
                (replicate (nelems ub * length ps) 0%Z) pre_c
                (replicate (nelems ub * length ps) 0%Z)
                d d1 r1 c1 j i) as (rr & cc & Hrr & Hcc & -> & ->);
      [by rewrite Hq..|exact Hb|].
    pose proof (dofs_block_length _ _ _ _ Hrr) as Hlr.
    pose proof (dofs_block_length _ _ _ _ Hcc) as Hlc.
    rewrite !app_assoc in H.
    destruct (IH (S q) (pre_r ++ rr) (pre_c ++ cc) d1)
      as (rs & cs & Hrs & Hcs & -> & ->); [| | |exact H|].
    { intros k j' i' Hk. rewrite (Hpos (S k) j' i') by done. lia. }
    { rewrite length_app, Hr, Hlr. lia. }
    { rewrite length_app, Hc, Hlc. lia. }
    exists (rr :: rs), (cc :: cs). cbn [mapR fst snd].
    rewrite Hrr, Hcc, Hrs, Hcs. cbn [bind].
    split_and!; [done..| |]; simpl; by rewrite <-app_assoc.
Qed.

(** The COO triplets that [_assemble] returns, in either mode: for the
    pairs [(j, i)] of a trial and a test basis function, in the order
    of the double loop, [rows] holds the global numbers of the test
    function [i] on every element, [cols] those of the trial function
    [j]; the shape is (test size, trial size).  In sequential mode
    [data] holds, in the same order, the value of the kernel for the
    pair on every element. *)
Theorem coo_triplets sched (self : BilinearForm) (ub : Basis)
    (vb : option Basis) (kwargs : K) data rows cols shape :
  _assemble sched self ub vb kwargs = Ok (data, rows, cols, shape) →
  let vb' := test_basis ub vb in
  let pairs := index_pairs (Nbfun ub) (Nbfun vb') in
  shape = (N vb', N ub)
  ∧ (∃ rs, mapR (λ p, dofs_block vb' (nelems ub) p.2) pairs = Ok rs
           ∧ rows = mjoin rs)
  ∧ (∃ cs, mapR (λ p, dofs_block ub (nelems ub) p.1) pairs = Ok cs
           ∧ cols = mjoin cs)
  ∧ ((nthreads self ≤ 0)%Z →
     ∃ bs, mapR (λ p, block self ub vb'
                        (extra_params (default_parameters ub) kwargs)
                        p.1 p.2) pairs = Ok bs
           ∧ data = mjoin bs).
Proof.
  intros H vb' pairs. unfold Assembly._assemble in H.
  apply bind_Ok_inv in H as (vb0 & Hcheck & H).
  apply check_Ok in Hcheck. subst vb0. fold vb' in H.
  cbv zeta in H.
  apply bind_Ok_inv in H as ([[d1 r1] c1] & Hloop & H).
  rewrite foldR_nested in Hloop.
  fold (index_pairs (Nbfun ub) (Nbfun vb')) in Hloop. fold pairs in Hloop.
  set (wdict := extra_params (default_parameters ub) kwargs) in *.
  assert (∀ X (z : X), replicate (Nbfun ub * Nbfun vb' * nelems ub) z
          = [] ++ replicate (nelems ub * length pairs) z) as Hd.
  { intros X z. unfold pairs. rewrite length_index_pairs. simpl.
    f_equal. lia. }
  assert (∀ k j i, pairs !! k = Some (j, i) →
            Nbfun vb' * j + i = 0 + k) as Hpos.
  { intros k j i Hk. apply index_pairs_lookup in Hk. lia. }
  pose proof Hloop as Hrc. rewrite !(Hd Z) in Hrc.
  edestruct (loop_rows_cols_blocks self ub vb' wdict pairs 0 [] [])
    as (rs & cs & Hrs & Hcs & Hr1 & Hc1);
    [exact Hpos|simpl; lia..|exact Hrc|].
  simpl in Hr1, Hc1. subst r1 c1.
  assert (shape = (N vb', N ub) ∧ rows = mjoin rs ∧ cols = mjoin cs
          ∧ ((nthreads self ≤ 0)%Z → data = d1)) as (-> & -> & -> & Hdata).
  { case_bool_decide as Hn.
    - inv_bind H. injection H as <- <- <- <-. split_and!; [done..|lia].
    - by injection H as <- <- <- <-. }
  split_and!; [done|by exists rs|by exists cs|].
  intros Hseq. rewrite (Hdata Hseq).
  rewrite (Hd V) in Hloop.
  assert (length (@nil V) = nelems ub * 0) as Hlen by (simpl; lia).
  edestruct (loop_data vzero np_mul np_sum_axis1 self ub vb' wdict pairs 0
               []) as (bs & Hbs & Hd1);
    [exact Hseq|exact Hpos|exact Hlen|reflexivity|exact Hloop|].
  exists bs. by rewrite Hd1.
Qed.
End Form.

Lemma coo_triplets_witness :
  (3, 3) = (N sample_basis, N sample_basis)
  ∧ (∃ rs, mapR (λ p, dofs_block sample_basis 2 p.2) (index_pairs 2 2)
           = Ok rs
           ∧ [0; 1; 1; 2; 0; 1; 1; 2]%Z = mjoin rs)
  ∧ (∃ cs, mapR (λ p, dofs_block sample_basis 2 p.1) (index_pairs 2 2)
           = Ok cs
           ∧ [0; 1; 0; 1; 1; 2; 1; 2]%Z = mjoin cs)
  ∧ ((0 ≤ 0)%Z →
     ∃ bs, mapR (λ p, Assembly.block np_mul_Z np_sum_axis1_Z (mass_form 0)
                        sample_basis sample_basis tt p.1 p.2)
                (index_pairs 2 2) = Ok bs
           ∧ [1; 1; 2; 3; 2; 3; 4; 9]%Z = mjoin bs).
Proof.
  exact (coo_triplets 0%Z np_mul_Z np_sum_axis1_Z (λ w (_ : unit), w) []
           (mass_form 0) sample_basis None tt _ _ _ _ eq_refl).
Defined.
End AssemblyLayout.

Module AssemblyErrors.
Import Assembly AssemblyFacts AssemblyClaims AssemblyLayout.

Lemma join_replicate {A} (n m : nat) (x : A) :
  mjoin (replicate n (replicate m x)) = replicate (n * m) x.
Proof.
  induction n as [|n IH]; [done|]. simpl. by rewrite IH, replicate_add.
Qed.

Section Form.
Context {V Arr Field W K : Type}.
Context (vzero : V).
Context (np_mul : Arr → Arr → result Arr).
Context (np_sum_axis1 : Arr → result (list V)).
Context (extra_params : W → K → W).

Abbreviation Basis := (@Basis Arr Field W).
Abbreviation BilinearForm := (@BilinearForm Arr Field W).
Abbreviation thread_step :=
  (Assembly.thread_step (Field:=Field) (W:=W) np_mul np_sum_axis1).
Abbreviation _threaded_kernel :=
  (Assembly._threaded_kernel (Field:=Field) (W:=W) np_mul np_sum_axis1).
Abbreviation run_threads :=
  (Assembly.run_threads (Field:=Field) (W:=W) np_mul np_sum_axis1).
Abbreviation loop_body :=
  (Assembly.loop_body (Field:=Field) (W:=W) np_mul np_sum_axis1).
Abbreviation _assemble :=
  (Assembly._assemble (Field:=Field) vzero np_mul np_sum_axis1
     extra_params).

(** The bases give the global numbers of every local basis function,
    one per element. *)
Definition dofs_given (ub vb : Basis) : Prop :=
  (∀ i, i < Nbfun vb → ∃ r, dofs_block vb (nelems ub) i = Ok r)
  ∧ (∀ j, j < Nbfun ub → ∃ c, dofs_block ub (nelems ub) j = Ok c).

Section Raising.
Context (self : BilinearForm) (e : exn).
Context (Hform : ∀ u v w, form self u v w = Raise e).

Lemma thread_step_raises ubasis vbasis w dx data ij :
  ∃ e', thread_step self ubasis vbasis w dx data ij = Raise e'.
Proof.
  destruct ij as [i j]. unfold Assembly.thread_step, getitem.
  destruct (ubasis !! j) as [u|]; [|by eexists].
  destruct (vbasis !! i) as [v|]; [|by eexists].
  rewrite !bind_Ok. unfold _kernel. rewrite Hform. by eexists.
Qed.

Lemma _threaded_kernel_raises data ix ubasis vbasis w dx :
  _threaded_kernel self data ix ubasis vbasis w dx = data.
Proof.
  destruct ix as [|ij ix]; [done|]. cbn [Assembly._threaded_kernel].
  by destruct (thread_step_raises ubasis vbasis w dx data ij) as [e' ->].
Qed.

Lemma run_threads_raises ubasis vbasis w dx sched pool data :
  run_threads self ubasis vbasis w dx sched pool data = data.
Proof.
  revert pool. induction sched as [|k sched IH]; intros pool.
  - cbn [Assembly.run_threads]. induction pool as [|ix pool IHp];
      [done|]. cbn [foldl]. by rewrite _threaded_kernel_raises.
  - cbn [Assembly.run_threads].
    destruct (pool !! k) as [[|ij ix]|]; [apply IH| |apply IH].
    destruct (thread_step_raises ubasis vbasis w dx data ij) as [e' ->].
    apply IH.
Qed.
End Raising.

Lemma loop_body_threaded_Ok (self : BilinearForm) ub vb w d r c j i :
  (0 < nthreads self)%Z → dofs_given ub vb →
  j < Nbfun ub → i < Nbfun vb →
  length r = Nbfun ub * Nbfun vb * nelems ub →
  length c = Nbfun ub * Nbfun vb * nelems ub →
  ∃ r' c', loop_body self ub vb w (d, r, c) j i = Ok (d, r', c')
           ∧ length r' = length r ∧ length c' = length c.
Proof.
  intros Hn [Hrows Hcols] Hj Hi Hr Hc.
  destruct (Hrows i Hi) as (rr & Hrr). destruct (Hcols j Hj) as (cc & Hcc).
  unfold dofs_block in Hrr, Hcc.
  apply bind_Ok_inv in Hrr as (row & Hrow & Hrr).
  apply bind_Ok_inv in Hcc as (col & Hcol & Hcc).
  assert (nelems ub * (Nbfun vb * j + i + 1)
          ≤ Nbfun ub * Nbfun vb * nelems ub) as Hle.
  { assert (Nbfun vb * (j + 1) ≤ Nbfun vb * Nbfun ub)
      by (apply Nat.mul_le_mono_l; lia).
    rewrite (Nat.mul_comm _ (nelems ub)). apply Nat.mul_le_mono_l. lia. }
  unfold Assembly.loop_body. rewrite Hrow, bind_Ok.
  destruct (setslice_Ok_length r (Nbfun vb * j + i) _ row rr Hrr)
    as (r' & -> & Hr'); [lia|].
  rewrite bind_Ok, Hcol, bind_Ok.
  destruct (setslice_Ok_length c (Nbfun vb * j + i) _ col cc Hcc)
    as (c' & -> & Hc'); [lia|].
  rewrite bind_Ok, bool_decide_eq_false_2 by lia. by eexists _, _.
Qed.

Lemma loop_threaded_Ok (self : BilinearForm) ub vb w ps d r c :
  (0 < nthreads self)%Z → dofs_given ub vb →
  (∀ j i, (j, i) ∈ ps → j < Nbfun ub ∧ i < Nbfun vb) →
  length r = Nbfun ub * Nbfun vb * nelems ub →
  length c = Nbfun ub * Nbfun vb * nelems ub →
  ∃ r' c', foldR (λ st p, loop_body self ub vb w st p.1 p.2) ps (d, r, c)
           = Ok (d, r', c').
Proof.
  intros Hn Hdofs. revert r c.
  induction ps as [|[j i] ps IH]; intros r c Hps Hr Hc.
  - by eexists _, _.
  - cbn [foldR fst snd]. destruct (Hps j i) as [Hj Hi]; [by left|].
    destruct (loop_body_threaded_Ok self ub vb w d r c j i Hn Hdofs
                Hj Hi Hr Hc) as (r' & c' & -> & Hr' & Hc').
    rewrite bind_Ok. apply IH; [|congruence..].
    intros j' i' Hin. apply Hps. by right.
Qed.

Lemma loop_body_first_raises (self : BilinearForm) ub vb w e sz :
  (∀ u v w, form self u v w = Raise e) →
  dofs_given ub vb → basis ub ≠ [] → basis vb ≠ [] →
  0 < Nbfun ub → 0 < Nbfun vb →
  nelems ub ≤ sz →
  loop_body (with_nthreads self 0) ub vb w
    (replicate sz vzero, replicate sz 0%Z, replicate sz 0%Z) 0 0
  = Raise e.
Proof.
  intros Hform [Hrows Hcols] Hbu Hbv Hu Hv Hsz.
  destruct (Hrows 0 Hv) as (rr & Hrr). destruct (Hcols 0 Hu) as (cc & Hcc).
  unfold dofs_block in Hrr, Hcc.
  apply bind_Ok_inv in Hrr as (row & Hrow & Hrr).
  apply bind_Ok_inv in Hcc as (col & Hcol & Hcc).
  unfold Assembly.loop_body. rewrite Hrow, bind_Ok.
  replace (nelems ub * (Nbfun vb * 0 + 0)) with (nelems ub * 0) by lia.
  replace (nelems ub * (Nbfun vb * 0 + 0 + 1)) with (nelems ub * (0 + 1))
    by lia.
  destruct (setslice_Ok_length (replicate sz 0%Z) 0 _ row rr Hrr)
    as (r' & -> & _); [rewrite length_replicate; lia|].
  rewrite bind_Ok, Hcol, bind_Ok.
  destruct (setslice_Ok_length (replicate sz 0%Z) 0 _ col cc Hcc)
    as (c' & -> & _); [rewrite length_replicate; lia|].
  rewrite bind_Ok. cbn [with_nthreads nthreads].
  rewrite bool_decide_eq_true_2 by lia.
  unfold getitem.
  destruct (basis ub) as [|u us]; [done|].
  destruct (basis vb) as [|v vs]; [done|].
  cbn [lookup list_lookup]. rewrite !bind_Ok.
  unfold _kernel. cbn [form with_nthreads]. by rewrite Hform.
Qed.

(** An exception of the form is lost in threaded assembly.  When the
    form raises on every call, assembly with a positive number of
    threads still returns: every thread ends at its first pair, and
    [data] is returned as it was allocated, all zeros.  Sequential
    assembly of the same form on the same bases raises the exception of
    the form. *)
Theorem threaded_form_error_lost sched (self : BilinearForm) (ub : Basis)
    (vb : option Basis) (kwargs : K) (e : exn) :
  (0 < nthreads self)%Z →
  (∀ vb', vb = Some vb' → X_shape1 ub = X_shape1 vb') →
  (∀ u v w, form self u v w = Raise e) →
  dofs_given ub (test_basis ub vb) →
  0 < Nbfun ub → 0 < Nbfun (test_basis ub vb) →
  basis ub ≠ [] → basis (test_basis ub vb) ≠ [] →
  (∃ rows cols,
     _assemble sched self ub vb kwargs
     = Ok (replicate
             (Nbfun ub * Nbfun (test_basis ub vb) * nelems ub) vzero,
           rows, cols, (N (test_basis ub vb), N ub)))
  ∧ _assemble sched (with_nthreads self 0) ub vb kwargs = Raise e.
Proof.
  intros Hn Hq Hform Hdofs Hu Hv Hbu Hbv.
  set (vb' := test_basis ub vb) in *.
  assert (match vb with
          | None => Ok ub
          | Some vbasis =>
              if bool_decide (X_shape1 ub ≠ X_shape1 vbasis)
              then Raise (ValueError quadrature_mismatch)
              else Ok vbasis
          end = Ok vb') as Hcheck.
  { destruct vb as [vb0|]; [|done]. simpl.
    rewrite (bool_decide_eq_false_2 (X_shape1 ub ≠ X_shape1 vb0));
      [done|]. intros Hne. by apply Hne, Hq. }
  split.
  - unfold Assembly._assemble. rewrite Hcheck, bind_Ok. cbv zeta.
    rewrite foldR_nested.
    set (sz := Nbfun ub * Nbfun vb' * nelems ub).
    destruct (loop_threaded_Ok self ub vb'
                (extra_params (default_parameters ub) kwargs)
                (index_pairs (Nbfun ub) (Nbfun vb'))
                (replicate sz vzero) (replicate sz 0%Z) (replicate sz 0%Z)
                Hn Hdofs) as (r' & c' & Hloop);
      [|by rewrite length_replicate..|].
    { intros j i. by rewrite index_pairs_elem_of. }
    unfold index_pairs in Hloop. rewrite Hloop, bind_Ok.
    rewrite bool_decide_eq_true_2 by done.
    unfold array_split. rewrite bool_decide_eq_false_2 by lia.
    rewrite bind_Ok, (run_threads_raises self e Hform).
    exists r', c'. do 4 f_equal. unfold sz, flatten.
    by rewrite !join_replicate.
  - unfold Assembly._assemble. rewrite Hcheck, bind_Ok. cbv zeta.
    destruct (Nbfun ub) as [|nu] eqn:Hnu; [lia|].
    destruct (Nbfun vb') as [|nv] eqn:Hnv; [lia|].
    cbn [seq foldR].
    rewrite (loop_body_first_raises self ub vb' _ e);
      [reflexivity|try done; rewrite ?Hnu, ?Hnv; nia..].
Qed.
End Form.

(** A form that raises on every call. *)
Definition raising_form (n : Z) : @BilinearForm (matrix Z) (matrix Z) unit :=
  {| form := λ _ _ _, Raise (ValueError "form"); nthreads := n |}.

Lemma sample_dofs_given : dofs_given sample_basis sample_basis.
Proof.
  split; intros [|[|i]] Hi; try (by eexists); simpl in Hi; lia.
Qed.

Lemma threaded_form_error_lost_witness :
  (∃ rows cols,
     _assemble 0%Z np_mul_Z np_sum_axis1_Z (λ w (_ : unit), w) [1; 0]
       (raising_form 2) sample_basis None tt
     = Ok (replicate (2 * 2 * 2) 0%Z, rows, cols, (3, 3)))
  ∧ _assemble 0%Z np_mul_Z np_sum_axis1_Z (λ w (_ : unit), w) [1; 0]
      (with_nthreads (raising_form 2) 0) sample_basis None tt
    = Raise (ValueError "form").
Proof.
  apply (threaded_form_error_lost 0%Z np_mul_Z np_sum_axis1_Z
           (λ w (_ : unit), w) [1; 0] (raising_form 2) sample_basis None tt
           (ValueError "form")).
  - simpl. lia.
  - discriminate.
  - reflexivity.
  - exact sample_dofs_given.
  - simpl. lia.
  - simpl. lia.
  - discriminate.
  - discriminate.
Defined.
End AssemblyErrors.

Import Py Np NpFacts.

Module TopologyExtra.
Import Topology TopologyFacts InverseFacts OwnerFacts FacetFacts.

Lemma head_elem_of {A} (l : list A) x : head l = Some x → x ∈ l.
Proof. destruct l; [done|]. intros [= ->]. by left. Qed.

Lemma last_elem_of {A} (l : list A) x : last l = Some x → x ∈ l.
Proof.
  intros H. apply last_Some in H as [l' ->].
  apply elem_of_app. right. by left.
Qed.

(** An element that has facet [f] in the element-to-facet map is an
    element of the mesh. *)
Lemma owner_bound t m r el f :
  valid_mapping t m → get2 m r el = Some f → el < shape1 t.
Proof.
  intros (Hrect & Hs & _) Hg. unfold get2 in Hg.
  destruct (m !! r) as [row|] eqn:Hrow; [|done]. simpl in Hg.
  rewrite <-Hs, <-(rect_lookup m r row Hrect Hrow).
  by eapply lookup_lt_Some.
Qed.

(** The facet-to-element map names elements that have the facet: for
    every facet [f] of a mesh, [f2t[0, f]] is an element one of whose
    facets is [f], and [f2t[1, f]] is either -1 or a different element
    one of whose facets is [f]. *)
Theorem f2t_names_owners rd t k :
  valid_connectivity t → valid_templates t (refdom_facets rd) k →
  length (refdom_facets rd) ≤ shape0 t →
  ∃ fs m inv,
    facets rd t = Ok fs ∧ t2f rd t = Ok m ∧ f2t rd t = Ok inv
    ∧ ∀ f, f < shape1 fs →
        ∃ e1, get2 inv 0 f = Some (Z.of_nat e1)
              ∧ e1 < shape1 t ∧ (∃ r, get2 m r e1 = Some f)
              ∧ (get2 inv 1 f = Some (-1)%Z
                 ∨ ∃ e2, get2 inv 1 f = Some (Z.of_nat e2) ∧ e2 ≠ e1
                         ∧ e2 < shape1 t ∧ ∃ r, get2 m r e2 = Some f).
Proof.
  intros Ht Hix Hle.
  pose proof (t2f_valid rd t k Hix Hle) as Hvm.
  destruct (build_inverse_meets_amended t _ Ht Hvm)
    as (inv & Hinv & inv0 & inv1 & -> & _ & _ & Hspec).
  eexists _, _, _. split; [by apply (facets_Ok rd t k)|].
  split; [by apply (t2f_Ok rd t k)|].
  split; [unfold f2t; by rewrite (t2f_Ok rd t k Ht Hix), bind_Ok|].
  intros f Hf. rewrite (shape1_facets rd t k Ht Hix) in Hf.
  pose proof (facet_has_owner rd t f Hf) as Hown.
  destruct (Hspec f Hown) as (e1 & e2 & H1 & H2 & Hi0 & Hsame & Hdiff).
  assert (∃ r, get2 (mapping_of t (refdom_facets rd)) r e1 = Some f)
    as [r1 Hr1] by (by apply owners_elem_of, head_elem_of).
  assert (∃ r, get2 (mapping_of t (refdom_facets rd)) r e2 = Some f)
    as [r2 Hr2] by (by apply owners_elem_of, last_elem_of).
  exists e1. split_and!; [done|by eapply owner_bound|by exists r1|].
  destruct (decide (e1 = e2)) as [->|Hne].
  - left. by apply Hsame.
  - right. exists e2. split_and!.
    + apply Hdiff. by intros [= ->].
    + done.
    + by eapply owner_bound.
    + by exists r2.
Qed.

Lemma f2t_names_owners_witness :
  ∃ fs m inv,
    facets tri_refdom tri2 = Ok fs ∧ t2f tri_refdom tri2 = Ok m
    ∧ f2t tri_refdom tri2 = Ok inv
    ∧ ∀ f, f < shape1 fs →
        ∃ e1, get2 inv 0 f = Some (Z.of_nat e1)
              ∧ e1 < shape1 tri2 ∧ (∃ r, get2 m r e1 = Some f)
              ∧ (get2 inv 1 f = Some (-1)%Z
                 ∨ ∃ e2, get2 inv 1 f = Some (Z.of_nat e2) ∧ e2 ≠ e1
                         ∧ e2 < shape1 tri2 ∧ ∃ r, get2 m r e2 = Some f).
Proof.
  apply (f2t_names_owners tri_refdom tri2 2).
  - exact tri2_valid.
  - exact tri_facets_valid.
  - simpl. lia.
Defined.

(** *** [build_entities] with [sort=False] *)

Lemma column_total {A} `{!Inhabited A} (m : matrix A) i :
  Forall (λ r, i < length r) m → column m i = (λ r, r !!! i) <$> m.
Proof.
  unfold column. induction 1 as [|r m Hr _ IH]; [done|].
  cbn [omap list_omap]. rewrite (list_lookup_lookup_total_lt r i Hr).
  by rewrite IH.
Qed.

Lemma column_take {A} `{!Inhabited A} (m : matrix A) (ix : list nat)
    (j i : nat) :
  ix !! j = Some i →
  column ((λ r : list A, (λ i : nat, r !!! i) <$> ix) <$> m) j
  = (λ r : list A, r !!! i) <$> m.
Proof.
  intros Hj. unfold column. induction m as [|r m IH]; [done|].
  rewrite !fmap_cons. cbn [omap list_omap].
  rewrite list_lookup_fmap, Hj. simpl. by rewrite IH.
Qed.

Lemma transpose_take_cols {A} `{!Inhabited A} (m : matrix A) ix :
  rect m → m ≠ [] → Forall (λ i, i < shape1 m) ix →
  transpose ((λ r : list A, (λ i, r !!! i) <$> ix) <$> m)
  = (λ i, column m i) <$> ix.
Proof.
  intros Hrect Hne Hix. unfold transpose.
  assert (shape1 ((λ r : list A, (λ i, r !!! i) <$> ix) <$> m) = length ix)
    as ->.
  { destruct m; [done|]. simpl. by rewrite length_fmap. }
  apply list_eq. intros j. rewrite !list_lookup_fmap.
  destruct (ix !! j) as [i|] eqn:Hj.
  - rewrite lookup_seq_lt by (by eapply lookup_lt_Some). simpl. f_equal.
    assert (i < shape1 m) as Hi
      by (by eapply (proj1 (Forall_lookup _ _) Hix)).
    rewrite (column_total m i) by (by apply rect_rows_lt).
    by apply column_take.
  - rewrite lookup_seq_ge; [done|]. by apply lookup_ge_None.
Qed.

Section Unsorted.
Context (t : matrix Z) (indices : list (list nat)) (k : nat).
Context (Ht : valid_connectivity t) (Hix : valid_templates t indices k).

(** For every entity, the index of its first occurrence. *)
Let ixa : list nat :=
  (λ c, index_of c (sorted_occurrences t indices)) <$> entities t indices.

Lemma ixa_bound : Forall (λ i, i < length (occurrences t indices)) ixa.
Proof.
  unfold ixa. apply Forall_fmap, Forall_forall. intros c Hc. simpl.
  apply entities_elem_of in Hc. unfold sorted_occurrences in *.
  rewrite <-(length_fmap sort). by apply index_of_lt.
Qed.

Lemma build_entities_unsorted_Ok :
  ∃ indexing,
    hstack (part t <$> indices) = Ok indexing
    ∧ rect indexing ∧ length indexing = k
    ∧ transpose indexing = occurrences t indices
    ∧ build_entities t indices false
      = Ok ((λ r : list Z, (λ i, r !!! i) <$> ixa) <$> indexing,
            mapping_of t indices).
Proof.
  destruct (indexing_Ok t indices k Ht Hix)
    as (indexing & Hh & Hrect & Hlen & Htr).
  exists indexing. split_and!; [done..|].
  pose proof (build_entities_sorted t indices k Ht Hix) as Hs.
  unfold build_entities in *.
  rewrite (parts_Ok t indices k Hix) in *. simpl in *.
  rewrite Hh in *. simpl in *.
  unfold sort_axis0, unique_axis1 in *. rewrite Htr in *.
  fold (sorted_occurrences t indices) in *.
  destruct (sorted_occurrences_rect t indices k Ht Hix) as [Hr Hsh].
  destruct Hix as (_ & Hk & _).
  rewrite transpose_involutive in * by (done || by rewrite Hsh).
  unfold unique in *. fold (entities t indices) in *.
  destruct (reshape2 _ _ _) as [mp|e]; [|done].
  simpl in *. injection Hs as ->.
  unfold take_cols.
  rewrite (mapR_fmap _ (λ r : list Z, (λ i, r !!! i) <$> ixa)); [done|].
  eapply Forall_impl; [exact Hrect|]. simpl. intros r Hlr.
  apply getitems_Ok. rewrite Hlr, <-length_transpose, Htr.
  apply ixa_bound.
Qed.

(** With [sort=False], [build_entities] returns the same
    element-to-entity map as with [sort=True], and for every entity
    the node tuple of one of its occurrences, in the order in which the
    element presents it: sorted, it is the entity that [sort=True]
    returns at the same index. *)
Theorem build_entities_unsorted :
  ∃ ents ents' mapping,
    build_entities t indices true = Ok (ents, mapping)
    ∧ build_entities t indices false = Ok (ents', mapping)
    ∧ length (transpose ents') = length (transpose ents)
    ∧ ∀ f c, transpose ents !! f = Some c →
        ∃ r ix e, indices !! r = Some ix ∧ e < shape1 t
                  ∧ transpose ents' !! f = Some (entity t ix e)
                  ∧ sort (entity t ix e) = c.
Proof.
  destruct build_entities_unsorted_Ok
    as (indexing & Hh & Hrect & Hlen & Htr & Hb).
  eexists _, _, _. split; [by apply (build_entities_sorted t indices k)|].
  split; [exact Hb|].
  assert (indexing ≠ []) as Hne.
  { destruct Hix as (_ & Hk & _). intros ->. simpl in Hlen. lia. }
  assert (Forall (λ i, i < shape1 indexing) ixa) as Hbound.
  { rewrite <-length_transpose, Htr. apply ixa_bound. }
  rewrite (transpose_take_cols indexing ixa Hrect Hne Hbound).
  rewrite (transpose_entities t indices k Ht Hix).
  split; [unfold ixa; by rewrite !length_fmap|].
  intros f c Hc.
  assert (c ∈ sorted_occurrences t indices) as Hin.
  { apply entities_elem_of. by eapply list_elem_of_lookup_2. }
  pose proof (index_of_lookup c _ Hin) as Hlook.
  unfold sorted_occurrences in Hlook. rewrite list_lookup_fmap in Hlook.
  destruct (occurrences t indices !! _) as [o|] eqn:Ho; [|done].
  injection Hlook as Hsort.
  assert (o ∈ occurrences t indices) as Hoin
    by (by eapply list_elem_of_lookup_2).
  unfold occurrences in Hoin.
  apply list_elem_of_join in Hoin as (l & Hol & Hl).
  apply list_elem_of_fmap in Hl as (ix & -> & Hixin).
  apply list_elem_of_fmap in Hol as (e & -> & He).
  apply list_elem_of_lookup in Hixin as [r Hr].
  apply elem_of_seq in He.
  exists r, ix, e. split_and!; [done|lia| |done].
  unfold ixa. rewrite list_lookup_fmap, list_lookup_fmap, Hc. simpl.
  f_equal.
  assert (index_of c (sorted_occurrences t indices) < shape1 indexing)
    as Hlt.
  { rewrite <-length_transpose, Htr, <-(length_fmap sort).
    unfold sorted_occurrences in *. by apply index_of_lt. }
  pose proof (transpose_lookup indexing _ Hlt) as Hcol.
  rewrite Htr in Hcol. unfold sorted_occurrences in *. congruence.
Qed.
End Unsorted.

Lemma build_entities_unsorted_witness :
  ∃ ents ents' mapping,
    build_entities degenerate_t tri_facets true = Ok (ents, mapping)
    ∧ build_entities degenerate_t tri_facets false = Ok (ents', mapping)
    ∧ length (transpose ents') = length (transpose ents)
    ∧ ∀ f c, transpose ents !! f = Some c →
        ∃ r ix e, tri_facets !! r = Some ix ∧ e < shape1 degenerate_t
                  ∧ transpose ents' !! f = Some (entity degenerate_t ix e)
                  ∧ sort (entity degenerate_t ix e) = c.
Proof.
  apply (build_entities_unsorted degenerate_t tri_facets 2).
  - split; [|done]. by repeat constructor.
  - split_and!; [done..|]. repeat constructor; simpl; lia.
Defined.
End TopologyExtra.

Import Py Np NpFacts TopologyFacts.

(** ** Removing elements *)

Module MeshEditFacts.
Import MeshModel MeshFacts MeshEdit.

(** *** Arrays *)

Lemma amax_Z_spec (a : list Z) :
  a ≠ [] →
  ∃ mx, amax_Z a = Ok mx ∧ mx ∈ a ∧ Forall (λ y, (y ≤ mx)%Z) a.
Proof.
  destruct a as [|x a]; [done|]. intros _. cbn [amax_Z].
  eexists. split; [done|].
  induction a as [|y a [Hin Hle]]; cbn [foldr].
  - split; [by left|]. by repeat constructor.
  - apply Forall_cons in Hle as [Hx Ha]. split.
    + destruct (Z.max_spec y (foldr Z.max x a)) as [[_ ->]|[_ ->]].
      * apply elem_of_cons in Hin as [->|Hin]; [by left|].
        by do 2 right.
      * right. by left.
    + repeat constructor; [lia|lia|].
      eapply Forall_impl; [exact Ha|]. cbn. lia.
Qed.

Lemma py_index_nonneg n (x : Z) :
  (0 ≤ x < Z.of_nat n)%Z → py_index n x = Ok (Z.to_nat x).
Proof. intros H. unfold py_index. by rewrite bool_decide_eq_true_2. Qed.

(** Writing to distinct indices: each index holds its value, the other
    entries are as before. *)
Lemma scatter_Z_NoDup {A} (row : list A) (ix : list Z) (vals : list A) :
  NoDup ix → Forall (λ x, (0 ≤ x < Z.of_nat (length row))%Z) ix →
  length vals = length ix →
  ∃ row', scatter_Z row ix vals = Ok row'
    ∧ length row' = length row
    ∧ (∀ k x v, ix !! k = Some x → vals !! k = Some v →
                row' !! Z.to_nat x = Some v)
    ∧ (∀ j, Z.of_nat j ∉ ix → row' !! j = row !! j).
Proof.
  intros Hnd. revert row vals.
  induction Hnd as [|x ix Hx Hnd IH]; intros row vals Hix Hlen.
  - destruct vals; [|done]. exists row. split_and!; [done|done| |done].
    intros k x v Hk. by rewrite lookup_nil in Hk.
  - destruct vals as [|v vals]; [done|].
    apply Forall_cons in Hix as [Hxr Hix]. cbn [scatter_Z].
    rewrite py_index_nonneg, bind_Ok by done.
    destruct (IH (<[Z.to_nat x := v]> row) vals) as (row' & Hs & Hl & Hw & Hu).
    { by rewrite length_insert. }
    { cbn [length] in Hlen. lia. }
    exists row'. rewrite length_insert in Hl. split_and!; [done|done| |].
    + intros [|k] x' v' Hk Hv; cbn in Hk, Hv.
      * injection Hk as <-. injection Hv as <-.
        rewrite Hu by (by rewrite Z2Nat.id by lia).
        apply list_lookup_insert_eq. lia.
      * by eapply Hw.
    + intros j Hj. apply not_elem_of_cons in Hj as [Hne Hj].
      rewrite (Hu j Hj). apply list_lookup_insert_ne. lia.
Qed.

Lemma getitem_Z_lookup {A} (a : list A) (x : Z) v :
  (0 ≤ x)%Z → a !! Z.to_nat x = Some v → getitem_Z a x = Ok v.
Proof.
  intros Hx Hv. unfold getitem_Z.
  rewrite py_index_nonneg, bind_Ok
    by (apply lookup_lt_Some in Hv; lia).
  unfold getitem. by rewrite Hv.
Qed.

(** *** [_reix] *)

Section Reix.
Context {R : Type}.
Implicit Types (p : matrix R) (ix : matrix Z).

(** The node indices that [ix] uses, ascending: [np.unique(ix)]. *)
Definition used_nodes ix : list Z := (unique Z.le (flatten ix)).1.1.

(** The arguments of [_reix] that [remove_elements] passes for a valid
    mesh from which something is left: all entries of [ix] are indices
    of columns of [p], and there is one. *)
Definition reix_args p ix : Prop :=
  rect p ∧ flatten ix ≠ []
  ∧ Forall (Forall (λ x, (0 ≤ x < Z.of_nat (shape1 p))%Z)) ix.

Lemma used_nodes_elem_of ix x : x ∈ used_nodes ix ↔ x ∈ flatten ix.
Proof. apply unique_values_elem_of. Qed.

Lemma used_nodes_NoDup ix : NoDup (used_nodes ix).
Proof. apply unique_values_NoDup. Qed.

Lemma used_nodes_Sorted ix : StronglySorted Z.le (used_nodes ix).
Proof.
  unfold used_nodes, unique. cbn [fst]. apply StronglySorted_merge_sort; apply _.
Qed.

Lemma elem_of_flatten ix i j x :
  get2 ix i j = Some x → x ∈ flatten ix.
Proof.
  unfold get2, flatten. intros H.
  destruct (ix !! i) as [r|] eqn:Hr; [|done]. cbn in H.
  apply list_elem_of_join. exists r.
  split; [by eapply list_elem_of_lookup_2|by eapply list_elem_of_lookup_2].
Qed.

Lemma flatten_elem_of ix x :
  x ∈ flatten ix → ∃ i j, get2 ix i j = Some x.
Proof.
  unfold flatten. intros (r & Hx & Hr)%list_elem_of_join.
  apply list_elem_of_lookup in Hr as [i Hi].
  apply list_elem_of_lookup in Hx as [j Hj].
  exists i, j. unfold get2. by rewrite Hi.
Qed.

Lemma Forall_flatten (P : Z → Prop) ix :
  Forall (Forall P) ix → Forall P (flatten ix).
Proof.
  intros H. apply Forall_forall. intros x (i & j & Hx)%flatten_elem_of.
  unfold get2 in Hx. destruct (ix !! i) as [r|] eqn:Hr; [|done].
  cbn in Hx. rewrite Forall_forall in H.
  specialize (H r (list_elem_of_lookup_2 _ _ _ Hr)).
  rewrite Forall_forall in H. apply H. by eapply list_elem_of_lookup_2.
Qed.

(** The position of a node among the used ones. *)
Definition new_index ix (x : Z) : Z :=
  Z.of_nat (index_of x (used_nodes ix)).

(** What [_reix] computes: the columns of [p] at the used nodes, and
    every entry of [ix] replaced by its position among the used
    nodes. *)
Lemma reix_Ok `{!Inhabited R} p ix :
  reix_args p ix →
  _reix p ix
  = Ok ((λ row : list R,
           (λ x : Z, row !!! Z.to_nat x) <$> used_nodes ix) <$> p,
        (λ r : list Z, new_index ix <$> r) <$> ix).
Proof.
  intros (Hrect & Hne & Hix). unfold _reix. fold (used_nodes ix).
  destruct (amax_Z_spec _ Hne) as (mx & -> & Hmx & Hle). rewrite bind_Ok.
  pose proof (Forall_flatten _ _ Hix) as Hfl.
  assert (0 ≤ mx)%Z as Hmx0.
  { rewrite Forall_forall in Hfl. by apply Hfl. }
  rewrite bool_decide_eq_false_2 by lia.
  destruct (scatter_Z_NoDup (replicate (Z.to_nat (mx + 1)) 0%Z)
              (used_nodes ix) (Z.of_nat <$> seq 0 (length (used_nodes ix))))
    as (tn & -> & Hlen & Hw & _).
  { apply used_nodes_NoDup. }
  { apply Forall_forall. intros x Hx%used_nodes_elem_of.
    rewrite length_replicate. rewrite Forall_forall in Hfl, Hle.
    specialize (Hfl x Hx). specialize (Hle x Hx). lia. }
  { by rewrite length_fmap, length_seq. }
  rewrite bind_Ok. unfold take_cols_Z.
  rewrite (mapR_fmap _ (λ row : list R,
             (λ x, row !!! Z.to_nat x) <$> used_nodes ix)); last first.
  { eapply Forall_impl; [exact Hrect|]. cbn. intros r Hr.
    apply mapR_fmap, Forall_forall. intros x Hx%used_nodes_elem_of.
    apply getitem_Z_Ok. rewrite Hr. rewrite Forall_forall in Hfl.
    by apply Hfl. }
  rewrite bind_Ok.
  rewrite (mapR_fmap _ (λ r : list Z, new_index ix <$> r)); [done|].
  apply Forall_forall. intros r Hr. apply mapR_fmap, Forall_forall.
  intros x Hx.
  assert (x ∈ used_nodes ix) as Hu.
  { apply used_nodes_elem_of, list_elem_of_join. by exists r. }
  apply getitem_Z_lookup.
  { rewrite Forall_forall in Hfl. apply Hfl. by apply used_nodes_elem_of. }
  apply (Hw (index_of x (used_nodes ix))).
  - by apply index_of_lookup.
  - rewrite list_lookup_fmap, lookup_seq_lt by (by apply index_of_lt).
    done.
Qed.

Lemma reix_args_inhabited p ix : reix_args p ix → Inhabited R.
Proof.
  intros (Hrect & Hne & Hix). pose proof (Forall_flatten _ _ Hix) as Hfl.
  destruct (flatten ix) as [|x l]; [done|].
  apply Forall_cons in Hfl as [Hx _].
  destruct p as [|[|r0 r] p]; cbn in Hx; [lia|lia|]. exact (populate r0).
Qed.

Lemma get2_fmap {X Y} (f : X → Y) (m : matrix X) i j :
  get2 ((λ r : list X, f <$> r) <$> m) i j = f <$> get2 m i j.
Proof.
  unfold get2. rewrite list_lookup_fmap.
  destruct (m !! i) as [r|]; [|done]. cbn. apply list_lookup_fmap.
Qed.

Lemma StronglySorted_lookup (l : list Z) i j a b :
  StronglySorted Z.le l → i < j →
  l !! i = Some a → l !! j = Some b → (a ≤ b)%Z.
Proof.
  intros Hs Hij Ha Hb. rewrite <-(take_drop j l) in Hs.
  eapply StronglySorted_app_1_elem_of; [exact Hs| |].
  - eapply list_elem_of_lookup_2. by rewrite lookup_take_lt.
  - eapply list_elem_of_lookup_2. rewrite lookup_drop.
    by rewrite Nat.add_0_r.
Qed.

(** The renumbering is strictly increasing on the used nodes. *)
Lemma new_index_lt ix x x' :
  x ∈ flatten ix → x' ∈ flatten ix →
  (x < x')%Z ↔ (new_index ix x < new_index ix x')%Z.
Proof.
  intros Hx%used_nodes_elem_of Hx'%used_nodes_elem_of. unfold new_index.
  pose proof (index_of_lookup _ _ Hx) as Hi.
  pose proof (index_of_lookup _ _ Hx') as Hi'.
  pose proof (used_nodes_Sorted ix) as Hs.
  pose proof (used_nodes_NoDup ix) as Hnd.
  set (i := index_of x (used_nodes ix)) in *.
  set (i' := index_of x' (used_nodes ix)) in *.
  split; intros Hlt.
  - destruct (decide (i < i')) as [|Hge]; [lia|]. exfalso.
    destruct (decide (i = i')) as [Heq|Hne].
    + rewrite Heq in Hi. rewrite Hi in Hi'. injection Hi' as ->. lia.
    + pose proof (StronglySorted_lookup _ i' i x' x Hs) as Hle.
      specialize (Hle ltac:(lia) Hi' Hi). lia.
  - assert (i < i') as Hii by lia.
    pose proof (StronglySorted_lookup _ i i' x x' Hs Hii Hi Hi') as Hle.
    destruct (decide (x = x')) as [->|Hne]; [|lia].
    pose proof (NoDup_lookup _ _ _ _ Hnd Hi Hi'). lia.
Qed.

(** The column of a used node in the new node array is its column in
    the old one. *)
Lemma used_column `{!Inhabited R} p ix i j x d :
  reix_args p ix → get2 ix i j = Some x →
  get2 ((λ row : list R,
           (λ x : Z, row !!! Z.to_nat x) <$> used_nodes ix) <$> p)
       d (index_of x (used_nodes ix))
  = get2 p d (Z.to_nat x).
Proof.
  intros (Hrect & Hne & Hix) Hx.
  assert (x ∈ used_nodes ix) as Hu
    by (by eapply used_nodes_elem_of, elem_of_flatten).
  unfold get2. rewrite list_lookup_fmap.
  destruct (p !! d) as [row|] eqn:Hrow; [|done]. cbn.
  rewrite list_lookup_fmap, (index_of_lookup _ _ Hu). cbn.
  symmetry. apply list_lookup_lookup_total_lt.
  rewrite (rect_lookup _ _ _ Hrect Hrow).
  pose proof (Forall_flatten _ _ Hix) as Hfl.
  rewrite Forall_forall in Hfl.
  specialize (Hfl x (elem_of_flatten _ _ _ _ Hx)). lia.
Qed.

(** [_reix] keeps the shape of the connectivity and the coordinates of
    its nodes: it returns a node array with the rows of [p] and a
    connectivity of the shape of [ix], and the node that an entry of
    the new connectivity names has, in the new node array, the
    coordinates that the node of the same entry of [ix] has in [p]. *)
Theorem reix_keeps_coordinates p ix :
  reix_args p ix →
  ∃ pn tn, _reix p ix = Ok (pn, tn)
    ∧ length pn = length p
    ∧ length <$> tn = length <$> ix
    ∧ ∀ i j x, get2 ix i j = Some x →
        ∃ y, get2 tn i j = Some (Z.of_nat y)
             ∧ ∀ d, get2 pn d y = get2 p d (Z.to_nat x).
Proof.
  intros Hargs. pose proof (reix_args_inhabited _ _ Hargs) as HR.
  rewrite (reix_Ok _ _ Hargs).
  eexists _, _. split; [done|]. split_and!.
  - by rewrite length_fmap.
  - rewrite <-list_fmap_compose. apply list_fmap_ext. intros k r _. cbn.
    by rewrite length_fmap.
  - intros i j x Hx. exists (index_of x (used_nodes ix)).
    split; [by rewrite get2_fmap, Hx|]. intros d.
    by eapply used_column.
Qed.

(** [_reix] numbers the nodes compactly and in the old order: the new
    node array has one column for every node that [ix] uses and no
    other, every column is named by an entry of the new connectivity,
    and of two entries the one with the smaller old index has the
    smaller new one. *)
Theorem reix_compact p ix :
  reix_args p ix →
  ∃ pn tn, _reix p ix = Ok (pn, tn)
    ∧ Forall (λ row, length row = length (remove_dups (flatten ix))) pn
    ∧ (∀ y, y < length (remove_dups (flatten ix)) →
            ∃ i j, get2 tn i j = Some (Z.of_nat y))
    ∧ ∀ i j i' j' x x' y y',
        get2 ix i j = Some x → get2 ix i' j' = Some x' →
        get2 tn i j = Some y → get2 tn i' j' = Some y' →
        (x < x')%Z ↔ (y < y')%Z.
Proof.
  intros Hargs. pose proof (reix_args_inhabited _ _ Hargs) as HR.
  rewrite (reix_Ok _ _ Hargs).
  assert (length (used_nodes ix) = length (remove_dups (flatten ix)))
    as Hlen.
  { unfold used_nodes, unique. cbn [fst].
    by rewrite merge_sort_Permutation. }
  eexists _, _. split; [done|]. split_and!.
  - apply Forall_fmap, Forall_forall. intros row _. cbn.
    by rewrite length_fmap.
  - intros y Hy. rewrite <-Hlen in Hy.
    destruct (lookup_lt_is_Some_2 _ _ Hy) as [x Hx].
    assert (x ∈ flatten ix) as Hin.
    { eapply used_nodes_elem_of, list_elem_of_lookup_2, Hx. }
    destruct (flatten_elem_of _ _ Hin) as (i & j & Hij).
    exists i, j. rewrite get2_fmap, Hij. cbn. do 2 f_equal.
    unfold new_index. f_equal.
    eapply NoDup_lookup; [apply used_nodes_NoDup| |exact Hx].
    apply index_of_lookup. by apply used_nodes_elem_of.
  - intros i j i' j' x x' y y' Hx Hx'.
    rewrite !get2_fmap, Hx, Hx'. cbn. intros [= <-] [= <-].
    apply new_index_lt; by eapply elem_of_flatten.
Qed.
End Reix.

(** *** [np.delete] *)

(** An index that names a column of an array with [n] columns, and the
    column that it names. *)
Definition in_range (n : nat) (x : Z) : Prop :=
  (- Z.of_nat n ≤ x < Z.of_nat n)%Z.
Global Instance in_range_dec n x : Decision (in_range n x).
Proof. unfold in_range. apply _. Defined.
Definition py_norm (n : nat) (x : Z) : nat :=
  if bool_decide (0 ≤ x)%Z then Z.to_nat x else Z.to_nat (Z.of_nat n + x).

(** The elements that are left when the elements [idx] are removed from
    [n] elements, ascending. *)
Definition kept_elements (n : nat) (idx : list Z) : list nat :=
  filter (λ e, e ∉ py_norm n <$> idx) (seq 0 n).

Lemma py_index_in_range n x :
  in_range n x → py_index n x = Ok (py_norm n x) ∧ py_norm n x < n.
Proof.
  unfold in_range, py_index, py_norm. intros H.
  destruct (decide (0 ≤ x)%Z).
  - rewrite !bool_decide_eq_true_2 by lia. split; [done|lia].
  - rewrite (bool_decide_eq_false_2 (0 ≤ x < _)%Z) by lia.
    rewrite bool_decide_eq_true_2 by lia.
    rewrite bool_decide_eq_false_2 by lia. split; [done|lia].
Qed.

Lemma py_index_raises n x : ¬ in_range n x → py_index n x = Raise IndexError.
Proof.
  unfold in_range, py_index. intros H.
  rewrite !bool_decide_eq_false_2 by lia. done.
Qed.

Lemma scatter_Z_fill {A} (row : list A) ix v :
  Forall (in_range (length row)) ix →
  ∃ row', scatter_Z row ix (replicate (length ix) v) = Ok row'
    ∧ length row' = length row
    ∧ (∀ j, j ∈ py_norm (length row) <$> ix → row' !! j = Some v)
    ∧ (∀ j, j ∉ py_norm (length row) <$> ix → row' !! j = row !! j).
Proof.
  revert row. induction ix as [|x ix IH]; intros row Hix.
  - exists row. split_and!; [done|done| |done].
    intros j Hj. by apply elem_of_nil in Hj.
  - apply Forall_cons in Hix as [Hx Hix].
    destruct (py_index_in_range _ _ Hx) as [Hk Hlt].
    cbn [length replicate scatter_Z]. rewrite Hk, bind_Ok.
    destruct (IH (<[py_norm (length row) x := v]> row))
      as (row' & Hs & Hl & Hin & Hout).
    { by rewrite length_insert. }
    rewrite length_insert in Hl, Hin, Hout.
    exists row'. split_and!; [done|done| |].
    + intros j Hj. rewrite fmap_cons in Hj.
      destruct (decide (j ∈ py_norm (length row) <$> ix)) as [Hr|Hr];
        [by apply Hin|].
      apply elem_of_cons in Hj as [->|Hj]; [|done].
      rewrite (Hout _ Hr). by apply list_lookup_insert_eq.
    + intros j Hj. rewrite fmap_cons in Hj.
      apply not_elem_of_cons in Hj as [Hne Hj].
      rewrite (Hout _ Hj). by apply list_lookup_insert_ne.
Qed.

Lemma scatter_Z_fill_raises {A} (row : list A) ix v :
  ¬ Forall (in_range (length row)) ix →
  scatter_Z row ix (replicate (length ix) v) = Raise IndexError.
Proof.
  revert row. induction ix as [|x ix IH]; intros row Hix.
  - destruct Hix. constructor.
  - cbn [length replicate scatter_Z].
    destruct (decide (in_range (length row) x)) as [Hx|Hx].
    + destruct (py_index_in_range _ _ Hx) as [Hk _]. rewrite Hk, bind_Ok.
      apply IH. rewrite length_insert. intros H. apply Hix.
      by constructor.
    + by rewrite (py_index_raises _ _ Hx).
Qed.

Lemma filter_fmap_comm {X Y} (f : X → Y) (P : Y → Prop)
    `{!∀ y, Decision (P y)} (l : list X) :
  filter P (f <$> l) = f <$> filter (λ x, P (f x)) l.
Proof.
  induction l as [|x l IH]; [done|]. rewrite fmap_cons, !filter_cons.
  destruct (decide (P (f x))); by rewrite IH.
Qed.

Lemma omap_fmap_comm {X Y W} (f : X → Y) (g : Y → option W) (l : list X) :
  omap g (f <$> l) = omap (λ x, g (f x)) l.
Proof.
  induction l as [|x l IH]; [done|]. cbn. by rewrite IH.
Qed.

Lemma filter_ext_in {X} (P Q : X → Prop) `{!∀ x, Decision (P x)}
    `{!∀ x, Decision (Q x)} (l : list X) :
  (∀ x, x ∈ l → P x ↔ Q x) → filter P l = filter Q l.
Proof.
  induction l as [|x l IH]; intros Hl; [done|]. rewrite !filter_cons.
  rewrite IH by (intros y Hy; apply Hl; by right).
  destruct (decide (P x)) as [HP|HP], (decide (Q x)) as [HQ|HQ]; try done.
  - destruct HQ. apply Hl; [by left|done].
  - destruct HP. apply Hl; [by left|done].
Qed.

Lemma omap_lookup_total `{!Inhabited A} (row : list A) (l : list nat) :
  Forall (λ j, j < length row) l →
  omap (λ j, row !! j) l = (λ j, row !!! j) <$> l.
Proof.
  induction 1 as [|j l Hj _ IH]; [done|]. cbn.
  by rewrite (list_lookup_lookup_total_lt row j Hj), IH.
Qed.

(** A row under a mask. *)
Lemma keep_row {A} (row : list A) (keep : list bool) :
  length keep = length row →
  (filter (λ xb : A * bool, xb.2 = true) (zip row keep)).*1
  = omap (λ j, row !! j)
         (filter (λ j, keep !! j = Some true) (seq 0 (length row))).
Proof.
  revert keep. induction row as [|x row IH]; intros [|b keep] Hlen;
    try done.
  cbn [length] in Hlen. cbn [zip zip_with length seq].
  rewrite <-fmap_S_seq, !filter_cons, filter_fmap_comm. cbn [snd].
  specialize (IH keep ltac:(lia)).
  destruct b.
  - rewrite decide_True by done. rewrite (decide_True (P:=_ !! 0 = _)) by done.
    cbn. rewrite IH, omap_fmap_comm. done.
  - rewrite decide_False by done.
    rewrite (decide_False (P:=_ !! 0 = _)) by done.
    rewrite IH, omap_fmap_comm. done.
Qed.

Lemma kept_elements_lt n idx : Forall (λ e, e < n) (kept_elements n idx).
Proof.
  apply Forall_forall. intros e [_ He%elem_of_seq]%list_elem_of_filter. lia.
Qed.

(** [np.delete] with indices in range keeps the columns that are not
    named, in their order. *)
Lemma np_delete_Ok `{!Inhabited A} (arr : matrix A) (idx : list Z) :
  rect arr → Forall (in_range (shape1 arr)) idx →
  np_delete arr idx
  = Ok ((λ row : list A,
           (λ e, row !!! e) <$> kept_elements (shape1 arr) idx) <$> arr).
Proof.
  intros Hrect Hidx. unfold np_delete.
  destruct (scatter_Z_fill (replicate (shape1 arr) true) idx false)
    as (keep & -> & Hlen & Hin & Hout).
  { by rewrite length_replicate. }
  rewrite length_replicate in Hlen, Hin, Hout.
  rewrite bind_Ok. f_equal. unfold keep_columns.
  apply Forall_fmap_ext_1. eapply Forall_impl; [exact Hrect|]. cbn.
  intros row Hrow. rewrite keep_row by lia. rewrite Hrow.
  rewrite (filter_ext_in _ (λ e, e ∉ py_norm (shape1 arr) <$> idx)).
  - apply omap_lookup_total. rewrite Hrow. apply kept_elements_lt.
  - intros j Hj%elem_of_seq.
    destruct (decide (j ∈ py_norm (shape1 arr) <$> idx)) as [Hr|Hr].
    + rewrite (Hin _ Hr). split; [done|]. by intros [].
    + rewrite (Hout _ Hr), lookup_replicate_2 by lia. done.
Qed.

Lemma np_delete_raises {A} (arr : matrix A) (idx : list Z) :
  ¬ Forall (in_range (shape1 arr)) idx →
  np_delete arr idx = Raise IndexError.
Proof.
  intros H. unfold np_delete. rewrite scatter_Z_fill_raises; [done|].
  by rewrite length_replicate.
Qed.

(** *** Columns that are sorted stay so *)

Lemma sort_sorted (c : list Z) : Sorted Z.le c → sort c = c.
Proof.
  intros Hc. apply (Sorted_unique Z.le); [apply Sorted_sort|done|].
  apply sort_Permutation.
Qed.

Lemma sort_axis0_sorted (m : matrix Z) :
  rect m → shape1 m ≠ 0 → Forall (Sorted Z.le) (transpose m) →
  sort_axis0 m = m.
Proof.
  intros Hrect Hn Hs. unfold sort_axis0.
  rewrite (Forall_fmap_ext_1 sort id), list_fmap_id.
  - by apply transpose_involutive.
  - eapply Forall_impl; [exact Hs|]. cbn. apply sort_sorted.
Qed.

Lemma column_fmap {X Y} (f : X → Y) (m : matrix X) k :
  column ((λ r : list X, f <$> r) <$> m) k = f <$> column m k.
Proof.
  unfold column. induction m as [|r m IH]; [done|]. cbn.
  rewrite list_lookup_fmap. destruct (r !! k); cbn; by rewrite IH.
Qed.

Lemma column_take_total `{!Inhabited A} (m : matrix A) (l : list nat) j e :
  l !! j = Some e → Forall (λ r, e < length r) m →
  column ((λ row : list A, (λ e, row !!! e) <$> l) <$> m) j = column m e.
Proof.
  intros Hj. unfold column. induction 1 as [|r m Hr _ IH]; [done|]. cbn.
  rewrite list_lookup_fmap, Hj. cbn.
  by rewrite (list_lookup_lookup_total_lt r e Hr), IH.
Qed.

Lemma StronglySorted_fmap_mono (f : Z → Z) (P : Z → Prop) (c : list Z) :
  (∀ x y, P x → P y → (x ≤ y)%Z → (f x ≤ f y)%Z) →
  Forall P c → StronglySorted Z.le c → StronglySorted Z.le (f <$> c).
Proof.
  intros Hf HP Hs. induction Hs as [|x c Hs IH Hx]; [constructor|].
  apply Forall_cons in HP as [HPx HP]. cbn. constructor; [by apply IH|].
  apply Forall_fmap, Forall_forall. intros y Hy. cbn.
  rewrite Forall_forall in Hx, HP. apply Hf; [done|by apply HP|by apply Hx].
Qed.

(** *** [remove_elements] *)

Section RemoveElements.
Context {R Cls : Type} (R0 : R).
Context (element_dofs_of : Element → matrix Z → result (matrix Z)).

Abbreviation heap := (list (@obj R Cls)).
Abbreviation remove_elements :=
  (MeshEdit.remove_elements (R:=R) (Cls:=Cls) R0 element_dofs_of).
Abbreviation __post_init__ :=
  (MeshModel.__post_init__ (R:=R) (Cls:=Cls) R0 element_dofs_of).

Implicit Types (h : heap) (p : matrix R) (tv : matrix Z) (idx : list Z).

(** The connectivity without the removed elements. *)
Definition kept_columns tv idx : matrix Z :=
  (λ row : list Z,
     (λ e, row !!! e) <$> kept_elements (shape1 tv) idx) <$> tv.

Lemma get2_kept_columns tv idx i j e :
  rect tv → kept_elements (shape1 tv) idx !! j = Some e →
  get2 (kept_columns tv idx) i j = get2 tv i e.
Proof.
  intros Hrect Hj. unfold get2, kept_columns. rewrite list_lookup_fmap.
  destruct (tv !! i) as [row|] eqn:Hrow; [|done]. cbn.
  rewrite list_lookup_fmap, Hj. cbn.
  symmetry. apply list_lookup_lookup_total_lt.
  rewrite (rect_lookup _ _ _ Hrect Hrow).
  pose proof (kept_elements_lt (shape1 tv) idx) as Hlt.
  rewrite Forall_forall in Hlt. apply Hlt.
  by eapply list_elem_of_lookup_2.
Qed.

Lemma get2_kept_columns_inv tv idx i j x :
  rect tv → get2 (kept_columns tv idx) i j = Some x →
  ∃ e, kept_elements (shape1 tv) idx !! j = Some e
       ∧ get2 tv i e = Some x.
Proof.
  intros Hrect H.
  destruct (kept_elements (shape1 tv) idx !! j) as [e|] eqn:Hj.
  - exists e. split; [done|]. by rewrite <-(get2_kept_columns _ idx _ j).
  - unfold get2, kept_columns in H. rewrite list_lookup_fmap in H.
    destruct (tv !! i) as [row|]; [|done]. cbn in H.
    by rewrite list_lookup_fmap, Hj in H.
Qed.

Lemma kept_columns_reix_args e p tv idx :
  valid_arrays e p tv → tv ≠ [] →
  kept_elements (shape1 tv) idx ≠ [] →
  reix_args p (kept_columns tv idx).
Proof.
  intros (Hp & Ht & _ & Hix) Hne Hk. split_and!; [done| |].
  - destruct tv as [|row tv]; [done|]. unfold kept_columns, flatten.
    cbn [fmap list_fmap mjoin list_join]. intros Hnil.
    apply app_eq_nil in Hnil as [Hnil _].
    apply fmap_nil_inv in Hnil. done.
  - apply Forall_forall. intros r (i & Hr)%list_elem_of_lookup.
    apply Forall_forall. intros x (j & Hx)%list_elem_of_lookup.
    assert (get2 (kept_columns tv idx) i j = Some x) as Hg.
    { unfold get2. by rewrite Hr. }
    destruct (get2_kept_columns_inv _ _ _ _ _ Ht Hg) as (e' & _ & Hg').
    unfold get2 in Hg'. destruct (tv !! i) as [row|] eqn:Hrow; [|done].
    cbn in Hg'. rewrite Forall_forall in Hix.
    specialize (Hix row (list_elem_of_lookup_2 _ _ _ Hrow)).
    rewrite Forall_forall in Hix. apply Hix.
    by eapply list_elem_of_lookup_2.
Qed.

(** [__post_init__] on a mesh without extra rows in the connectivity:
    the fields are kept, and the connectivity is sorted column by
    column when the class asks for it. *)
Lemma post_init_fields h self (m : @Mesh Cls) p tv :
  h !! self = Some (MeshObj m) →
  get_float h (doflocs m) = Ok p → get_int h (t m) = Ok tv →
  shape0 tv ≤ elem_nnodes (elem m) →
  ∃ h' m', __post_init__ h self = Ok h'
    ∧ get_mesh h' self = Ok m'
    ∧ cls m' = cls m ∧ _boundaries m' = _boundaries m
    ∧ _subdomains m' = _subdomains m
    ∧ get_float h' (doflocs m') = Ok p
    ∧ get_int h' (t m') = Ok (if sort_t m then sort_axis0 tv else tv).
Proof.
  intros Hself Hp Ht HM. unfold MeshModel.__post_init__.
  rewrite (get_mesh_Ok _ _ _ Hself), bind_Ok.
  assert (doflocs m ≠ self) as Hne.
  { intros Heq. apply get_float_lookup in Hp. congruence. }
  assert (t m ≠ self) as Hnet.
  { intros Heq. unfold get_int in Ht. rewrite Heq, Hself in Ht. done. }
  assert (self < length h) as Hlt by (by eapply lookup_lt_Some).
  destruct (sort_t m).
  - rewrite Ht, !bind_Ok. unfold alloc.
    pose proof (extends_alloc h (IntArray (sort_axis0 tv))) as Hext.
    unfold alloc in Hext. cbn [fst] in Hext.
    rewrite (get_float_extends _ _ _ _ Hext Hp), bind_Ok.
    rewrite (get_int_Ok _ (length h) (sort_axis0 tv))
      by (by apply list_lookup_middle).
    rewrite bind_Ok.
    rewrite bool_decide_eq_false_2
      by (pose proof (shape0_sort_axis0 tv); lia).
    rewrite bind_Ok. eexists _, _. split; [done|].
    split.
    { apply get_mesh_Ok. apply list_lookup_insert_eq.
      rewrite length_app. lia. }
    split_and!; [done|done|done| |].
    + cbn [doflocs]. apply get_float_Ok.
      rewrite list_lookup_insert_ne by done.
      apply Hext. by apply get_float_lookup.
    + cbn [t]. apply get_int_Ok.
      rewrite list_lookup_insert_ne by lia.
      by apply list_lookup_middle.
  - rewrite !bind_Ok, Hp, bind_Ok, Ht, bind_Ok.
    rewrite bool_decide_eq_false_2 by lia.
    rewrite bind_Ok. eexists _, _. split; [done|].
    split; [apply get_mesh_Ok; by apply list_lookup_insert_eq|].
    split_and!; [done|done|done| |].
    + cbn [doflocs]. apply get_float_Ok.
      rewrite list_lookup_insert_ne by done.
      by apply get_float_lookup.
    + cbn [t]. apply get_int_Ok. rewrite list_lookup_insert_ne by done.
      unfold get_int in Ht. destruct (h !! t m) as [[]|]; try done.
      by injection Ht as ->.
Qed.

(** The columns of the connectivity of a mesh whose class sorts them
    are ascending ([__post_init__] made them so). *)
Definition sorted_columns (m : @Mesh Cls) tv : Prop :=
  sort_t m = true → Forall (Sorted Z.le) (transpose tv).

Lemma rect_kept_columns tv idx :
  Forall (λ row, length row = length (kept_elements (shape1 tv) idx))
         (kept_columns tv idx).
Proof.
  apply Forall_fmap, Forall_forall. intros row _. cbn.
  by rewrite length_fmap.
Qed.

(** The renumbered connectivity is sorted as the old one was. *)
Lemma renumbered_sorted tv idx :
  rect tv → tv ≠ [] → kept_elements (shape1 tv) idx ≠ [] →
  Forall (Sorted Z.le) (transpose tv) →
  let ix := kept_columns tv idx in
  sort_axis0 ((λ r : list Z, new_index ix <$> r) <$> ix)
  = (λ r : list Z, new_index ix <$> r) <$> ix.
Proof.
  intros Hrect Hne Hk Hs ix.
  set (n := length (kept_elements (shape1 tv) idx)).
  assert (n ≠ 0) as Hn.
  { unfold n. destruct (kept_elements _ _); [done|]. cbn. lia. }
  assert (Forall (λ row : list Z, length row = n)
            ((λ r : list Z, new_index ix <$> r) <$> ix)) as Hrows.
  { apply Forall_fmap. eapply Forall_impl; [apply rect_kept_columns|].
    cbn. intros r Hr. by rewrite length_fmap. }
  assert (shape1 ((λ r : list Z, new_index ix <$> r) <$> ix) = n) as Hsh.
  { destruct tv as [|row tv]; [done|]. cbn. by rewrite !length_fmap. }
  apply sort_axis0_sorted.
  - unfold rect. by rewrite Hsh.
  - by rewrite Hsh.
  - apply Forall_lookup_2. intros k c Hc.
    assert (k < n) as Hkn.
    { apply lookup_lt_Some in Hc. rewrite length_transpose in Hc. lia. }
    rewrite transpose_lookup in Hc by lia. injection Hc as <-.
    rewrite column_fmap.
    destruct (lookup_lt_is_Some_2 (kept_elements (shape1 tv) idx) k Hkn)
      as [e He].
    assert (e < shape1 tv) as Hlt.
    { pose proof (kept_elements_lt (shape1 tv) idx) as H.
      rewrite Forall_forall in H. apply H.
      by eapply list_elem_of_lookup_2. }
    unfold ix at 2, kept_columns.
    rewrite (column_take_total tv _ k e He) by (by apply rect_rows_lt).
    apply StronglySorted_Sorted.
    apply (StronglySorted_fmap_mono _ (λ x, x ∈ flatten ix)).
    + intros x y Hx Hy Hxy. destruct (decide (x = y)) as [->|Hxy']; [lia|].
      apply Z.lt_le_incl, new_index_lt; [done|done|lia].
    + apply Forall_forall. intros x (i & Hi)%list_elem_of_lookup.
      rewrite column_lookup in Hi by (by apply rect_rows_lt).
      apply (elem_of_flatten ix i k).
      unfold ix. by rewrite (get2_kept_columns _ _ _ _ e).
    + apply Sorted_StronglySorted; [apply _|].
      rewrite Forall_forall in Hs. apply Hs.
      eapply list_elem_of_lookup_2. by apply transpose_lookup.
Qed.

(** [remove_elements] with indices in range that leave an element
    returns a new mesh and leaves the objects of the heap alone.  The
    new mesh has the class and the very dictionaries of named
    boundaries and subdomains of the receiver (they are not renumbered);
    its connectivity has one column for each element that is not
    named, in the old order, and the nodes of an element have the
    coordinates that they had. *)
Theorem remove_elements_renumbers h self (m : @Mesh Cls) p tv idx :
  h !! self = Some (MeshObj m) →
  get_float h (doflocs m) = Ok p → get_int h (t m) = Ok tv →
  valid_arrays (elem m) p tv → tv ≠ [] → sorted_columns m tv →
  Forall (in_range (shape1 tv)) idx →
  kept_elements (shape1 tv) idx ≠ [] →
  ∃ h' r m' p' t',
    remove_elements h self idx = Ok (h', r)
    ∧ extends h h' ∧ fresh h r
    ∧ get_mesh h' r = Ok m' ∧ cls m' = cls m
    ∧ _boundaries m' = _boundaries m ∧ _subdomains m' = _subdomains m
    ∧ get_float h' (doflocs m') = Ok p' ∧ get_int h' (t m') = Ok t'
    ∧ length t' = length tv
    ∧ Forall (λ row, length row
                     = length (kept_elements (shape1 tv) idx)) t'
    ∧ ∀ j e, kept_elements (shape1 tv) idx !! j = Some e →
        ∀ i x, get2 tv i e = Some x →
          ∃ y, get2 t' i j = Some (Z.of_nat y)
               ∧ ∀ d, get2 p' d y = get2 p d (Z.to_nat x).
Proof.
  intros Hself Hp Ht Hvalid Hne Hsorted Hidx Hk.
  pose proof (kept_columns_reix_args _ _ _ idx Hvalid Hne Hk) as Hargs.
  pose proof (reix_args_inhabited _ _ Hargs) as HR.
  destruct Hvalid as (Hrp & Hrt & HM & Hix).
  unfold MeshEdit.remove_elements.
  rewrite (get_mesh_Ok _ _ _ Hself), bind_Ok, Ht, bind_Ok.
  rewrite (np_delete_Ok tv idx Hrt Hidx), bind_Ok, Hp, bind_Ok.
  fold (kept_columns tv idx). rewrite (reix_Ok _ _ Hargs), bind_Ok.
  set (ix := kept_columns tv idx) in *.
  set (pn := (λ row : list R, _) <$> p).
  set (tn := (λ r : list Z, new_index ix <$> r) <$> ix).
  unfold alloc. cbv beta iota zeta.
  set (h1 := h ++ [FloatArray pn]). set (h2 := h1 ++ [IntArray tn]).
  set (m0 := {| cls := cls m; doflocs := length h; t := length h1 |}).
  destruct (post_init_fields (h2 ++ [MeshObj m0]) (length h2) m0 pn tn)
    as (h' & m' & Hpost & Hget & Hcls & Hb & Hs & Hfloat & Hint).
  { by apply list_lookup_middle. }
  { apply get_float_Ok. cbn [doflocs m0]. unfold h2, h1.
    rewrite <-!(assoc_L (++)). by apply list_lookup_middle. }
  { apply get_int_Ok. cbn [t m0]. unfold h2.
    rewrite <-!(assoc_L (++)). by apply list_lookup_middle. }
  { cbn [elem m0]. unfold tn, ix, kept_columns, shape0 in *.
    by rewrite !length_fmap. }
  rewrite Hpost, bind_Ok.
  assert (extends h (h2 ++ [MeshObj m0])) as Hext.
  { intros l o Hl. unfold h2, h1. rewrite <-!(assoc_L (++)).
    by apply lookup_app_l_Some. }
  assert (fresh h (length h2)) as Hfresh.
  { unfold fresh. apply lookup_ge_None_2. unfold h2, h1.
    rewrite !length_app. lia. }
  destruct (post_init_extends R0 element_dofs_of h _ _ _ Hpost Hext Hfresh)
    as [Hext' _].
  assert ((if sort_t m0 then sort_axis0 tn else tn) = tn) as Htn.
  { cbn [sort_t m0]. destruct (sort_t m) eqn:Hst; [|done].
    by apply renumbered_sorted, Hsorted. }
  rewrite Htn in Hint.
  exists h', (length h2), m', pn, tn.
  split_and!; try done.
  - unfold tn, ix, kept_columns. by rewrite !length_fmap.
  - apply Forall_fmap. eapply Forall_impl; [apply rect_kept_columns|].
    cbn. intros r Hr. by rewrite length_fmap.
  - intros j e He i x Hx.
    assert (get2 ix i j = Some x) as Hg.
    { unfold ix. by rewrite (get2_kept_columns _ _ _ _ e). }
    exists (index_of x (used_nodes ix)). split.
    + unfold tn. by rewrite get2_fmap, Hg.
    + intros d. by eapply used_column.
Qed.

(** [remove_elements] raises [IndexError] when an index names no
    element, and [ValueError] (from the maximum of an empty array) when
    the indices are in range and no element is left. *)
Theorem remove_elements_raises h self (m : @Mesh Cls) p tv idx :
  h !! self = Some (MeshObj m) →
  get_float h (doflocs m) = Ok p → get_int h (t m) = Ok tv →
  rect tv →
  (¬ Forall (in_range (shape1 tv)) idx →
   remove_elements h self idx = Raise IndexError)
  ∧ (Forall (in_range (shape1 tv)) idx →
     kept_elements (shape1 tv) idx = [] →
     remove_elements h self idx
     = Raise (ValueError "zero-size array to reduction operation maximum which has no identity")).
Proof.
  intros Hself Hp Ht Hrt. unfold MeshEdit.remove_elements.
  rewrite (get_mesh_Ok _ _ _ Hself), bind_Ok, Ht, bind_Ok. split.
  - intros Hidx. by rewrite (np_delete_raises tv idx Hidx).
  - intros Hidx Hk.
    rewrite (np_delete_Ok tv idx Hrt Hidx), bind_Ok, Hp, bind_Ok, Hk.
    unfold _reix.
    assert (flatten ((λ row : list Z, (λ e, row !!! e) <$> []) <$> tv) = [])
      as ->; [|done].
    clear. induction tv as [|row tv IH]; [done|]. exact IH.
Qed.
End RemoveElements.

(** *** On the unit square in two triangles *)

Import MeshSample.

(** The mesh of [MeshSample] in a class that sorts its connectivity. *)
Definition square_heap : sheap :=
  [ FloatArray [[0; 1; 0; 1]; [0; 0; 1; 1]]%Z;
    IntArray [[0; 1]; [1; 2]; [2; 3]]%Z;
    Dict [("left"%string, [1])];
    MeshObj {| cls := MeshTri2; doflocs := 0; t := 1;
               _boundaries := Some 2; _subdomains := None;
               elem := tri_elem; affine := true; validate := false;
               sort_t := true |} ].

Definition s_remove_elements :=
  MeshEdit.remove_elements (R:=Z) (Cls:=SampleCls) 0%Z no_dofs.

Lemma reix_keeps_coordinates_witness :
  ∃ pn tn,
    _reix [[0; 1; 0; 1]; [0; 0; 1; 1]]%Z [[1]; [2]; [3]]%Z = Ok (pn, tn)
    ∧ length pn = 2
    ∧ length <$> tn = [1; 1; 1]
    ∧ ∀ i j x, get2 [[1]; [2]; [3]]%Z i j = Some x →
        ∃ y, get2 tn i j = Some (Z.of_nat y)
             ∧ ∀ d, get2 pn d y
                    = get2 [[0; 1; 0; 1]; [0; 0; 1; 1]]%Z d (Z.to_nat x).
Proof.
  apply (reix_keeps_coordinates [[0; 1; 0; 1]; [0; 0; 1; 1]]%Z
           [[1]; [2]; [3]]%Z).
  split_and!; [by repeat constructor|done|].
  repeat constructor; cbn; lia.
Defined.

Lemma reix_compact_witness :
  ∃ pn tn,
    _reix [[0; 1; 0; 1]; [0; 0; 1; 1]]%Z [[1; 3]; [2; 1]; [3; 0]]%Z
    = Ok (pn, tn)
    ∧ Forall (λ row, length row = 4) pn
    ∧ (∀ y, y < 4 → ∃ i j, get2 tn i j = Some (Z.of_nat y))
    ∧ ∀ i j i' j' x x' y y',
        get2 [[1; 3]; [2; 1]; [3; 0]]%Z i j = Some x →
        get2 [[1; 3]; [2; 1]; [3; 0]]%Z i' j' = Some x' →
        get2 tn i j = Some y → get2 tn i' j' = Some y' →
        (x < x')%Z ↔ (y < y')%Z.
Proof.
  apply (reix_compact [[0; 1; 0; 1]; [0; 0; 1; 1]]%Z
           [[1; 3]; [2; 1]; [3; 0]]%Z).
  split_and!; [by repeat constructor|done|].
  repeat constructor; cbn; lia.
Defined.

Lemma remove_elements_renumbers_witness :
  ∃ h' r m' p' t',
    s_remove_elements square_heap 3 [0]%Z = Ok (h', r)
    ∧ extends square_heap h' ∧ fresh square_heap r
    ∧ get_mesh h' r = Ok m'
    ∧ _boundaries m' = Some 2
    ∧ get_float h' (doflocs m') = Ok p'
    ∧ get_int h' (t m') = Ok t'
    ∧ length t' = 3
    ∧ ∀ i x, get2 [[0; 1]; [1; 2]; [2; 3]]%Z i 1 = Some x →
        ∃ y, get2 t' i 0 = Some (Z.of_nat y)
             ∧ ∀ d, get2 p' d y
                    = get2 [[0; 1; 0; 1]; [0; 0; 1; 1]]%Z d (Z.to_nat x).
Proof.
  destruct (remove_elements_renumbers 0%Z no_dofs square_heap 3 _
              [[0; 1; 0; 1]; [0; 0; 1; 1]]%Z [[0; 1]; [1; 2]; [2; 3]]%Z
              [0]%Z eq_refl eq_refl eq_refl)
    as (h' & r & m' & p' & t' & Hrun & Hext & Hfresh & Hm & _ & Hb & _
        & Hp & Ht & Hlen & _ & Hcoord).
  - split_and!; [by repeat constructor|by repeat constructor|cbn; lia|].
    repeat constructor; cbn; lia.
  - done.
  - intros _. repeat constructor; cbn; lia.
  - repeat constructor; unfold in_range; cbn; lia.
  - done.
  - exists h', r, m', p', t'. split_and!; try done.
    intros i x Hx. by apply (Hcoord 0 1).
Defined.

Lemma remove_elements_raises_witness :
  s_remove_elements square_heap 3 [2]%Z = Raise IndexError
  ∧ s_remove_elements square_heap 3 [0; -1]%Z
    = Raise (ValueError "zero-size array to reduction operation maximum which has no identity").
Proof.
  destruct (remove_elements_raises 0%Z no_dofs square_heap 3 _
              [[0; 1; 0; 1]; [0; 0; 1; 1]]%Z [[0; 1]; [1; 2]; [2; 3]]%Z
              [2]%Z eq_refl eq_refl eq_refl) as [Hindex _];
    [by repeat constructor|].
  destruct (remove_elements_raises 0%Z no_dofs square_heap 3 _
              [[0; 1; 0; 1]; [0; 0; 1; 1]]%Z [[0; 1]; [1; 2]; [2; 3]]%Z
              [0; -1]%Z eq_refl eq_refl eq_refl) as [_ Hvalue];
    [by repeat constructor|].
  split.
  - apply Hindex. intros [Hr _]%Forall_cons. unfold in_range in Hr.
    cbn in Hr. lia.
  - apply Hvalue; [|done].
    repeat constructor; unfold in_range; cbn; lia.
Defined.

End MeshEditFacts.

Import Py Np NpFacts.

(** ** Selecting nodes and facets *)

Module SelectFacts.
Import Topology TopologyFacts InverseFacts OwnerFacts FacetFacts.
Import MeshModel MeshSelect.

(** *** [np.intersect1d] and [np.setdiff1d] *)

Lemma StronglySorted_filter {A} (R : relation A) (P : A → Prop)
    `{!∀ x, Decision (P x)} (l : list A) :
  StronglySorted R l → StronglySorted R (filter P l).
Proof.
  induction 1 as [|x l Hs IH Hx]; [constructor|]. rewrite filter_cons.
  destruct (decide (P x)); [|done]. constructor; [done|].
  apply Forall_forall. intros y [_ Hy]%list_elem_of_filter.
  rewrite Forall_forall in Hx. by apply Hx.
Qed.

Section Sets.
Context {A : Type} `{!EqDecision A} (le : relation A) `{!RelDecision le}.

Lemma intersect1d_elem_of (a b : list A) x :
  x ∈ intersect1d le a b ↔ x ∈ a ∧ x ∈ b.
Proof.
  unfold intersect1d. rewrite list_elem_of_filter, unique_values_elem_of.
  tauto.
Qed.

Lemma setdiff1d_elem_of (a b : list A) x :
  x ∈ setdiff1d le a b ↔ x ∈ a ∧ x ∉ b.
Proof.
  unfold setdiff1d. rewrite list_elem_of_filter, unique_values_elem_of.
  tauto.
Qed.

Lemma intersect1d_NoDup (a b : list A) : NoDup (intersect1d le a b).
Proof. apply NoDup_filter, unique_values_NoDup. Qed.

Lemma setdiff1d_NoDup (a b : list A) : NoDup (setdiff1d le a b).
Proof. apply NoDup_filter, unique_values_NoDup. Qed.

Lemma intersect1d_Sorted `{!Total le} `{!Transitive le} (a b : list A) :
  StronglySorted le (intersect1d le a b).
Proof.
  apply StronglySorted_filter. unfold unique. cbn [fst].
  by apply StronglySorted_merge_sort.
Qed.

Lemma setdiff1d_Sorted `{!Total le} `{!Transitive le} (a b : list A) :
  StronglySorted le (setdiff1d le a b).
Proof.
  apply StronglySorted_filter. unfold unique. cbn [fst].
  by apply StronglySorted_merge_sort.
Qed.
End Sets.

(** *** The boundary facets of a valid mesh *)

Section Facets.
Context (rd : Refdom) (t : matrix Z) (k : nat).
Context (Ht : valid_connectivity t).
Context (Hix : valid_templates t (refdom_facets rd) k).
Context (Hle : length (refdom_facets rd) ≤ shape0 t).

Let ents := entities t (refdom_facets rd).
Let m := mapping_of t (refdom_facets rd).

Lemma mapping_of_bound : Forall (λ f, f < length ents) (flatten m).
Proof.
  apply Forall_forall. intros f Hf. unfold flatten in Hf.
  apply list_elem_of_join in Hf as (row & Hf & Hrow).
  unfold m, mapping_of in Hrow.
  apply list_elem_of_fmap in Hrow as (ix & -> & Hin).
  apply list_elem_of_fmap in Hf as (e & -> & He%elem_of_seq).
  apply list_elem_of_lookup in Hin as [r Hr].
  apply index_of_lt. apply (sorted_entity_elem_of t _ r); [done|lia].
Qed.

Lemma max_list_lt (l : list nat) n :
  0 < n → Forall (λ f, f < n) l → max_list l < n.
Proof.
  intros Hn. induction 1 as [|x l Hx _ IH]; cbn; [done|]. lia.
Qed.

Lemma n_entities_le : n_entities m ≤ length ents.
Proof.
  unfold n_entities.
  destruct (entities_rect t (refdom_facets rd) k Ht Hix) as (_ & _ & Hne).
  fold ents in Hne.
  pose proof (max_list_lt (flatten m) (length ents)) as H.
  assert (0 < length ents) as Hpos by (destruct ents; [done|cbn; lia]).
  specialize (H Hpos mapping_of_bound). lia.
Qed.

(** The boundary facets are computed, and they are facets. *)
Lemma mesh_boundary_facets_Ok :
  ∃ bf, mesh_boundary_facets rd t = Ok bf
        ∧ Forall (λ f, f < length ents) bf.
Proof.
  pose proof (t2f_valid rd t k Hix Hle) as Hvm.
  destruct (build_inverse_meets_amended t _ Ht Hvm)
    as (inv & Hinv & inv0 & inv1 & -> & _ & Hl1 & _).
  eexists. split.
  - unfold mesh_boundary_facets, f2t.
    rewrite (t2f_Ok rd t k Ht Hix), bind_Ok, Hinv, bind_Ok.
    unfold boundary_facets. cbn. reflexivity.
  - eapply Forall_impl; [apply nonzero_bound|]. cbn. intros f.
    rewrite length_fmap, Hl1. pose proof n_entities_le. fold m. lia.
Qed.

(** A node of a facet is a node of an element. *)
Lemma facet_node (P : Z → Prop) c x :
  Forall (Forall P) t → c ∈ ents → x ∈ c → P x.
Proof.
  intros HP Hc Hx.
  destruct (entities_from_occurrence t _ c Hc) as (r & ix & e & Hr & He & ->).
  rewrite sort_Permutation in Hx. unfold entity in Hx.
  apply list_elem_of_fmap in Hx as (i & -> & Hi).
  destruct Hix as (_ & _ & Hall). rewrite Forall_forall in Hall.
  destruct (Hall ix (list_elem_of_lookup_2 _ _ _ Hr)) as [_ Hrows].
  rewrite Forall_forall in Hrows. specialize (Hrows i Hi).
  destruct (lookup_lt_is_Some_2 t i Hrows) as [row Hrow].
  rewrite (list_lookup_total_correct _ _ _ Hrow).
  rewrite Forall_forall in HP.
  specialize (HP row (list_elem_of_lookup_2 _ _ _ Hrow)).
  rewrite Forall_forall in HP. apply HP.
  apply list_elem_of_lookup_total_2.
  destruct Ht as [Hrect _]. by rewrite (rect_lookup _ _ _ Hrect Hrow).
Qed.

Lemma rect_ents : rect ents.
Proof. by destruct (entities_rect t (refdom_facets rd) k Ht Hix). Qed.

Lemma take_boundary_columns bf :
  Forall (λ f, f < length ents) bf →
  take_cols (transpose ents) bf
  = Ok ((λ r : list Z, (λ f, r !!! f) <$> bf) <$> transpose ents).
Proof.
  intros Hbf. unfold take_cols. apply mapR_fmap.
  eapply Forall_impl; [apply (transpose_rows _ rect_ents)|]. cbn.
  intros r Hr. apply getitems_Ok. by rewrite Hr.
Qed.

(** The nodes of the columns [bf] of the facet array. *)
Lemma elem_of_boundary_columns bf x :
  Forall (λ f, f < length ents) bf →
  x ∈ flatten ((λ r : list Z, (λ f, r !!! f) <$> bf) <$> transpose ents)
  ↔ ∃ f i, f ∈ bf ∧ get2 (transpose ents) i f = Some x.
Proof.
  intros Hbf. unfold flatten. rewrite list_elem_of_join. split.
  - intros (row & Hx & Hrow).
    apply list_elem_of_fmap in Hrow as (r & -> & Hr).
    apply list_elem_of_fmap in Hx as (f & -> & Hf).
    apply list_elem_of_lookup in Hr as [i Hi].
    exists f, i. split; [done|]. unfold get2. rewrite Hi. cbn.
    apply list_lookup_lookup_total_lt.
    pose proof (transpose_rows _ rect_ents) as Hrows.
    rewrite Forall_forall in Hrows. rewrite Forall_forall in Hbf.
    rewrite (Hrows r (list_elem_of_lookup_2 _ _ _ Hi)). by apply Hbf.
  - intros (f & i & Hf & Hg). unfold get2 in Hg.
    destruct (transpose ents !! i) as [r|] eqn:Hi; [|done]. cbn in Hg.
    exists ((λ f, r !!! f) <$> bf). split.
    + apply list_elem_of_fmap. exists f. split; [|done].
      symmetry. by apply list_lookup_total_correct.
    + apply list_elem_of_fmap. exists r. split; [done|].
      by eapply list_elem_of_lookup_2.
Qed.

Lemma facet_entry (P : Z → Prop) i f x :
  Forall (Forall P) t → get2 (transpose ents) i f = Some x → P x.
Proof.
  intros HP Hg. rewrite (get2_transpose _ _ _ rect_ents) in Hg.
  unfold get2 in Hg. destruct (ents !! f) as [c|] eqn:Hc; [|done].
  cbn in Hg. eapply (facet_node P c x HP).
  - by eapply list_elem_of_lookup_2.
  - by eapply list_elem_of_lookup_2.
Qed.
End Facets.

(** Every node of a valid mesh is either a boundary node or an interior
    node: [boundary_nodes()] holds the nodes of the boundary facets,
    [interior_nodes()] the other node indices below [p.shape[1]]; both
    are ascending and without repetition. *)
Theorem boundary_interior_partition {R} rd (p : matrix R) t k :
  valid_connectivity t → valid_templates t (refdom_facets rd) k →
  length (refdom_facets rd) ≤ shape0 t →
  Forall (Forall (λ x, (0 ≤ x < Z.of_nat (shape1 p))%Z)) t →
  ∃ fs bf bn inn,
    facets rd t = Ok fs ∧ mesh_boundary_facets rd t = Ok bf
    ∧ boundary_nodes rd t = Ok bn ∧ interior_nodes rd p t = Ok inn
    ∧ (∀ x, x ∈ bn ↔ ∃ f i, f ∈ bf ∧ get2 fs i f = Some x)
    ∧ (∀ x, (0 ≤ x < Z.of_nat (shape1 p))%Z ↔ x ∈ bn ∨ x ∈ inn)
    ∧ (∀ x, x ∈ bn → x ∉ inn)
    ∧ StronglySorted Z.le bn ∧ NoDup bn
    ∧ StronglySorted Z.le inn ∧ NoDup inn.
Proof.
  intros Ht Hix Hle Hnodes.
  destruct (mesh_boundary_facets_Ok rd t k Ht Hix Hle) as (bf & Hbf & Hlt).
  pose proof (facets_Ok rd t k Ht Hix) as Hfs.
  pose (ents := entities t (refdom_facets rd)).
  pose (sub := (λ r : list Z, (λ f, r !!! f) <$> bf) <$> transpose ents).
  pose (bn := (unique Z.le (flatten sub)).1.1).
  assert (boundary_nodes rd t = Ok bn) as Hbn.
  { unfold boundary_nodes. rewrite Hfs, bind_Ok, Hbf, bind_Ok.
    by rewrite (take_boundary_columns rd t k Ht Hix bf Hlt). }
  assert (∀ x, x ∈ bn ↔ ∃ f i, f ∈ bf ∧ get2 (transpose ents) i f = Some x)
    as Hin.
  { intros x. unfold bn. rewrite unique_values_elem_of.
    by apply (elem_of_boundary_columns rd t k Ht Hix). }
  assert (∀ x, x ∈ bn → (0 ≤ x < Z.of_nat (shape1 p))%Z) as Hbound.
  { intros x (f & i & _ & Hg)%Hin.
    by eapply (facet_entry rd t k Ht Hix (λ x, (0 ≤ x < _)%Z)). }
  exists (transpose ents), bf, bn,
    (setdiff1d Z.le (Z.of_nat <$> arange (shape1 p)) bn).
  split_and!; try done.
  - unfold interior_nodes. by rewrite Hbn.
  - intros x. rewrite setdiff1d_elem_of. unfold arange.
    rewrite list_elem_of_fmap. split.
    + intros Hx. destruct (decide (x ∈ bn)) as [|Hn]; [by left|right].
      split; [|done]. exists (Z.to_nat x). split; [lia|].
      apply elem_of_seq. lia.
    + intros [Hx|[(n & -> & Hn%elem_of_seq) _]]; [by apply Hbound|lia].
  - intros x Hx. rewrite setdiff1d_elem_of. tauto.
  - unfold bn, unique. cbn [fst]. apply StronglySorted_merge_sort; apply _.
  - apply unique_values_NoDup.
  - apply setdiff1d_Sorted; apply _.
  - apply setdiff1d_NoDup.
Qed.

Lemma boundary_interior_partition_witness :
  ∃ fs bf bn inn,
    facets tri_refdom tri2 = Ok fs
    ∧ mesh_boundary_facets tri_refdom tri2 = Ok bf
    ∧ boundary_nodes tri_refdom tri2 = Ok bn
    ∧ interior_nodes tri_refdom [[0; 1; 0; 1]; [0; 0; 1; 1]]%Z tri2 = Ok inn
    ∧ (∀ x, x ∈ bn ↔ ∃ f i, f ∈ bf ∧ get2 fs i f = Some x)
    ∧ (∀ x, (0 ≤ x < 4)%Z ↔ x ∈ bn ∨ x ∈ inn)
    ∧ (∀ x, x ∈ bn → x ∉ inn)
    ∧ StronglySorted Z.le bn ∧ NoDup bn
    ∧ StronglySorted Z.le inn ∧ NoDup inn.
Proof.
  apply (boundary_interior_partition tri_refdom
           [[0; 1; 0; 1]; [0; 0; 1; 1]]%Z tri2 2).
  - exact tri2_valid.
  - exact tri_facets_valid.
  - cbn. lia.
  - repeat constructor; cbn; lia.
Defined.

(** *** Selections restricted to the boundary *)

Section Restrict.
Context {R : Type} (Radd Rdiv : R → R → R) (Rof_nat : nat → R).

Abbreviation facets_satisfying :=
  (MeshSelect.facets_satisfying Radd Rdiv Rof_nat).

(** With [boundaries_only=True], [facets_satisfying] returns exactly
    the boundary facets among the facets that it returns without it,
    and [nodes_satisfying] exactly the boundary nodes among the nodes
    that it returns without it; the results are ascending and without
    repetition. *)
Theorem boundaries_only_restricts rd dim (p : matrix R) t
    (test : Test R) :
  (∀ fs, facets_satisfying rd dim p t test true = Ok fs →
     ∃ all bf,
       facets_satisfying rd dim p t test false = Ok all
       ∧ mesh_boundary_facets rd t = Ok bf
       ∧ (∀ f, f ∈ fs ↔ f ∈ all ∧ f ∈ bf)
       ∧ StronglySorted Nat.le fs ∧ NoDup fs)
  ∧ (∀ ns, nodes_satisfying rd p t test true = Ok ns →
       ∃ all bn,
         nodes_satisfying rd p t test false = Ok all
         ∧ boundary_nodes rd t = Ok bn
         ∧ (∀ x, x ∈ ns ↔ x ∈ all ∧ x ∈ bn)
         ∧ StronglySorted Z.le ns ∧ NoDup ns).
Proof.
  split.
  - intros fs H. unfold MeshSelect.facets_satisfying in *.
    apply bind_Ok_inv in H as (midp & Hmidp & H).
    apply bind_Ok_inv in H as (mask & Hmask & H).
    apply bind_Ok_inv in H as (bf & Hbf & [= <-]).
    eexists _, bf. rewrite Hmidp, bind_Ok, Hmask, bind_Ok.
    split_and!; [done|done| | |].
    + intros f. apply intersect1d_elem_of.
    + apply intersect1d_Sorted; apply _.
    + apply intersect1d_NoDup.
  - intros ns H. unfold nodes_satisfying in *.
    apply bind_Ok_inv in H as (mask & Hmask & H).
    apply bind_Ok_inv in H as (bn & Hbn & [= <-]).
    eexists _, bn. rewrite Hmask, bind_Ok.
    split_and!; [done|done| | |].
    + intros x. apply intersect1d_elem_of.
    + apply intersect1d_Sorted; apply _.
    + apply intersect1d_NoDup.
Qed.
End Restrict.

(** *** On the square of side 2 in two triangles *)

Import PrimFloat.

(** The conversion to float64 of the integer [ix.shape[0]] that the sums
    are divided by; it is exact below [2^53]. *)
Fixpoint float_of_nat (n : nat) : float :=
  match n with
  | 0 => 0%float
  | S n => (float_of_nat n + 1)%float
  end.

Definition square_p : matrix float := [[0; 2; 0; 2]; [0; 0; 2; 2]]%float.

(** [lambda x: x[0] == 0] and [lambda x: x[1] == 0]: the points with
    first coordinate 0, and those with second coordinate 0. *)
Definition on_left (x : matrix float) : result (list bool) :=
  row ← getitem x 0;
  Ok ((λ v : float, PrimFloat.eqb v 0%float) <$> (row : list float)).
Definition on_bottom (x : matrix float) : result (list bool) :=
  row ← getitem x 1;
  Ok ((λ v : float, PrimFloat.eqb v 0%float) <$> (row : list float)).

Lemma boundaries_only_restricts_witness :
  (∃ all bf,
     MeshSelect.facets_satisfying PrimFloat.add PrimFloat.div float_of_nat
       tri_refdom 2 square_p tri2 on_left false = Ok all
     ∧ mesh_boundary_facets tri_refdom tri2 = Ok bf
     ∧ (∀ f, f ∈ [1] ↔ f ∈ all ∧ f ∈ bf)
     ∧ StronglySorted Nat.le [1] ∧ NoDup [1])
  ∧ (∃ all bn,
       nodes_satisfying tri_refdom square_p tri2 on_left false = Ok all
       ∧ boundary_nodes tri_refdom tri2 = Ok bn
       ∧ (∀ x, x ∈ [0; 2]%Z ↔ x ∈ all ∧ x ∈ bn)
       ∧ StronglySorted Z.le [0; 2]%Z ∧ NoDup [0; 2]%Z).
Proof.
  destruct (boundaries_only_restricts PrimFloat.add PrimFloat.div
              float_of_nat tri_refdom 2 square_p tri2 on_left)
    as [Hfacets Hnodes].
  split.
  - apply Hfacets. vm_compute. reflexivity.
  - apply Hnodes. vm_compute. reflexivity.
Defined.

End SelectFacts.

Import Py Np NpFacts.

(** ** Dictionaries *)

Module DictFacts.
Import PyDict.

Section Dict.
Context {K V : Type} `{!EqDecision K}.
Implicit Types (d : list (K * V)) (k : K) (v : V).

Lemma dict_get_set d k v k' :
  dict_get (dict_set d k v) k'
  = if decide (k' = k) then Ok v else dict_get d k'.
Proof.
  induction d as [|[k0 v0] d IH]; cbn.
  - by destruct (decide (k' = k)).
  - destruct (decide (k = k0)) as [->|Hne]; cbn.
    + by destruct (decide (k' = k0)).
    + destruct (decide (k' = k0)) as [->|Hne'].
      * by rewrite decide_False by done.
      * exact IH.
Qed.

Lemma dict_set_new d k v : k ∉ d.*1 → dict_set d k v = d ++ [(k, v)].
Proof.
  induction d as [|[k0 v0] d IH]; intros Hk; cbn; [done|].
  cbn in Hk. apply not_elem_of_cons in Hk as [Hne Hk].
  rewrite decide_False by done. by rewrite IH.
Qed.

Lemma dict_update_cons d k v d' :
  dict_update d ((k, v) :: d') = dict_update (dict_set d k v) d'.
Proof. reflexivity. Qed.

(** A key that the update does not have keeps its value. *)
Lemma dict_get_update_old d d' k :
  k ∉ d'.*1 → dict_get (dict_update d d') k = dict_get d k.
Proof.
  revert d. induction d' as [|[k0 v0] d' IH]; intros d Hk; [done|].
  cbn in Hk. apply not_elem_of_cons in Hk as [Hne Hk].
  rewrite dict_update_cons, IH, dict_get_set by done.
  by rewrite decide_False.
Qed.

(** A key of the update gets the value of the update. *)
Lemma dict_get_update_new d d' k v :
  NoDup d'.*1 → (k, v) ∈ d' → dict_get (dict_update d d') k = Ok v.
Proof.
  revert d. induction d' as [|[k0 v0] d' IH]; intros d Hnd Hin.
  - by apply elem_of_nil in Hin.
  - cbn in Hnd. apply NoDup_cons in Hnd as [Hk0 Hnd].
    rewrite dict_update_cons.
    apply elem_of_cons in Hin as [[= -> ->]|Hin].
    + rewrite dict_get_update_old, dict_get_set by done.
      by rewrite decide_True.
    + by apply IH.
Qed.

Lemma dict_update_app d d' :
  NoDup (d ++ d').*1 → dict_update d d' = d ++ d'.
Proof.
  revert d. induction d' as [|[k0 v0] d' IH]; intros d Hnd.
  - by rewrite app_nil_r.
  - rewrite dict_update_cons, dict_set_new.
    + rewrite IH; [by rewrite <-(assoc_L (++))|].
      by rewrite <-(assoc_L (++)).
    + rewrite fmap_app in Hnd. apply NoDup_app in Hnd as (_ & Hd & _).
      intros Hin. apply (Hd k0 Hin). cbn. by left.
Qed.

(** A dictionary built from items with distinct keys has these
    items. *)
Lemma dict_update_nil d' : NoDup d'.*1 → dict_update [] d' = d'.
Proof. intros H. by rewrite dict_update_app. Qed.
End Dict.
End DictFacts.

(** ** Naming boundaries and subdomains *)

Module NamingFacts.
Import Topology MeshModel MeshFacts MeshEditFacts MeshSelect PyDict DictFacts.

Section Heap.
Context {R Cls : Type} (R0 : R) (Radd Rdiv : R → R → R) (Rof_nat : nat → R).
Context (element_dofs_of : Element → matrix Z → result (matrix Z)).
Context (elem_refdom : Element → Refdom).

Abbreviation heap := (list (@obj R Cls)).
Abbreviation __post_init__ :=
  (MeshModel.__post_init__ (R:=R) (Cls:=Cls) R0 element_dofs_of).
Abbreviation mesh_facets_satisfying :=
  (MeshSelect.mesh_facets_satisfying (R:=R) (Cls:=Cls) Radd Rdiv Rof_nat
     elem_refdom).
Abbreviation mesh_elements_satisfying :=
  (MeshSelect.mesh_elements_satisfying (R:=R) (Cls:=Cls) Radd Rdiv
     Rof_nat).
Abbreviation with_boundaries :=
  (MeshSelect.with_boundaries (R:=R) (Cls:=Cls) R0 Radd Rdiv Rof_nat
     element_dofs_of elem_refdom).
Abbreviation with_subdomains :=
  (MeshSelect.with_subdomains (R:=R) (Cls:=Cls) R0 Radd Rdiv Rof_nat
     element_dofs_of).
Abbreviation define_boundary :=
  (MeshSelect.define_boundary (R:=R) (Cls:=Cls) Radd Rdiv Rof_nat
     elem_refdom).
Abbreviation translated :=
  (MeshModel.translated (R:=R) (Cls:=Cls) R0 Radd element_dofs_of).

Implicit Types (h : heap) (m : @Mesh Cls) (tests : list (string * Test R)).

(** The value of a call that returns. *)
Definition value_of {X} (d : X) (r : result X) : X :=
  match r with Ok x => x | Raise _ => d end.

Lemma select_all_Ok (select : Test R → result (list nat)) tests :
  NoDup tests.*1 →
  (∀ name test, (name, test) ∈ tests → ∃ s, select test = Ok s) →
  ∃ new, select_all select tests = Ok new
    ∧ NoDup new.*1 ∧ new.*1 = tests.*1
    ∧ ∀ name test, (name, test) ∈ tests →
        ∃ s, select test = Ok s ∧ (name, s) ∈ new.
Proof.
  intros Hnd Hsel. unfold select_all.
  set (g := λ nt : string * Test R, (nt.1, value_of [] (select nt.2))).
  rewrite (mapR_fmap _ g); last first.
  { apply Forall_forall. intros [name test] Hin. cbn.
    destruct (Hsel name test Hin) as [s Hs]. unfold g. cbn.
    by rewrite Hs. }
  rewrite bind_Ok.
  assert ((g <$> tests).*1 = tests.*1) as Hkeys.
  { rewrite <-list_fmap_compose. by apply list_fmap_ext. }
  rewrite dict_update_nil by (by rewrite Hkeys).
  eexists. split; [done|]. split_and!; [by rewrite Hkeys|done|].
  intros name test Hin. destruct (Hsel name test Hin) as [s Hs].
  exists s. split; [done|]. apply list_elem_of_fmap.
  exists (name, test). split; [|done]. unfold g. cbn. by rewrite Hs.
Qed.

(** The facets that [facets_satisfying] returns with
    [boundaries_only=True] are boundary facets. *)
Lemma mesh_facets_on_boundary h self m tv test fs :
  h !! self = Some (MeshObj m) → get_int h (t m) = Ok tv →
  mesh_facets_satisfying h self test true = Ok fs →
  ∃ bf, mesh_boundary_facets (elem_refdom (elem m)) tv = Ok bf
        ∧ ∀ f, f ∈ fs → f ∈ bf.
Proof.
  intros Hself Ht H. unfold MeshSelect.mesh_facets_satisfying in H.
  rewrite (get_mesh_Ok _ _ _ Hself), bind_Ok in H.
  apply bind_Ok_inv in H as (p & _ & H). rewrite Ht, bind_Ok in H.
  unfold facets_satisfying in H.
  apply bind_Ok_inv in H as (midp & _ & H).
  apply bind_Ok_inv in H as (mask & _ & H).
  apply bind_Ok_inv in H as (bf & Hbf & [= <-]).
  exists bf. split; [done|].
  intros f Hf%SelectFacts.intersect1d_elem_of. tauto.
Qed.

(** [with_boundaries] returns a new mesh with a new dictionary of
    named boundaries and leaves the objects of the heap alone, the
    dictionary of the receiver among them.  The new dictionary maps
    every given name to the facets that [facets_satisfying] returns for
    its test with [boundaries_only=True], which are boundary facets,
    and every other name to what the receiver has for it; the
    subdomains are those of the receiver. *)
Theorem with_boundaries_names h self m p tv old tests :
  h !! self = Some (MeshObj m) →
  get_float h (doflocs m) = Ok p → get_int h (t m) = Ok tv →
  shape0 tv ≤ elem_nnodes (elem m) →
  get_dict h (_boundaries m) = Ok old →
  NoDup tests.*1 →
  (∀ name test, (name, test) ∈ tests →
     ∃ fs, mesh_facets_satisfying h self test true = Ok fs) →
  ∃ h' r m' ld d,
    with_boundaries h self tests = Ok (h', r)
    ∧ extends h h' ∧ fresh h r ∧ fresh h ld
    ∧ get_mesh h' r = Ok m' ∧ cls m' = cls m
    ∧ _subdomains m' = _subdomains m ∧ _boundaries m' = Some ld
    ∧ h' !! ld = Some (Dict d)
    ∧ get_float h' (doflocs m') = Ok p
    ∧ (∀ name test, (name, test) ∈ tests →
         ∃ fs bf,
           dict_get d name = Ok fs
           ∧ mesh_facets_satisfying h self test true = Ok fs
           ∧ mesh_boundary_facets (elem_refdom (elem m)) tv = Ok bf
           ∧ ∀ f, f ∈ fs → f ∈ bf)
    ∧ (∀ name, name ∉ tests.*1 →
         dict_get d name = dict_get (default [] old) name).
Proof.
  intros Hself Hp Ht HM Hold Hnd Htests.
  destruct (select_all_Ok
              (λ test, mesh_facets_satisfying h self test true) tests
              Hnd Htests) as (new & Hnew & Hndn & Hkeys & Hval).
  unfold MeshSelect.with_boundaries.
  rewrite (get_mesh_Ok _ _ _ Hself), bind_Ok, Hold, bind_Ok, Hnew, bind_Ok.
  unfold alloc. cbv beta iota zeta.
  set (d := dict_update (default [] old) new).
  set (h1 := h ++ [Dict d]).
  set (m0 := {| cls := cls m; doflocs := doflocs m; t := t m;
                _boundaries := Some (length h) |}).
  assert (extends h h1) as Hext1.
  { intros l o Hl. by apply lookup_app_l_Some. }
  assert (extends h (h1 ++ [MeshObj m0])) as Hext2.
  { intros l o Hl. by apply lookup_app_l_Some, Hext1. }
  destruct (post_init_fields R0 element_dofs_of
              (h1 ++ [MeshObj m0]) (length h1) m0 p tv)
    as (h' & m' & Hpost & Hget & Hcls & Hb & Hs & Hfloat & _).
  { by apply list_lookup_middle. }
  { by apply (get_float_extends h). }
  { by apply (get_int_extends h). }
  { done. }
  rewrite Hpost, bind_Ok.
  assert (fresh h1 (length h1)) as Hfresh1
    by (by apply lookup_ge_None_2).
  destruct (post_init_extends R0 element_dofs_of h1 _ _ _ Hpost)
    as [Hext' _]; [by intros l o Hl; apply lookup_app_l_Some|done|].
  exists h', (length h1), m', (length h), d.
  split_and!; try done.
  - eapply extends_trans; [exact Hext1|exact Hext'].
  - apply lookup_ge_None_2. unfold h1. rewrite length_app. cbn. lia.
  - by apply lookup_ge_None_2.
  - apply Hext'. by apply list_lookup_middle.
  - intros name test Hin. destruct (Hval name test Hin) as (fs & Hfs & Hn).
    destruct (mesh_facets_on_boundary h self m tv test fs Hself Ht Hfs)
      as (bf & Hbf & Hsub).
    exists fs, bf. split_and!; [|done|done|done].
    by apply dict_get_update_new.
  - intros name Hname. apply dict_get_update_old. by rewrite Hkeys.
Qed.

(** [with_subdomains] returns a new mesh with a new dictionary of
    named subdomains and leaves the objects of the heap alone.  The
    new dictionary maps every given name to the elements that
    [elements_satisfying] returns for its test and every other name to
    what the receiver has for it; the boundaries are those of the
    receiver. *)
Theorem with_subdomains_names h self m p tv old tests :
  h !! self = Some (MeshObj m) →
  get_float h (doflocs m) = Ok p → get_int h (t m) = Ok tv →
  shape0 tv ≤ elem_nnodes (elem m) →
  get_dict h (_subdomains m) = Ok old →
  NoDup tests.*1 →
  (∀ name test, (name, test) ∈ tests →
     ∃ s, mesh_elements_satisfying h self test = Ok s) →
  ∃ h' r m' ld d,
    with_subdomains h self tests = Ok (h', r)
    ∧ extends h h' ∧ fresh h r ∧ fresh h ld
    ∧ get_mesh h' r = Ok m' ∧ cls m' = cls m
    ∧ _boundaries m' = _boundaries m ∧ _subdomains m' = Some ld
    ∧ h' !! ld = Some (Dict d)
    ∧ get_float h' (doflocs m') = Ok p
    ∧ (∀ name test, (name, test) ∈ tests →
         ∃ s, dict_get d name = Ok s
              ∧ mesh_elements_satisfying h self test = Ok s)
    ∧ (∀ name, name ∉ tests.*1 →
         dict_get d name = dict_get (default [] old) name).
Proof.
  intros Hself Hp Ht HM Hold Hnd Htests.
  destruct (select_all_Ok
              (λ test, mesh_elements_satisfying h self test) tests
              Hnd Htests) as (new & Hnew & Hndn & Hkeys & Hval).
  unfold MeshSelect.with_subdomains.
  rewrite (get_mesh_Ok _ _ _ Hself), bind_Ok, Hold, bind_Ok, Hnew, bind_Ok.
  unfold alloc. cbv beta iota zeta.
  set (d := dict_update (default [] old) new).
  set (h1 := h ++ [Dict d]).
  set (m0 := {| cls := cls m; doflocs := doflocs m; t := t m;
                _subdomains := Some (length h) |}).
  assert (extends h h1) as Hext1.
  { intros l o Hl. by apply lookup_app_l_Some. }
  destruct (post_init_fields R0 element_dofs_of
              (h1 ++ [MeshObj m0]) (length h1) m0 p tv)
    as (h' & m' & Hpost & Hget & Hcls & Hb & Hs & Hfloat & _).
  { by apply list_lookup_middle. }
  { apply (get_float_extends h); [|done].
    intros l o Hl. by apply lookup_app_l_Some, Hext1. }
  { apply (get_int_extends h); [|done].
    intros l o Hl. by apply lookup_app_l_Some, Hext1. }
  { done. }
  rewrite Hpost, bind_Ok.
  assert (fresh h1 (length h1)) as Hfresh1
    by (by apply lookup_ge_None_2).
  destruct (post_init_extends R0 element_dofs_of h1 _ _ _ Hpost)
    as [Hext' _]; [by intros l o Hl; apply lookup_app_l_Some|done|].
  exists h', (length h1), m', (length h), d.
  split_and!; try done.
  - eapply extends_trans; [exact Hext1|exact Hext'].
  - apply lookup_ge_None_2. unfold h1. rewrite length_app. cbn. lia.
  - by apply lookup_ge_None_2.
  - apply Hext'. by apply list_lookup_middle.
  - intros name test Hin. destruct (Hval name test Hin) as (fs & Hfs & Hn).
    exists fs. split; [|done]. by apply dict_get_update_new.
  - intros name Hname. apply dict_get_update_old. by rewrite Hkeys.
Qed.

(** *** [define_boundary] changes a dictionary that meshes share *)

(** [__post_init__] keeps the class and the named sets. *)
Lemma post_init_keeps h self h' m :
  __post_init__ h self = Ok h' → get_mesh h self = Ok m →
  ∃ m', get_mesh h' self = Ok m' ∧ cls m' = cls m
        ∧ _boundaries m' = _boundaries m
        ∧ _subdomains m' = _subdomains m.
Proof.
  intros H Hm. unfold MeshModel.__post_init__ in H.
  rewrite Hm, bind_Ok in H.
  apply bind_Ok_inv in H as ([h1 lt] & Hsort & H).
  assert (length h ≤ length h1) as Hlen1.
  { destruct (sort_t m).
    - apply bind_Ok_inv in Hsort as (tv & _ & [= <- <-]).
      rewrite length_app. lia.
    - by injection Hsort as <- <-. }
  do 2 inv_bind H.
  apply bind_Ok_inv in H as ([[h2 lp] lt'] & Hre & H).
  assert (length h1 ≤ length h2) as Hlen2.
  { case_bool_decide.
    - apply bind_Ok_inv in Hre as ([p' t'] & _ & Hre).
      injection Hre as <- <- <-. unfold alloc. cbn.
      rewrite !length_app. lia.
    - by injection Hre as <- <- <-. }
  injection H as <-. eexists. split.
  - apply get_mesh_Ok, list_lookup_insert_eq.
    apply get_mesh_lookup, lookup_lt_Some in Hm. lia.
  - done.
Qed.

(** The mesh that [translated] returns has the dictionaries of the
    receiver. *)
Lemma translated_shares h self m diffs h1 r :
  h !! self = Some (MeshObj m) →
  translated h self diffs = Ok (h1, r) →
  extends h h1 ∧ fresh h r
  ∧ ∃ mr, get_mesh h1 r = Ok mr
          ∧ _boundaries mr = _boundaries m
          ∧ _subdomains mr = _subdomains m.
Proof.
  intros Hself H.
  destruct (translated_new R0 Radd element_dofs_of h self diffs h1 r H)
    as (Hext & Hfresh & _).
  split; [done|]. split; [done|].
  unfold MeshModel.translated in H.
  rewrite (get_mesh_Ok _ _ _ Hself), bind_Ok in H.
  apply bind_Ok_inv in H as (p & _ & H).
  apply bind_Ok_inv in H as (rows & _ & H).
  unfold alloc, MeshModel.replace_doflocs in H. cbv beta iota zeta in H.
  rewrite (get_mesh_Ok _ self m) in H
    by (by apply lookup_app_l_Some).
  rewrite bind_Ok in H. unfold alloc in H. cbv beta iota zeta in H.
  apply bind_Ok_inv in H as (h' & Hpost & [= <- <-]).
  destruct (post_init_keeps _ _ _ _ Hpost
              (get_mesh_Ok _ _ _ (list_lookup_middle _ [] _ _ eq_refl)))
    as (mr & Hmr & _ & Hb & Hs).
  by exists mr.
Qed.

(** Naming a boundary on a mesh names it on the meshes made from it:
    [translated] passes the dictionary of named boundaries of the
    receiver on to its result, and [define_boundary] writes into that
    dictionary, so that after [m2 = m.translated(d)] and
    [m.define_boundary(name, test)] the boundaries of [m2] hold [name]
    as those of [m] do. *)
Theorem define_boundary_reaches_copies h self m lb d diffs h1 r name
    (test : Test R) bo fs :
  h !! self = Some (MeshObj m) →
  _boundaries m = Some lb → h !! lb = Some (Dict d) →
  translated h self diffs = Ok (h1, r) →
  mesh_facets_satisfying h1 self test bo = Ok fs →
  ∃ h2 mr,
    define_boundary h1 self name test bo = (h2, Ok ())
    ∧ r ≠ self ∧ get_mesh h2 r = Ok mr
    ∧ get_dict h2 (_boundaries mr) = Ok (Some (dict_set d name fs))
    ∧ get_mesh h2 self = Ok m
    ∧ get_dict h2 (_boundaries m) = Ok (Some (dict_set d name fs)).
Proof.
  intros Hself Hb Hlb Htr Hfs.
  destruct (translated_shares _ _ _ _ _ _ Hself Htr)
    as (Hext & Hfresh & mr & Hmr & Hbr & _).
  pose proof (Hext _ _ Hself) as Hself1.
  pose proof (Hext _ _ Hlb) as Hlb1.
  assert (lb < length h1) as Hlt by (by eapply lookup_lt_Some).
  assert (r ≠ self) as Hne.
  { intros ->. unfold fresh in Hfresh. congruence. }
  assert (lb ≠ r) as Hlr.
  { intros ->. apply get_mesh_lookup in Hmr. congruence. }
  assert (lb ≠ self) as Hls by (intros ->; congruence).
  exists (<[lb := Dict (dict_set d name fs)]> h1), mr.
  split_and!.
  - unfold MeshSelect.define_boundary.
    rewrite (get_mesh_Ok _ _ _ Hself1), Hb, Hfs.
    unfold get_dict. by rewrite Hlb1.
  - done.
  - apply get_mesh_Ok. rewrite list_lookup_insert_ne by done.
    by apply get_mesh_lookup.
  - rewrite Hbr, Hb. unfold get_dict.
    by rewrite list_lookup_insert_eq.
  - apply get_mesh_Ok. by rewrite list_lookup_insert_ne.
  - rewrite Hb. unfold get_dict. by rewrite list_lookup_insert_eq.
Qed.

(** [define_boundary] on a mesh without named boundaries gives the
    receiver a new dictionary before it calls the test.  When the
    selection returns, the dictionary holds the one name and the other
    objects are as they were; when it raises, [define_boundary] raises
    the same exception and the receiver is left with the empty
    dictionary in place of [None]. *)
Theorem define_boundary_first_name h self m p tv name (test : Test R) bo :
  h !! self = Some (MeshObj m) → _boundaries m = None →
  get_float h (doflocs m) = Ok p → get_int h (t m) = Ok tv →
  (∀ fs, mesh_facets_satisfying h self test bo = Ok fs →
     ∃ h' m', define_boundary h self name test bo = (h', Ok ())
       ∧ get_mesh h' self = Ok m'
       ∧ get_dict h' (_boundaries m') = Ok (Some [(name, fs)])
       ∧ ∀ l o, l ≠ self → h !! l = Some o → h' !! l = Some o)
  ∧ (∀ e, mesh_facets_satisfying h self test bo = Raise e →
       ∃ h' m', define_boundary h self name test bo = (h', Raise e)
         ∧ get_mesh h' self = Ok m'
         ∧ get_dict h' (_boundaries m') = Ok (Some [])).
Proof.
  intros Hself Hb Hp Ht.
  assert (self < length h) as Hlt by (by eapply lookup_lt_Some).
  set (m1 := {| cls := cls m; doflocs := doflocs m; t := t m;
                _boundaries := Some (length h);
                _subdomains := _subdomains m; elem := elem m;
                affine := affine m; validate := validate m;
                sort_t := sort_t m |}).
  set (h1 := <[self := MeshObj m1]> (h ++ [Dict []])).
  assert (h1 !! self = Some (MeshObj m1)) as Hself1.
  { unfold h1. apply list_lookup_insert_eq. rewrite length_app. lia. }
  assert (h1 !! length h = Some (Dict [])) as Hd1.
  { unfold h1. rewrite list_lookup_insert_ne by lia.
    by apply list_lookup_middle. }
  assert (∀ l o, l ≠ self → h !! l = Some o → h1 !! l = Some o) as Hothers.
  { intros l o Hl Ho. unfold h1. rewrite list_lookup_insert_ne by done.
    by apply lookup_app_l_Some. }
  assert (mesh_facets_satisfying h1 self test bo
          = mesh_facets_satisfying h self test bo) as Hsame.
  { unfold MeshSelect.mesh_facets_satisfying.
    rewrite (get_mesh_Ok _ _ _ Hself1), (get_mesh_Ok _ _ _ Hself), !bind_Ok.
    cbn [doflocs t elem m1]. rewrite Hp, Ht.
    assert (doflocs m ≠ self) as Hn1.
    { intros Heq. apply get_float_lookup in Hp. congruence. }
    assert (t m ≠ self) as Hn2.
    { intros Heq. unfold get_int in Ht. rewrite Heq, Hself in Ht. done. }
    rewrite (get_float_Ok h1 _ p)
      by (apply Hothers; [done|by apply get_float_lookup]).
    rewrite (get_int_Ok h1 _ tv); [done|].
    apply Hothers; [done|]. unfold get_int in Ht.
    destruct (h !! t m) as [[]|]; try done. by injection Ht as ->. }
  split.
  - intros fs Hfs.
    exists (<[length h := Dict (dict_set [] name fs)]> h1), m1.
    split_and!.
    + unfold MeshSelect.define_boundary.
      rewrite (get_mesh_Ok _ _ _ Hself), Hb. unfold alloc.
      cbv beta iota zeta. fold m1. fold h1. rewrite Hsame, Hfs.
      unfold get_dict. by rewrite Hd1.
    + apply get_mesh_Ok. by rewrite list_lookup_insert_ne by lia.
    + cbn [_boundaries m1]. unfold get_dict.
      rewrite list_lookup_insert_eq; [done|].
      by eapply lookup_lt_Some.
    + intros l o Hl Ho. rewrite list_lookup_insert_ne.
      * by apply Hothers.
      * apply lookup_lt_Some in Ho. lia.
  - intros e He. exists h1, m1. split_and!.
    + unfold MeshSelect.define_boundary.
      rewrite (get_mesh_Ok _ _ _ Hself), Hb. unfold alloc.
      cbv beta iota zeta. fold m1. fold h1. by rewrite Hsame, He.
    + by apply get_mesh_Ok.
    + cbn [_boundaries m1]. unfold get_dict. by rewrite Hd1.
Qed.
End Heap.

(** *** On the square of side 2 in two triangles *)

Import MeshSample SelectFacts.
Import PrimFloat.

(** The square with the named boundary [left] (object 3), and the same
    arrays in a mesh without named boundaries (object 4). *)
Abbreviation fheap := (list (@obj float SampleCls)).

Definition naming_heap : fheap :=
  [ FloatArray square_p;
    IntArray tri2;
    Dict [("left"%string, [1])];
    MeshObj (mesh_at MeshTri2 0 1 (Some 2));
    MeshObj (mesh_at MeshTri2 0 1 None) ].

Definition s_facets_satisfying :=
  MeshSelect.mesh_facets_satisfying (R:=float) (Cls:=SampleCls)
    PrimFloat.add PrimFloat.div float_of_nat (λ _, tri_refdom).
Definition s_elements_satisfying :=
  MeshSelect.mesh_elements_satisfying (R:=float) (Cls:=SampleCls)
    PrimFloat.add PrimFloat.div float_of_nat.
Definition s_with_boundaries :=
  MeshSelect.with_boundaries (R:=float) (Cls:=SampleCls) 0%float
    PrimFloat.add PrimFloat.div float_of_nat no_dofs (λ _, tri_refdom).
Definition s_with_subdomains :=
  MeshSelect.with_subdomains (R:=float) (Cls:=SampleCls) 0%float
    PrimFloat.add PrimFloat.div float_of_nat no_dofs.
Definition s_define_boundary :=
  MeshSelect.define_boundary (R:=float) (Cls:=SampleCls)
    PrimFloat.add PrimFloat.div float_of_nat
    (λ _, tri_refdom).

Definition f_translated :=
  translated (R:=float) (Cls:=SampleCls) 0%float PrimFloat.add no_dofs.

(** [lambda x: x[1] < 1]: the points below the line at height 1. *)
Definition lower_half (x : matrix float) : result (list bool) :=
  row ← getitem x 1;
  Ok ((λ v : float, PrimFloat.ltb v 1%float) <$> (row : list float)).

(** A test that raises. *)
Definition failing (x : matrix float) : result (list bool) :=
  Raise (ValueError "test").

Lemma with_boundaries_names_witness :
  ∃ h' r m' ld d,
    s_with_boundaries naming_heap 3 [("bottom"%string, on_bottom)]
    = Ok (h', r)
    ∧ extends naming_heap h' ∧ fresh naming_heap r ∧ fresh naming_heap ld
    ∧ get_mesh h' r = Ok m'
    ∧ _boundaries m' = Some ld ∧ h' !! ld = Some (Dict d)
    ∧ dict_get d "bottom"%string = Ok [0]
    ∧ dict_get d "left"%string = Ok [1].
Proof.
  destruct (with_boundaries_names 0%float PrimFloat.add PrimFloat.div
              float_of_nat no_dofs
              (λ _, tri_refdom) naming_heap 3 _ square_p tri2
              (Some [("left"%string, [1])])
              [("bottom"%string, on_bottom)] eq_refl eq_refl eq_refl)
    as (h' & r & m' & ld & d & Hrun & Hext & Hr & Hld & Hm & _ & _ & Hb
        & Hd & _ & Hnew & Hold).
  - cbn. lia.
  - reflexivity.
  - apply NoDup_singleton.
  - intros name test [= -> ->]%list_elem_of_singleton.
    eexists. vm_compute. reflexivity.
  - exists h', r, m', ld, d. split_and!; try done.
    + destruct (Hnew "bottom"%string on_bottom) as (fs & bf & Hget & Hfs & _);
        [by left|].
      vm_compute in Hfs. injection Hfs as <-. exact Hget.
    + rewrite Hold; [reflexivity|]. cbn. by intros [= ]%list_elem_of_singleton.
Defined.

Lemma with_subdomains_names_witness :
  ∃ h' r m' ld d,
    s_with_subdomains naming_heap 3 [("lower"%string, lower_half)]
    = Ok (h', r)
    ∧ extends naming_heap h' ∧ fresh naming_heap r ∧ fresh naming_heap ld
    ∧ get_mesh h' r = Ok m'
    ∧ _boundaries m' = Some 2
    ∧ _subdomains m' = Some ld ∧ h' !! ld = Some (Dict d)
    ∧ dict_get d "lower"%string = Ok [0]
    ∧ s_elements_satisfying naming_heap 3 lower_half = Ok [0].
Proof.
  destruct (with_subdomains_names 0%float PrimFloat.add PrimFloat.div
              float_of_nat no_dofs
              naming_heap 3 _ square_p tri2 None
              [("lower"%string, lower_half)] eq_refl eq_refl eq_refl)
    as (h' & r & m' & ld & d & Hrun & Hext & Hr & Hld & Hm & _ & Hb & Hs
        & Hd & _ & Hnew & _).
  - cbn. lia.
  - reflexivity.
  - apply NoDup_singleton.
  - intros name test [= -> ->]%list_elem_of_singleton.
    eexists. vm_compute. reflexivity.
  - exists h', r, m', ld, d.
    destruct (Hnew "lower"%string lower_half) as (s & Hget & Hsel);
      [by left|].
    assert (s_elements_satisfying naming_heap 3 lower_half = Ok [0]) as Hval
      by (vm_compute; reflexivity).
    unfold s_elements_satisfying in Hval. rewrite Hval in Hsel.
    injection Hsel as <-. by split_and!.
Defined.

Lemma define_boundary_reaches_copies_witness :
  ∃ h1 r h2 mr,
    f_translated naming_heap 3 [1; 1]%float = Ok (h1, r)
    ∧ s_define_boundary h1 3 "bottom" on_bottom true = (h2, Ok ())
    ∧ r ≠ 3 ∧ get_mesh h2 r = Ok mr
    ∧ get_dict h2 (_boundaries mr)
      = Ok (Some [("left"%string, [1]); ("bottom"%string, [0])]).
Proof.
  eassert (f_translated naming_heap 3 [1; 1]%float = Ok (_, _)) as Htr
    by (vm_compute; reflexivity).
  match type of Htr with
  | _ = Ok (?h1, _) =>
      eassert (s_facets_satisfying h1 3 on_bottom true = Ok _) as Hfs
        by (vm_compute; reflexivity)
  end.
  destruct (define_boundary_reaches_copies 0%float PrimFloat.add PrimFloat.div
              float_of_nat no_dofs
              (λ _, tri_refdom) naming_heap 3 _ 2 _ [1; 1]%float _ _
              "bottom"%string on_bottom true _ eq_refl eq_refl eq_refl
              Htr Hfs)
    as (h2 & mr & Hdef & Hne & Hmr & Hd & _).
  eexists _, _, h2, mr. split; [exact Htr|]. by split_and!.
Defined.

Lemma define_boundary_first_name_witness :
  (∃ h' m', s_define_boundary naming_heap 4 "bottom" on_bottom true
            = (h', Ok ())
     ∧ get_mesh h' 4 = Ok m'
     ∧ get_dict h' (_boundaries m') = Ok (Some [("bottom"%string, [0])]))
  ∧ (∃ h' m', s_define_boundary naming_heap 4 "bottom" failing true
              = (h', Raise (ValueError "test"))
       ∧ get_mesh h' 4 = Ok m'
       ∧ get_dict h' (_boundaries m') = Ok (Some [])).
Proof.
  split.
  - destruct (define_boundary_first_name PrimFloat.add PrimFloat.div
                float_of_nat
                (λ _, tri_refdom) naming_heap 4 _ square_p tri2
                "bottom"%string on_bottom true eq_refl eq_refl eq_refl
                eq_refl) as [Hok _].
    destruct (Hok [0]) as (h' & m' & Hdef & Hm & Hd & _);
      [vm_compute; reflexivity|].
    by exists h', m'.
  - destruct (define_boundary_first_name PrimFloat.add PrimFloat.div
                float_of_nat
                (λ _, tri_refdom) naming_heap 4 _ square_p tri2
                "bottom"%string failing true eq_refl eq_refl eq_refl
                eq_refl) as [_ Hraise].
    apply Hraise. vm_compute. reflexivity.
Defined.
End NamingFacts.

Import Py Np NpFacts.

(** ** Meshes as dictionaries *)

Module MeshDictFacts.
Import MeshDict.

Lemma convert_sets_id (d : named) : convert_sets d = d.
Proof.
  unfold convert_sets. rewrite <-(list_fmap_id d) at 2.
  apply list_fmap_ext. by intros i [k v] _.
Qed.

Lemma convert_option_id (b : option named) : convert_sets <$> b = b.
Proof. destruct b as [d|]; [|done]. cbn. by rewrite convert_sets_id. Qed.

(** The array of the nested list of an array is the array. *)
Lemma array_T_transpose {A} (m : matrix A) :
  rect m → shape1 m ≠ 0 → array_T (transpose m) = Ok m.
Proof.
  intros Hrect Hn. unfold array_T.
  rewrite decide_True by (by apply rect_transpose).
  by rewrite transpose_involutive.
Qed.

Section Dict.
Context {R M : Type}.
Context (cls : matrix R → matrix Z → option named → option named
               → result M).

(** Reading back what [to_dict] wrote calls the constructor with the
    arrays and the named sets of the mesh: for node and connectivity
    arrays that are rectangular and have a column,
    [from_dict(to_dict())] is [cls(doflocs=p, t=t, _boundaries=b,
    _subdomains=s)], and the dictionary is left with the keys
    [doflocs], [t], [_boundaries] and [_subdomains]. *)
Theorem from_dict_to_dict (mp : matrix R) (mt : matrix Z)
    (b s : option named) :
  rect mp → shape1 mp ≠ 0 → rect mt → shape1 mt ≠ 0 →
  from_dict cls (to_dict mp mt b s)
  = ({| p := None; t := Some mt; boundaries := None; subdomains := None;
        doflocs := Some mp; _boundaries := Some b;
        _subdomains := Some s |},
     cls mp mt b s).
Proof.
  intros Hp Hnp Ht Hnt. unfold from_dict, to_dict.
  cbn [p t boundaries subdomains].
  rewrite (array_T_transpose mp Hp Hnp), (array_T_transpose mt Ht Hnt).
  rewrite !convert_option_id.
  destruct b as [b|], s as [s|]; cbn; by rewrite ?convert_sets_id.
Qed.

(** [from_dict] raises [ValueError] and leaves the dictionary alone
    when the key [p] or the key [t] is missing.  With both keys and
    rectangular lists, it raises [KeyError] when the key [subdomains]
    or the key [boundaries] is missing, and by then it has replaced the
    key [p] by the key [doflocs]. *)
Theorem from_dict_missing_key (data : Data) :
  (p data = None ∨ t data = None →
   from_dict cls data
   = (data,
      Raise (ValueError "Dictionary must contain keys 'p' and 't'.")))
  ∧ (∀ pl tl, p data = Some pl → t data = Some tl → rect pl → rect tl →
       subdomains data = None ∨ boundaries data = None →
       ∃ data', from_dict cls data = (data', Raise KeyError)
                ∧ p data' = None
                ∧ doflocs data' = Some (transpose pl)
                ∧ t data' = Some (transpose tl)).
Proof.
  split.
  - intros [H|H]; unfold from_dict; rewrite H; [done|].
    by destruct (p data).
  - intros pl tl Hp Ht Hrp Hrt Hmiss. unfold from_dict, array_T.
    rewrite Hp, Ht, !decide_True by done.
    destruct (subdomains data) as [[s|]|] eqn:Hs;
      destruct (boundaries data) as [[b|]|] eqn:Hb;
      try (by destruct Hmiss); by eexists.
Qed.
End Dict.

(** *** On a triangle *)

Definition triangle_data : @Data Z :=
  {| p := Some [[0; 0]; [1; 0]; [0; 1]]%Z; t := Some [[0; 1; 2]]%Z;
     boundaries := None; subdomains := Some None;
     doflocs := None; _boundaries := None; _subdomains := None |}.

Definition triangle_cls (mp : matrix Z) (mt : matrix Z)
    (b s : option named) : result (matrix Z * matrix Z) :=
  Ok (mp, mt).

Lemma from_dict_to_dict_witness :
  from_dict triangle_cls
    (to_dict [[0; 1; 0]; [0; 0; 1]]%Z [[0]; [1]; [2]]%Z
       (Some [("left"%string, [1])]) None)
  = ({| p := None; t := Some [[0]; [1]; [2]]%Z; boundaries := None;
        subdomains := None; doflocs := Some [[0; 1; 0]; [0; 0; 1]]%Z;
        _boundaries := Some (Some [("left"%string, [1])]);
        _subdomains := Some None |},
     Ok ([[0; 1; 0]; [0; 0; 1]]%Z, [[0]; [1]; [2]]%Z)).
Proof.
  apply (from_dict_to_dict triangle_cls [[0; 1; 0]; [0; 0; 1]]%Z
           [[0]; [1]; [2]]%Z (Some [("left"%string, [1])]) None).
  - by repeat constructor.
  - done.
  - by repeat constructor.
  - done.
Defined.

Lemma from_dict_missing_key_witness :
  ∃ data', from_dict triangle_cls triangle_data = (data', Raise KeyError)
           ∧ p data' = None
           ∧ doflocs data' = Some [[0; 1; 0]; [0; 0; 1]]%Z
           ∧ t data' = Some [[0]; [1]; [2]]%Z.
Proof.
  destruct (from_dict_missing_key triangle_cls triangle_data) as [_ H].
  apply (H [[0; 0]; [1; 0]; [0; 1]]%Z [[0; 1; 2]]%Z eq_refl eq_refl).
  - by repeat constructor.
  - by repeat constructor.
  - by right.
Defined.
End MeshDictFacts.

Import Py Np.

(** ** The nodal bases of the elements *)

Module ElementFacts.
Import PrimFloat Elements.

(** The value that basis function [i] is to have at the location of the
    degree of freedom [j]. *)
Definition kronecker (i j : nat) : PrimFloat.float :=
  if decide (i = j) then 1.0%float else 0.0%float.

(** A basis is nodal for the locations [doflocs] when basis function
    [i], evaluated at location [j], returns and is equal ([==] on
    binary64) to 1 for [i = j] and to 0 otherwise. *)
Definition nodal
    (lbasis : list PrimFloat.float → Z
              → result (PrimFloat.float * list PrimFloat.float))
    (doflocs : list (list PrimFloat.float)) : Prop :=
  ∀ i j X, i < length doflocs → doflocs !! j = Some X →
    ∃ phi dphi, lbasis X (Z.of_nat i) = Ok (phi, dphi)
                ∧ PrimFloat.eqb phi (kronecker i j) = true.

(** All pairs of a basis function and a location, by evaluation. *)
Ltac all_pairs Hi Hj i j :=
  repeat (destruct j as [|j];
          [cbn in Hj; injection Hj as <-;
           repeat (destruct i as [|i];
                   [eexists _, _; split; [reflexivity|reflexivity]|]);
           cbn in Hi; lia|]);
  cbn in Hj; by rewrite ?lookup_nil in Hj.

(** The bilinear quadrilateral and the quadratic triangle and
    tetrahedron are nodal at their [doflocs], exactly in binary64:
    [lbasis(doflocs[j], i)] is 1.0 for [i = j] and 0.0 otherwise. *)
Theorem lagrange_basis_nodal (_index_error : result unit) :
  nodal (ElementQuad1.lbasis _index_error) ElementQuad1.doflocs
  ∧ nodal (ElementTriP2.lbasis _index_error) ElementTriP2.doflocs
  ∧ nodal (ElementTetP2.lbasis _index_error) ElementTetP2.doflocs.
Proof.
  split_and!; intros i j X Hi Hj.
  - unfold ElementQuad1.doflocs in *. all_pairs Hi Hj i j.
  - unfold ElementTriP2.doflocs in *. all_pairs Hi Hj i j.
  - unfold ElementTetP2.doflocs in *. all_pairs Hi Hj i j.
Qed.

(** The Crouzeix-Raviart elements are nodal at their [doflocs], the
    midpoints of the edges of the triangle and the points
    [(1/3, 1/3, 0)], ... of the tetrahedron, exactly in binary64 (the
    product [3.0 * (1 / 3)] rounds to 1.0). *)
Theorem crouzeix_raviart_basis_nodal (_index_error : result unit) :
  nodal (ElementTriCR.lbasis _index_error) ElementTriCR.doflocs
  ∧ nodal (ElementTetCR.lbasis _index_error) ElementTetCR.doflocs.
Proof.
  split_and!; intros i j X Hi Hj.
  - unfold ElementTriCR.doflocs in *. all_pairs Hi Hj i j.
  - unfold ElementTetCR.doflocs in *. all_pairs Hi Hj i j.
Qed.

Lemma lagrange_basis_nodal_witness :
  ∃ phi dphi,
    ElementTriP2.lbasis (Ok ()) [0.5; 0.5]%float 4 = Ok (phi, dphi)
    ∧ PrimFloat.eqb phi 1.0%float = true.
Proof.
  destruct (lagrange_basis_nodal (Ok ())) as (_ & Htri & _).
  apply (Htri 4 4 [0.5; 0.5]%float); [cbn; lia|reflexivity].
Defined.

Lemma crouzeix_raviart_basis_nodal_witness :
  ∃ phi dphi,
    ElementTetCR.lbasis (Ok ()) [1 / 3; 0.0; 1 / 3]%float 0
    = Ok (phi, dphi)
    ∧ PrimFloat.eqb phi 0.0%float = true.
Proof.
  destruct (crouzeix_raviart_basis_nodal (Ok ())) as (_ & Htet).
  apply (Htet 0 1 [1 / 3; 0.0; 1 / 3]%float); [cbn; lia|reflexivity].
Defined.
End ElementFacts.
